(** * go-bru: scanner, decoder and encoder of Bru files

    A shallow embedding of the Go package [bru]: the byte-driven scanner
    (the state machine of [checkValid]), the decoder ([Read]) that drives a
    second scanner pass and slices blocks out of the buffer, the block model
    and the encoder ([Write]).

    Conventions of the embedding:
    - a Go [byte] is an [ascii], a [[]byte] is a [list ascii], a Go [string]
      is a [string]; the conversions [string(b)] and [[]byte(s)] are
      [string_of_list_ascii] and [list_ascii_of_string];
    - a Go [int] offset is a [Z]; the [int64] counter [scanner.bytes] wraps;
    - the function value [scanner.step] is an enumerated state dispatched by
      [step];
    - a run-time panic (index or slice out of range, negative repeat count)
      is the outcome [Panic]; the unbounded [for] loops of the decoder take
      fuel and give [OutOfFuel] when it is exhausted;
    - a Go [error] result is data: [option SyntaxError] or [option error]. *)

From Stdlib Require Import ZArith List Ascii String Bool Lia.
Import ListNotations.

Local Open Scope string_scope.
Local Open Scope list_scope.
Local Open Scope Z_scope.

(** ** Outcomes *)

Inductive outcome (A : Type) : Type :=
| Done (a : A)
| Panic
| OutOfFuel.

Arguments Done {A} a.
Arguments Panic {A}.
Arguments OutOfFuel {A}.

Definition bind {A B : Type} (m : outcome A) (k : A -> outcome B) : outcome B :=
  match m with
  | Done a => k a
  | Panic => Panic
  | OutOfFuel => OutOfFuel
  end.

Notation "x <- m ;; k" := (bind m (fun x => k))
  (at level 61, m at next level, right associativity).
Notation "' p <- m ;; k" := (bind m (fun x => let p := x in k))
  (at level 61, p pattern, m at next level, right associativity).

(** ** Bytes and strings *)

Abbreviation byte := ascii.

Definition code (c : byte) : Z := Z.of_N (N_of_ascii c).

Definition nl : string := String "010"%char EmptyString.

Definition bytes_of (s : string) : list byte := list_ascii_of_string s.

(** [data[a:b]] on a slice whose capacity is its length. *)
Definition slice (data : list byte) (a b : Z) : outcome (list byte) :=
  if (0 <=? a) && (a <=? b) && (b <=? Z.of_nat (List.length data))
  then Done (firstn (Z.to_nat (b - a)) (skipn (Z.to_nat a) data))
  else Panic.

(** [data[i]]. *)
Definition index (data : list byte) (i : Z) : outcome byte :=
  if (0 <=? i)
  then match nth_error data (Z.to_nat i) with
       | Some c => Done c
       | None => Panic
       end
  else Panic.

Definition int64 (z : Z) : Z := (z + 2 ^ 63) mod 2 ^ 64 - 2 ^ 63.

(** ** Scanner *)

Module Scanner.

Record SyntaxError : Type := mkSyntaxError {
  msg : string;
  Offset : Z
}.

Inductive opcode : Type :=
| scanContinue
| scanSkipSpace
| scanBeginTag
| scanEndTag
| scanBeginArray
| scanBeginText
| scanBeginDictionary
| scanEndBlock
| scanEndArray
| scanArrayValue
| scanDictionaryKey
| scanDictionaryValue
| scanTextLine
| scanEnd
| scanError.

Definition opcode_eq_dec (a b : opcode) : {a = b} + {a <> b}.
Proof. decide equality. Defined.

Definition opcode_eqb (a b : opcode) : bool :=
  if opcode_eq_dec a b then true else false.

Inductive parse : Type :=
| parseArrayValue
| parseDictionaryKey
| parseDictionaryValue
| parseTextValue.

Inductive blockType : Type :=
| dictionaryBlock
| textBlock
| arrayBlock.

Definition tags : list string :=
  ["meta"; "vars:secret"; "body"; "tests"; "get"; "post"; "put"; "delete";
   "options"; "trace"; "connect"; "head"; "query"; "headers"; "body:text"; "body:xml";
   "body:form-urlencoded"; "body:multipart-form"; "body:graphql"; "body:graphql:vars";
   "script:pre-request";
   "script:post-response"; "body:test"; "body:json"; "assert"; "vars"].

Definition blockTypes : list blockType :=
  [dictionaryBlock; arrayBlock; textBlock; textBlock; dictionaryBlock; dictionaryBlock;
   dictionaryBlock; dictionaryBlock;
   dictionaryBlock; dictionaryBlock; dictionaryBlock; dictionaryBlock; dictionaryBlock;
   dictionaryBlock; textBlock; textBlock;
   dictionaryBlock; dictionaryBlock; textBlock; textBlock; textBlock;
   textBlock; textBlock; textBlock; dictionaryBlock; dictionaryBlock].

Definition maxNestingDepth : Z := 1.

(** The transition functions a scanner can hold in its [step] field. *)
Inductive state : Type :=
| StBeginBlockLine
| StReadingTag
| StWaitingForOpenBlock
| StOpenBlock
| StEndValue
| StNewDictionaryPair
| StNewArrayValue
| StNewTextLine
| StInText
| StInKey
| StBeginDictionaryValue
| StInValue
| StInStringEsc
| StInStringEscU
| StInStringEscU1
| StInStringEscU12
| StInStringEscU123
| StError.

Record scanner : Type := mkScanner {
  step_fn : state;
  endBlock : bool;
  parseState : list parse;
  err : option SyntaxError;
  bytes : Z;
  tagName : list byte
}.

Definition set_step (s : scanner) (st : state) : scanner :=
  mkScanner st (endBlock s) (parseState s) (err s) (bytes s) (tagName s).
Definition set_endBlock (s : scanner) (b : bool) : scanner :=
  mkScanner (step_fn s) b (parseState s) (err s) (bytes s) (tagName s).
Definition set_parseState (s : scanner) (ps : list parse) : scanner :=
  mkScanner (step_fn s) (endBlock s) ps (err s) (bytes s) (tagName s).
Definition set_err (s : scanner) (e : option SyntaxError) : scanner :=
  mkScanner (step_fn s) (endBlock s) (parseState s) e (bytes s) (tagName s).
Definition set_bytes (s : scanner) (n : Z) : scanner :=
  mkScanner (step_fn s) (endBlock s) (parseState s) (err s) n (tagName s).
Definition set_tagName (s : scanner) (t : list byte) : scanner :=
  mkScanner (step_fn s) (endBlock s) (parseState s) (err s) (bytes s) t.

(** The zero value [scanner{}]; its [step] is nil until [reset]. *)
Definition zero : scanner := mkScanner StError false [] None 0 [].

Definition reset (s : scanner) : scanner :=
  mkScanner StBeginBlockLine false [] None (bytes s) [].

Definition newScanner : scanner := reset (set_bytes zero 0).

(** *** Error messages *)

Definition hexdigit (n : Z) : byte :=
  ascii_of_N (Z.to_N (if n <? 10 then 48 + n else 87 + n)).

(** [strconv.Quote(string(c))] without its enclosing quotes, for one byte:
    the byte is converted as a rune, so bytes above 0x7f are code points. *)
Definition quoteBody (c : byte) : string :=
  let n := code c in
  if (n =? 34) || (n =? 92) then String "\"%char (String c EmptyString)
  else if ((32 <=? n) && (n <=? 126)) then String c EmptyString
  else if ((161 <=? n) && negb (n =? 173)) then
    String (ascii_of_N (Z.to_N (192 + n / 64)))
      (String (ascii_of_N (Z.to_N (128 + n mod 64))) EmptyString)
  else if n =? 7 then "\a"
  else if n =? 8 then "\b"
  else if n =? 12 then "\f"
  else if n =? 10 then "\n"
  else if n =? 13 then "\r"
  else if n =? 9 then "\t"
  else if n =? 11 then "\v"
  else if (n <? 32) || (n =? 127) then
    String "\"%char (String "x"%char
      (String (hexdigit (n / 16)) (String (hexdigit (n mod 16)) EmptyString)))
  else
    ("\u00" ++ String (hexdigit (n / 16)) (String (hexdigit (n mod 16)) EmptyString))%string.

Definition quoteChar (c : byte) : string :=
  if (c =? "'")%char then "'\''"
  else if (c =? "034")%char then String "'"%char (String "034"%char "'")
  else ("'" ++ quoteBody c ++ "'")%string.

Definition error (s : scanner) (c : byte) (context : string) : scanner * opcode :=
  (mkScanner StError (endBlock s) (parseState s)
     (Some (mkSyntaxError ("invalid character " ++ quoteChar c ++ " " ++ context) (bytes s)))
     (bytes s) (tagName s),
   scanError).

(** *** Parse stack *)

Definition pushParseState (s : scanner) (c : byte) (newParseState : parse)
    (successState : opcode) : scanner * opcode :=
  let s := set_parseState s (parseState s ++ [newParseState]) in
  if Z.of_nat (List.length (parseState s)) <=? maxNestingDepth
  then (s, successState)
  else error s c "exceeded max depth".

(** [s.parseState[0:n]] with [n = len(s.parseState) - 1] panics on an empty stack. *)
Definition popParseState (s : scanner) : outcome scanner :=
  match parseState s with
  | [] => Panic
  | _ :: _ =>
      Done (mkScanner StBeginBlockLine true (removelast (parseState s))
              (err s) (bytes s) (tagName s))
  end.

(** [s.parseState[n-1]] *)
Definition top (s : scanner) : outcome parse :=
  match parseState s with
  | [] => Panic
  | p :: ps => Done (last ps p)
  end.

(** [s.parseState[n-1] = p] *)
Definition set_top (s : scanner) (p : parse) : scanner :=
  set_parseState s (removelast (parseState s) ++ [p]).

Definition isSpace (c : byte) : bool :=
  (code c <=? 32) &&
  ((c =? " ")%char || (c =? "009")%char || (c =? "013")%char || (c =? "010")%char).

(** *** Transition functions *)

Fixpoint checkTag_from (s : scanner) (c : byte) (name : string) (i : nat)
    (ts : list string) : outcome (scanner * opcode) :=
  match ts with
  | [] => Done (error s c ("invalid tag name: " ++ name))
  | tag :: ts' =>
      if (name =? tag)%string then
        let s := set_step s StWaitingForOpenBlock in
        match nth_error blockTypes i with
        | None => Panic
        | Some dictionaryBlock => Done (pushParseState s c parseDictionaryKey scanEndTag)
        | Some arrayBlock => Done (pushParseState s c parseArrayValue scanEndTag)
        | Some textBlock => Done (pushParseState s c parseTextValue scanEndTag)
        end
      else checkTag_from s c name (S i) ts'
  end.

Definition checkTag (s : scanner) (c : byte) : outcome (scanner * opcode) :=
  let name := string_of_list_ascii (tagName s) in
  let s := set_tagName s [] in
  checkTag_from s c name 0%nat tags.

Definition stateReadingTag (s : scanner) (c : byte) : outcome (scanner * opcode) :=
  if isSpace c then checkTag s c
  else Done (set_tagName s (tagName s ++ [c]), scanContinue).

Definition stateWaitingForOpenBlock (s : scanner) (c : byte) : outcome (scanner * opcode) :=
  if isSpace c then Done (s, scanSkipSpace)
  else
    ps <- top s ;;
    match ps with
    | parseDictionaryKey =>
        if (c =? "{")%char then Done (set_step s StOpenBlock, scanBeginDictionary)
        else Done (error s c "unexpected char after block name")
    | parseTextValue =>
        if (c =? "{")%char then Done (set_step s StOpenBlock, scanBeginText)
        else Done (error s c "unexpected char after block name")
    | parseArrayValue =>
        if (c =? "[")%char then Done (set_step s StOpenBlock, scanBeginArray)
        else Done (error s c "unexpected char after block name")
    | parseDictionaryValue => Done (error s c "unexpected char after block name")
    end.

Definition stateBeginBlockLine (s : scanner) (c : byte) : outcome (scanner * opcode) :=
  if isSpace c then Done (s, scanSkipSpace)
  else if (96 <? code c) && (code c <? 123) then
    Done (mkScanner StReadingTag false (parseState s) (err s) (bytes s) [c], scanBeginTag)
  else Done (s, scanEnd).

Definition stateEndValue (s : scanner) (c : byte) : outcome (scanner * opcode) :=
  ps <- top s ;;
  match ps with
  | parseTextValue =>
      if (c =? "010")%char then Done (set_step s StNewTextLine, scanTextLine)
      else if (c =? "}")%char then
        s' <- popParseState s ;; Done (s', scanEndBlock)
      else Done (error s c "after text line")
  | parseDictionaryKey =>
      if isSpace c then Done (set_step s StEndValue, scanSkipSpace)
      else if (c =? ":")%char then
        Done (set_step (set_top s parseDictionaryValue) StBeginDictionaryValue,
              scanDictionaryValue)
      else Done (error s c "after dictionary key ")
  | parseDictionaryValue =>
      if (c =? ",")%char || (c =? "010")%char then
        Done (set_step (set_top s parseDictionaryKey) StNewDictionaryPair,
              scanDictionaryKey)
      else if (c =? "}")%char then
        s' <- popParseState s ;; Done (s', scanEndBlock)
      else Done (error s c "after dictionary key:value pair")
  | parseArrayValue =>
      if isSpace c then Done (set_step s StEndValue, scanSkipSpace)
      else if (c =? ",")%char then Done (set_step s StNewArrayValue, scanArrayValue)
      else if (c =? "]")%char then
        s' <- popParseState s ;; Done (s', scanEndArray)
      else Done (error s c "after array element")
  end.

Definition stateInKey (s : scanner) (c : byte) : outcome (scanner * opcode) :=
  if (c =? ":")%char then stateEndValue s c
  else if (c =? "\")%char then Done (set_step s StInStringEsc, scanContinue)
  else if code c <? 32 then Done (error s c "in key")
  else Done (s, scanContinue).

Definition stateInValue (s : scanner) (c : byte) : outcome (scanner * opcode) :=
  if (c =? "\")%char then Done (set_step s StInStringEsc, scanContinue)
  else if (c =? "010")%char then stateEndValue s c
  else if code c <? 32 then Done (error s c "in value literal")
  else Done (s, scanContinue).

Definition stateNewDictionaryPair (s : scanner) (c : byte) : outcome (scanner * opcode) :=
  if isSpace c then Done (s, scanSkipSpace)
  else if (c =? "}")%char then
    s' <- popParseState s ;; Done (s', scanEndBlock)
  else stateInKey (set_step s StInKey) c.

Definition stateNewArrayValue (s : scanner) (c : byte) : outcome (scanner * opcode) :=
  if isSpace c then Done (s, scanSkipSpace)
  else if (c =? "]")%char then
    s' <- popParseState s ;; Done (s', scanEndBlock)
  else stateInValue (set_step s StInValue) c.

Definition stateNewTextLine (s : scanner) (c : byte) : outcome (scanner * opcode) :=
  if (c =? "}")%char then
    s' <- popParseState s ;; Done (s', scanEndBlock)
  else Done (set_step s StInText, scanTextLine).

Definition stateInText (s : scanner) (c : byte) : outcome (scanner * opcode) :=
  if (c =? "010")%char then stateEndValue s c
  else Done (s, scanContinue).

Definition stateOpenBlock (s : scanner) (c : byte) : outcome (scanner * opcode) :=
  ps <- top s ;;
  match ps with
  | parseDictionaryKey =>
      if isSpace c then Done (s, scanSkipSpace) else stateNewDictionaryPair s c
  | parseArrayValue =>
      if isSpace c then Done (s, scanSkipSpace) else stateNewArrayValue s c
  | parseTextValue => Done (set_step s StNewTextLine, scanSkipSpace)
  | parseDictionaryValue => Done (error s c "no state for block")
  end.

Definition stateBeginDictionaryValue (s : scanner) (c : byte) : outcome (scanner * opcode) :=
  if (c =? "010")%char then stateEndValue s c
  else if isSpace c then Done (s, scanSkipSpace)
  else stateInValue (set_step s StInValue) c.

Definition stateInStringEsc (s : scanner) (c : byte) : outcome (scanner * opcode) :=
  if (c =? "b")%char || (c =? "f")%char || (c =? "n")%char || (c =? "r")%char
     || (c =? "t")%char || (c =? "\")%char || (c =? "/")%char || (c =? "034")%char
  then Done (set_step s StInValue, scanContinue)
  else if (c =? "u")%char then Done (set_step s StInStringEscU, scanContinue)
  else Done (error s c "in string escape code").

Definition isHex (c : byte) : bool :=
  ((48 <=? code c) && (code c <=? 57))
  || ((97 <=? code c) && (code c <=? 102))
  || ((65 <=? code c) && (code c <=? 70)).

Definition stateInStringEscUn (next : state) (s : scanner) (c : byte)
    : outcome (scanner * opcode) :=
  if isHex c then Done (set_step s next, scanContinue)
  else Done (error s c "in \u hexadecimal character escape").

Definition stateInStringEscU := stateInStringEscUn StInStringEscU1.
Definition stateInStringEscU1 := stateInStringEscUn StInStringEscU12.
Definition stateInStringEscU12 := stateInStringEscUn StInStringEscU123.
Definition stateInStringEscU123 := stateInStringEscUn StInValue.

Definition stateError (s : scanner) (c : byte) : outcome (scanner * opcode) :=
  Done (s, scanError).

(** [s.step(s, c)] *)
Definition step (s : scanner) (c : byte) : outcome (scanner * opcode) :=
  match step_fn s with
  | StBeginBlockLine => stateBeginBlockLine s c
  | StReadingTag => stateReadingTag s c
  | StWaitingForOpenBlock => stateWaitingForOpenBlock s c
  | StOpenBlock => stateOpenBlock s c
  | StEndValue => stateEndValue s c
  | StNewDictionaryPair => stateNewDictionaryPair s c
  | StNewArrayValue => stateNewArrayValue s c
  | StNewTextLine => stateNewTextLine s c
  | StInText => stateInText s c
  | StInKey => stateInKey s c
  | StBeginDictionaryValue => stateBeginDictionaryValue s c
  | StInValue => stateInValue s c
  | StInStringEsc => stateInStringEsc s c
  | StInStringEscU => stateInStringEscU s c
  | StInStringEscU1 => stateInStringEscU1 s c
  | StInStringEscU12 => stateInStringEscU12 s c
  | StInStringEscU123 => stateInStringEscU123 s c
  | StError => stateError s c
  end.

Definition eof (s : scanner) : outcome (scanner * opcode) :=
  match err s with
  | Some _ => Done (s, scanError)
  | None =>
      if endBlock s then Done (s, scanEnd)
      else
        '(s, _) <- step s " "%char ;;
        if endBlock s then Done (s, scanEnd)
        else
          match err s with
          | None =>
              Done (set_err s (Some (mkSyntaxError "unexpected end of Bru input" (bytes s))),
                    scanError)
          | Some _ => Done (s, scanError)
          end
  end.

(** The loop of [checkValid] over the bytes still to read. *)
Fixpoint checkValid_loop (data : list byte) (scan : scanner)
    : outcome (scanner * option SyntaxError) :=
  match data with
  | [] =>
      '(scan, op) <- eof scan ;;
      if opcode_eqb op scanError then Done (scan, err scan) else Done (scan, None)
  | c :: rest =>
      let scan := set_bytes scan (int64 (bytes scan + 1)) in
      '(scan, op) <- step scan c ;;
      if opcode_eqb op scanError then Done (scan, err scan)
      else checkValid_loop rest scan
  end.

Definition checkValid (data : list byte) (scan : scanner)
    : outcome (scanner * option SyntaxError) :=
  checkValid_loop data (reset scan).

Definition Valid (data : list byte) : outcome bool :=
  '(_, e) <- checkValid data newScanner ;;
  Done (match e with None => true | Some _ => false end).

End Scanner.

(** ** Block model *)

Module Blocks.

Record DictionaryElement : Type := mkDictionaryElement {
  Key : string;
  Value : string
}.

(** A value of the interface [ContentBlock]: a pointer to one of the three
    block structs, a value of some other type that implements the interface,
    or the nil interface value. *)
Inductive ContentBlock : Type :=
| DictionaryBlock (Name Type_ : string) (Content : list DictionaryElement)
| TextBlock (Name Type_ : string) (Content : string)
| ArrayBlock (Name Type_ : string) (Content : list string)
| OtherBlock (Name Type_ : string)
| NilBlock.

(** The dynamic values passed to [SetContent] as [any]. *)
Inductive content : Type :=
| DictionaryContent (c : list DictionaryElement)
| TextContent (c : string)
| ArrayContent (c : list string).

Inductive error : Type :=
| ESyntax (e : Scanner.SyntaxError)
| EText (msg : string).

Definition GetName (b : ContentBlock) : outcome string :=
  match b with
  | DictionaryBlock n _ _ | TextBlock n _ _ | ArrayBlock n _ _ | OtherBlock n _ => Done n
  | NilBlock => Panic
  end.

Definition GetType (b : ContentBlock) : outcome string :=
  match b with
  | DictionaryBlock _ t _ | TextBlock _ t _ | ArrayBlock _ t _ | OtherBlock _ t => Done t
  | NilBlock => Panic
  end.

(** [SetContent] of the three block structs. *)
Definition SetContent (b : ContentBlock) (c : content)
    : outcome (ContentBlock * option error) :=
  match b, c with
  | DictionaryBlock n t _, DictionaryContent c => Done (DictionaryBlock n t c, None)
  | TextBlock n t _, TextContent c => Done (TextBlock n t c, None)
  | ArrayBlock n t _, ArrayContent c => Done (ArrayBlock n t c, None)
  | NilBlock, _ => Panic
  | OtherBlock _ _, _ => Done (b, None)
  | _, _ => Done (b, Some (EText "wrong type to set for dictionary"))
  end.

End Blocks.

(** ** Decoder *)

Module Decoder.

Import Scanner Blocks.

Record decodeState : Type := mkDecodeState {
  data : list byte;
  off : Z;
  opcode_ : opcode;
  scan : scanner
}.

Definition len (d : decodeState) : Z := Z.of_nat (List.length (data d)).

Definition readIndex (d : decodeState) : Z := off d - 1.

Definition init (d : decodeState) (bs : list byte) : decodeState :=
  mkDecodeState bs 0 (opcode_ d) (scan d).

Definition scanNext (d : decodeState) : outcome decodeState :=
  if off d <? len d then
    c <- index (data d) (off d) ;;
    '(s, op) <- step (scan d) c ;;
    Done (mkDecodeState (data d) (off d + 1) op s)
  else
    '(s, op) <- eof (scan d) ;;
    Done (mkDecodeState (data d) (len d + 1) op s).

(** The loop of [scanWhile]: [rest] is [data[i:]]. *)
Fixpoint scanWhile_from (d : decodeState) (op : opcode) (rest : list byte)
    (s : scanner) (i : Z) : outcome decodeState :=
  match rest with
  | [] =>
      '(s, o) <- eof s ;;
      Done (mkDecodeState (data d) (len d + 1) o s)
  | c :: rest' =>
      '(s, newOp) <- step s c ;;
      if opcode_eqb newOp op then scanWhile_from d op rest' s (i + 1)
      else Done (mkDecodeState (data d) (i + 1) newOp s)
  end.

Definition scanWhile (d : decodeState) (op : opcode) : outcome decodeState :=
  if off d <? 0 then Panic
  else scanWhile_from d op (skipn (Z.to_nat (off d)) (data d)) (scan d) (off d).

(** [string(d.data[a:b])] *)
Definition substr (d : decodeState) (a b : Z) : outcome string :=
  bs <- slice (data d) a b ;; Done (string_of_list_ascii bs).

(** [strings.Cut(s, ":")] *)
Fixpoint cut (s : string) : string * string * bool :=
  match s with
  | EmptyString => (EmptyString, EmptyString, false)
  | String c s' =>
      if (c =? ":")%char then (EmptyString, s', true)
      else let '(a, b, f) := cut s' in
           if f then (String c a, b, f) else (s, EmptyString, false)
  end.

Fixpoint getBlockForTag_from (tag : string) (i : nat) (ts : list string)
    : outcome (ContentBlock * option error) :=
  match ts with
  | [] => Done (NilBlock, Some (EText ("could not find block for tag '" ++ tag ++ "'")))
  | t :: ts' =>
      if (tag =? t)%string then
        let '(name, tagData, _) := cut tag in
        match nth_error blockTypes i with
        | None => Panic
        | Some dictionaryBlock => Done (DictionaryBlock name tagData [], None)
        | Some textBlock => Done (TextBlock name tagData "", None)
        | Some arrayBlock => Done (ArrayBlock name tagData [], None)
        end
      else getBlockForTag_from tag (S i) ts'
  end.

Definition getBlockForTag (tag : string) : outcome (ContentBlock * option error) :=
  getBlockForTag_from tag 0%nat tags.

(** [for { if stop(d.opcode) { break }; d.scanNext() }] *)
Fixpoint scanUntil (fuel : nat) (stop : opcode -> bool) (d : decodeState)
    : outcome decodeState :=
  match fuel with
  | O => OutOfFuel
  | S fuel =>
      if stop (opcode_ d) then Done d
      else d <- scanNext d ;; scanUntil fuel stop d
  end.

Fixpoint dictionary_loop (fuel : nat) (d : decodeState) (dic : list DictionaryElement)
    : outcome (decodeState * list DictionaryElement) :=
  match fuel with
  | O => OutOfFuel
  | S fuel =>
      if opcode_eqb (opcode_ d) scanEndBlock then Done (d, dic)
      else
        d <- scanWhile d scanSkipSpace ;;
        let start := readIndex d in
        d <- scanWhile d scanContinue ;;
        key <- substr d start (readIndex d) ;;
        d <- scanWhile d scanSkipSpace ;;
        '(d, value) <-
          (if negb (opcode_eqb (opcode_ d) scanDictionaryKey) then
             let start := readIndex d in
             d <- scanWhile d scanContinue ;;
             value <- substr d start (readIndex d) ;;
             Done (d, value)
           else Done (d, EmptyString)) ;;
        d <- scanNext d ;;
        dictionary_loop fuel d (dic ++ [mkDictionaryElement key value])
  end.

Fixpoint array_loop (fuel : nat) (d : decodeState) (dic : list string)
    : outcome (decodeState * list string) :=
  match fuel with
  | O => OutOfFuel
  | S fuel =>
      if opcode_eqb (opcode_ d) scanEndArray then Done (d, dic)
      else
        d <- scanWhile d scanSkipSpace ;;
        let start := readIndex d in
        d <- scanWhile d scanContinue ;;
        value <- substr d start (readIndex d) ;;
        d <- scanNext d ;;
        array_loop fuel d (dic ++ [value])
  end.

Fixpoint text_loop (fuel : nat) (d : decodeState) (dic : string)
    : outcome (decodeState * string) :=
  match fuel with
  | O => OutOfFuel
  | S fuel =>
      if opcode_eqb (opcode_ d) scanEndBlock then Done (d, dic)
      else
        let start := readIndex d in
        d <- scanWhile d scanContinue ;;
        value <- substr d start (readIndex d) ;;
        d <- scanNext d ;;
        text_loop fuel d (dic ++ value ++ nl)%string
  end.

(** [dic[:len(dic)-1]] *)
Definition dropLast (dic : string) : outcome string :=
  match dic with
  | EmptyString => Panic
  | _ => Done (string_of_list_ascii (removelast (list_ascii_of_string dic)))
  end.

Definition block (fuel : nat) (d : decodeState)
    : outcome (decodeState * ContentBlock * option error) :=
  d <- scanUntil fuel (fun op => opcode_eqb op scanBeginTag) d ;;
  let start := readIndex d in
  d <- scanUntil fuel (fun op => opcode_eqb op scanEndTag) d ;;
  blockName <- substr d start (readIndex d) ;;
  '(blk, e) <- getBlockForTag blockName ;;
  match e with
  | Some e => Done (d, NilBlock, Some e)
  | None =>
      d <- scanWhile d scanSkipSpace ;;
      match opcode_ d with
      | scanBeginDictionary =>
          '(d, dic) <- dictionary_loop fuel d [] ;;
          '(blk, e) <- SetContent blk (DictionaryContent dic) ;;
          Done (d, blk, e)
      | scanBeginArray =>
          '(d, dic) <- array_loop fuel d [] ;;
          '(blk, e) <- SetContent blk (ArrayContent dic) ;;
          Done (d, blk, e)
      | scanBeginText =>
          d <- scanUntil fuel
                 (fun op => opcode_eqb op scanEndBlock || opcode_eqb op scanTextLine) d ;;
          '(d, dic) <- text_loop fuel d EmptyString ;;
          c <- dropLast dic ;;
          '(blk, e) <- SetContent blk (TextContent c) ;;
          Done (d, blk, e)
      | _ => Done (d, NilBlock, None)
      end
  end.

Fixpoint value (fuel : nat) (d : decodeState) (blocks : list ContentBlock)
    : outcome (list ContentBlock * option error) :=
  match fuel with
  | O => OutOfFuel
  | S fuel =>
      d <- scanWhile d scanSkipSpace ;;
      if opcode_eqb (opcode_ d) scanEnd then Done (blocks, None)
      else
        '(d, blk, e) <- block fuel d ;;
        match e with
        | Some e => Done ([], Some e)
        | None =>
            d <- scanNext d ;;
            value fuel d (blocks ++ [blk])
        end
  end.

Definition unmarshal (fuel : nat) (d : decodeState)
    : outcome (list ContentBlock * option error) :=
  let d := mkDecodeState (data d) (off d) (opcode_ d) (reset (scan d)) in
  value fuel d [].

Definition Read (fuel : nat) (bs : list byte) : outcome (list ContentBlock * option error) :=
  let d := mkDecodeState [] 0 scanContinue zero in
  '(s, e) <- checkValid bs (scan d) ;;
  match e with
  | Some e => Done ([], Some (ESyntax e))
  | None =>
      let d := init (mkDecodeState (data d) (off d) (opcode_ d) s) bs in
      unmarshal fuel d
  end.

End Decoder.

(** ** Encoder *)

Module Encoder.

Import Blocks.

Record Encoder : Type := mkEncoder {
  indent : Z;
  lineSep : string;
  addTrailingLineEnd : bool
}.

Definition default : Encoder := mkEncoder 0 "" false.

Definition GetIndent (b : Encoder) : Z :=
  if negb (indent b =? 0) then indent b else 2.

Definition GetEndOffset (b : Encoder) : Z :=
  if negb (addTrailingLineEnd b) then 0 else 1.

Definition GetLineSep (b : Encoder) : string := lineSep b.

Fixpoint spaces (n : nat) : string :=
  match n with
  | O => EmptyString
  | S n => String " " (spaces n)
  end.

(** [strings.Repeat(" ", count)] panics on a negative count. *)
Definition Repeat (count : Z) : outcome string :=
  if count <? 0 then Panic else Done (spaces (Z.to_nat count)).

(** [e.WriteString(s)] on the accumulated bytes. *)
Definition WriteString (e : list byte) (s : string) : list byte :=
  e ++ list_ascii_of_string s.

(** The loop over a dictionary's pairs; [v :: rest] is [c.Content[i:]]. *)
Fixpoint marshal_pairs (b : Encoder) (e : list byte) (c : list DictionaryElement)
    : outcome (list byte) :=
  match c with
  | [] => Done e
  | v :: rest =>
      ind <- Repeat (GetIndent b) ;;
      match rest with
      | [] => Done (WriteString e (ind ++ Key v ++ ": " ++ Value v ++ nl))
      | _ :: _ =>
          marshal_pairs b
            (WriteString e (ind ++ Key v ++ ": " ++ Value v ++ GetLineSep b ++ nl)) rest
      end
  end.

Fixpoint marshal_values (b : Encoder) (e : list byte) (c : list string)
    : outcome (list byte) :=
  match c with
  | [] => Done e
  | v :: rest =>
      ind <- Repeat (GetIndent b) ;;
      match rest with
      | [] => Done (WriteString e (ind ++ v ++ nl))
      | _ :: _ => marshal_values b (WriteString e (ind ++ v ++ GetLineSep b ++ nl)) rest
      end
  end.

Definition marshal_block (b : Encoder) (e : list byte) (d : ContentBlock)
    : outcome (list byte) :=
  name <- GetName d ;;
  let e := WriteString e name in
  ty <- GetType d ;;
  let e := if negb (ty =? "")%string then WriteString e (":" ++ ty) else e in
  match d with
  | DictionaryBlock _ _ c =>
      let e := WriteString e (" {" ++ nl) in
      e <- marshal_pairs b e c ;;
      Done (WriteString e ("}" ++ nl ++ nl))
  | TextBlock _ _ c =>
      let e := WriteString e (" {" ++ nl) in
      let e := WriteString e (c ++ nl) in
      Done (WriteString e ("}" ++ nl ++ nl))
  | ArrayBlock _ _ c =>
      let e := WriteString e (" [" ++ nl) in
      e <- marshal_values b e c ;;
      Done (WriteString e ("]" ++ nl ++ nl))
  | _ => Done e
  end.

(** [marshal] returns the accumulated bytes with its [error] result. *)
Fixpoint marshal (b : Encoder) (e : list byte) (ds : list ContentBlock)
    : outcome (list byte * option error) :=
  match ds with
  | [] => Done (e, None)
  | d :: ds' => e <- marshal_block b e d ;; marshal b e ds'
  end.

Definition Write (b : Encoder) (ds : list ContentBlock)
    : outcome (list byte * option error) :=
  '(toWrite, e) <- marshal b [] ds ;;
  match e with
  | Some e => Done ([], Some e)
  | None =>
      let n := Z.of_nat (List.length toWrite) in
      if (2 <? n)
         && match nth_error toWrite (Z.to_nat (n - 1)) with
            | Some c => (c =? "010")%char | None => false end
         && match nth_error toWrite (Z.to_nat (n - 2)) with
            | Some c => (c =? "010")%char | None => false end
      then
        r <- slice toWrite 0 (n - 2 + GetEndOffset b) ;; Done (r, None)
      else Done (toWrite, None)
  end.

(** The package-level [Write]. *)
Definition Write_default (ds : list ContentBlock) : outcome (list byte * option error) :=
  Write default ds.

End Encoder.

(** ** Runs, invariants and canonical forms *)

Module Run.

Import Scanner.

(** Feeding a byte sequence to [s.step], one byte after the other, with the
    opcodes it returns. *)
Fixpoint run (s : scanner) (l : list byte) : outcome (scanner * list opcode) :=
  match l with
  | [] => Done (s, [])
  | c :: l' =>
      '(s1, op) <- step s c ;;
      '(s2, ops) <- run s1 l' ;;
      Done (s2, op :: ops)
  end.

(** What the transition functions maintain: no tag is being read inside an
    open block, every other live state has exactly one open block, and the
    error state keeps its error. *)
Definition SInv (s : scanner) : Prop :=
  match step_fn s with
  | StBeginBlockLine => parseState s = [] /\ err s = None
  | StReadingTag => parseState s = [] /\ endBlock s = false /\ err s = None
  | StError =>
      (List.length (parseState s) <= 1)%nat /\ endBlock s = false /\ err s <> None
  | _ => (exists p, parseState s = [p]) /\ endBlock s = false /\ err s = None
  end.

(** The first tag equal to [name] decides the block type. *)
Fixpoint lookup_tag (name : string) (ts : list string) (ks : list blockType)
    : option blockType :=
  match ts, ks with
  | t :: ts', k :: ks' => if (name =? t)%string then Some k else lookup_tag name ts' ks'
  | _, _ => None
  end.

Definition tag_kind (name : string) : option blockType :=
  lookup_tag name tags blockTypes.

Definition parse_of (k : blockType) : parse :=
  match k with
  | dictionaryBlock => parseDictionaryKey
  | arrayBlock => parseArrayValue
  | textBlock => parseTextValue
  end.

Definition is_max_depth (e : SyntaxError) : Prop :=
  exists c, msg e = ("invalid character " ++ quoteChar c ++ " exceeded max depth")%string.

(** The [for] loop of [checkValid] alone: the scanner it leaves and whether
    it stopped on [scanError]. *)
Fixpoint feed (s : scanner) (l : list byte) : outcome (scanner * bool) :=
  match l with
  | [] => Done (s, false)
  | c :: l' =>
      let s := set_bytes s (int64 (bytes s + 1)) in
      '(s, op) <- step s c ;;
      if opcode_eqb op scanError then Done (s, true) else feed s l'
  end.

End Run.

(** ** Sample buffers *)

Module Samples.

Definition metaSimple : list byte :=
  bytes_of ("meta {" ++ nl ++ "  url: https://toto.com" ++ nl ++ "}").

Definition metaUnclosed : list byte :=
  bytes_of ("meta {" ++ nl ++ "  url: https://toto.com" ++ nl).

Definition varsSecret : list byte :=
  bytes_of ("vars:secret [" ++ nl ++ "  access_key," ++ nl ++ "  access_secret," ++ nl
            ++ "  ~transactionId" ++ nl ++ "]").

Definition testsEmpty : list byte := bytes_of ("tests {" ++ nl ++ "}").

Definition metaEmpty : list byte := bytes_of ("meta {" ++ nl ++ "}" ++ nl).

Definition nestedDictionary : list byte :=
  bytes_of ("meta {" ++ nl ++ "  body {" ++ nl ++ "  }" ++ nl ++ "}").

Definition nestedText : list byte :=
  bytes_of ("tests {" ++ nl ++ "  meta {" ++ nl ++ "  }" ++ nl ++ "}").

Definition nestedArray : list byte :=
  bytes_of ("vars:secret [" ++ nl ++ "  meta {" ++ nl ++ "  }" ++ nl ++ "]").

Definition arrayTwo : list byte :=
  bytes_of ("vars:secret [" ++ nl ++ "a" ++ nl ++ ",b" ++ nl ++ "]").

Definition twoPairs : list byte :=
  bytes_of ("meta {" ++ nl ++ "  a: 1" ++ nl ++ "  b: 2" ++ nl ++ "}").

Definition twoPairsBlocks : list Blocks.ContentBlock :=
  [Blocks.DictionaryBlock "meta" ""
     [Blocks.mkDictionaryElement "a" "1"; Blocks.mkDictionaryElement "b" "2"]].

Definition upperStart : list byte :=
  bytes_of ("X meta {" ++ nl ++ "key:" ++ nl ++ "}").

Definition tabbed : list byte :=
  bytes_of ("meta {" ++ nl ++ String "009" "a: 1" ++ nl ++ "}").

Definition tabbedBlocks : list Blocks.ContentBlock :=
  [Blocks.DictionaryBlock "meta" "" [Blocks.mkDictionaryElement "a" "1"]].

Definition noColon : list byte := bytes_of ("meta {" ++ nl ++ "key" ++ nl ++ "}").

Definition bodyDictionary : list byte :=
  bytes_of ("body {" ++ nl ++ "  a: 1" ++ nl ++ "}").

Definition threeBlocks : list Blocks.ContentBlock :=
  [Blocks.DictionaryBlock "meta" ""
     [Blocks.mkDictionaryElement "name" "Get users";
      Blocks.mkDictionaryElement "type" "http";
      Blocks.mkDictionaryElement "seq" ""];
   Blocks.ArrayBlock "vars" "secret" ["token"];
   Blocks.TextBlock "body" "json" ("{" ++ nl ++ "  a = 1" ++ nl ++ " }")].

Definition threeBlocksBytes : list byte :=
  bytes_of ("meta {" ++ nl ++ "    name: Get users" ++ nl ++ "    type: http" ++ nl
            ++ "    seq: " ++ nl ++ "}" ++ nl ++ nl
            ++ "vars:secret [" ++ nl ++ "    token" ++ nl ++ "]" ++ nl ++ nl
            ++ "body:json {" ++ nl ++ "{" ++ nl ++ "  a = 1" ++ nl ++ " }" ++ nl ++ "}"
            ++ nl).

End Samples.


(** ** Canonical block sequences

    The blocks and configurations for which the encoder's bytes decode to
    the same blocks: the header is a tag of the table with the block's
    variant, keys, values and array elements are plain bytes the scanner
    neither skips nor ends on, a dictionary has a pair, an array has exactly
    one element, and a text never shows [}] at the start of a line. *)

Module Canon.

Import Scanner Blocks Decoder Encoder Run.

Definition plain (c : byte) : bool := (32 <=? code c) && negb (c =? "\")%char.

Definition key_ok (k : string) : bool :=
  match list_ascii_of_string k with
  | [] => false
  | c :: l =>
      negb (isSpace c) && negb (c =? "}")%char
      && forallb (fun x => plain x && negb (x =? ":")%char) (c :: l)
  end.

Definition value_ok (v : string) : bool :=
  match list_ascii_of_string v with
  | [] => true
  | c :: l => negb (isSpace c) && forallb plain (c :: l)
  end.

Definition item_ok (v : string) : bool :=
  match list_ascii_of_string v with
  | [] => false
  | c :: l => negb (isSpace c) && negb (c =? "]")%char && forallb plain (c :: l)
  end.

(** [at_start]: the next byte is the first of a line. *)
Fixpoint text_ok (at_start : bool) (c : list byte) : bool :=
  match c with
  | [] => negb at_start
  | x :: c' =>
      if at_start then negb (x =? "}")%char && text_ok false c'
      else if (x =? "010")%char then text_ok true c' else text_ok false c'
  end.

(** The header the encoder writes. *)
Definition tag_of (name type_ : string) : string :=
  if negb (type_ =? "")%string then (name ++ ":" ++ type_)%string else name.

Definition blockType_eqb (a b : blockType) : bool :=
  match a, b with
  | dictionaryBlock, dictionaryBlock | textBlock, textBlock | arrayBlock, arrayBlock => true
  | _, _ => false
  end.

Definition header_ok (name type_ : string) (k : blockType) : bool :=
  match tag_kind (tag_of name type_) with
  | Some k' => blockType_eqb k k'
  | None => false
  end
  && (let '(n, t, _) := cut (tag_of name type_) in
      (n =? name)%string && (t =? type_)%string).

Definition pair_ok (e : DictionaryElement) : bool := key_ok (Key e) && value_ok (Value e).

Definition block_ok (b : ContentBlock) : bool :=
  match b with
  | DictionaryBlock n t c =>
      header_ok n t dictionaryBlock
      && match c with [] => false | _ => forallb pair_ok c end
  | TextBlock n t c => header_ok n t textBlock && text_ok true (list_ascii_of_string c)
  | ArrayBlock n t c =>
      header_ok n t arrayBlock && match c with [v] => item_ok v | _ => false end
  | OtherBlock _ _ | NilBlock => false
  end.

Definition canonical (ds : list ContentBlock) : bool :=
  match ds with
  | [] => false
  | _ => forallb block_ok ds
  end.

Definition config_ok (b : Encoder) : bool :=
  (0 <=? indent b) && (lineSep b =? "")%string.

(** A result was reached with some fuel and stays with more. *)
Definition eventually {A : Type} (f : nat -> outcome A) (r : A) : Prop :=
  exists n, forall fuel, (n <= fuel)%nat -> f fuel = Done r.

End Canon.

(** ** A function of the decoder that nothing calls *)

Module Skipping.

Import Scanner Decoder.

(** The loop of [skip]: [rest] is [data[i:]], and [data[i]] past the end of
    the data panics. *)
Fixpoint skip_from (d : decodeState) (depth : nat) (rest : list byte) (s : scanner)
    (i : Z) : outcome decodeState :=
  match rest with
  | [] => Panic
  | c :: rest' =>
      '(s, op) <- step s c ;;
      if (List.length (parseState s) <? depth)%nat
      then Done (mkDecodeState (data d) (i + 1) op s)
      else skip_from d depth rest' s (i + 1)
  end.

Definition skip (d : decodeState) : outcome decodeState :=
  if off d <? 0 then Panic
  else skip_from d (List.length (parseState (scan d)))
         (skipn (Z.to_nat (off d)) (data d)) (scan d) (off d).

End Skipping.

(** ** Layouts of buffers and states of the decoder

    The bytes of the buffers the properties speak of, the scanner states
    on the way through them, and what the decoder keeps. *)

Module Shapes.

Import Scanner Blocks Decoder Encoder Run Canon.

(** The outcome is a result or a panic, not the end of the fuel. *)
Definition total {A} (m : outcome A) : Prop := m <> OutOfFuel.

(** A lowercase letter: [c > 96 && c < 123]. *)
Definition lower (c : byte) : bool := (96 <? code c) && (code c <? 123).

(** The byte that opens a block of kind [k]. *)
Definition opener (k : blockType) : byte :=
  match k with
  | arrayBlock => "["%char
  | _ => "{"%char
  end.

(** The opcode the opening byte of a block of kind [k] returns. *)
Definition begin_op (k : blockType) : opcode :=
  match k with
  | dictionaryBlock => scanBeginDictionary
  | textBlock => scanBeginText
  | arrayBlock => scanBeginArray
  end.

(** Before a key: just after the brace, or after a pair. *)
Definition before_key (st : state) : Prop := st = StOpenBlock \/ st = StNewDictionaryPair.

(** The newline byte. *)
Definition nlc : byte := "010"%char.

(** One pair's line after its indentation, with the spaces [sp] after the
    colon and an empty separator. *)
Definition pair_bytes (sp : list byte) (e : DictionaryElement) : list byte :=
  list_ascii_of_string (Key e) ++ ":"%char :: sp ++ list_ascii_of_string (Value e) ++ [nlc].

(** The lines of the pairs, each after [n] spaces. *)
Fixpoint pairs_bytes (n : nat) (sp : list byte) (c : list DictionaryElement) : list byte :=
  match c with
  | [] => []
  | e :: c' => repeat " "%char n ++ pair_bytes sp e ++ pairs_bytes n sp c'
  end.

(** The scanner inside a block, with one entry on the parse stack. *)
Definition inDict (by_ : Z) (st : state) (p : parse) : scanner :=
  mkScanner st false [p] None by_ [].

(** The scanner between two blocks; [eb] tells that a block was closed. *)
Definition between (by_ : Z) (eb : bool) : scanner :=
  mkScanner StBeginBlockLine eb [] None by_ [].

(** The kind the table must give to the header of a block. *)
Definition kind_of (b : ContentBlock) : blockType :=
  match b with
  | TextBlock _ _ _ => textBlock
  | ArrayBlock _ _ _ => arrayBlock
  | _ => dictionaryBlock
  end.

(** The header of a block: its name, and its type after a colon. *)
Definition tag_bytes (b : ContentBlock) : list byte :=
  match b with
  | DictionaryBlock n t _ | TextBlock n t _ | ArrayBlock n t _ | OtherBlock n t =>
      list_ascii_of_string (tag_of n t)
  | NilBlock => []
  end.

(** The bytes after the opening byte, up to the closing byte. *)
Definition body_bytes (n : nat) (b : ContentBlock) : list byte :=
  match b with
  | DictionaryBlock _ _ c => nlc :: pairs_bytes n [" "%char] c ++ ["}"%char]
  | TextBlock _ _ c => nlc :: list_ascii_of_string c ++ [nlc; "}"%char]
  | ArrayBlock _ _ c =>
      nlc :: List.concat (map (fun v => repeat " "%char n ++ list_ascii_of_string v ++ [nlc]) c)
          ++ ["]"%char]
  | _ => []
  end.

(** The bytes of one block, without the blank line that follows it. *)
Definition enc (n : nat) (b : ContentBlock) : list byte :=
  tag_bytes b ++ " "%char :: opener (kind_of b) :: body_bytes n b.

(** The bytes of a sequence of blocks: a blank line between two blocks and
    [tail] after the last. *)
Fixpoint segs (n : nat) (tail : list byte) (ds : list ContentBlock) : list byte :=
  match ds with
  | [] => tail
  | b :: ds' =>
      enc n b ++ match ds' with
                 | [] => tail
                 | _ :: _ => nlc :: nlc :: segs n tail ds'
                 end
  end.

(** The block [getBlockForTag] makes for a tag of kind [k]. *)
Definition empty_block (k : blockType) (name type_ : string) : ContentBlock :=
  match k with
  | dictionaryBlock => DictionaryBlock name type_ []
  | textBlock => TextBlock name type_ ""
  | arrayBlock => ArrayBlock name type_ []
  end.

(** The opcode the closing byte of a block of kind [k] returns. *)
Definition close_op (k : blockType) : opcode :=
  match k with
  | arrayBlock => scanEndArray
  | _ => scanEndBlock
  end.

(** The scanner in the middle of a tag, with the bytes read so far. *)
Definition readingTag (by_ : Z) (tn : list byte) : scanner :=
  mkScanner StReadingTag false [] None by_ tn.

(** The scanner after a tag of kind [k], before the opening byte. *)
Definition waiting (by_ : Z) (k : blockType) : scanner :=
  mkScanner StWaitingForOpenBlock false [parse_of k] None by_ [].

(** The last newline, when the configuration asks for it. *)
Definition tail_of (cfg : Encoder) : list byte :=
  if addTrailingLineEnd cfg then [nlc] else [].

(** A scanner without an error, as a function of its byte counter. *)
Definition sc (st : state) (eb : bool) (ps : list parse) (tn : list byte) (z : Z)
    : scanner :=
  mkScanner st eb ps None z tn.

(** The byte counter after [n] more bytes: [s.bytes++] on an int64. *)
Fixpoint bump (n : nat) (z : Z) : Z :=
  match n with
  | O => z
  | S n' => bump n' (int64 (z + 1))
  end.

(** The loop of [checkValid] takes the scanner from [a] to [b] over the
    bytes [l] and stops on no error, whatever the counter was. *)
Definition feeds (a : Z -> scanner) (l : list byte) (b : Z -> scanner) : Prop :=
  forall z, feed (a z) l = Done (b (bump (List.length l) z), false).

(** A buffer with one dictionary block of one line: the key [k] after the
    indentation [ind], followed by a colon or by nothing. *)
Definition valueless (name type_ : string) (ind : list byte) (k : string) (colon : bool)
    : list byte :=
  list_ascii_of_string (tag_of name type_) ++ " "%char :: "{"%char :: nlc :: ind
  ++ list_ascii_of_string k ++ (if colon then [":"%char] else []) ++ [nlc; "}"%char].

(** The number of bytes up to the newline that ends the line, included. *)
Definition line_end (name type_ : string) (ind : list byte) (k : string) : nat :=
  List.length (list_ascii_of_string (tag_of name type_)) + 3 + List.length ind
  + List.length (list_ascii_of_string k) + 1.

(** The variant of a block, and the header it is written with. *)
Definition variant (b : ContentBlock) : option blockType :=
  match b with
  | DictionaryBlock _ _ _ => Some dictionaryBlock
  | TextBlock _ _ _ => Some textBlock
  | ArrayBlock _ _ _ => Some arrayBlock
  | OtherBlock _ _ | NilBlock => None
  end.

Definition tag_of_block (b : ContentBlock) : string :=
  match b with
  | DictionaryBlock n t _ | TextBlock n t _ | ArrayBlock n t _ | OtherBlock n t => tag_of n t
  | NilBlock => EmptyString
  end.

(** The block is one of the three structs, of the variant the table gives
    to its header. *)
Definition from_table (b : ContentBlock) : Prop :=
  exists k, variant b = Some k /\ tag_kind (tag_of_block b) = Some k.

(** The decoder has not reached the end of the buffer: its scanner is in a
    state the transitions keep, and the last opcode tells the state where
    the decoder looks at it. *)
Definition Live (d : decodeState) : Prop :=
  SInv (scan d) /\ 0 <= off d
  /\ (opcode_ d = scanEndTag -> step_fn (scan d) = StWaitingForOpenBlock)
  /\ (opcode_ d = scanError -> step_fn (scan d) = StError).

(** The decoder has called [eof]: it will only call [eof] again, with the
    same result. *)
Definition Ended (d : decodeState) : Prop :=
  len d < off d /\ eof (scan d) = Done (scan d, opcode_ d).

(** What the decoder keeps from one primitive to the next. *)
Definition DInv (d : decodeState) : Prop := Live d \/ Ended d.

(** The last opcode is [scanError]: every later one is. *)
Definition Doomed (d : decodeState) : Prop := opcode_ d = scanError /\ DInv d.

(** The opcodes that end the white space after a tag. *)
Definition opens_or_fails (op : opcode) : Prop :=
  op = scanBeginDictionary \/ op = scanBeginArray \/ op = scanBeginText \/ op = scanError.

(** A state the scanner is in after [reset] and some bytes. *)
Definition reachable (s : scanner) : Prop :=
  exists s0 l ops, run (reset s0) l = Done (s, ops).

(** The decoder after [eof] has answered [scanEnd]: the offset is past the
    end of the buffer. *)
Definition ended (D : list byte) (s : scanner) : decodeState :=
  mkDecodeState D (Z.of_nat (S (List.length D))) scanEnd s.

(** One dictionary block with no pair: white space between the braces and
    after them. *)
Definition empty_dictionary (name type_ : string) (ws tl : list byte) : list byte :=
  list_ascii_of_string (tag_of name type_) ++ " "%char :: "{"%char :: ws ++ "}"%char :: tl.

(** The same configuration without the last newline. *)
Definition no_trailing (b : Encoder) : Encoder := mkEncoder (indent b) (lineSep b) false.


(** Every block is one of the three structs. *)
Definition structs (ds : list ContentBlock) : Prop :=
  Forall (fun d => variant d <> None) ds.

(** The byte that closes a block. *)
Definition closing (c : byte) : Prop := c = "}"%char \/ c = "]"%char.

(** What [Write] puts in front of the second element of an array: the tag,
    the bracket, the line of the first element with the separator, and the
    indentation of the second line. *)
Definition up_to_second (cfg : Encoder) (name type_ v1 : string) : list byte :=
  list_ascii_of_string (tag_of name type_) ++ [" "%char; "["%char]
  ++ (nlc :: repeat " "%char (Z.to_nat (GetIndent cfg))) ++ list_ascii_of_string v1
  ++ list_ascii_of_string (lineSep cfg) ++ [nlc]
  ++ repeat " "%char (Z.to_nat (GetIndent cfg)).

(** One array block with no element: white space between the brackets and
    [tl] after them. *)
Definition empty_array (name type_ : string) (ws tl : list byte) : list byte :=
  list_ascii_of_string (tag_of name type_) ++ " "%char :: "["%char :: ws ++ "]"%char :: tl.

(** One text block with no line: one byte [x] between the braces and [tl]
    after them. *)
Definition empty_text (name type_ : string) (x : byte) (tl : list byte) : list byte :=
  list_ascii_of_string (tag_of name type_) ++ " "%char :: "{"%char :: x :: "}"%char :: tl.

(** A pair without the first byte of its key. *)
Definition behead (e : DictionaryElement) : DictionaryElement :=
  mkDictionaryElement (string_of_list_ascii (tl (list_ascii_of_string (Key e)))) (Value e).

(** A key of two bytes at least. *)
Definition long_key (e : DictionaryElement) : bool :=
  match list_ascii_of_string (Key e) with
  | _ :: _ :: _ => true
  | _ => false
  end.

(** The pairs with the separator [s] at the end of the value of every pair
    but the last. *)
Fixpoint sep_pairs (s : string) (c : list DictionaryElement) : list DictionaryElement :=
  match c with
  | [] => []
  | e :: c' =>
      match c' with
      | [] => [e]
      | _ :: _ => mkDictionaryElement (Key e) (Value e ++ s) :: sep_pairs s c'
      end
  end.

(** The same in the dictionaries of a sequence. *)
Definition sep_block (s : string) (b : ContentBlock) : ContentBlock :=
  match b with
  | DictionaryBlock n t c => DictionaryBlock n t (sep_pairs s c)
  | _ => b
  end.

(** The same configuration without a line separator. *)
Definition no_sep (b : Encoder) : Encoder :=
  mkEncoder (indent b) "" (addTrailingLineEnd b).

(** The bytes that may follow a backslash, [u] apart. *)
Definition escape_letter (c : byte) : bool :=
  (c =? "b")%char || (c =? "f")%char || (c =? "n")%char || (c =? "r")%char
  || (c =? "t")%char || (c =? "\")%char || (c =? "/")%char || (c =? "034")%char.

(** A buffer that starts with one dictionary block whose first line has the
    key [k] and a value made of [v], a backslash, the byte [x] and [rest]. *)
Definition escaped (name type_ : string) (ind : list byte) (k : string) (sp : list byte)
    (v : string) (x : byte) (rest : list byte) : list byte :=
  list_ascii_of_string (tag_of name type_) ++ " "%char :: "{"%char :: nlc :: ind
  ++ list_ascii_of_string k ++ ":"%char :: sp ++ list_ascii_of_string v
  ++ "\"%char :: x :: rest.

(** The number of bytes of such a buffer up to the byte [x], included. *)
Definition escape_end (name type_ : string) (ind : list byte) (k : string) (sp : list byte)
    (v : string) : nat :=
  List.length (list_ascii_of_string (tag_of name type_)) + 3 + List.length ind
  + List.length (list_ascii_of_string k) + 1 + List.length sp
  + List.length (list_ascii_of_string v) + 2.

(** The scanner goes from [s] to [s'] over the bytes [l], and every
    transition returns [op]. *)
Inductive through (op : opcode) : scanner -> list byte -> scanner -> Prop :=
| through_nil s : through op s [] s
| through_cons s c s1 l s2 :
    step s c = Done (s1, op) -> through op s1 l s2 -> through op s (c :: l) s2.

(** The scanner is reading a tag, and the bytes it has read are the bytes of
    the buffer from [start] to the offset of the decoder. *)
Definition in_tag (start : Z) (d : decodeState) : Prop :=
  step_fn (scan d) = StReadingTag /\ tagName (scan d) <> []
  /\ exists pre post,
       data d = pre ++ tagName (scan d) ++ post
       /\ Z.of_nat (List.length pre) = start
       /\ off d = start + Z.of_nat (List.length (tagName (scan d))).

(** When the last opcode is [scanBeginTag], the byte before the offset is
    the first byte of the tag the scanner is reading. *)
Definition TagInv (d : decodeState) : Prop :=
  opcode_ d = scanBeginTag -> in_tag (off d - 1) d.

(** What the decoder keeps, with the position of the tag. *)
Definition Tracked (d : decodeState) : Prop := DInv d /\ TagInv d.

(** Before an element of an array: just after the bracket, or after a comma. *)
Definition before_item (st : state) : Prop := st = StOpenBlock \/ st = StNewArrayValue.

(** The lines of the elements of an array after the first: a comma, the
    spaces [sp] and the element. *)
Fixpoint items_bytes (sp : list byte) (vs : list string) : list byte :=
  match vs with
  | [] => []
  | v :: vs' => ","%char :: sp ++ list_ascii_of_string v ++ nlc :: items_bytes sp vs'
  end.

(** One array block with the first element after the indentation [ind] and
    every other element on a line that starts with a comma. *)
Definition comma_first (name type_ : string) (ind sp : list byte) (v : string)
    (vs : list string) (tail : list byte) : list byte :=
  list_ascii_of_string (tag_of name type_) ++ " "%char :: "["%char :: nlc :: ind
  ++ list_ascii_of_string v ++ nlc :: items_bytes sp vs ++ "]"%char :: tail.

(** One text block with the byte [x] between the opening brace and the
    text. *)
Definition text_after (name type_ : string) (x : byte) (c : string) (tail : list byte)
    : list byte :=
  list_ascii_of_string (tag_of name type_) ++ " "%char :: "{"%char :: x
  :: list_ascii_of_string c ++ nlc :: "}"%char :: tail.

(** The state of the scanner after a backslash, [u] and [n] hexadecimal
    digits. *)
Definition esc_state (n : nat) : state :=
  match n with
  | 0%nat => StInStringEscU
  | 1%nat => StInStringEscU1
  | 2%nat => StInStringEscU12
  | 3%nat => StInStringEscU123
  | _ => StInValue
  end.

End Shapes.

(** * Properties *)

Section Basics.

Lemma bind_Done {A B} (m : outcome A) (k : A -> outcome B) (b : B) :
  bind m k = Done b -> exists a, m = Done a /\ k a = Done b.
Proof.
  destruct m; simpl; intros H; try discriminate. eauto.
Qed.

Lemma nth_error_skipn_hd {A} (l : list A) (i : nat) :
  nth_error l i = hd_error (skipn i l).
Proof.
  revert l; induction i as [|i IH]; intros [|x l]; simpl; auto.
Qed.

Lemma skipn_S_tl {A} (l : list A) (i : nat) (x : A) (r : list A) :
  skipn i l = x :: r -> skipn (S i) l = r.
Proof.
  revert l; induction i as [|i IH]; intros [|y l]; simpl; intros H;
    try discriminate.
  - now inversion H.
  - now apply IH.
Qed.

End Basics.

Module ScannerFacts.

Import Scanner Run.

Ltac brk :=
  repeat match goal with
         | |- context [if ?b then _ else _] => destruct b eqn:?
         end.

Lemma checkTag_from_lookup s c name i ts ks :
  skipn i blockTypes = ks ->
  List.length ts = List.length ks ->
  checkTag_from s c name i ts =
  match lookup_tag name ts ks with
  | Some k =>
      Done (pushParseState (set_step s StWaitingForOpenBlock) c (parse_of k) scanEndTag)
  | None => Done (error s c ("invalid tag name: " ++ name))
  end.
Proof.
  revert i ks; induction ts as [|t ts IH]; intros i ks Hk Hl.
  - destruct ks; [reflexivity | discriminate].
  - destruct ks as [|k ks]; [discriminate|].
    simpl. destruct (name =? t)%string.
    + rewrite nth_error_skipn_hd, Hk. simpl. now destruct k.
    + apply IH; [eapply skipn_S_tl; eauto | now inversion Hl].
Qed.

Lemma checkTag_kind s c :
  checkTag s c =
  let name := string_of_list_ascii (tagName s) in
  match tag_kind name with
  | Some k =>
      Done (pushParseState (set_step (set_tagName s []) StWaitingForOpenBlock) c
              (parse_of k) scanEndTag)
  | None => Done (error (set_tagName s []) c ("invalid tag name: " ++ name))
  end.
Proof.
  unfold checkTag, tag_kind. now apply checkTag_from_lookup.
Qed.

Lemma pushParseState_empty s c p op :
  parseState s = [] -> pushParseState s c p op = (set_parseState s [p], op).
Proof.
  unfold pushParseState. intros ->. reflexivity.
Qed.

Lemma pushParseState_full s c p op :
  parseState s <> [] ->
  pushParseState s c p op =
    (mkScanner StError (endBlock s) (parseState s ++ [p])
       (Some (mkSyntaxError
                ("invalid character " ++ quoteChar c ++ " exceeded max depth") (bytes s)))
       (bytes s) (tagName s), scanError).
Proof.
  destruct s as [st eb ps er by_ tn]. cbn [parseState]. intros H.
  destruct ps as [|q ps]; [congruence|].
  unfold pushParseState, set_parseState, error. cbn [parseState endBlock bytes tagName err].
  destruct (Z.leb_spec (Z.of_nat (List.length ((q :: ps) ++ [p]))) maxNestingDepth) as [Hb|Hb].
  - rewrite length_app in Hb. unfold maxNestingDepth in Hb. simpl List.length in Hb. lia.
  - reflexivity.
Qed.

(** Every transition keeps the invariant and none panics. *)
Lemma step_inv s c :
  SInv s ->
  exists s' op, step s c = Done (s', op) /\ SInv s'
                /\ (op = scanError -> step_fn s' = StError).
Proof.
  destruct s as [st eb ps er by_ tn]. unfold SInv, step. simpl.
  destruct st; simpl; intros H.
  all: try (destruct H as ([p ->] & -> & ->)).
  all: try (destruct H as (-> & -> & ->)).
  all: try (destruct H as (-> & ->)).
  all: try solve [
    unfold stateBeginBlockLine, stateWaitingForOpenBlock, stateOpenBlock,
      stateEndValue, stateNewDictionaryPair, stateNewArrayValue, stateNewTextLine,
      stateInText, stateInKey, stateBeginDictionaryValue, stateInValue,
      stateInStringEsc, stateInStringEscU, stateInStringEscU1, stateInStringEscU12,
      stateInStringEscU123, stateInStringEscUn, stateError,
      stateEndValue, top, popParseState, error, set_step, set_top, set_parseState;
    simpl;
    try destruct p; simpl; brk; simpl;
    do 2 eexists; (split; [reflexivity|]); simpl;
    (split; [|try discriminate; reflexivity]); eauto;
    try (split; [lia | split; [reflexivity | discriminate]]);
    try (split; eauto; lia) ].
  - (* reading a tag *)
    unfold stateReadingTag. destruct (isSpace c).
    + rewrite checkTag_kind. simpl.
      destruct (tag_kind (string_of_list_ascii tn)) as [k|].
      * rewrite pushParseState_empty by reflexivity.
        do 2 eexists; split; [reflexivity|]. simpl. split; [eauto|discriminate].
      * do 2 eexists; split; [reflexivity|]. simpl.
        split; [split; [lia|split; [reflexivity|discriminate]]|reflexivity].
    + do 2 eexists; split; [reflexivity|]. simpl. split; [auto|discriminate].
Qed.

Lemma run_inv l : forall s,
  SInv s -> exists s' ops, run s l = Done (s', ops) /\ SInv s'
                           /\ List.length ops = List.length l.
Proof.
  induction l as [|c l IH]; intros s H; simpl.
  - eauto.
  - destruct (step_inv s c H) as (s1 & op & E1 & H1 & _).
    destruct (IH s1 H1) as (s2 & ops & E2 & H2 & L).
    rewrite E1. simpl. rewrite E2. simpl. do 2 eexists; split; [reflexivity|].
    split; auto. simpl. now rewrite L.
Qed.

Lemma SInv_reset s : SInv (reset s).
Proof. split; reflexivity. Qed.

Lemma SInv_depth s : SInv s -> (List.length (parseState s) <= 1)%nat.
Proof.
  unfold SInv. destruct (step_fn s); intros H.
  all: try (destruct H as [[p ->] _]; simpl; lia).
  all: try (destruct H as [-> _]; simpl; lia).
  all: tauto.
Qed.

Lemma SInv_tag s : SInv s -> step_fn s = StReadingTag -> parseState s = [].
Proof.
  unfold SInv. intros H E. rewrite E in H. tauto.
Qed.

End ScannerFacts.

(** ** Fuel: only the decoder's unbounded loops can run out of it *)

Module Fuel.

Import Shapes Scanner Blocks Decoder.

Create HintDb fuel.

Lemma total_bind {A B} (m : outcome A) (k : A -> outcome B) :
  total m -> (forall a, m = Done a -> total (k a)) -> total (bind m k).
Proof.
  unfold total. destruct m; simpl; intros H K; auto. discriminate.
Qed.

Lemma total_Done {A} (a : A) : total (Done a).
Proof. discriminate. Qed.

Lemma total_Panic {A} : total (@Panic A).
Proof. discriminate. Qed.

#[local] Hint Resolve total_Done total_Panic : fuel.

Ltac tot :=
  repeat first
    [ apply total_Done | apply total_Panic
    | apply total_bind; [| intros ? _]
    | match goal with
      | |- total (let '(_, _) := ?p in _) => destruct p
      | |- total (match ?x with _ => _ end) => destruct x
      | |- total (if ?b then _ else _) => destruct b
      end ].

Lemma popParseState_total s : total (popParseState s).
Proof. unfold popParseState. tot. Qed.

Lemma top_total s : total (top s).
Proof. unfold top. tot. Qed.

#[local] Hint Resolve popParseState_total top_total : fuel.

Lemma stateEndValue_total s c : total (stateEndValue s c).
Proof. unfold stateEndValue. tot; auto with fuel. Qed.

Lemma checkTag_from_total s c name ts : forall i, total (checkTag_from s c name i ts).
Proof.
  induction ts as [|t ts IH]; intros i; simpl; tot. apply IH.
Qed.

#[local] Hint Resolve stateEndValue_total checkTag_from_total : fuel.

Lemma stateInKey_total s c : total (stateInKey s c).
Proof. unfold stateInKey. tot; auto with fuel. Qed.

Lemma stateInValue_total s c : total (stateInValue s c).
Proof. unfold stateInValue. tot; auto with fuel. Qed.

#[local] Hint Resolve stateInKey_total stateInValue_total : fuel.

Lemma stateNewDictionaryPair_total s c : total (stateNewDictionaryPair s c).
Proof. unfold stateNewDictionaryPair. tot; auto with fuel. Qed.

Lemma stateNewArrayValue_total s c : total (stateNewArrayValue s c).
Proof. unfold stateNewArrayValue. tot; auto with fuel. Qed.

#[local] Hint Resolve stateNewDictionaryPair_total stateNewArrayValue_total : fuel.

Lemma step_total s c : total (step s c).
Proof.
  unfold step. destruct (step_fn s);
    unfold stateBeginBlockLine, stateReadingTag, checkTag, stateWaitingForOpenBlock,
      stateOpenBlock, stateNewTextLine, stateInText, stateBeginDictionaryValue,
      stateInStringEsc, stateInStringEscU, stateInStringEscU1, stateInStringEscU12,
      stateInStringEscU123, stateInStringEscUn, stateError;
    tot; auto with fuel.
Qed.

#[local] Hint Resolve step_total : fuel.

Lemma eof_total s : total (eof s).
Proof. unfold eof. tot; auto with fuel. Qed.

#[local] Hint Resolve eof_total : fuel.

Lemma checkValid_loop_total l : forall s, total (checkValid_loop l s).
Proof.
  induction l as [|c l IH]; intros s; simpl; tot; auto with fuel.
Qed.

Lemma checkValid_total l s : total (checkValid l s).
Proof. apply checkValid_loop_total. Qed.

Lemma index_total l i : total (index l i).
Proof. unfold index. tot. Qed.

Lemma slice_total l a b : total (slice l a b).
Proof. unfold slice. tot. Qed.

#[local] Hint Resolve checkValid_total index_total slice_total : fuel.

Lemma scanNext_total d : total (scanNext d).
Proof. unfold scanNext. tot; auto with fuel. Qed.

Lemma scanWhile_from_total d op rest : forall s i, total (scanWhile_from d op rest s i).
Proof.
  induction rest as [|c rest IH]; intros s i; simpl; tot; auto with fuel.
Qed.

Lemma scanWhile_total d op : total (scanWhile d op).
Proof. unfold scanWhile. tot. apply scanWhile_from_total. Qed.

Lemma substr_total d a b : total (substr d a b).
Proof. unfold substr. tot; auto with fuel. Qed.

Lemma getBlockForTag_from_total tag ts : forall i, total (getBlockForTag_from tag i ts).
Proof.
  induction ts as [|t ts IH]; intros i; simpl; tot. apply IH.
Qed.

Lemma getBlockForTag_total tag : total (getBlockForTag tag).
Proof. apply getBlockForTag_from_total. Qed.

Lemma SetContent_total b c : total (SetContent b c).
Proof. unfold SetContent. tot. Qed.

Lemma dropLast_total s : total (dropLast s).
Proof. unfold dropLast. tot. Qed.

#[local] Hint Resolve scanNext_total scanWhile_total substr_total getBlockForTag_total
  SetContent_total dropLast_total : fuel.

(** A step of a monotonicity proof: the two sides run the same total
    operation first. *)
Lemma mono_bind {A B} (m : outcome A) (k k' : A -> outcome B) :
  total m ->
  (forall a, m = Done a -> total (k a) -> k' a = k a) ->
  total (bind m k) -> bind m k' = bind m k.
Proof.
  unfold total. destruct m; simpl; intros T K H; auto.
Qed.

(** The same when the first operation takes fuel itself. *)
Lemma mono_bind2 {A B} (m m' : outcome A) (k k' : A -> outcome B) :
  (total m -> m' = m) ->
  (forall a, m = Done a -> total (k a) -> k' a = k a) ->
  total (bind m k) -> bind m' k' = bind m k.
Proof.
  unfold total. intros M K H.
  destruct m; simpl in *; try congruence.
  - rewrite M by discriminate. simpl. apply K; auto.
  - rewrite M by discriminate. reflexivity.
Qed.

Ltac mono :=
  repeat first
    [ apply mono_bind; [solve [tot; auto with fuel] | intros ? _ ]
    | match goal with
      | |- total (let '(_, _) := ?p in _) -> _ => destruct p
      | |- total (match ?x with _ => _ end) -> _ => destruct x
      | |- total (if ?b then _ else _) -> _ => destruct b
      end
    | (intros _; reflexivity) ].

Lemma scanUntil_mono stop fuel : forall fuel' d,
  (fuel <= fuel')%nat -> total (scanUntil fuel stop d) ->
  scanUntil fuel' stop d = scanUntil fuel stop d.
Proof.
  induction fuel as [|fuel IH]; intros fuel' d L; [intros H; now elim H|].
  destruct fuel' as [|fuel']; [lia|]. simpl.
  destruct (stop (opcode_ d)); [reflexivity|].
  mono. apply IH. lia.
Qed.

Lemma dictionary_loop_mono fuel : forall fuel' d dic,
  (fuel <= fuel')%nat -> total (dictionary_loop fuel d dic) ->
  dictionary_loop fuel' d dic = dictionary_loop fuel d dic.
Proof.
  induction fuel as [|fuel IH]; intros fuel' d dic L; [intros H; now elim H|].
  destruct fuel' as [|fuel']; [lia|]. simpl.
  destruct (opcode_eqb (opcode_ d) scanEndBlock); [reflexivity|].
  mono. apply IH. lia.
Qed.

Lemma array_loop_mono fuel : forall fuel' d dic,
  (fuel <= fuel')%nat -> total (array_loop fuel d dic) ->
  array_loop fuel' d dic = array_loop fuel d dic.
Proof.
  induction fuel as [|fuel IH]; intros fuel' d dic L; [intros H; now elim H|].
  destruct fuel' as [|fuel']; [lia|]. simpl.
  destruct (opcode_eqb (opcode_ d) scanEndArray); [reflexivity|].
  mono. apply IH. lia.
Qed.

Lemma text_loop_mono fuel : forall fuel' d dic,
  (fuel <= fuel')%nat -> total (text_loop fuel d dic) ->
  text_loop fuel' d dic = text_loop fuel d dic.
Proof.
  induction fuel as [|fuel IH]; intros fuel' d dic L; [intros H; now elim H|].
  destruct fuel' as [|fuel']; [lia|]. simpl.
  destruct (opcode_eqb (opcode_ d) scanEndBlock); [reflexivity|].
  mono. apply IH. lia.
Qed.

Ltac mono2 L :=
  repeat first
    [ apply mono_bind; [solve [tot; auto with fuel] | intros ? _ ]
    | apply mono_bind2;
      [ first [ apply scanUntil_mono | apply dictionary_loop_mono
              | apply array_loop_mono | apply text_loop_mono ]; exact L
      | intros ? _ ]
    | match goal with
      | |- total (let '(_, _) := ?p in _) -> _ => destruct p
      | |- total (match ?x with _ => _ end) -> _ => destruct x
      | |- total (if ?b then _ else _) -> _ => destruct b
      end
    | (intros _; reflexivity) ].

Lemma block_mono fuel fuel' d :
  (fuel <= fuel')%nat -> total (block fuel d) -> block fuel' d = block fuel d.
Proof.
  intros L. unfold block. mono2 L.
Qed.

Lemma value_mono fuel : forall fuel' d blocks,
  (fuel <= fuel')%nat -> total (value fuel d blocks) ->
  value fuel' d blocks = value fuel d blocks.
Proof.
  induction fuel as [|fuel IH]; intros fuel' d blocks L; [intros H; now elim H|].
  destruct fuel' as [|fuel']; [lia|]. simpl.
  assert (L' : (fuel <= fuel')%nat) by lia.
  apply mono_bind; [auto with fuel|]. intros d1 _.
  destruct (opcode_eqb (opcode_ d1) scanEnd); [reflexivity|].
  apply mono_bind2; [apply block_mono; exact L'|].
  intros [[d2 blk] e] _. destruct e; [reflexivity|].
  apply mono_bind; [auto with fuel|]. intros d3 _.
  apply IH. exact L'.
Qed.

(** More fuel does not change a result that was reached. *)
Lemma Read_mono fuel fuel' bs :
  (fuel <= fuel')%nat -> total (Read fuel bs) -> Read fuel' bs = Read fuel bs.
Proof.
  intros L. unfold Read. apply mono_bind; [auto with fuel|].
  intros [s e] _. destruct e; [reflexivity|].
  unfold unmarshal. now apply value_mono.
Qed.

Lemma Read_more fuel k bs r :
  Read fuel bs = r -> r <> OutOfFuel -> Read (fuel + k) bs = r.
Proof.
  intros E H. rewrite <- E. apply Read_mono; [lia|]. unfold total. now rewrite E.
Qed.

End Fuel.

(** ** The validator *)

Module ValidatorFacts.

Import Scanner Run ScannerFacts Samples.

Lemma SInv_set_bytes s n : SInv s -> SInv (set_bytes s n).
Proof. destruct s; exact (fun H => H). Qed.

Lemma SInv_err s : SInv s -> step_fn s = StError -> err s <> None.
Proof. unfold SInv. intros H E. rewrite E in H. tauto. Qed.

Lemma SInv_endBlock s : SInv s -> endBlock s = true -> err s = None.
Proof.
  unfold SInv. destruct (step_fn s); intros H B; try tauto;
    destruct H as (_ & H & _); congruence.
Qed.

Lemma eof_inv s :
  SInv s -> exists s' op, eof s = Done (s', op)
                          /\ (op = scanEnd /\ err s' = None
                              \/ op = scanError /\ err s' <> None).
Proof.
  intros H. unfold eof. destruct (err s) as [e|] eqn:E.
  - do 2 eexists; split; [reflexivity|]. right. split; congruence.
  - destruct (endBlock s) eqn:B.
    + do 2 eexists; split; [reflexivity|]. now left.
    + destruct (step_inv s " "%char H) as (s1 & op & E1 & H1 & _).
      rewrite E1. simpl. destruct (endBlock s1) eqn:B1.
      * do 2 eexists; split; [reflexivity|].
        left. split; [reflexivity|]. now apply SInv_endBlock.
      * destruct (err s1) eqn:E2.
        -- do 2 eexists; split; [reflexivity|]. right. split; congruence.
        -- do 2 eexists; split; [reflexivity|]. right. split; [reflexivity|discriminate].
Qed.

Lemma feed_inv l : forall s,
  SInv s -> exists s' b, feed s l = Done (s', b) /\ SInv s'
                         /\ (b = true -> err s' <> None).
Proof.
  induction l as [|c l IH]; intros s H; simpl.
  - do 2 eexists; split; [reflexivity|]. split; [assumption|discriminate].
  - destruct (step_inv _ c (SInv_set_bytes s (int64 (bytes s + 1)) H))
      as (s1 & op & E1 & H1 & X).
    rewrite E1. simpl. destruct (opcode_eqb op scanError) eqn:O.
    + do 2 eexists; split; [reflexivity|]. split; [assumption|]. intros _.
      apply SInv_err; [assumption|]. apply X.
      unfold opcode_eqb in O. now destruct (opcode_eq_dec op scanError).
    + apply IH, H1.
Qed.

(** [checkValid] is its loop followed by [eof]. *)
Lemma checkValid_loop_feed l : forall s,
  checkValid_loop l s =
  '(s1, b) <- feed s l ;;
  if b then Done (s1, err s1)
  else '(s2, op) <- eof s1 ;;
       if opcode_eqb op scanError then Done (s2, err s2) else Done (s2, None).
Proof.
  induction l as [|c l IH]; intros s; simpl.
  - reflexivity.
  - destruct (step (set_bytes s (int64 (bytes s + 1))) c) as [[s1 op]| |]; simpl; auto.
    destruct (opcode_eqb op scanError); simpl; auto.
Qed.

Lemma checkValid_ok_iff data scan s' :
  checkValid data scan = Done (s', None) <->
  exists s1, feed (reset scan) data = Done (s1, false) /\ eof s1 = Done (s', scanEnd).
Proof.
  unfold checkValid. rewrite checkValid_loop_feed.
  destruct (feed_inv data (reset scan) (SInv_reset scan)) as (s1 & b & F & H1 & B).
  rewrite F. simpl.
  destruct (eof_inv s1 H1) as (s2 & op & E & C).
  split.
  - destruct b.
    + intros X. injection X as Hs Herr. elim (B eq_refl Herr).
    + rewrite E. simpl. destruct C as [[-> N]|[-> N]]; simpl; intros X; inversion X; subst.
      * eauto.
      * congruence.
  - intros (s1' & F' & E'). inversion F'; subst. rewrite E'. reflexivity.
Qed.

End ValidatorFacts.

(** ** Claims on fixed inputs *)

Module Claims.

Import Scanner Blocks Decoder Encoder Run ScannerFacts ValidatorFacts Samples Fuel.

(** C7. The buffer [meta {], [  url: https://toto.com] and a newline, with no
    closing brace, is rejected by [Read] with "unexpected end of Bru input"
    at the offset that is the length of the buffer.  In general [checkValid]
    returns nil exactly when no byte made the scanner return [scanError] and
    [eof] then resolves to [scanEnd]; [eof] returns [scanEnd] or [scanError]
    only, and when neither an error nor the end of a block is recorded it
    feeds one space to the scanner before it decides. *)
Theorem C7_unexpected_end :
  (forall fuel,
     Read fuel metaUnclosed =
     Done ([], Some (ESyntax (mkSyntaxError "unexpected end of Bru input"
                                (Z.of_nat (List.length metaUnclosed))))))
  /\ (forall data scan s',
        checkValid data scan = Done (s', None) <->
        exists s1, feed (reset scan) data = Done (s1, false)
                   /\ eof s1 = Done (s', scanEnd))
  /\ (forall data scan, exists s1 b s2 op,
        feed (reset scan) data = Done (s1, b) /\ eof s1 = Done (s2, op)
        /\ (op = scanEnd \/ op = scanError))
  /\ (forall s, err s = None /\ endBlock s = false ->
        eof s =
        '(s1, _) <- step s " "%char ;;
        if endBlock s1 then Done (s1, scanEnd)
        else match err s1 with
             | None =>
                 Done (set_err s1 (Some (mkSyntaxError "unexpected end of Bru input"
                                           (bytes s1))), scanError)
             | Some _ => Done (s1, scanError)
             end).
Proof.
  split; [|split; [|split]].
  - intros fuel. vm_compute. reflexivity.
  - apply checkValid_ok_iff.
  - intros data scan.
    destruct (feed_inv data (reset scan) (SInv_reset scan)) as (s1 & b & F & H1 & _).
    destruct (eof_inv s1 H1) as (s2 & op & E & C).
    exists s1, b, s2, op. intuition.
  - intros s [E B]. unfold eof. now rewrite E, B.
Qed.

Lemma C7_unexpected_end_witness :
  eof newScanner =
  Done (set_err newScanner (Some (mkSyntaxError "unexpected end of Bru input" 0)),
        scanError).
Proof.
  rewrite (proj2 (proj2 (proj2 C7_unexpected_end)) newScanner (conj eq_refl eq_refl)).
  vm_compute. reflexivity.
Defined.

(** C9. The buffer [tests {], newline, [}] validates, and [Read] panics on
    it: the text branch slices [dic[:len(dic)-1]] with [dic] empty.  With
    less fuel than the panic needs the decoder has not returned either. *)
Theorem C9_empty_text_block_panics :
  (exists s, checkValid testsEmpty zero = Done (s, None))
  /\ (forall fuel, Read (7 + fuel) testsEmpty = Panic)
  /\ (forall fuel r, Read fuel testsEmpty <> Done r)
  /\ dropLast EmptyString = Panic.
Proof.
  assert (P : forall fuel, Read (7 + fuel) testsEmpty = Panic).
  { intros fuel. apply (Read_more 7 fuel); [vm_compute; reflexivity|discriminate]. }
  split; [|split; [exact P|split]].
  - eexists. vm_compute. reflexivity.
  - intros fuel r E.
    assert (Read (fuel + 7) testsEmpty = Done r)
      by (apply Read_more; [assumption|discriminate]).
    rewrite Nat.add_comm, P in H. discriminate.
  - reflexivity.
Qed.

(** C4 (as the code behaves). The buffer with the tag [vars:secret] and the
    three comma-separated lines is rejected: the comma stays in the value and
    the next line's first byte is an error after the array element. *)
Theorem C4_vars_secret_rejected :
  forall fuel,
    Read fuel varsSecret =
    Done ([], Some (ESyntax
      (mkSyntaxError "invalid character 'a' after array element" 31))).
Proof.
  intros fuel. vm_compute. reflexivity.
Qed.

Lemma not_max_depth_in_key n :
  ~ is_max_depth (mkSyntaxError "invalid character '\n' in key" n).
Proof.
  intros [c E]. simpl in E.
  destruct c as [[] [] [] [] [] [] [] []]; vm_compute in E; discriminate.
Qed.

Lemma not_max_depth_array n :
  ~ is_max_depth (mkSyntaxError "invalid character '}' after array element" n).
Proof.
  intros [c E]. simpl in E.
  destruct c as [[] [] [] [] [] [] [] []]; vm_compute in E; discriminate.
Qed.

(** C8, counterexample. Opening a block inside a block never reports the
    depth error: inside a dictionary the newline ends a key without a colon,
    inside an array the brace is an error after the element, and inside
    a text block the nested block is text and the buffer validates. *)
Lemma C8_counterexample :
  (exists s e, checkValid nestedDictionary zero = Done (s, Some e) /\ ~ is_max_depth e)
  /\ (exists s e, checkValid nestedArray zero = Done (s, Some e) /\ ~ is_max_depth e)
  /\ (exists s, checkValid nestedText zero = Done (s, None)).
Proof.
  split; [|split].
  - do 2 eexists. split; [vm_compute; reflexivity|]. apply not_max_depth_in_key.
  - do 2 eexists. split; [vm_compute; reflexivity|]. apply not_max_depth_array.
  - eexists. vm_compute. reflexivity.
Qed.

(** C8 (amended). Whatever bytes are fed to a freshly reset scanner, no
    transition panics and the parse stack holds at most one entry afterwards,
    in the error state too; a tag is only ever checked with the stack empty.
    [pushParseState] on an empty stack succeeds, and on a non-empty stack it
    leaves two entries or more and reports "exceeded max depth": so no input
    reaches that error. *)
Theorem C8_parse_stack_depth :
  (forall s0 data, exists s ops,
      run (reset s0) data = Done (s, ops)
      /\ (List.length (parseState s) <= 1)%nat
      /\ (step_fn s = StReadingTag -> parseState s = []))
  /\ (forall s c p op,
        pushParseState (set_parseState s []) c p op = (set_parseState s [p], op))
  /\ (forall s q qs c p op,
        let s1 := set_parseState s (q :: qs) in
        let s2 := mkScanner StError (endBlock s) (q :: qs ++ [p])
                    (Some (mkSyntaxError
                             ("invalid character " ++ quoteChar c ++ " exceeded max depth")
                             (bytes s)))
                    (bytes s) (tagName s) in
        pushParseState s1 c p op = (s2, scanError)
        /\ (2 <= List.length (parseState s2))%nat).
Proof.
  split; [|split].
  - intros s0 data.
    destruct (run_inv data (reset s0) (SInv_reset s0)) as (s & ops & E & H & _).
    exists s, ops. split; [assumption|]. split.
    + now apply SInv_depth.
    + now apply SInv_tag.
  - intros. now rewrite pushParseState_empty.
  - intros. subst s1 s2. split.
    + rewrite pushParseState_full by discriminate. reflexivity.
    + simpl. rewrite length_app. simpl. lia.
Qed.

End Claims.

(** ** The encoder returns *)

Module EncoderFacts.

Import Shapes Blocks Encoder.

Lemma GetIndent_nonneg b : 0 <= indent b -> 0 <= GetIndent b.
Proof.
  unfold GetIndent. destruct (indent b =? 0); simpl; lia.
Qed.

Lemma Repeat_Done n : 0 <= n -> Repeat n = Done (spaces (Z.to_nat n)).
Proof.
  unfold Repeat. intros H. destruct (Z.ltb_spec n 0); [lia|reflexivity].
Qed.

Lemma marshal_pairs_Done b c : forall e,
  0 <= GetIndent b -> exists e', marshal_pairs b e c = Done e'.
Proof.
  induction c as [|v c IH]; intros e H; simpl.
  - eauto.
  - rewrite Repeat_Done by assumption. simpl. destruct c; [eauto|]. now apply IH.
Qed.

Lemma marshal_values_Done b c : forall e,
  0 <= GetIndent b -> exists e', marshal_values b e c = Done e'.
Proof.
  induction c as [|v c IH]; intros e H; simpl.
  - eauto.
  - rewrite Repeat_Done by assumption. simpl. destruct c; [eauto|]. now apply IH.
Qed.

Lemma marshal_block_Done b e d :
  0 <= GetIndent b -> d <> NilBlock -> exists e', marshal_block b e d = Done e'.
Proof.
  intros H N. unfold marshal_block. destruct d as [n t c|n t c|n t c|n t|]; simpl.
  - match goal with |- context [marshal_pairs b ?x c] =>
      destruct (marshal_pairs_Done b c x H) as [e' ->] end.
    simpl. eauto.
  - eauto.
  - match goal with |- context [marshal_values b ?x c] =>
      destruct (marshal_values_Done b c x H) as [e' ->] end.
    simpl. eauto.
  - eauto.
  - congruence.
Qed.

Lemma marshal_Done b ds : forall e,
  0 <= GetIndent b -> ~ In NilBlock ds -> exists e', marshal b e ds = Done (e', None).
Proof.
  induction ds as [|d ds IH]; intros e H N; simpl.
  - eauto.
  - destruct (marshal_block_Done b e d H) as [e' ->].
    + intros ->. apply N. now left.
    + simpl. apply IH; [assumption|]. intros X. apply N. now right.
Qed.

Lemma marshal_nil_error b ds : forall e e' r,
  marshal b e ds = Done (e', r) -> r = None.
Proof.
  induction ds as [|d ds IH]; intros e e' r; simpl.
  - now inversion 1.
  - destruct (marshal_block b e d); simpl; try discriminate. apply IH.
Qed.

Lemma Write_nil_error b ds bs r : Write b ds = Done (bs, r) -> r = None.
Proof.
  unfold Write. destruct (marshal b [] ds) as [[e r']| |] eqn:E; simpl; try discriminate.
  apply marshal_nil_error in E. subst r'.
  match goal with |- context [if ?c then _ else _] => destruct c end.
  - destruct (slice _ _ _); simpl; try discriminate. now inversion 1.
  - now inversion 1.
Qed.

Lemma Write_Done b ds :
  0 <= indent b -> ~ In NilBlock ds -> exists bs, Write b ds = Done (bs, None).
Proof.
  intros H N. unfold Write.
  destruct (marshal_Done b ds [] (GetIndent_nonneg b H) N) as [e ->]. simpl.
  destruct (2 <? Z.of_nat (List.length e)) eqn:L; simpl; [|eauto].
  match goal with |- context [if ?c then _ else _] => destruct c end; [|eauto].
  unfold slice. apply Z.ltb_lt in L.
  assert (G : 0 <= GetEndOffset b <= 1)
    by (unfold GetEndOffset; destruct (addTrailingLineEnd b); simpl; lia).
  replace ((0 <=? 0) && (0 <=? Z.of_nat (List.length e) - 2 + GetEndOffset b)
           && (Z.of_nat (List.length e) - 2 + GetEndOffset b <=? Z.of_nat (List.length e)))
    with true.
  - simpl. eauto.
  - symmetry. rewrite !andb_true_iff, !Z.leb_le. lia.
Qed.

End EncoderFacts.

Module EncoderTotality.

Import Shapes Blocks Encoder EncoderFacts.

(** With a negative indent the encoder panics on the
    first pair of a dictionary, and a nil block makes it panic at [GetName]:
    no nil error is returned. *)
Lemma Write_panics :
  Write (mkEncoder (-1) "" false)
    [DictionaryBlock "meta" "" [mkDictionaryElement "url" "https://toto.com"]] = Panic
  /\ Write_default [NilBlock] = Panic.
Proof.
  split; vm_compute; reflexivity.
Qed.

(** X4. For every sequence of blocks none of which is nil and
    every configuration whose indent is not negative, [Encoder.Write]
    returns bytes and a nil error, and so does the package-level [Write];
    whatever the blocks and the configuration, a result that is returned
    carries a nil error. *)
Theorem Write_returns_nil_error (b : Encoder) (ds : list ContentBlock) :
  0 <= indent b -> ~ In NilBlock ds ->
  (exists bs, Write b ds = Done (bs, None))
  /\ (exists bs, Write_default ds = Done (bs, None))
  /\ (forall b' ds' bs r, Write b' ds' = Done (bs, r) -> r = None).
Proof.
  intros H N. split; [|split].
  - now apply Write_Done.
  - apply Write_Done; [simpl; lia|assumption].
  - intros b' ds' bs r. apply Write_nil_error.
Qed.

Lemma Write_returns_nil_error_witness :
  exists bs,
    Write (mkEncoder 4 "," true)
      [DictionaryBlock "meta" "" [mkDictionaryElement "url" "https://toto.com"];
       OtherBlock "x" "y"; ArrayBlock "vars" "secret" []] = Done (bs, None).
Proof.
  refine (proj1 (Write_returns_nil_error (mkEncoder 4 "," true) _ _ _)).
  - simpl. lia.
  - simpl. intros [H|[H|[H|[]]]]; discriminate.
Defined.

End EncoderTotality.

(** ** Single transitions on the bytes of a canonical encoding *)

Module StepFacts.

Import Shapes Scanner Run Canon.

(** Every byte value in turn: the guards of the transition functions are
    decided by evaluation. *)
Ltac bytes c :=
  destruct c as [[] [] [] [] [] [] [] []]; vm_compute;
  intros; try discriminate; reflexivity.

Lemma plain_space c : plain c = true -> isSpace c = true -> c = " "%char.
Proof. bytes c. Qed.

Lemma step_between_space eb by_ c :
  isSpace c = true ->
  step (mkScanner StBeginBlockLine eb [] None by_ []) c
  = Done (mkScanner StBeginBlockLine eb [] None by_ [], scanSkipSpace).
Proof. bytes c. Qed.

Lemma step_begin_tag eb by_ c :
  lower c = true ->
  step (mkScanner StBeginBlockLine eb [] None by_ []) c
  = Done (mkScanner StReadingTag false [] None by_ [c], scanBeginTag).
Proof. bytes c. Qed.

Lemma lower_not_space c : lower c = true -> isSpace c = false.
Proof. bytes c. Qed.

Lemma step_tag_byte by_ tn c :
  isSpace c = false ->
  step (mkScanner StReadingTag false [] None by_ tn) c
  = Done (mkScanner StReadingTag false [] None by_ (tn ++ [c]), scanContinue).
Proof.
  intros H. unfold step, stateReadingTag. cbn [step_fn]. now rewrite H.
Qed.

Lemma step_end_tag by_ tn k :
  tag_kind (string_of_list_ascii tn) = Some k ->
  step (mkScanner StReadingTag false [] None by_ tn) " "%char
  = Done (mkScanner StWaitingForOpenBlock false [parse_of k] None by_ [], scanEndTag).
Proof.
  intros H. unfold step, stateReadingTag. cbn [step_fn].
  change (isSpace " "%char) with true. cbv iota.
  rewrite ScannerFacts.checkTag_kind. cbn [tagName]. cbv zeta. rewrite H.
  reflexivity.
Qed.

Lemma step_open by_ k :
  step (mkScanner StWaitingForOpenBlock false [parse_of k] None by_ []) (opener k)
  = Done (mkScanner StOpenBlock false [parse_of k] None by_ [], begin_op k).
Proof. destruct k; reflexivity. Qed.

(** *** Dictionary *)

Lemma step_key_space st by_ c :
  before_key st -> isSpace c = true ->
  step (mkScanner st false [parseDictionaryKey] None by_ []) c
  = Done (mkScanner st false [parseDictionaryKey] None by_ [], scanSkipSpace).
Proof. intros [-> | ->]; bytes c. Qed.

Lemma step_key_first st by_ c :
  before_key st ->
  isSpace c = false -> (c =? "}")%char = false ->
  plain c && negb (c =? ":")%char = true ->
  step (mkScanner st false [parseDictionaryKey] None by_ []) c
  = Done (mkScanner StInKey false [parseDictionaryKey] None by_ [], scanContinue).
Proof. intros [-> | ->]; bytes c. Qed.

Lemma step_key_close st by_ :
  before_key st ->
  step (mkScanner st false [parseDictionaryKey] None by_ []) "}"%char
  = Done (mkScanner StBeginBlockLine true [] None by_ [], scanEndBlock).
Proof. intros [-> | ->]; reflexivity. Qed.

Lemma step_key_byte by_ c :
  plain c && negb (c =? ":")%char = true ->
  step (mkScanner StInKey false [parseDictionaryKey] None by_ []) c
  = Done (mkScanner StInKey false [parseDictionaryKey] None by_ [], scanContinue).
Proof. bytes c. Qed.

Lemma step_key_colon by_ :
  step (mkScanner StInKey false [parseDictionaryKey] None by_ []) ":"%char
  = Done (mkScanner StBeginDictionaryValue false [parseDictionaryValue] None by_ [],
          scanDictionaryValue).
Proof. reflexivity. Qed.

Lemma step_key_newline by_ :
  step (mkScanner StInKey false [parseDictionaryKey] None by_ []) "010"%char
  = Done (mkScanner StError false [parseDictionaryKey]
            (Some (mkSyntaxError "invalid character '\n' in key" by_)) by_ [],
          scanError).
Proof. reflexivity. Qed.

Lemma step_value_space by_ :
  step (mkScanner StBeginDictionaryValue false [parseDictionaryValue] None by_ []) " "%char
  = Done (mkScanner StBeginDictionaryValue false [parseDictionaryValue] None by_ [],
          scanSkipSpace).
Proof. reflexivity. Qed.

Lemma step_value_none by_ :
  step (mkScanner StBeginDictionaryValue false [parseDictionaryValue] None by_ []) "010"%char
  = Done (mkScanner StNewDictionaryPair false [parseDictionaryKey] None by_ [],
          scanDictionaryKey).
Proof. reflexivity. Qed.

Lemma step_value_first by_ c :
  isSpace c = false -> plain c = true ->
  step (mkScanner StBeginDictionaryValue false [parseDictionaryValue] None by_ []) c
  = Done (mkScanner StInValue false [parseDictionaryValue] None by_ [], scanContinue).
Proof. bytes c. Qed.

Lemma step_value_byte p by_ c :
  plain c = true ->
  step (mkScanner StInValue false [p] None by_ []) c
  = Done (mkScanner StInValue false [p] None by_ [], scanContinue).
Proof. bytes c. Qed.

Lemma step_value_end by_ :
  step (mkScanner StInValue false [parseDictionaryValue] None by_ []) "010"%char
  = Done (mkScanner StNewDictionaryPair false [parseDictionaryKey] None by_ [],
          scanDictionaryKey).
Proof. reflexivity. Qed.

(** *** Array *)

Lemma step_item_space by_ c :
  isSpace c = true ->
  step (mkScanner StOpenBlock false [parseArrayValue] None by_ []) c
  = Done (mkScanner StOpenBlock false [parseArrayValue] None by_ [], scanSkipSpace).
Proof. bytes c. Qed.

Lemma step_item_first by_ c :
  isSpace c = false -> (c =? "]")%char = false -> plain c = true ->
  step (mkScanner StOpenBlock false [parseArrayValue] None by_ []) c
  = Done (mkScanner StInValue false [parseArrayValue] None by_ [], scanContinue).
Proof. bytes c. Qed.

Lemma step_item_end by_ :
  step (mkScanner StInValue false [parseArrayValue] None by_ []) "010"%char
  = Done (mkScanner StEndValue false [parseArrayValue] None by_ [], scanSkipSpace).
Proof. reflexivity. Qed.

Lemma step_item_close by_ :
  step (mkScanner StEndValue false [parseArrayValue] None by_ []) "]"%char
  = Done (mkScanner StBeginBlockLine true [] None by_ [], scanEndArray).
Proof. reflexivity. Qed.

(** *** Text *)

Lemma step_text_open by_ c :
  step (mkScanner StOpenBlock false [parseTextValue] None by_ []) c
  = Done (mkScanner StNewTextLine false [parseTextValue] None by_ [], scanSkipSpace).
Proof. reflexivity. Qed.

Lemma step_text_first by_ c :
  (c =? "}")%char = false ->
  step (mkScanner StNewTextLine false [parseTextValue] None by_ []) c
  = Done (mkScanner StInText false [parseTextValue] None by_ [], scanTextLine).
Proof.
  intros H. unfold step, stateNewTextLine. cbn [step_fn]. now rewrite H.
Qed.

Lemma step_text_close by_ :
  step (mkScanner StNewTextLine false [parseTextValue] None by_ []) "}"%char
  = Done (mkScanner StBeginBlockLine true [] None by_ [], scanEndBlock).
Proof. reflexivity. Qed.

Lemma step_text_byte by_ c :
  (c =? "010")%char = false ->
  step (mkScanner StInText false [parseTextValue] None by_ []) c
  = Done (mkScanner StInText false [parseTextValue] None by_ [], scanContinue).
Proof.
  intros H. unfold step, stateInText. cbn [step_fn]. now rewrite H.
Qed.

Lemma step_text_newline by_ :
  step (mkScanner StInText false [parseTextValue] None by_ []) "010"%char
  = Done (mkScanner StNewTextLine false [parseTextValue] None by_ [], scanTextLine).
Proof. reflexivity. Qed.

End StepFacts.

(** ** The decoder's primitives at a position of the buffer *)

Module Cursor.

Import Shapes Scanner Decoder.

(** [lia] after the lengths of the known prefixes are computed. *)
Ltac blia := simpl List.length in *; lia.

(** Right-nested appends with the known bytes in front. *)
Ltac norm H := repeat first [rewrite <- app_assoc in H | progress (cbn [app] in H)].

Lemma skipn_app_at {A} (D : list A) p l r :
  skipn p D = l ++ r -> skipn (p + List.length l) D = r.
Proof.
  intros H. rewrite Nat.add_comm, <- skipn_skipn, H.
  rewrite skipn_app, Nat.sub_diag, skipn_all. reflexivity.
Qed.

Lemma skipn_cons_at {A} (D : list A) p x r :
  skipn p D = x :: r -> skipn (S p) D = r.
Proof.
  intros H. apply (skipn_app_at D p [x] r) in H. now rewrite Nat.add_1_r in H.
Qed.

Lemma skipn_bound {A} (D : list A) p l :
  skipn p D = l -> l <> [] -> (p + List.length l = List.length D)%nat.
Proof.
  intros H N. assert (L := length_skipn p D). rewrite H in L.
  destruct l; [congruence|]. simpl in *. lia.
Qed.

Lemma skipn_nil_bound {A} (D : list A) p :
  skipn p D = [] -> (List.length D <= p)%nat.
Proof.
  intros H. assert (L := length_skipn p D). rewrite H in L. simpl in L. lia.
Qed.

Section At.

Variable D : list byte.

Lemma scanNext_at p o s c r s' op :
  skipn p D = c :: r ->
  step s c = Done (s', op) ->
  scanNext (mkDecodeState D (Z.of_nat p) o s)
  = Done (mkDecodeState D (Z.of_nat (S p)) op s').
Proof.
  intros H E. unfold scanNext, len, index. cbn [data off scan].
  assert (B := skipn_bound D p _ H ltac:(discriminate)). simpl in B.
  destruct (Z.ltb_spec (Z.of_nat p) (Z.of_nat (List.length D))); [|lia].
  destruct (Z.leb_spec 0 (Z.of_nat p)); [|lia].
  rewrite Nat2Z.id, nth_error_skipn_hd, H. simpl. rewrite E. simpl.
  do 2 f_equal. lia.
Qed.

Lemma scanNext_end p o s s' op :
  skipn p D = [] ->
  eof s = Done (s', op) ->
  scanNext (mkDecodeState D (Z.of_nat p) o s)
  = Done (mkDecodeState D (Z.of_nat (S (List.length D))) op s').
Proof.
  intros H E. unfold scanNext, len. cbn [data off scan].
  apply skipn_nil_bound in H.
  destruct (Z.ltb_spec (Z.of_nat p) (Z.of_nat (List.length D))); [lia|].
  rewrite E. simpl. do 2 f_equal. lia.
Qed.

Lemma scanWhile_from_steady d op l c r s s2 op2 : forall i,
  Forall (fun x => step s x = Done (s, op)) l ->
  step s c = Done (s2, op2) -> op2 <> op ->
  scanWhile_from d op (l ++ c :: r) s i
  = Done (mkDecodeState (data d) (i + Z.of_nat (List.length l) + 1) op2 s2).
Proof.
  induction l as [|x l IH]; intros i F E N; simpl.
  - rewrite E. simpl. unfold opcode_eqb. destruct (opcode_eq_dec op2 op); [contradiction|].
    do 2 f_equal. lia.
  - inversion F; subst. rewrite H1. simpl. unfold opcode_eqb.
    destruct (opcode_eq_dec op op); [|congruence].
    rewrite IH by assumption. do 2 f_equal. lia.
Qed.

Lemma scanWhile_from_steady_end d op l s s2 o : forall i,
  Forall (fun x => step s x = Done (s, op)) l ->
  eof s = Done (s2, o) ->
  scanWhile_from d op l s i = Done (mkDecodeState (data d) (len d + 1) o s2).
Proof.
  induction l as [|x l IH]; intros i F E; simpl.
  - rewrite E. reflexivity.
  - inversion F; subst. rewrite H1. simpl. unfold opcode_eqb.
    destruct (opcode_eq_dec op op); [|congruence]. now apply IH.
Qed.

(** [scanWhile] over a run of bytes that leave the scanner as it is, up to
    the first byte that returns another opcode. *)
Lemma scanWhile_at p o s op l c r s2 op2 :
  skipn p D = l ++ c :: r ->
  Forall (fun x => step s x = Done (s, op)) l ->
  step s c = Done (s2, op2) -> op2 <> op ->
  scanWhile (mkDecodeState D (Z.of_nat p) o s) op
  = Done (mkDecodeState D (Z.of_nat (S (p + List.length l))) op2 s2).
Proof.
  intros H F E N. unfold scanWhile. cbn [data off scan].
  destruct (Z.ltb_spec (Z.of_nat p) 0); [lia|].
  rewrite Nat2Z.id, H. rewrite (scanWhile_from_steady _ _ _ _ _ _ s2 op2) by assumption.
  cbn [data]. do 2 f_equal. lia.
Qed.

(** The same when the buffer ends first. *)
Lemma scanWhile_end p o s op l s2 o2 :
  skipn p D = l ->
  Forall (fun x => step s x = Done (s, op)) l ->
  eof s = Done (s2, o2) ->
  scanWhile (mkDecodeState D (Z.of_nat p) o s) op
  = Done (mkDecodeState D (Z.of_nat (S (List.length D))) o2 s2).
Proof.
  intros H F E. unfold scanWhile. cbn [data off scan].
  destruct (Z.ltb_spec (Z.of_nat p) 0); [lia|].
  rewrite Nat2Z.id, H. rewrite (scanWhile_from_steady_end _ _ _ _ s2 o2) by assumption.
  unfold len. cbn [data]. do 2 f_equal. lia.
Qed.

Lemma slice_at p l r a b :
  skipn p D = l ++ r -> l <> [] ->
  a = Z.of_nat p -> b = Z.of_nat (p + List.length l) ->
  slice D a b = Done l.
Proof.
  intros H N -> ->. unfold slice.
  assert (B : (p + List.length (l ++ r) = List.length D)%nat).
  { apply skipn_bound; [assumption|]. destruct l; [congruence|discriminate]. }
  rewrite length_app in B.
  replace ((0 <=? Z.of_nat p) && (Z.of_nat p <=? Z.of_nat (p + List.length l))
           && (Z.of_nat (p + List.length l) <=? Z.of_nat (List.length D))) with true
    by (symmetry; rewrite !andb_true_iff, !Z.leb_le; lia).
  rewrite Nat2Z.id, H.
  replace (Z.to_nat (Z.of_nat (p + List.length l) - Z.of_nat p)) with (List.length l) by lia.
  rewrite firstn_app, Nat.sub_diag, firstn_all. simpl. now rewrite app_nil_r.
Qed.

(** [string(d.data[start:d.readIndex()])] for a run that starts at [p]. *)
Lemma substr_at p q o s l r :
  skipn p D = l ++ r -> l <> [] ->
  q = S (p + List.length l) ->
  substr (mkDecodeState D (Z.of_nat q) o s) (Z.of_nat p)
         (readIndex (mkDecodeState D (Z.of_nat q) o s))
  = Done (string_of_list_ascii l).
Proof.
  intros H N ->. unfold substr, readIndex. cbn [data off].
  rewrite (slice_at p l r); auto. lia.
Qed.

End At.

End Cursor.

(** ** Decoding the bytes of a canonical dictionary *)

Module DecodeDictionary.

Import Shapes Scanner Blocks Decoder Run Canon StepFacts Cursor.

Lemma key_ok_inv k :
  key_ok k = true ->
  exists k0 kr, list_ascii_of_string k = k0 :: kr
    /\ isSpace k0 = false /\ (k0 =? "}")%char = false
    /\ plain k0 && negb (k0 =? ":")%char = true
    /\ Forall (fun x => plain x && negb (x =? ":")%char = true) kr.
Proof.
  unfold key_ok. destruct (list_ascii_of_string k) as [|k0 kr]; [discriminate|].
  cbn [forallb]. intros H.
  apply andb_true_iff in H. destruct H as [H H3].
  apply andb_true_iff in H. destruct H as [H1 H2].
  apply andb_true_iff in H3. destruct H3 as [H3 H4].
  apply negb_true_iff in H1, H2.
  exists k0, kr. repeat split; auto.
  apply Forall_forall. now apply forallb_forall.
Qed.

Lemma value_ok_inv v :
  value_ok v = true ->
  list_ascii_of_string v = [] \/
  exists v0 vr, list_ascii_of_string v = v0 :: vr /\ isSpace v0 = false /\ plain v0 = true
                /\ Forall (fun x => plain x = true) vr.
Proof.
  unfold value_ok. destruct (list_ascii_of_string v) as [|v0 vr]; [now left|right].
  cbn [forallb] in H.
  apply andb_true_iff in H. destruct H as [H1 H].
  apply andb_true_iff in H. destruct H as [H2 H3].
  apply negb_true_iff in H1.
  exists v0, vr. repeat split; auto. apply Forall_forall. now apply forallb_forall.
Qed.

Lemma readIndex_S D p o s : readIndex (mkDecodeState D (Z.of_nat (S p)) o s) = Z.of_nat p.
Proof. unfold readIndex. cbn [off]. lia. Qed.

Lemma opcode_eqb_refl o : opcode_eqb o o = true.
Proof. unfold opcode_eqb. destruct (opcode_eq_dec o o); congruence. Qed.

Lemma opcode_eqb_neq a b : a <> b -> opcode_eqb a b = false.
Proof. unfold opcode_eqb. destruct (opcode_eq_dec a b); congruence. Qed.

Lemma Forall_space_steady (P : byte -> Prop) (Q : byte -> Prop) l :
  (forall c, P c -> Q c) -> Forall P l -> Forall Q l.
Proof. intros H F. eapply Forall_impl; eauto. Qed.

Lemma dictionary_loop_S fuel d dic :
  dictionary_loop (S fuel) d dic =
  if opcode_eqb (opcode_ d) scanEndBlock then Done (d, dic)
  else
    d <- scanWhile d scanSkipSpace ;;
    let start := readIndex d in
    d <- scanWhile d scanContinue ;;
    key <- substr d start (readIndex d) ;;
    d <- scanWhile d scanSkipSpace ;;
    '(d, value) <-
      (if negb (opcode_eqb (opcode_ d) scanDictionaryKey) then
         let start := readIndex d in
         d <- scanWhile d scanContinue ;;
         value <- substr d start (readIndex d) ;;
         Done (d, value)
       else Done (d, EmptyString)) ;;
    d <- scanNext d ;;
    dictionary_loop fuel d (dic ++ [mkDictionaryElement key value]).
Proof. reflexivity. Qed.

Section At.

Variable D : list byte.
Variable by_ : Z.

(** Skipping to a key and reading it up to its colon. *)
Lemma read_key st p o ws k R :
  before_key st -> Forall (fun c => isSpace c = true) ws -> key_ok k = true ->
  skipn p D = ws ++ list_ascii_of_string k ++ ":"%char :: R ->
  exists q d1,
    skipn q D = R
    /\ scanWhile (mkDecodeState D (Z.of_nat p) o (inDict by_ st parseDictionaryKey))
         scanSkipSpace = Done d1
    /\ scanWhile d1 scanContinue
       = Done (mkDecodeState D (Z.of_nat q) scanDictionaryValue
                 (inDict by_ StBeginDictionaryValue parseDictionaryValue))
    /\ substr (mkDecodeState D (Z.of_nat q) scanDictionaryValue
                 (inDict by_ StBeginDictionaryValue parseDictionaryValue))
         (readIndex d1)
         (readIndex (mkDecodeState D (Z.of_nat q) scanDictionaryValue
                       (inDict by_ StBeginDictionaryValue parseDictionaryValue)))
       = Done k.
Proof.
  intros Hst Hws Hk H.
  destruct (key_ok_inv k Hk) as (k0 & kr & Ek & S0 & C0 & P0 & Pr).
  rewrite Ek in H. cbn [app] in H.
  assert (H1 : skipn (p + List.length ws) D = (k0 :: kr) ++ ":"%char :: R)
    by (apply skipn_app_at; exact H).
  assert (H2 : skipn (S (p + List.length ws)) D = kr ++ ":"%char :: R)
    by (apply (skipn_cons_at _ _ k0); exact H1).
  assert (H3 : skipn (S (S (p + List.length ws) + List.length kr)) D = R).
  { apply (skipn_cons_at _ _ ":"%char). apply skipn_app_at. exact H2. }
  eexists. eexists. split; [exact H3|]. split; [|split].
  - apply (scanWhile_at D p o _ scanSkipSpace ws k0 (kr ++ ":"%char :: R)).
    + exact H.
    + eapply Forall_impl; [|exact Hws]. intros c Hc. now apply step_key_space.
    + now apply step_key_first.
    + discriminate.
  - apply (scanWhile_at D _ _ _ scanContinue kr ":"%char R).
    + exact H2.
    + eapply Forall_impl; [|exact Pr]. intros c Hc. now apply step_key_byte.
    + apply step_key_colon.
    + discriminate.
  - rewrite readIndex_S.
    rewrite (substr_at D (p + List.length ws) _ _ _ (k0 :: kr) (":"%char :: R)).
    + rewrite <- Ek. now rewrite string_of_list_ascii_of_string.
    + exact H1.
    + discriminate.
    + blia.
Qed.

(** Reading the value after the colon, up to the end of its line. *)
Lemma read_value q sp v R :
  Forall (fun x => x = " "%char) sp ->
  value_ok v = true ->
  skipn q D = sp ++ list_ascii_of_string v ++ nlc :: R ->
  exists q',
    skipn q' D = R
    /\ forall X (K : decodeState * string -> outcome X),
       (d <- scanWhile (mkDecodeState D (Z.of_nat q) scanDictionaryValue
                          (inDict by_ StBeginDictionaryValue parseDictionaryValue))
               scanSkipSpace ;;
        x <- (if negb (opcode_eqb (opcode_ d) scanDictionaryKey) then
                let start := readIndex d in
                d <- scanWhile d scanContinue ;;
                value <- substr d start (readIndex d) ;;
                Done (d, value)
              else Done (d, EmptyString)) ;;
        K x)
       = K (mkDecodeState D (Z.of_nat q') scanDictionaryKey
              (inDict by_ StNewDictionaryPair parseDictionaryKey), v).
Proof.
  intros Hsp Hv H.
  assert (Sp : Forall (fun x => step (inDict by_ StBeginDictionaryValue parseDictionaryValue) x
                 = Done (inDict by_ StBeginDictionaryValue parseDictionaryValue, scanSkipSpace))
                sp).
  { eapply Forall_impl; [|exact Hsp]. intros x ->. apply step_value_space. }
  destruct (value_ok_inv v Hv) as [Ev|(v0 & vr & Ev & S0 & P0 & Pr)].
  - (* no value *)
    rewrite Ev in H. cbn [app] in H.
    exists (S (q + List.length sp)). split.
    + apply (skipn_cons_at _ _ nlc). apply (skipn_app_at D q sp). exact H.
    + intros X K.
      rewrite (scanWhile_at D q _ _ scanSkipSpace sp nlc R
                 (inDict by_ StNewDictionaryPair parseDictionaryKey) scanDictionaryKey);
        [|exact H|exact Sp|apply step_value_none|discriminate].
      cbn [bind opcode_]. rewrite opcode_eqb_refl. cbn [negb bind].
      replace v with EmptyString; [reflexivity|].
      rewrite <- (string_of_list_ascii_of_string v), Ev. reflexivity.
  - rewrite Ev in H. cbn [app] in H.
    assert (H1 : skipn (q + List.length sp) D = (v0 :: vr) ++ nlc :: R)
      by (apply (skipn_app_at D q sp); exact H).
    assert (H2 : skipn (S (q + List.length sp)) D = vr ++ nlc :: R)
      by (apply (skipn_cons_at _ _ v0); exact H1).
    exists (S (S (q + List.length sp) + List.length vr)). split.
    + apply (skipn_cons_at _ _ nlc). apply skipn_app_at. exact H2.
    + intros X K.
      rewrite (scanWhile_at D q _ _ scanSkipSpace sp v0 (vr ++ nlc :: R)
                 (inDict by_ StInValue parseDictionaryValue) scanContinue);
        [|exact H|exact Sp|now apply step_value_first|discriminate].
      cbn [bind opcode_].
      rewrite (opcode_eqb_neq scanContinue scanDictionaryKey) by discriminate.
      cbn [negb]. cbv zeta.
      rewrite (scanWhile_at D _ _ _ scanContinue vr nlc R
                 (inDict by_ StNewDictionaryPair parseDictionaryKey) scanDictionaryKey);
        [|exact H2| |apply step_value_end|discriminate].
      * cbn [bind]. rewrite readIndex_S.
        rewrite (substr_at D (q + List.length sp) _ _ _ (v0 :: vr) (nlc :: R));
          [|exact H1|discriminate|blia].
        cbn [bind]. rewrite <- Ev. now rewrite string_of_list_ascii_of_string.
      * eapply Forall_impl; [|exact Pr]. intros c Hc. now apply step_value_byte.
Qed.

(** The loop over the pairs of a dictionary, from any point before a key to
    the closing brace. *)
Lemma dictionary_loop_spec n sp c : forall e st p o ws acc R,
  before_key st -> o <> scanEndBlock ->
  Forall (fun x => isSpace x = true) ws ->
  Forall (fun x => x = " "%char) sp ->
  forallb pair_ok (e :: c) = true ->
  skipn p D = ws ++ pair_bytes sp e ++ pairs_bytes (S n) sp c ++ "}"%char :: R ->
  exists q,
    skipn q D = R
    /\ forall fuel, (List.length c + 2 <= fuel)%nat ->
       dictionary_loop fuel
         (mkDecodeState D (Z.of_nat p) o (inDict by_ st parseDictionaryKey)) acc
       = Done (mkDecodeState D (Z.of_nat q) scanEndBlock (between by_ true), acc ++ e :: c).
Proof.
  induction c as [|e2 c IH]; intros e st p o ws acc R Hst Ho Hws Hsp Hok H.
  - (* the last pair *)
    cbn [forallb] in Hok. rewrite andb_true_r in Hok.
    apply andb_true_iff in Hok. destruct Hok as [Hk Hv].
    unfold pair_bytes in H. cbn [pairs_bytes] in H. norm H.
    destruct (read_key st p o ws (Key e) _ Hst Hws Hk H) as (q1 & d1 & A1 & A2 & A3 & A4).
    destruct (read_value q1 sp (Value e) _ Hsp Hv A1) as (q2 & A5 & A6).
    exists (S q2). split; [apply (skipn_cons_at _ _ "}"%char); exact A5|].
    intros fuel Hf. destruct fuel as [|[|fuel]]; try blia.
    rewrite dictionary_loop_S. cbn [opcode_].
    rewrite (opcode_eqb_neq o) by assumption.
    rewrite A2. cbn [bind]. rewrite A3. cbn [bind]. rewrite A4. cbn [bind].
    rewrite A6. cbn [bind].
    rewrite (scanNext_at D q2 _ _ "}"%char R (between by_ true) scanEndBlock);
      [|exact A5|apply step_key_close; now right].
    cbn [bind]. rewrite dictionary_loop_S. cbn [opcode_]. rewrite opcode_eqb_refl.
    destruct e; reflexivity.
  - cbn [forallb] in Hok.
    apply andb_true_iff in Hok. destruct Hok as [Hok Hrest].
    apply andb_true_iff in Hok. destruct Hok as [Hk Hv].
    unfold pair_bytes at 1 in H. cbn [pairs_bytes repeat] in H. norm H.
    destruct (read_key st p o ws (Key e) _ Hst Hws Hk H) as (q1 & d1 & A1 & A2 & A3 & A4).
    destruct (read_value q1 sp (Value e) _ Hsp Hv A1) as (q2 & A5 & A6).
    destruct (IH e2 StNewDictionaryPair (S q2) scanSkipSpace (repeat " "%char n)
                (acc ++ [e]) R) as (q3 & A7 & A8).
    + now right.
    + discriminate.
    + apply Forall_forall. intros x Hx. apply repeat_spec in Hx. now subst x.
    + exact Hsp.
    + exact Hrest.
    + apply (skipn_cons_at _ _ " "%char). rewrite A5.
      repeat rewrite <- app_assoc. reflexivity.
    + exists q3. split; [exact A7|].
      intros fuel Hf. destruct fuel as [|fuel]; [blia|].
      rewrite dictionary_loop_S. cbn [opcode_].
      rewrite (opcode_eqb_neq o) by assumption.
      rewrite A2. cbn [bind]. rewrite A3. cbn [bind]. rewrite A4. cbn [bind].
      rewrite A6. cbn [bind].
      erewrite scanNext_at;
        [|exact A5|apply step_key_space; [now right|reflexivity]].
      cbn [bind]. replace (mkDictionaryElement (Key e) (Value e)) with e by now destruct e.
      rewrite A8 by blia.
      now rewrite <- app_assoc.
Qed.

End At.

End DecodeDictionary.

(** ** Decoding the bytes of a canonical array and of a canonical text *)

Module DecodeBodies.

Import Shapes Scanner Blocks Decoder Run Canon StepFacts Cursor DecodeDictionary.

Lemma str_app a b :
  string_of_list_ascii (a ++ b)
  = (string_of_list_ascii a ++ string_of_list_ascii b)%string.
Proof. induction a as [|x a IH]; simpl; [reflexivity|now rewrite IH]. Qed.

Lemma bytes_app a b :
  list_ascii_of_string (a ++ b)%string
  = list_ascii_of_string a ++ list_ascii_of_string b.
Proof. induction a as [|x a IH]; simpl; [reflexivity|now rewrite IH]. Qed.

Lemma append_assoc' (a b c : string) : ((a ++ b) ++ c = a ++ b ++ c)%string.
Proof. induction a as [|x a IH]; simpl; [reflexivity|now rewrite IH]. Qed.

Lemma item_ok_inv v :
  item_ok v = true ->
  exists v0 vr, list_ascii_of_string v = v0 :: vr
    /\ isSpace v0 = false /\ (v0 =? "]")%char = false /\ plain v0 = true
    /\ Forall (fun x => plain x = true) vr.
Proof.
  unfold item_ok. destruct (list_ascii_of_string v) as [|v0 vr]; [discriminate|].
  cbn [forallb]. intros H.
  apply andb_true_iff in H. destruct H as [H H3].
  apply andb_true_iff in H. destruct H as [H1 H2].
  apply andb_true_iff in H3. destruct H3 as [H3 H4].
  apply negb_true_iff in H1, H2.
  exists v0, vr. repeat split; auto.
  apply Forall_forall. now apply forallb_forall.
Qed.

Lemma array_loop_S fuel d dic :
  array_loop (S fuel) d dic =
  if opcode_eqb (opcode_ d) scanEndArray then Done (d, dic)
  else
    d <- scanWhile d scanSkipSpace ;;
    let start := readIndex d in
    d <- scanWhile d scanContinue ;;
    value <- substr d start (readIndex d) ;;
    d <- scanNext d ;;
    array_loop fuel d (dic ++ [value]).
Proof. reflexivity. Qed.

Lemma text_loop_S fuel d dic :
  text_loop (S fuel) d dic =
  if opcode_eqb (opcode_ d) scanEndBlock then Done (d, dic)
  else
    let start := readIndex d in
    d <- scanWhile d scanContinue ;;
    value <- substr d start (readIndex d) ;;
    d <- scanNext d ;;
    text_loop fuel d (dic ++ value ++ nl)%string.
Proof. reflexivity. Qed.

Lemma scanUntil_S fuel stop d :
  scanUntil (S fuel) stop d =
  if stop (opcode_ d) then Done d else d <- scanNext d ;; scanUntil fuel stop d.
Proof. reflexivity. Qed.

(** A line of a text up to its end, and what follows it. *)
Lemma text_line_split rc :
  text_ok false rc = true ->
  exists l, Forall (fun x => (x =? nlc)%char = false) l
    /\ (rc = l
        \/ exists y rc', rc = l ++ nlc :: y :: rc'
             /\ (y =? "}")%char = false /\ text_ok false rc' = true).
Proof.
  induction rc as [|x rc IH]; intros H.
  - exists []. split; [constructor|now left].
  - cbn [text_ok] in H. destruct (x =? "010")%char eqn:E.
    + apply Ascii.eqb_eq in E. subst x.
      destruct rc as [|y rc]; [discriminate|]. cbn [text_ok] in H.
      apply andb_true_iff in H. destruct H as [H1 H2]. apply negb_true_iff in H1.
      exists []. split; [constructor|]. right. exists y, rc. auto.
    + destruct (IH H) as (l & F & C). exists (x :: l). split.
      * constructor; assumption.
      * destruct C as [->|(y & rc' & -> & C1 & C2)]; [now left|].
        right. exists y, rc'. auto.
Qed.

Section At.

Variable D : list byte.
Variable by_ : Z.

Abbreviation inB := (inDict by_).
Abbreviation btw := (between by_).

(** The loop over the single element of a canonical array. *)
Lemma array_loop_spec p n v R :
  item_ok v = true ->
  skipn p D = nlc :: repeat " "%char n ++ list_ascii_of_string v ++ nlc :: "]"%char :: R ->
  exists q,
    skipn q D = R
    /\ forall fuel, (2 <= fuel)%nat ->
       array_loop fuel
         (mkDecodeState D (Z.of_nat p) scanBeginArray (inB StOpenBlock parseArrayValue)) []
       = Done (mkDecodeState D (Z.of_nat q) scanEndArray (btw true), [v]).
Proof.
  intros Hv H.
  destruct (item_ok_inv v Hv) as (v0 & vr & Ev & S0 & C0 & P0 & Pr).
  rewrite Ev in H.
  set (ws := nlc :: repeat " "%char n) in *.
  change (skipn p D = ws ++ (v0 :: vr) ++ nlc :: "]"%char :: R) in H.
  assert (Hws : Forall (fun x => isSpace x = true) ws).
  { constructor; [reflexivity|]. apply Forall_forall. intros x Hx.
    apply repeat_spec in Hx. now subst x. }
  assert (H1 : skipn (p + List.length ws) D = (v0 :: vr) ++ nlc :: "]"%char :: R)
    by (apply skipn_app_at; exact H).
  assert (H2 : skipn (S (p + List.length ws)) D = vr ++ nlc :: "]"%char :: R)
    by (apply (skipn_cons_at _ _ v0); exact H1).
  assert (H3 : skipn (S (S (p + List.length ws) + List.length vr)) D = "]"%char :: R).
  { apply (skipn_cons_at _ _ nlc). apply skipn_app_at. exact H2. }
  eexists. split; [eapply skipn_cons_at; exact H3|].
  intros fuel Hf. destruct fuel as [|[|fuel]]; try lia.
  rewrite array_loop_S. cbn [opcode_].
  rewrite (opcode_eqb_neq scanBeginArray) by discriminate.
  rewrite (scanWhile_at D p _ _ scanSkipSpace ws v0 (vr ++ nlc :: "]"%char :: R)
             (inB StInValue parseArrayValue) scanContinue);
    [|exact H| |now apply step_item_first|discriminate].
  2:{ eapply Forall_impl; [|exact Hws]. intros c Hc. now apply step_item_space. }
  cbn [bind]. cbv zeta.
  rewrite (scanWhile_at D _ _ _ scanContinue vr nlc ("]"%char :: R)
             (inB StEndValue parseArrayValue) scanSkipSpace);
    [|exact H2| |apply step_item_end|discriminate].
  2:{ eapply Forall_impl; [|exact Pr]. intros c Hc. now apply step_value_byte. }
  cbn [bind]. rewrite readIndex_S.
  rewrite (substr_at D (p + List.length ws) _ _ _ (v0 :: vr) (nlc :: "]"%char :: R));
    [|exact H1|discriminate|blia].
  cbn [bind].
  erewrite scanNext_at; [|exact H3|apply step_item_close].
  cbn [bind]. rewrite array_loop_S. cbn [opcode_]. rewrite opcode_eqb_refl.
  rewrite <- Ev, string_of_list_ascii_of_string. reflexivity.
Qed.

(** The loop over the lines of a text, from the second byte of a line. *)
Lemma text_loop_spec n : forall rc x p acc R,
  (List.length rc <= n)%nat ->
  text_ok false rc = true ->
  skipn p D = x :: rc ++ nlc :: "}"%char :: R ->
  exists q,
    skipn q D = R
    /\ forall fuel, (n + 2 <= fuel)%nat ->
       text_loop fuel
         (mkDecodeState D (Z.of_nat (S p)) scanTextLine (inB StInText parseTextValue)) acc
       = Done (mkDecodeState D (Z.of_nat q) scanEndBlock (btw true),
               (acc ++ string_of_list_ascii (x :: rc) ++ nl)%string).
Proof.
  induction n as [|n IH]; intros rc x p acc R Hn Hok H.
  - destruct rc; [|simpl in Hn; lia]. cbn [app] in H.
    assert (H1 : skipn (S p) D = [] ++ nlc :: "}"%char :: R)
      by (apply (skipn_cons_at _ _ x); exact H).
    assert (H2 : skipn (S (S p + 0)) D = "}"%char :: R).
    { apply (skipn_cons_at _ _ nlc). apply (skipn_app_at D (S p) []). exact H1. }
    eexists. split; [eapply skipn_cons_at; exact H2|].
    intros fuel Hf. destruct fuel as [|[|fuel]]; try lia.
    rewrite text_loop_S. cbn [opcode_].
    rewrite (opcode_eqb_neq scanTextLine) by discriminate. cbv zeta.
    rewrite (scanWhile_at D _ _ _ scanContinue [] nlc ("}"%char :: R)
               (inB StNewTextLine parseTextValue) scanTextLine);
      [|exact H1|constructor|apply step_text_newline|discriminate].
    cbn [bind]. rewrite readIndex_S.
    rewrite (substr_at D p _ _ _ [x] (nlc :: "}"%char :: R));
      [|exact H|discriminate|blia].
    cbn [bind].
    erewrite scanNext_at; [|exact H2|apply step_text_close].
    cbn [bind]. rewrite text_loop_S. cbn [opcode_]. rewrite opcode_eqb_refl.
    reflexivity.
  - destruct (text_line_split rc Hok) as (l & Fl & C).
    assert (St : Forall (fun c => step (inB StInText parseTextValue) c
                  = Done (inB StInText parseTextValue, scanContinue)) l).
    { eapply Forall_impl; [|exact Fl]. intros c Hc. now apply step_text_byte. }
    destruct C as [->|(y & rc' & -> & Hy & Hrc')].
    + (* the last line *)
      assert (H1 : skipn (S p) D = l ++ nlc :: "}"%char :: R)
        by (apply (skipn_cons_at _ _ x); exact H).
      assert (H2 : skipn (S (S p + List.length l)) D = "}"%char :: R).
      { apply (skipn_cons_at _ _ nlc). apply skipn_app_at. exact H1. }
      eexists. split; [eapply skipn_cons_at; exact H2|].
      intros fuel Hf. destruct fuel as [|[|fuel]]; try lia.
      rewrite text_loop_S. cbn [opcode_].
      rewrite (opcode_eqb_neq scanTextLine) by discriminate. cbv zeta.
      rewrite (scanWhile_at D _ _ _ scanContinue l nlc ("}"%char :: R)
                 (inB StNewTextLine parseTextValue) scanTextLine);
        [|exact H1|exact St|apply step_text_newline|discriminate].
      cbn [bind]. rewrite readIndex_S.
      rewrite (substr_at D p _ _ _ (x :: l) (nlc :: "}"%char :: R));
        [|exact H|discriminate|blia].
      cbn [bind].
      erewrite scanNext_at; [|exact H2|apply step_text_close].
      cbn [bind]. rewrite text_loop_S. cbn [opcode_]. rewrite opcode_eqb_refl.
      reflexivity.
    + (* a line followed by another *)
      norm H.
      assert (H1 : skipn (S p) D = l ++ nlc :: y :: rc' ++ nlc :: "}"%char :: R)
        by (apply (skipn_cons_at _ _ x); exact H).
      assert (H2 : skipn (S (S p + List.length l)) D = y :: rc' ++ nlc :: "}"%char :: R).
      { apply (skipn_cons_at _ _ nlc). apply skipn_app_at. exact H1. }
      destruct (IH rc' y (S (S p + List.length l))
                  (acc ++ string_of_list_ascii (x :: l) ++ nl)%string R)
        as (q & A1 & A2); [| exact Hrc' | exact H2 |].
      { rewrite length_app in Hn. simpl in Hn. lia. }
      exists q. split; [exact A1|].
      intros fuel Hf. destruct fuel as [|fuel]; [lia|].
      rewrite text_loop_S. cbn [opcode_].
      rewrite (opcode_eqb_neq scanTextLine) by discriminate. cbv zeta.
      rewrite (scanWhile_at D _ _ _ scanContinue l nlc (y :: rc' ++ nlc :: "}"%char :: R)
                 (inB StNewTextLine parseTextValue) scanTextLine);
        [|exact H1|exact St|apply step_text_newline|discriminate].
      cbn [bind]. rewrite readIndex_S.
      rewrite (substr_at D p _ _ _ (x :: l) (nlc :: y :: rc' ++ nlc :: "}"%char :: R));
        [|exact H|discriminate|blia].
      cbn [bind].
      erewrite scanNext_at; [|exact H2|now apply step_text_first].
      cbn [bind]. rewrite A2 by lia.
      do 2 f_equal.
      change (x :: l ++ nlc :: y :: rc') with ((x :: l) ++ [nlc] ++ (y :: rc')).
      rewrite !str_app, !append_assoc'. reflexivity.
Qed.

End At.

End DecodeBodies.

(** ** Decoding the bytes of a canonical block sequence *)

Module DecodeBlocks.

Import Shapes Scanner Blocks Decoder Run Canon StepFacts Cursor DecodeDictionary DecodeBodies.

Lemma getBlockForTag_from_lookup tag i ts ks :
  skipn i blockTypes = ks ->
  List.length ts = List.length ks ->
  getBlockForTag_from tag i ts =
  match lookup_tag tag ts ks with
  | Some k => let '(name, tagData, _) := cut tag in Done (empty_block k name tagData, None)
  | None => Done (NilBlock, Some (EText ("could not find block for tag '" ++ tag ++ "'")))
  end.
Proof.
  revert i ks; induction ts as [|t ts IH]; intros i ks Hk Hl.
  - destruct ks; [reflexivity | discriminate].
  - destruct ks as [|k ks]; [discriminate|].
    simpl. destruct (tag =? t)%string.
    + rewrite nth_error_skipn_hd, Hk. simpl. destruct (cut tag) as [[a b] c].
      now destruct k.
    + apply IH; [eapply skipn_S_tl; eauto | now inversion Hl].
Qed.

Lemma getBlockForTag_kind tag :
  getBlockForTag tag =
  match tag_kind tag with
  | Some k => let '(name, tagData, _) := cut tag in Done (empty_block k name tagData, None)
  | None => Done (NilBlock, Some (EText ("could not find block for tag '" ++ tag ++ "'")))
  end.
Proof. unfold getBlockForTag, tag_kind. now apply getBlockForTag_from_lookup. Qed.

Lemma lookup_tag_In name ts ks k : lookup_tag name ts ks = Some k -> In name ts.
Proof.
  revert ks; induction ts as [|t ts IH]; intros [|k' ks]; simpl; try discriminate.
  destruct (name =? t)%string eqn:E.
  - apply String.eqb_eq in E. auto.
  - intros H. right. eapply IH; eauto.
Qed.

(** Every tag of the table starts with a lowercase letter and holds no space. *)
Lemma tag_shape t k :
  tag_kind t = Some k ->
  exists t0 tr, list_ascii_of_string t = t0 :: tr
    /\ lower t0 = true /\ Forall (fun x => isSpace x = false) tr.
Proof.
  intros H. apply lookup_tag_In in H. unfold tags in H.
  repeat (destruct H as [<-|H];
          [ eexists; eexists; split; [reflexivity|];
            split; [reflexivity|]; repeat (constructor; [reflexivity|]); constructor |]).
  destruct H.
Qed.

Lemma header_ok_inv name ty k :
  header_ok name ty k = true ->
  tag_kind (tag_of name ty) = Some k
  /\ exists f, cut (tag_of name ty) = (name, ty, f).
Proof.
  unfold header_ok. intros H. apply andb_true_iff in H. destruct H as [H1 H2].
  destruct (tag_kind (tag_of name ty)) as [k'|]; [|discriminate]. split.
  - destruct k, k'; simpl in H1; congruence.
  - destruct (cut (tag_of name ty)) as [[a b] f]. apply andb_true_iff in H2.
    destruct H2 as [A B'%String.eqb_eq]. apply String.eqb_eq in A. subst. eauto.
Qed.

Section At.

Variable D : list byte.
Variable by_ : Z.

(** Reading the tag up to the space that ends it. *)
Lemma scanUntil_tag k tr : forall tn p o R,
  o <> scanEndTag ->
  Forall (fun x => isSpace x = false) tr ->
  tag_kind (string_of_list_ascii (tn ++ tr)) = Some k ->
  skipn p D = tr ++ " "%char :: R ->
  forall fuel, (List.length tr + 2 <= fuel)%nat ->
    scanUntil fuel (fun op => opcode_eqb op scanEndTag)
      (mkDecodeState D (Z.of_nat p) o (readingTag by_ tn))
    = Done (mkDecodeState D (Z.of_nat (S (p + List.length tr))) scanEndTag (waiting by_ k)).
Proof.
  induction tr as [|c tr IH]; intros tn p o R Ho F Hk H fuel Hf.
  - destruct fuel as [|[|fuel]]; try (simpl in Hf; lia).
    rewrite scanUntil_S. cbn [opcode_]. rewrite opcode_eqb_neq by assumption.
    rewrite app_nil_r in Hk.
    erewrite scanNext_at; [|exact H|apply step_end_tag; exact Hk].
    cbn [bind]. rewrite scanUntil_S. cbn [opcode_]. rewrite opcode_eqb_refl.
    do 3 f_equal. simpl. lia.
  - destruct fuel as [|fuel]; [simpl in Hf; lia|].
    rewrite scanUntil_S. cbn [opcode_]. rewrite opcode_eqb_neq by assumption.
    inversion F; subst.
    erewrite scanNext_at; [|exact H|now apply step_tag_byte].
    cbn [bind].
    rewrite (IH (tn ++ [c]) (S p) scanContinue R).
    + do 3 f_equal. simpl. lia.
    + discriminate.
    + assumption.
    + now rewrite <- app_assoc.
    + eapply skipn_cons_at. exact H.
    + simpl in Hf. lia.
Qed.

(** The part of [block] before the body: the tag, the block it names and
    the opening byte. *)
Lemma block_head k name ty f p t0 tr R :
  tag_kind (tag_of name ty) = Some k ->
  cut (tag_of name ty) = (name, ty, f) ->
  list_ascii_of_string (tag_of name ty) = t0 :: tr ->
  Forall (fun x => isSpace x = false) tr ->
  skipn p D = t0 :: tr ++ " "%char :: opener k :: R ->
  exists q,
    skipn q D = R
    /\ forall fuel, (List.length tr + 2 <= fuel)%nat ->
    block fuel (mkDecodeState D (Z.of_nat (S p)) scanBeginTag (readingTag by_ [t0])) =
    let d := mkDecodeState D (Z.of_nat q) (begin_op k)
               (inDict by_ StOpenBlock (parse_of k)) in
    match begin_op k with
    | scanBeginDictionary =>
        '(d, dic) <- dictionary_loop fuel d [] ;;
        '(blk, e) <- SetContent (empty_block k name ty) (DictionaryContent dic) ;;
        Done (d, blk, e)
    | scanBeginArray =>
        '(d, dic) <- array_loop fuel d [] ;;
        '(blk, e) <- SetContent (empty_block k name ty) (ArrayContent dic) ;;
        Done (d, blk, e)
    | scanBeginText =>
        d <- scanUntil fuel
               (fun op => opcode_eqb op scanEndBlock || opcode_eqb op scanTextLine) d ;;
        '(d, dic) <- text_loop fuel d EmptyString ;;
        c <- dropLast dic ;;
        '(blk, e) <- SetContent (empty_block k name ty) (TextContent c) ;;
        Done (d, blk, e)
    | _ => Done (d, NilBlock, None)
    end.
Proof.
  intros Hkind Hcut Et Htr H.
  assert (H1 : skipn (S p) D = tr ++ " "%char :: opener k :: R)
    by (eapply skipn_cons_at; exact H).
  assert (H2 : skipn (S (S p + List.length tr)) D = [] ++ opener k :: R).
  { eapply skipn_cons_at. apply skipn_app_at. exact H1. }
  assert (H3 : skipn (S (S (S p + List.length tr) + 0)) D = R).
  { eapply skipn_cons_at. apply (skipn_app_at D _ []). exact H2. }
  eexists. split; [exact H3|].
  intros fuel Hf. unfold block.
  destruct fuel as [|fuel]; [lia|].
  rewrite scanUntil_S. cbn [opcode_]. rewrite opcode_eqb_refl. cbn [bind]. cbv zeta.
  rewrite (scanUntil_tag k tr [t0] (S p) scanBeginTag (opener k :: R));
    [|discriminate|exact Htr| |exact H1|lia].
  2:{ cbn [app]. rewrite <- Et, string_of_list_ascii_of_string. exact Hkind. }
  cbn [bind]. rewrite readIndex_S.
  rewrite (substr_at D p _ _ _ (t0 :: tr) (" "%char :: opener k :: R));
    [|exact H|discriminate|blia].
  cbn [bind]. rewrite <- Et, string_of_list_ascii_of_string.
  rewrite getBlockForTag_kind, Hkind, Hcut. cbn [bind].
  rewrite (scanWhile_at D _ _ _ scanSkipSpace [] (opener k) R
             (inDict by_ StOpenBlock (parse_of k)) (begin_op k));
    [|exact H2|constructor|apply step_open|destruct k; discriminate].
  cbn [bind opcode_]. reflexivity.
Qed.

(** Decoding one block, from the byte after the first byte of its tag. *)
Lemma block_spec n b p t0 R :
  block_ok b = true ->
  skipn p D = enc (S n) b ++ R ->
  hd_error (tag_bytes b) = Some t0 ->
  exists q N,
    skipn q D = R
    /\ forall fuel, (N <= fuel)%nat ->
       block fuel (mkDecodeState D (Z.of_nat (S p)) scanBeginTag (readingTag by_ [t0]))
       = Done (mkDecodeState D (Z.of_nat q) (close_op (kind_of b)) (between by_ true),
               b, None).
Proof.
  intros Hok H Ht.
  assert (Hh : exists name ty, tag_bytes b = list_ascii_of_string (tag_of name ty)
             /\ header_ok name ty (kind_of b) = true
             /\ SetContent (empty_block (kind_of b) name ty)
                  match b with
                  | DictionaryBlock _ _ c => DictionaryContent c
                  | TextBlock _ _ c => TextContent c
                  | ArrayBlock _ _ c => ArrayContent c
                  | _ => TextContent ""
                  end = Done (b, None)).
  { destruct b as [nm ty c|nm ty c|nm ty c|nm ty|]; try discriminate;
      cbn [block_ok] in Hok; apply andb_true_iff in Hok; destruct Hok as [Hok _];
      exists nm, ty; auto. }
  destruct Hh as (name & ty & Etag & Hhd & Hset).
  destruct (header_ok_inv _ _ _ Hhd) as (Hkind & f & Hcut).
  destruct (tag_shape _ _ Hkind) as (t0' & tr & Et & Hlow & Htr).
  unfold enc in H. rewrite Etag, Et in H. norm H.
  rewrite Etag, Et in Ht. simpl in Ht. injection Ht as ->.
  set (k := kind_of b) in *.
  destruct (block_head k name ty f p t0 tr _ Hkind Hcut Et Htr H) as (q3 & H3 & Head).
  clear H Et Etag.
  destruct b as [nm ty' c|nm ty' c|nm ty' c|nm ty'|]; try discriminate;
    cbn [block_ok] in Hok; apply andb_true_iff in Hok; destruct Hok as [_ Hok];
    subst k; cbn [kind_of begin_op parse_of close_op body_bytes] in *.
  - (* dictionary *)
    destruct c as [|e c]; [discriminate|].
    cbn [pairs_bytes] in H3. norm H3.
    destruct (dictionary_loop_spec D by_ n [" "%char] c e StOpenBlock q3 scanBeginDictionary
                (nlc :: repeat " "%char (S n)) [] R) as (q & A1 & A2).
    + now left.
    + discriminate.
    + constructor; [reflexivity|]. apply Forall_forall. intros x Hx.
      apply repeat_spec in Hx. now subst x.
    + constructor; [reflexivity|constructor].
    + exact Hok.
    + cbn [app]. exact H3.
    + exists q, (List.length tr + List.length c + 2)%nat. split; [exact A1|].
      intros fuel Hf. rewrite Head by lia. cbv zeta.
      unfold inDict in A2. unfold inDict. rewrite A2 by lia. cbn [bind app].
      rewrite Hset. reflexivity.
  - (* text *)
    destruct (list_ascii_of_string c) as [|x rc] eqn:Ec; [discriminate|].
    cbn [text_ok] in Hok. apply andb_true_iff in Hok. destruct Hok as [Hx Hrc].
    apply negb_true_iff in Hx. norm H3.
    assert (H4 : skipn (S q3) D = x :: rc ++ nlc :: "}"%char :: R)
      by (eapply skipn_cons_at; exact H3).
    destruct (text_loop_spec D by_ (List.length rc) rc x (S q3) EmptyString R)
      as (q & A1 & A2); [lia|exact Hrc|exact H4|].
    exists q, (List.length tr + List.length rc + 3)%nat. split; [exact A1|].
    intros fuel Hf. rewrite Head by lia. cbv zeta.
    destruct fuel as [|[|[|fuel]]]; try lia.
    rewrite scanUntil_S. cbn [opcode_ orb].
    change (opcode_eqb scanBeginText scanEndBlock || opcode_eqb scanBeginText scanTextLine)
      with false. cbv iota.
    erewrite scanNext_at; [|exact H3|apply step_text_open].
    cbn [bind]. rewrite scanUntil_S. cbn [opcode_].
    change (opcode_eqb scanSkipSpace scanEndBlock || opcode_eqb scanSkipSpace scanTextLine)
      with false. cbv iota.
    erewrite scanNext_at; [|exact H4|now apply step_text_first].
    cbn [bind]. rewrite scanUntil_S. cbn [opcode_].
    change (opcode_eqb scanTextLine scanEndBlock || opcode_eqb scanTextLine scanTextLine)
      with true. cbv iota. cbn [bind].
    unfold inDict in A2. rewrite A2 by lia. cbn [bind].
    assert (Ed : dropLast (string_of_list_ascii (x :: rc) ++ nl)%string = Done c).
    { rewrite <- Ec, string_of_list_ascii_of_string. unfold dropLast.
      destruct (c ++ nl)%string eqn:E.
      - destruct c; discriminate.
      - rewrite <- E. rewrite bytes_app. simpl.
        rewrite removelast_last, string_of_list_ascii_of_string. reflexivity. }
    change (("" ++ string_of_list_ascii (x :: rc) ++ nl)%string)
      with ((string_of_list_ascii (x :: rc) ++ nl)%string).
    rewrite Ed. cbn [bind]. rewrite Hset. reflexivity.
  - (* array *)
    destruct c as [|v [|? ?]]; try discriminate.
    cbn [map List.concat] in H3. rewrite app_nil_r in H3. norm H3.
    destruct (array_loop_spec D by_ q3 (S n) v R Hok) as (q & A1 & A2).
    + rewrite H3. reflexivity.
    + exists q, (List.length tr + 2)%nat. split; [exact A1|].
      intros fuel Hf. rewrite Head by lia. cbv zeta.
      unfold inDict in A2. unfold inDict. rewrite A2 by lia. cbn [bind].
      rewrite Hset. reflexivity.
Qed.

End At.

End DecodeBlocks.

(** ** The loop of [value] over a canonical sequence, and what [Write] writes *)

Module DecodeSequence.

Import Shapes Scanner Blocks Decoder Encoder Run Canon StepFacts Cursor.
Import DecodeDictionary DecodeBodies DecodeBlocks.

Lemma value_S fuel d blocks :
  value (S fuel) d blocks =
  d <- scanWhile d scanSkipSpace ;;
  if opcode_eqb (opcode_ d) scanEnd then Done (blocks, None)
  else
    '(d, blk, e) <- block fuel d ;;
    match e with
    | Some e => Done ([], Some e)
    | None => d <- scanNext d ;; value fuel d (blocks ++ [blk])
    end.
Proof. reflexivity. Qed.

Lemma block_ok_tag b :
  block_ok b = true ->
  exists t0 tr, tag_bytes b = t0 :: tr /\ lower t0 = true.
Proof.
  intros H.
  assert (X : exists name ty k, tag_bytes b = list_ascii_of_string (tag_of name ty)
                                /\ header_ok name ty k = true).
  { destruct b as [nm ty c|nm ty c|nm ty c|nm ty|]; try discriminate;
      cbn [block_ok] in H; apply andb_true_iff in H; destruct H as [H _];
      exists nm, ty; eexists; (split; [reflexivity|exact H]). }
  destruct X as (name & ty & k & E & Hh).
  destruct (header_ok_inv _ _ _ Hh) as (Hk & _).
  destruct (tag_shape _ _ Hk) as (t0 & tr & Et & Hl & _).
  exists t0, tr. split; [congruence|assumption].
Qed.

Section At.

Variable D : list byte.
Variable by_ : Z.

Lemma eof_between : eof (between by_ true) = Done (between by_ true, scanEnd).
Proof. reflexivity. Qed.

(** At the end of the buffer, after a block. *)
Lemma value_end p o acc :
  skipn p D = [] ->
  forall fuel, (1 <= fuel)%nat ->
    value fuel (mkDecodeState D (Z.of_nat p) o (between by_ true)) acc = Done (acc, None).
Proof.
  intros H fuel Hf. destruct fuel as [|fuel]; [lia|].
  rewrite value_S.
  rewrite (scanWhile_end D p o _ scanSkipSpace [] (between by_ true) scanEnd);
    [|exact H|constructor|apply eof_between].
  cbn [bind opcode_]. now rewrite opcode_eqb_refl.
Qed.

Lemma value_spec n tail :
  tail = [] \/ tail = [nlc] ->
  forall ds b eb p o ws acc,
    Forall (fun x => isSpace x = true) ws ->
    forallb block_ok (b :: ds) = true ->
    skipn p D = ws ++ segs (S n) tail (b :: ds) ->
    exists N, forall fuel, (N <= fuel)%nat ->
      value fuel (mkDecodeState D (Z.of_nat p) o (between by_ eb)) acc
      = Done (acc ++ b :: ds, None).
Proof.
  intros Htail. induction ds as [|b' ds IH]; intros b eb p o ws acc Hws Hok H.
  - (* the last block *)
    cbn [forallb] in Hok. rewrite andb_true_r in Hok.
    destruct (block_ok_tag b Hok) as (t0 & tr & Et & Hl).
    cbn [segs] in H.
    assert (H1 : skipn (p + List.length ws) D = enc (S n) b ++ tail)
      by (apply skipn_app_at; exact H).
    destruct (block_spec D by_ n b (p + List.length ws) t0 tail Hok H1) as (q & N & A1 & A2).
    { now rewrite Et. }
    exists (S (S N)). intros fuel Hf. destruct fuel as [|fuel]; [lia|].
    rewrite value_S.
    unfold enc in H. rewrite Et in H. norm H.
    erewrite scanWhile_at;
      [ | exact H
        | eapply Forall_impl; [|exact Hws]; intros c Hc; now apply step_between_space
        | now apply step_begin_tag
        | discriminate ].
    cbn [bind opcode_]. rewrite (opcode_eqb_neq scanBeginTag) by discriminate.
    rewrite A2 by lia. cbn [bind].
    destruct Htail as [-> | ->].
    + erewrite scanNext_end; [|exact A1|apply eof_between].
      cbn [bind]. apply value_end; [|lia].
      apply skipn_all2. lia.
    + erewrite scanNext_at; [|exact A1|now apply step_between_space].
      cbn [bind]. apply value_end; [|lia].
      eapply skipn_cons_at. exact A1.
  - cbn [forallb] in Hok. apply andb_true_iff in Hok. destruct Hok as [Hb Hrest].
    destruct (block_ok_tag b Hb) as (t0 & tr & Et & Hl).
    cbn [segs] in H. fold (segs (S n) tail (b' :: ds)) in H.
    assert (H1 : skipn (p + List.length ws) D
                 = enc (S n) b ++ nlc :: nlc :: segs (S n) tail (b' :: ds))
      by (apply skipn_app_at; exact H).
    destruct (block_spec D by_ n b (p + List.length ws) t0 _ Hb H1) as (q & N & A1 & A2).
    { now rewrite Et. }
    destruct (IH b' true (S q) scanSkipSpace [nlc] (acc ++ [b])) as (N' & A3).
    { constructor; [reflexivity|constructor]. }
    { exact Hrest. }
    { eapply skipn_cons_at. exact A1. }
    exists (S (N + N')). intros fuel Hf. destruct fuel as [|fuel]; [lia|].
    rewrite value_S.
    unfold enc in H. rewrite Et in H. norm H.
    erewrite scanWhile_at;
      [ | exact H
        | eapply Forall_impl; [|exact Hws]; intros c Hc; now apply step_between_space
        | now apply step_begin_tag
        | discriminate ].
    cbn [bind opcode_]. rewrite (opcode_eqb_neq scanBeginTag) by discriminate.
    rewrite A2 by lia. cbn [bind].
    erewrite scanNext_at; [|exact A1|now apply step_between_space].
    cbn [bind]. rewrite A3 by lia. now rewrite <- app_assoc.
Qed.

End At.

(** *** The bytes of [Write] *)

Lemma spaces_bytes n : list_ascii_of_string (spaces n) = repeat " "%char n.
Proof. induction n as [|n IH]; simpl; [reflexivity|now rewrite IH]. Qed.

Section Layout.

Variable cfg : Encoder.
Hypothesis Hcfg : config_ok cfg = true.

Let n : nat := Z.to_nat (GetIndent cfg).

Lemma indent_ok : 0 <= GetIndent cfg /\ exists n', n = S n'.
Proof.
  unfold config_ok in Hcfg. apply andb_true_iff in Hcfg. destruct Hcfg as [H _].
  apply Z.leb_le in H. subst n. unfold GetIndent.
  destruct (Z.eqb_spec (indent cfg) 0); simpl.
  - split; [lia|]. exists 1%nat. reflexivity.
  - split; [lia|]. exists (Nat.pred (Z.to_nat (indent cfg))). lia.
Qed.

Lemma lineSep_empty : GetLineSep cfg = EmptyString.
Proof.
  unfold config_ok in Hcfg. apply andb_true_iff in Hcfg. destruct Hcfg as [_ H].
  now apply String.eqb_eq in H.
Qed.

Lemma marshal_pairs_bytes c : forall e,
  marshal_pairs cfg e c = Done (e ++ pairs_bytes n [" "%char] c).
Proof.
  destruct indent_ok as [Hi _].
  induction c as [|v c IH]; intros e; cbn [marshal_pairs pairs_bytes].
  - now rewrite app_nil_r.
  - rewrite EncoderFacts.Repeat_Done by assumption. cbn [bind].
    assert (E : forall sep, sep = EmptyString ->
              WriteString e (spaces (Z.to_nat (GetIndent cfg)) ++ Key v ++ ": "
                             ++ Value v ++ sep ++ nl)
              = e ++ repeat " "%char n ++ pair_bytes [" "%char] v).
    { intros sep ->. unfold WriteString, pair_bytes.
      rewrite !bytes_app, spaces_bytes. reflexivity. }
    destruct c as [|v' c].
    + cbn [pairs_bytes]. rewrite app_nil_r.
      rewrite <- (E EmptyString eq_refl). reflexivity.
    + rewrite (E (GetLineSep cfg) lineSep_empty). rewrite IH.
      now rewrite <- !app_assoc.
Qed.

Lemma marshal_values_bytes c : forall e,
  marshal_values cfg e c
  = Done (e ++ List.concat
                 (map (fun v => repeat " "%char n ++ list_ascii_of_string v ++ [nlc]) c)).
Proof.
  destruct indent_ok as [Hi _].
  induction c as [|v c IH]; intros e; cbn [marshal_values map List.concat].
  - now rewrite app_nil_r.
  - rewrite EncoderFacts.Repeat_Done by assumption. cbn [bind].
    assert (E : forall sep, sep = EmptyString ->
              WriteString e (spaces (Z.to_nat (GetIndent cfg)) ++ v ++ sep ++ nl)
              = e ++ repeat " "%char n ++ list_ascii_of_string v ++ [nlc]).
    { intros sep ->. unfold WriteString.
      rewrite !bytes_app, spaces_bytes. reflexivity. }
    destruct c as [|v' c].
    + cbn [map List.concat]. rewrite app_nil_r.
      rewrite <- (E EmptyString eq_refl). reflexivity.
    + rewrite (E (GetLineSep cfg) lineSep_empty). rewrite IH.
      now rewrite <- !app_assoc.
Qed.

Lemma marshal_block_bytes e b :
  block_ok b = true ->
  marshal_block cfg e b = Done (e ++ enc n b ++ [nlc; nlc]).
Proof.
  intros Hok.
  assert (T : forall name ty,
            (if negb (ty =? "")%string
             then WriteString (WriteString e name) (":" ++ ty)
             else WriteString e name)
            = e ++ list_ascii_of_string (tag_of name ty)).
  { intros name ty. unfold tag_of, WriteString.
    destruct (negb (ty =? "")%string); [|reflexivity].
    rewrite !bytes_app, <- app_assoc. reflexivity. }
  unfold marshal_block, enc.
  destruct b as [nm ty c|nm ty c|nm ty c|nm ty|]; try discriminate;
    cbn [GetName GetType bind tag_bytes kind_of opener body_bytes]; rewrite T.
  - unfold WriteString at 1. rewrite marshal_pairs_bytes. cbn [bind].
    unfold WriteString. repeat first [rewrite <- app_assoc | progress simpl].
    reflexivity.
  - unfold WriteString. rewrite !bytes_app.
    repeat first [rewrite <- app_assoc | progress simpl]. reflexivity.
  - unfold WriteString at 1. rewrite marshal_values_bytes. cbn [bind].
    unfold WriteString. repeat first [rewrite <- app_assoc | progress simpl].
    reflexivity.
Qed.

Lemma marshal_bytes ds : forall e,
  forallb block_ok ds = true ->
  marshal cfg e ds
  = Done (e ++ List.concat (map (fun b => enc n b ++ [nlc; nlc]) ds), None).
Proof.
  induction ds as [|b ds IH]; intros e H; cbn [marshal map List.concat].
  - now rewrite app_nil_r.
  - cbn [forallb] in H. apply andb_true_iff in H. destruct H as [Hb Hds].
    rewrite marshal_block_bytes by assumption. cbn [bind].
    rewrite IH by assumption. now rewrite <- !app_assoc.
Qed.

Lemma concat_segs b ds :
  List.concat (map (fun b => enc n b ++ [nlc; nlc]) (b :: ds))
  = segs n [] (b :: ds) ++ [nlc; nlc].
Proof.
  revert b; induction ds as [|b' ds IH]; intros b.
  - cbn [map List.concat segs]. now rewrite !app_nil_r.
  - change (List.concat (map (fun b => enc n b ++ [nlc; nlc]) (b :: b' :: ds)))
      with ((enc n b ++ [nlc; nlc])
            ++ List.concat (map (fun b => enc n b ++ [nlc; nlc]) (b' :: ds))).
    rewrite IH.
    change (segs n [] (b :: b' :: ds))
      with (enc n b ++ nlc :: nlc :: segs n [] (b' :: ds)).
    rewrite <- !app_assoc. reflexivity.
Qed.

Lemma segs_tail tail b ds : segs n tail (b :: ds) = segs n [] (b :: ds) ++ tail.
Proof.
  revert b; induction ds as [|b' ds IH]; intros b.
  - cbn [segs]. now rewrite app_nil_r.
  - change (segs n tail (b :: b' :: ds))
      with (enc n b ++ nlc :: nlc :: segs n tail (b' :: ds)).
    rewrite IH.
    change (segs n [] (b :: b' :: ds))
      with (enc n b ++ nlc :: nlc :: segs n [] (b' :: ds)).
    rewrite <- !app_assoc. reflexivity.
Qed.

(** What [Write] returns for a canonical sequence. *)
Lemma Write_canonical ds :
  canonical ds = true ->
  Write cfg ds = Done (segs n (tail_of cfg) ds, None).
Proof.
  unfold canonical. destruct ds as [|b ds]; [discriminate|]. intros Hok.
  unfold Write. rewrite marshal_bytes by assumption. cbn [bind app].
  rewrite concat_segs, (segs_tail (tail_of cfg)).
  set (X := segs n [] (b :: ds)).
  assert (HX : (1 <= List.length X)%nat).
  { subst X. cbn [segs]. unfold enc. rewrite !length_app. simpl. lia. }
  rewrite length_app. cbn [List.length].
  destruct (Z.ltb_spec 2 (Z.of_nat (List.length X + 2))); [|lia].
  replace (Z.to_nat (Z.of_nat (List.length X + 2) - 1)) with (List.length X + 1)%nat by lia.
  replace (Z.to_nat (Z.of_nat (List.length X + 2) - 2)) with (List.length X + 0)%nat by lia.
  rewrite !nth_error_app2 by lia.
  replace (List.length X + 1 - List.length X)%nat with 1%nat by lia.
  replace (List.length X + 0 - List.length X)%nat with 0%nat by lia.
  cbn [nth_error andb]. change ((nlc =? "010")%char) with true. cbv iota.
  unfold slice. rewrite length_app. cbn [List.length].
  assert (G : GetEndOffset cfg = Z.of_nat (List.length (tail_of cfg))).
  { unfold GetEndOffset, tail_of. destruct (addTrailingLineEnd cfg); reflexivity. }
  assert (G' : (List.length (tail_of cfg) <= 1)%nat).
  { unfold tail_of. destruct (addTrailingLineEnd cfg); simpl; lia. }
  replace ((0 <=? 0) && (0 <=? Z.of_nat (List.length X + 2) - 2 + GetEndOffset cfg)
           && (Z.of_nat (List.length X + 2) - 2 + GetEndOffset cfg
               <=? Z.of_nat (List.length X + 2))) with true
    by (symmetry; rewrite !andb_true_iff, !Z.leb_le; lia).
  cbn [bind]. do 2 f_equal.
  replace (Z.to_nat (Z.of_nat (List.length X + 2) - 2 + GetEndOffset cfg - 0))
    with (List.length X + List.length (tail_of cfg))%nat by lia.
  change (Z.to_nat 0) with 0%nat. cbn [skipn].
  rewrite firstn_app. rewrite (firstn_all2 X) by lia.
  replace (List.length X + List.length (tail_of cfg) - List.length X)%nat
    with (List.length (tail_of cfg)) by lia.
  f_equal. unfold tail_of. destruct (addTrailingLineEnd cfg); reflexivity.
Qed.

End Layout.

End DecodeSequence.

(** ** The validity pass over a canonical encoding, and the round trip *)

Module Validity.

Import Shapes Scanner Blocks Decoder Encoder Run Canon StepFacts Cursor ValidatorFacts.
Import DecodeDictionary DecodeBodies DecodeBlocks DecodeSequence.

Lemma bump_add n m z : bump (n + m) z = bump m (bump n z).
Proof. revert z; induction n as [|n IH]; intros z; simpl; [reflexivity|apply IH]. Qed.

Lemma feed_app l r : forall s,
  feed s (l ++ r) = '(s1, b) <- feed s l ;; if b then Done (s1, true) else feed s1 r.
Proof.
  induction l as [|c l IH]; intros s; simpl.
  - reflexivity.
  - destruct (step (set_bytes s (int64 (bytes s + 1))) c) as [[s1 op]| |]; simpl; auto.
    destruct (opcode_eqb op scanError); simpl; auto.
Qed.

Lemma feeds_nil a : feeds a [] a.
Proof. intros z. reflexivity. Qed.

Lemma feeds_app a l b r c : feeds a l b -> feeds b r c -> feeds a (l ++ r) c.
Proof.
  intros H1 H2 z. rewrite feed_app, H1. cbn [bind]. rewrite H2.
  now rewrite length_app, bump_add.
Qed.

Lemma feeds_cons a x b r c : feeds a [x] b -> feeds b r c -> feeds a (x :: r) c.
Proof. intros H1 H2. exact (feeds_app a [x] b r c H1 H2). Qed.

Lemma feeds_one st eb ps tn st' eb' ps' tn' c op :
  (forall z, step (mkScanner st eb ps None z tn) c
             = Done (mkScanner st' eb' ps' None z tn', op)) ->
  op <> scanError ->
  feeds (sc st eb ps tn) [c] (sc st' eb' ps' tn').
Proof.
  intros H N z. unfold sc, feed, set_bytes.
  cbn [step_fn endBlock parseState err bytes tagName].
  rewrite H. cbn [bind]. now rewrite opcode_eqb_neq.
Qed.

Lemma feeds_steady st eb ps tn op l :
  Forall (fun c => forall z, step (mkScanner st eb ps None z tn) c
                             = Done (mkScanner st eb ps None z tn, op)) l ->
  op <> scanError ->
  feeds (sc st eb ps tn) l (sc st eb ps tn).
Proof.
  intros F N. induction F as [|c l Hc F IH].
  - apply feeds_nil.
  - eapply feeds_cons; [|exact IH]. eapply feeds_one; eassumption.
Qed.

(** *** The header *)

Lemma feeds_tag_bytes tr : forall tn,
  Forall (fun x => isSpace x = false) tr ->
  feeds (sc StReadingTag false [] tn) tr (sc StReadingTag false [] (tn ++ tr)).
Proof.
  induction tr as [|c tr IH]; intros tn F.
  - rewrite app_nil_r. apply feeds_nil.
  - inversion F; subst.
    eapply feeds_cons.
    + apply feeds_one with (op := scanContinue); [|discriminate].
      intros z. now apply step_tag_byte.
    + replace (tn ++ c :: tr) with ((tn ++ [c]) ++ tr) by (now rewrite <- app_assoc).
      now apply IH.
Qed.

Lemma feeds_head k t0 tr eb :
  lower t0 = true ->
  Forall (fun x => isSpace x = false) tr ->
  tag_kind (string_of_list_ascii (t0 :: tr)) = Some k ->
  feeds (sc StBeginBlockLine eb [] []) (t0 :: tr ++ [" "%char; opener k])
        (sc StOpenBlock false [parse_of k] []).
Proof.
  intros Hl Htr Hk.
  eapply feeds_cons.
  { apply feeds_one with (op := scanBeginTag); [|discriminate].
    intros z. now apply step_begin_tag. }
  eapply feeds_app; [apply feeds_tag_bytes; exact Htr|].
  eapply feeds_cons.
  { apply feeds_one with (op := scanEndTag); [|discriminate].
    intros z. apply step_end_tag. exact Hk. }
  apply feeds_one with (op := begin_op k); [|destruct k; discriminate].
  intros z. apply step_open.
Qed.

(** *** The bodies *)

Lemma feeds_key_spaces st ws :
  before_key st -> Forall (fun x => isSpace x = true) ws ->
  feeds (sc st false [parseDictionaryKey] []) ws (sc st false [parseDictionaryKey] []).
Proof.
  intros Hst F. apply feeds_steady with (op := scanSkipSpace); [|discriminate].
  eapply Forall_impl; [|exact F]. intros c Hc z. now apply step_key_space.
Qed.

Lemma feeds_pair st sp e :
  before_key st -> Forall (fun x => x = " "%char) sp -> pair_ok e = true ->
  feeds (sc st false [parseDictionaryKey] []) (pair_bytes sp e)
        (sc StNewDictionaryPair false [parseDictionaryKey] []).
Proof.
  intros Hst Hsp Hok. unfold pair_ok in Hok. apply andb_true_iff in Hok.
  destruct Hok as [Hk Hv].
  destruct (key_ok_inv _ Hk) as (k0 & kr & Ek & K1 & K2 & K3 & K4).
  unfold pair_bytes. rewrite Ek. cbn [app].
  eapply feeds_cons.
  { apply feeds_one with (op := scanContinue); [|discriminate].
    intros z. now apply step_key_first. }
  eapply feeds_app.
  { apply feeds_steady with (op := scanContinue); [|discriminate].
    eapply Forall_impl; [|exact K4]. intros c Hc z. now apply step_key_byte. }
  eapply feeds_cons.
  { apply feeds_one with (op := scanDictionaryValue); [|discriminate].
    intros z. apply step_key_colon. }
  eapply feeds_app.
  { apply feeds_steady with (op := scanSkipSpace); [|discriminate].
    eapply Forall_impl; [|exact Hsp]. intros c -> z. apply step_value_space. }
  destruct (value_ok_inv _ Hv) as [Ev|(v0 & vr & Ev & V1 & V2 & V3)]; rewrite Ev; cbn [app].
  - apply feeds_one with (op := scanDictionaryKey); [|discriminate].
    intros z. apply step_value_none.
  - eapply feeds_cons.
    { apply feeds_one with (op := scanContinue); [|discriminate].
      intros z. now apply step_value_first. }
    eapply feeds_app.
    { apply feeds_steady with (op := scanContinue); [|discriminate].
      eapply Forall_impl; [|exact V3]. intros c Hc z. now apply step_value_byte. }
    apply feeds_one with (op := scanDictionaryKey); [|discriminate].
    intros z. apply step_value_end.
Qed.

Lemma repeat_spaces n : Forall (fun x => isSpace x = true) (repeat " "%char n).
Proof. apply Forall_forall. intros x Hx. apply repeat_spec in Hx. now subst x. Qed.

Lemma feeds_pairs n sp c : forall st,
  before_key st -> Forall (fun x => x = " "%char) sp -> forallb pair_ok c = true ->
  exists st', before_key st'
    /\ feeds (sc st false [parseDictionaryKey] []) (pairs_bytes n sp c)
             (sc st' false [parseDictionaryKey] []).
Proof.
  induction c as [|e c IH]; intros st Hst Hsp Hok.
  - exists st. split; [assumption|apply feeds_nil].
  - cbn [forallb] in Hok. apply andb_true_iff in Hok. destruct Hok as [He Hc].
    destruct (IH StNewDictionaryPair) as (st' & B & F); [now right|assumption|assumption|].
    exists st'. split; [assumption|]. cbn [pairs_bytes].
    eapply feeds_app; [apply feeds_key_spaces; [assumption|apply repeat_spaces]|].
    eapply feeds_app; [apply feeds_pair; assumption|exact F].
Qed.

Lemma feeds_dictionary n sp c ws :
  Forall (fun x => isSpace x = true) ws ->
  Forall (fun x => x = " "%char) sp -> forallb pair_ok c = true ->
  feeds (sc StOpenBlock false [parseDictionaryKey] [])
        (ws ++ pairs_bytes n sp c ++ ["}"%char])
        (sc StBeginBlockLine true [] []).
Proof.
  intros Hws Hsp Hok.
  destruct (feeds_pairs n sp c StOpenBlock) as (st' & B & F);
    [now left|assumption|assumption|].
  eapply feeds_app; [apply feeds_key_spaces; [now left|exact Hws]|].
  eapply feeds_app; [exact F|].
  apply feeds_one with (op := scanEndBlock); [|discriminate].
  intros z. now apply step_key_close.
Qed.

Lemma feeds_array n v :
  item_ok v = true ->
  feeds (sc StOpenBlock false [parseArrayValue] [])
        (nlc :: repeat " "%char n ++ list_ascii_of_string v ++ [nlc; "]"%char])
        (sc StBeginBlockLine true [] []).
Proof.
  intros Hok. destruct (item_ok_inv _ Hok) as (v0 & vr & Ev & V1 & V2 & V3 & V4).
  rewrite Ev. cbn [app].
  apply (feeds_app _ (nlc :: repeat " "%char n) (sc StOpenBlock false [parseArrayValue] [])).
  { apply feeds_steady with (op := scanSkipSpace); [|discriminate].
    constructor; [intros z; now apply step_item_space|].
    eapply Forall_impl; [|apply (repeat_spaces n)]. intros c Hc z. now apply step_item_space. }
  eapply feeds_cons.
  { apply feeds_one with (op := scanContinue); [|discriminate].
    intros z. now apply step_item_first. }
  eapply feeds_app.
  { apply feeds_steady with (op := scanContinue); [|discriminate].
    eapply Forall_impl; [|exact V4]. intros c Hc z. now apply step_value_byte. }
  eapply feeds_cons.
  { apply feeds_one with (op := scanSkipSpace); [|discriminate].
    intros z. apply step_item_end. }
  apply feeds_one with (op := scanEndArray); [|discriminate].
  intros z. apply step_item_close.
Qed.

Lemma feeds_text_lines l : forall at_start,
  text_ok at_start l = true ->
  feeds (sc (if at_start then StNewTextLine else StInText) false [parseTextValue] []) l
        (sc StInText false [parseTextValue] []).
Proof.
  induction l as [|x l IH]; intros at_start Hok.
  - destruct at_start; [discriminate|]. apply feeds_nil.
  - cbn [text_ok] in Hok. destruct at_start.
    + apply andb_true_iff in Hok. destruct Hok as [Hx Hl]. apply negb_true_iff in Hx.
      eapply feeds_cons; [|exact (IH false Hl)].
      apply feeds_one with (op := scanTextLine); [|discriminate].
      intros z. now apply step_text_first.
    + destruct (x =? "010")%char eqn:E.
      * apply Ascii.eqb_eq in E. subst x.
        eapply feeds_cons; [|exact (IH true Hok)].
        apply feeds_one with (op := scanTextLine); [|discriminate].
        intros z. apply step_text_newline.
      * eapply feeds_cons; [|exact (IH false Hok)].
        apply feeds_one with (op := scanContinue); [|discriminate].
        intros z. now apply step_text_byte.
Qed.

Lemma feeds_text l :
  text_ok true l = true ->
  feeds (sc StOpenBlock false [parseTextValue] []) (nlc :: l ++ [nlc; "}"%char])
        (sc StBeginBlockLine true [] []).
Proof.
  intros Hok.
  eapply feeds_cons.
  { apply feeds_one with (op := scanSkipSpace); [|discriminate].
    intros z. apply step_text_open. }
  eapply feeds_app; [exact (feeds_text_lines l true Hok)|].
  eapply feeds_cons.
  { apply feeds_one with (op := scanTextLine); [|discriminate].
    intros z. apply step_text_newline. }
  apply feeds_one with (op := scanEndBlock); [|discriminate].
  intros z. apply step_text_close.
Qed.

(** *** Blocks and sequences *)

Lemma feeds_block n b eb :
  block_ok b = true ->
  feeds (sc StBeginBlockLine eb [] []) (enc n b) (sc StBeginBlockLine true [] []).
Proof.
  intros Hok.
  assert (Hh : exists name ty, tag_bytes b = list_ascii_of_string (tag_of name ty)
                               /\ header_ok name ty (kind_of b) = true).
  { destruct b as [nm ty c|nm ty c|nm ty c|nm ty|]; try discriminate;
      cbn [block_ok] in Hok; apply andb_true_iff in Hok; destruct Hok as [Hok _];
      exists nm, ty; auto. }
  destruct Hh as (name & ty & Etag & Hhd).
  destruct (header_ok_inv _ _ _ Hhd) as (Hkind & _).
  destruct (tag_shape _ _ Hkind) as (t0 & tr & Et & Hlow & Htr).
  unfold enc. rewrite Etag, Et.
  change ((t0 :: tr) ++ " "%char :: opener (kind_of b) :: body_bytes n b)
    with (t0 :: tr ++ [" "%char; opener (kind_of b)] ++ body_bytes n b).
  rewrite app_assoc.
  apply (feeds_app _ (t0 :: tr ++ [" "%char; opener (kind_of b)])
           (sc StOpenBlock false [parse_of (kind_of b)] [])).
  { apply feeds_head; [assumption|assumption|].
    rewrite <- Et, string_of_list_ascii_of_string. exact Hkind. }
  destruct b as [nm ty' c|nm ty' c|nm ty' c|nm ty'|]; try discriminate;
    cbn [block_ok] in Hok; apply andb_true_iff in Hok; destruct Hok as [_ Hok];
    cbn [kind_of parse_of body_bytes].
  - apply (feeds_dictionary n [" "%char] c [nlc]).
    + constructor; [reflexivity|constructor].
    + constructor; [reflexivity|constructor].
    + destruct c; [discriminate|exact Hok].
  - now apply feeds_text.
  - destruct c as [|v [|? ?]]; try discriminate.
    cbn [map List.concat]. rewrite app_nil_r, <- !app_assoc. cbn [app].
    now apply feeds_array.
Qed.

Lemma feeds_segs n tail :
  tail = [] \/ tail = [nlc] ->
  forall ds b eb,
    forallb block_ok (b :: ds) = true ->
    feeds (sc StBeginBlockLine eb [] []) (segs n tail (b :: ds))
          (sc StBeginBlockLine true [] []).
Proof.
  intros Htail.
  assert (Sp : forall l, Forall (fun x => isSpace x = true) l ->
               feeds (sc StBeginBlockLine true [] []) l (sc StBeginBlockLine true [] [])).
  { intros l F. apply feeds_steady with (op := scanSkipSpace); [|discriminate].
    eapply Forall_impl; [|exact F]. intros c Hc z. now apply step_between_space. }
  induction ds as [|b' ds IH]; intros b eb Hok;
    cbn [forallb] in Hok; apply andb_true_iff in Hok; destruct Hok as [Hb Hds].
  - cbn [segs]. eapply feeds_app; [now apply feeds_block|]. apply Sp.
    destruct Htail as [-> | ->]; repeat constructor.
  - change (segs n tail (b :: b' :: ds))
      with (enc n b ++ [nlc; nlc] ++ segs n tail (b' :: ds)).
    eapply feeds_app; [now apply feeds_block|].
    eapply feeds_app; [apply Sp; repeat constructor|].
    now apply IH.
Qed.

(** [checkValid] accepts the bytes of a canonical sequence and leaves the
    scanner between two blocks. *)
Lemma checkValid_canonical n tail ds scan :
  tail = [] \/ tail = [nlc] ->
  canonical ds = true ->
  exists z, checkValid (segs n tail ds) scan = Done (between z true, None).
Proof.
  intros Htail Hok. unfold canonical in Hok. destruct ds as [|b ds]; [discriminate|].
  eexists. apply checkValid_ok_iff. eexists. split.
  - exact (feeds_segs n tail Htail ds b false Hok (bytes scan)).
  - reflexivity.
Qed.

(** [Read] returns the blocks of a canonical sequence from its bytes. *)
Lemma Read_canonical n tail ds :
  tail = [] \/ tail = [nlc] ->
  canonical ds = true ->
  exists N, forall fuel, (N <= fuel)%nat ->
    Read fuel (segs (S n) tail ds) = Done (ds, None).
Proof.
  intros Htail Hok.
  destruct (checkValid_canonical (S n) tail ds zero Htail Hok) as (z & E).
  unfold canonical in Hok. destruct ds as [|b ds]; [discriminate|].
  destruct (value_spec (segs (S n) tail (b :: ds)) z n tail Htail ds b false 0%nat
              scanContinue [] []) as (N & A); [constructor|exact Hok|reflexivity|].
  exists N. intros fuel Hf. unfold Read. cbn [scan]. rewrite E. cbn [bind].
  unfold unmarshal, init. cbn [data off opcode_ scan].
  exact (A fuel Hf).
Qed.

(** The round trip from blocks: the bytes [Write] returns for a canonical
    sequence decode to that sequence. *)
Lemma round_trip cfg ds :
  config_ok cfg = true -> canonical ds = true ->
  exists bs, Write cfg ds = Done (bs, None)
    /\ exists N, forall fuel, (N <= fuel)%nat -> Read fuel bs = Done (ds, None).
Proof.
  intros Hcfg Hok.
  exists (segs (Z.to_nat (GetIndent cfg)) (tail_of cfg) ds). split.
  - now apply Write_canonical.
  - destruct (indent_ok cfg Hcfg) as (_ & n' & ->).
    apply Read_canonical; [|assumption].
    unfold tail_of. destruct (addTrailingLineEnd cfg); auto.
Qed.

End Validity.

(** ** A dictionary line without a value *)

Module Valueless.

Import Shapes Scanner Blocks Decoder Encoder Run Canon StepFacts Cursor ValidatorFacts.
Import DecodeDictionary DecodeBodies DecodeBlocks DecodeSequence Validity.

Lemma int64_small z : - 2 ^ 63 <= z < 2 ^ 63 -> int64 z = z.
Proof.
  intros H. unfold int64. rewrite Z.mod_small; lia.
Qed.

Lemma bump_small n : forall z,
  0 <= z -> z + Z.of_nat n < 2 ^ 63 -> bump n z = z + Z.of_nat n.
Proof.
  induction n as [|n IH]; intros z H0 H; cbn [bump].
  - lia.
  - rewrite int64_small by lia. rewrite IH; lia.
Qed.

Lemma feeds_key st k :
  before_key st -> key_ok k = true ->
  feeds (sc st false [parseDictionaryKey] []) (list_ascii_of_string k)
        (sc StInKey false [parseDictionaryKey] []).
Proof.
  intros Hst Hk.
  destruct (key_ok_inv _ Hk) as (k0 & kr & Ek & K1 & K2 & K3 & K4). rewrite Ek.
  eapply feeds_cons.
  { apply feeds_one with (op := scanContinue); [|discriminate].
    intros z. now apply step_key_first. }
  apply feeds_steady with (op := scanContinue); [|discriminate].
  eapply Forall_impl; [|exact K4]. intros c Hc z. now apply step_key_byte.
Qed.

(** The loop of [checkValid] stops on the byte that makes the scanner
    return [scanError]. *)
Lemma feed_stops a l st eb ps tn c r e :
  feeds a l (sc st eb ps tn) ->
  (forall z, step (mkScanner st eb ps None z tn) c = Done (e z, scanError)) ->
  forall z, feed (a z) (l ++ c :: r) = Done (e (bump (List.length l + 1) z), true).
Proof.
  intros F H z. rewrite feed_app, F. cbn [bind feed]. unfold sc at 1, set_bytes.
  cbn [step_fn endBlock parseState err bytes tagName].
  rewrite H. cbn [bind]. rewrite opcode_eqb_refl. now rewrite bump_add.
Qed.

Lemma spaces_are_space l :
  Forall (fun x => x = " "%char) l -> Forall (fun x => isSpace x = true) l.
Proof. intros F. eapply Forall_impl; [|exact F]. now intros c ->. Qed.

Section Line.

Variables name type_ : string.
Variable ind : list byte.
Variable k : string.

Hypothesis Hheader : header_ok name type_ dictionaryBlock = true.
Hypothesis Hind : Forall (fun x => x = " "%char) ind.
Hypothesis Hkey : key_ok k = true.

Lemma feeds_to_body : forall t0 tr,
  list_ascii_of_string (tag_of name type_) = t0 :: tr ->
  feeds (sc StBeginBlockLine false [] [])
        ((t0 :: tr ++ [" "%char; "{"%char]) ++ nlc :: ind)
        (sc StOpenBlock false [parseDictionaryKey] []).
Proof.
  intros t0 tr Et.
  destruct (header_ok_inv _ _ _ Hheader) as (Hkind & _).
  destruct (tag_shape _ _ Hkind) as (t0' & tr' & Et' & Hlow & Htr).
  rewrite Et in Et'. injection Et' as <- <-.
  eapply feeds_app.
  - apply (feeds_head dictionaryBlock); [assumption|assumption|].
    rewrite <- Et, string_of_list_ascii_of_string. exact Hkind.
  - apply feeds_key_spaces; [now left|].
    constructor; [reflexivity|now apply spaces_are_space].
Qed.

(** Without a colon the newline after the key is an error. *)
Lemma Read_no_colon fuel :
  Read fuel (valueless name type_ ind k false)
  = Done ([], Some (ESyntax (mkSyntaxError "invalid character '\n' in key"
                               (bump (line_end name type_ ind k) 0)))).
Proof.
  destruct (header_ok_inv _ _ _ Hheader) as (Hkind & _).
  destruct (tag_shape _ _ Hkind) as (t0 & tr & Et & Hlow & Htr).
  assert (F := feeds_app _ _ _ _ _ (feeds_to_body t0 tr Et)
                 (feeds_key StOpenBlock k (or_introl eq_refl) Hkey)).
  assert (E : valueless name type_ ind k false
              = (((t0 :: tr ++ [" "%char; "{"%char]) ++ nlc :: ind)
                 ++ list_ascii_of_string k) ++ nlc :: ["}"%char]).
  { unfold valueless. rewrite Et.
    repeat first [rewrite <- app_assoc | progress cbn [app]]. reflexivity. }
  assert (L : (List.length (((t0 :: tr ++ [" "%char; "{"%char]) ++ nlc :: ind)
                             ++ list_ascii_of_string k) + 1
               = line_end name type_ ind k)%nat).
  { unfold line_end. rewrite Et.
    repeat first [rewrite length_app | progress cbn [List.length app]]. lia. }
  unfold Read. cbn [scan]. unfold checkValid. rewrite checkValid_loop_feed, E.
  change (reset zero) with (sc StBeginBlockLine false [] [] 0).
  rewrite (feed_stops _ _ _ _ _ _ _ _ _ F (fun z => step_key_newline z)).
  cbn [bind err]. rewrite L. reflexivity.
Qed.

(** With a colon and nothing after it the pair has the empty value. *)
Lemma Read_colon :
  exists N, forall fuel, (N <= fuel)%nat ->
    Read fuel (valueless name type_ ind k true)
    = Done ([DictionaryBlock name type_ [mkDictionaryElement k ""]], None).
Proof.
  destruct (header_ok_inv _ _ _ Hheader) as (Hkind & f & Hcut).
  destruct (tag_shape _ _ Hkind) as (t0 & tr & Et & Hlow & Htr).
  set (e := mkDictionaryElement k "").
  set (D := valueless name type_ ind k true).
  assert (He : forallb pair_ok [e] = true).
  { cbn [forallb]. unfold pair_ok. cbn [Key Value e]. now rewrite Hkey. }
  assert (Hws : Forall (fun x => isSpace x = true) (nlc :: ind)).
  { constructor; [reflexivity|now apply spaces_are_space]. }
  assert (E : D = (t0 :: tr ++ [" "%char; "{"%char])
                  ++ (nlc :: ind) ++ pairs_bytes 0 [] [e] ++ ["}"%char]).
  { unfold D, valueless, e. rewrite Et.
    cbn [pairs_bytes repeat]. unfold pair_bytes. cbn [Key Value list_ascii_of_string].
    repeat first [rewrite <- app_assoc | rewrite app_nil_r | progress cbn [app]].
    reflexivity. }
  (* the validity pass *)
  assert (V : exists z, checkValid D zero = Done (between z true, None)).
  { eexists. apply checkValid_ok_iff. eexists. split.
    - change (reset zero) with (sc StBeginBlockLine false [] [] 0). rewrite E.
      refine (feeds_app _ _ _ _ _ _ _ 0).
      + apply (feeds_head dictionaryBlock t0 tr false); [assumption|assumption|].
        rewrite <- Et, string_of_list_ascii_of_string. exact Hkind.
      + apply feeds_dictionary; [exact Hws|constructor|exact He].
    - reflexivity. }
  destruct V as (z & V).
  (* the decoding pass *)
  assert (H0 : skipn 0 D = t0 :: tr ++ " "%char :: opener dictionaryBlock
                                :: (nlc :: ind) ++ pair_bytes [] e ++ "}"%char :: []).
  { cbn [skipn]. rewrite E. cbn [pairs_bytes repeat opener].
    repeat first [rewrite <- app_assoc | rewrite app_nil_r | progress cbn [app]].
    reflexivity. }
  destruct (block_head D z dictionaryBlock name type_ f 0%nat t0 tr _ Hkind Hcut Et Htr H0)
    as (q & Hq & Head).
  destruct (dictionary_loop_spec D z 0 [] [] e StOpenBlock q scanBeginDictionary
              (nlc :: ind) [] []) as (q' & A1 & A2);
    [now left|discriminate|exact Hws|constructor|exact He|exact Hq|].
  exists (List.length tr + 4)%nat. intros fuel Hf.
  unfold Read. cbn [scan]. rewrite V. cbn [bind].
  unfold unmarshal, init. cbn [data off opcode_ scan].
  change (reset (between z true)) with (between z false).
  destruct fuel as [|fuel]; [lia|].
  rewrite value_S.
  change (mkDecodeState D 0 scanContinue (between z false))
    with (mkDecodeState D (Z.of_nat 0) scanContinue (between z false)).
  rewrite (scanWhile_at D 0 scanContinue (between z false) scanSkipSpace [] t0 _
             (readingTag z [t0]) scanBeginTag H0);
    [|constructor|now apply step_begin_tag|discriminate].
  cbn [bind opcode_]. rewrite (opcode_eqb_neq scanBeginTag) by discriminate.
  change (S (0 + List.length (@nil byte))) with 1%nat.
  rewrite Head by lia. cbn [begin_op parse_of]. cbv zeta.
  unfold inDict in A2. rewrite A2 by (simpl; lia). cbn [bind app empty_block SetContent].
  erewrite scanNext_end; [|exact A1|apply eof_between].
  cbn [bind]. apply value_end; [|lia].
  apply skipn_all2. lia.
Qed.

End Line.

End Valueless.

(** ** The round trip, and dictionary lines without a value *)

Module RoundTrip.

Import Shapes Scanner Blocks Decoder Encoder Run Canon Samples StepFacts Cursor ValidatorFacts.
Import DecodeDictionary DecodeBodies DecodeBlocks DecodeSequence Validity Valueless.

(** Three sequences that [Read] returns and that do not come back from the
    bytes [Write] makes of them: the array of two elements is written as two lines that the
    validator rejects at the second; with the line separator [,] the pair
    of a dictionary that is not the last comes back with the separator in its
    value; and the empty sequence, returned for a buffer that starts with an
    uppercase letter, is written as no byte at all, which is rejected. *)
Lemma sequences_that_do_not_come_back :
  (Read 20 arrayTwo = Done ([ArrayBlock "vars" "secret" ["a"; "b"]], None)
   /\ exists bs, Write default [ArrayBlock "vars" "secret" ["a"; "b"]] = Done (bs, None)
      /\ forall fuel, Read fuel bs =
           Done ([], Some (ESyntax
             (mkSyntaxError "invalid character 'b' after array element" 21))))
  /\ (Read 20 twoPairs = Done (twoPairsBlocks, None)
      /\ exists bs, Write (mkEncoder 2 "," false) twoPairsBlocks = Done (bs, None)
         /\ Read 20 bs =
              Done ([DictionaryBlock "meta" ""
                       [mkDictionaryElement "a" "1,"; mkDictionaryElement "b" "2"]], None))
  /\ (Read 20 upperStart = Done ([], None)
      /\ Write default [] = Done ([], None)
      /\ forall fuel, Read fuel [] =
           Done ([], Some (ESyntax (mkSyntaxError "unexpected end of Bru input" 0)))).
Proof.
  split; [|split].
  - split; [vm_compute; reflexivity|].
    eexists. split; [vm_compute; reflexivity|].
    intros fuel. vm_compute. reflexivity.
  - split; [vm_compute; reflexivity|].
    eexists. split; [vm_compute; reflexivity|]. vm_compute. reflexivity.
  - split; [vm_compute; reflexivity|]. split; [vm_compute; reflexivity|].
    intros fuel. vm_compute. reflexivity.
Qed.



Lemma Write_single_pair cfg name ty e :
  Write cfg [DictionaryBlock name ty [e]]
  = Write (mkEncoder (indent cfg) "" (addTrailingLineEnd cfg))
      [DictionaryBlock name ty [e]].
Proof. reflexivity. Qed.

Lemma Write_negative_indent cfg name ty e :
  indent cfg < 0 -> Write cfg [DictionaryBlock name ty [e]] = Panic.
Proof.
  intros H. unfold Write, marshal, marshal_block. cbn [GetName GetType bind].
  cbn [marshal_pairs]. unfold Repeat, GetIndent.
  destruct (Z.eqb_spec (indent cfg) 0); [lia|]. cbn [negb].
  destruct (Z.ltb_spec (indent cfg) 0); [|lia]. reflexivity.
Qed.

(** The buffer [meta {], a line with a tab before
    [a: 1], and [}] validates and decodes to one dictionary of one pair; no
    configuration encodes that sequence to the bytes of the buffer, since
    the encoder indents with spaces. *)
Lemma tabbed_is_not_written_back :
  (exists s, checkValid tabbed zero = Done (s, None))
  /\ Read 20 tabbed = Done (tabbedBlocks, None)
  /\ forall cfg, Write cfg tabbedBlocks <> Done (tabbed, None).
Proof.
  split; [eexists; vm_compute; reflexivity|].
  split; [vm_compute; reflexivity|].
  intros cfg H. unfold tabbedBlocks in H.
  destruct (Z.ltb_spec (indent cfg) 0) as [Hn|Hn].
  - rewrite Write_negative_indent in H by assumption. discriminate.
  - rewrite Write_single_pair in H.
    set (cfg' := mkEncoder (indent cfg) "" (addTrailingLineEnd cfg)) in H.
    assert (Hcfg : config_ok cfg' = true).
    { unfold config_ok, cfg'. cbn [indent lineSep].
      apply andb_true_iff. split; [now apply Z.leb_le|reflexivity]. }
    rewrite (Write_canonical cfg' Hcfg) in H by (vm_compute; reflexivity).
    destruct (indent_ok cfg' Hcfg) as (_ & n' & E). rewrite E in H.
    cbn [segs enc tag_bytes kind_of opener body_bytes pairs_bytes repeat app] in H.
    vm_compute in H. discriminate.
Qed.

(** X2. For every configuration with an indent that is not
    negative and an empty line separator, and every buffer in the layout of
    that configuration (the bytes [segs] of a canonical sequence: a header, a
    space and the opening byte, each pair or element on a line of its own
    after exactly the indent of the configuration, one space after the colon,
    the closing byte on a line of its own, one empty line between two blocks,
    and a last newline exactly when [addTrailingLineEnd] is set), the buffer
    validates, and with enough fuel [Read] returns a sequence that [Write]
    encodes with that configuration to exactly the bytes of the buffer. *)
Theorem Write_of_Read_canonical (cfg : Encoder) (ds : list ContentBlock) :
  config_ok cfg = true -> canonical ds = true ->
  let B := segs (Z.to_nat (GetIndent cfg)) (tail_of cfg) ds in
  (exists s, checkValid B zero = Done (s, None))
  /\ exists N, forall fuel, (N <= fuel)%nat ->
       exists S, Read fuel B = Done (S, None) /\ Write cfg S = Done (B, None).
Proof.
  intros Hcfg Hok B.
  assert (Htail : tail_of cfg = [] \/ tail_of cfg = [nlc])
    by (unfold tail_of; destruct (addTrailingLineEnd cfg); auto).
  split.
  - destruct (checkValid_canonical (Z.to_nat (GetIndent cfg)) (tail_of cfg) ds zero Htail Hok)
      as (z & E).
    eexists. exact E.
  - assert (R : exists N, forall fuel, (N <= fuel)%nat -> Read fuel B = Done (ds, None)).
    { unfold B. destruct (indent_ok cfg Hcfg) as (_ & n' & ->).
      now apply Read_canonical. }
    destruct R as (N & R). exists N. intros fuel Hf. exists ds. split.
    + now apply R.
    + now apply Write_canonical.
Qed.

Lemma Write_of_Read_canonical_witness :
  exists N, forall fuel, (N <= fuel)%nat ->
    exists S, Read fuel threeBlocksBytes = Done (S, None)
              /\ Write (mkEncoder 4 "" true) S = Done (threeBlocksBytes, None).
Proof.
  refine (proj2 (Write_of_Read_canonical (mkEncoder 4 "" true) threeBlocks _ _));
    vm_compute; reflexivity.
Defined.

(** The dictionary line [key] with no colon is not
    decoded to a pair: the buffer [meta {], [key], [}] is rejected with
    "invalid character '\n' in key" at offset 11, the newline that ends the
    line. *)
Lemma noColon_is_rejected :
  noColon = valueless "meta" "" [] "key" false
  /\ forall fuel,
       Read fuel noColon =
       Done ([], Some (ESyntax (mkSyntaxError "invalid character '\n' in key" 11))).
Proof.
  split; [reflexivity|]. intros fuel. vm_compute. reflexivity.
Qed.

(** X3. In a block of any dictionary tag, a single line made of
    spaces, a key (not empty, of plain bytes other than the colon, not
    starting with a space or a closing brace) and a colon followed by the
    newline decodes, with enough fuel, to the pair of that key and the empty
    string.  The same line without the colon is rejected by [Read] with
    "invalid character '\n' in key"; the offset is the byte counter after the
    newline that ends the line, which is the number of bytes up to it when
    that number fits an int64. *)
Theorem Read_valueless_line (name type_ : string) (ind : list byte) (k : string) :
  header_ok name type_ dictionaryBlock = true ->
  Forall (fun x => x = " "%char) ind ->
  key_ok k = true ->
  eventually (fun fuel => Read fuel (valueless name type_ ind k true))
    ([DictionaryBlock name type_ [mkDictionaryElement k ""]], None)
  /\ (forall fuel,
        Read fuel (valueless name type_ ind k false)
        = Done ([], Some (ESyntax (mkSyntaxError "invalid character '\n' in key"
                                     (bump (line_end name type_ ind k) 0)))))
  /\ (Z.of_nat (line_end name type_ ind k) < 2 ^ 63 ->
      bump (line_end name type_ ind k) 0 = Z.of_nat (line_end name type_ ind k)).
Proof.
  intros Hh Hind Hk. split; [|split].
  - destruct (Read_colon name type_ ind k Hh Hind Hk) as (N & R). exists N. exact R.
  - intros fuel. now apply Read_no_colon.
  - intros H. rewrite bump_small; lia.
Qed.

Lemma Read_valueless_line_witness :
  eventually (fun fuel => Read fuel (valueless "post" "" [" "%char; " "%char] "url" true))
    ([DictionaryBlock "post" "" [mkDictionaryElement "url" ""]], None).
Proof.
  refine (proj1 (Read_valueless_line "post" "" [" "%char; " "%char] "url" _ _ _)).
  - vm_compute. reflexivity.
  - repeat constructor.
  - vm_compute. reflexivity.
Defined.

End RoundTrip.

(** ** What the decoder keeps on any buffer *)

Module DecoderInvariant.

Import Shapes Scanner Blocks Decoder Run Canon ScannerFacts ValidatorFacts StepFacts.
Import DecodeDictionary DecodeBlocks.

(** *** Transitions *)

Lemma step_error s c : step_fn s = StError -> step s c = Done (s, scanError).
Proof. unfold step. now intros ->. Qed.

Lemma step_waiting s c s' op :
  SInv s -> step_fn s = StWaitingForOpenBlock -> step s c = Done (s', op) ->
  (op = scanSkipSpace /\ s' = s)
  \/ op = scanBeginDictionary \/ op = scanBeginArray \/ op = scanBeginText
  \/ op = scanError.
Proof.
  destruct s as [st eb ps er by_ tn]. unfold SInv, step. cbn [step_fn].
  intros H ->. cbn [parseState endBlock err] in H. destruct H as ([p ->] & -> & ->).
  unfold stateWaitingForOpenBlock, top, Scanner.error, set_step. cbn.
  destruct (isSpace c).
  - intros E. inversion E. auto.
  - destruct p; cbn; try (destruct (c =? "{")%char); try (destruct (c =? "[")%char);
      intros E; inversion E; auto 6.
Qed.

(** Only the end of a known tag returns [scanEndTag], and the scanner then
    waits for the opening byte. *)
Lemma step_end_tag_state s c s' :
  SInv s -> step s c = Done (s', scanEndTag) -> step_fn s' = StWaitingForOpenBlock.
Proof.
  destruct s as [st eb ps er by_ tn]. unfold SInv, step. cbn [step_fn].
  destruct st; cbn [parseState endBlock err]; intros H.
  all: try (destruct H as ([p ->] & -> & ->)).
  all: try (destruct H as (-> & -> & ->)).
  all: try (destruct H as (-> & ->)).
  all: try solve [
    unfold stateBeginBlockLine, stateWaitingForOpenBlock, stateOpenBlock,
      stateEndValue, stateNewDictionaryPair, stateNewArrayValue, stateNewTextLine,
      stateInText, stateInKey, stateBeginDictionaryValue, stateInValue,
      stateInStringEsc, stateInStringEscU, stateInStringEscU1, stateInStringEscU12,
      stateInStringEscU123, stateInStringEscUn, stateError,
      stateEndValue, top, popParseState, Scanner.error, set_step, set_top, set_parseState;
    cbn; try destruct p; cbn; brk; cbn; intros E; discriminate E ].
  (* reading a tag *)
  unfold stateReadingTag. destruct (isSpace c).
  - rewrite checkTag_kind. simpl.
    destruct (tag_kind (string_of_list_ascii tn)) as [k|].
    + rewrite pushParseState_empty by reflexivity. intros E. inversion E. reflexivity.
    + intros E. discriminate E.
  - intros E. discriminate E.
Qed.

Lemma eof_opcode s s' op : eof s = Done (s', op) -> op = scanEnd \/ op = scanError.
Proof.
  unfold eof. destruct (err s); [intros E; inversion E; auto|].
  destruct (endBlock s); [intros E; inversion E; auto|].
  destruct (step s " "%char) as [[s1 o]| |]; cbn; try discriminate.
  destruct (endBlock s1); [intros E; inversion E; auto|].
  destruct (err s1); intros E; inversion E; auto.
Qed.

(** [eof] leaves the scanner in a state it answers the same in. *)
Lemma eof_again s s' op : SInv s -> eof s = Done (s', op) -> eof s' = Done (s', op).
Proof.
  intros H. unfold eof at 1. destruct (err s) eqn:Er.
  { intros E. inversion E; subst. unfold eof. now rewrite Er. }
  destruct (endBlock s) eqn:Eb.
  { intros E. inversion E; subst. unfold eof. now rewrite Er, Eb. }
  destruct (step_inv s " "%char H) as (s1 & o & E1 & H1 & _). rewrite E1. cbn [bind].
  destruct (endBlock s1) eqn:Eb1.
  { intros E. inversion E; subst. unfold eof.
    now rewrite (SInv_endBlock _ H1 Eb1), Eb1. }
  destruct (err s1) eqn:Er1; intros E; inversion E; subst.
  - unfold eof. now rewrite Er1.
  - reflexivity.
Qed.

(** *** The primitives of the decoder *)

Lemma Live_step d c s' op i :
  Live d -> step (scan d) c = Done (s', op) -> 0 <= i ->
  Live (mkDecodeState (data d) i op s').
Proof.
  intros (H & _ & _) E Hi.
  destruct (step_inv _ c H) as (s1 & o & E1 & H1 & X).
  rewrite E in E1. inversion E1; subst s1 o.
  unfold Live. cbn [scan off opcode_].
  split; [exact H1|]. split; [exact Hi|].
  split; [|exact X].
  intros O. rewrite O in E. exact (step_end_tag_state _ _ _ H E).
Qed.

Lemma Ended_eof d s' op :
  DInv d -> eof (scan d) = Done (s', op) ->
  Ended (mkDecodeState (data d) (len d + 1) op s').
Proof.
  intros [H|H] E; unfold Ended, len; cbn [data off scan opcode_].
  - split; [lia|]. destruct H as (H & _). eapply eof_again; eauto.
  - destruct H as (_ & H). rewrite H in E. inversion E; subst. split; [lia|assumption].
Qed.

Lemma scanNext_inv d d' : DInv d -> scanNext d = Done d' -> DInv d'.
Proof.
  intros H. unfold scanNext. destruct (Z.ltb_spec (off d) (len d)) as [L|L].
  - intros E. apply bind_Done in E. destruct E as (c & _ & E).
    apply bind_Done in E. destruct E as ([s' op] & E1 & E). inversion E; subst.
    destruct H as [H|H]; [|destruct H as (H & _); lia].
    left. eapply Live_step; eauto. destruct H as (_ & H & _). lia.
  - intros E. apply bind_Done in E. destruct E as ([s' op] & E1 & E). inversion E; subst.
    right. now apply Ended_eof.
Qed.

Lemma scanWhile_from_inv d op rest : forall s i o,
  Live (mkDecodeState (data d) i o s) ->
  forall d', scanWhile_from d op rest s i = Done d' -> DInv d'.
Proof.
  induction rest as [|c rest IH]; intros s i o H d'; cbn [scanWhile_from].
  - intros E. apply bind_Done in E. destruct E as ([s' o'] & E1 & E). inversion E; subst.
    right. apply (Ended_eof (mkDecodeState (data d) i o s)); [now left|exact E1].
  - intros E. apply bind_Done in E. destruct E as ([s' o'] & E1 & E).
    assert (L : Live (mkDecodeState (data d) (i + 1) o' s')).
    { apply (Live_step (mkDecodeState (data d) i o s) c); auto.
      destruct H as (_ & H & _). cbn [off] in H. lia. }
    destruct (opcode_eqb o' op).
    + eapply IH; eauto.
    + inversion E; subst. now left.
Qed.

Lemma skipn_past {A} (l : list A) n : (List.length l <= n)%nat -> skipn n l = [].
Proof. apply skipn_all2. Qed.

Lemma scanWhile_inv d op d' : DInv d -> scanWhile d op = Done d' -> DInv d'.
Proof.
  intros H. unfold scanWhile. destruct (Z.ltb_spec (off d) 0); [discriminate|].
  destruct H as [H|H].
  - apply (scanWhile_from_inv d op _ _ _ (opcode_ d)). now destruct d.
  - destruct H as (L & E). rewrite skipn_past by (unfold len in L; lia).
    cbn [scanWhile_from]. rewrite E. cbn [bind]. intros X. inversion X; subst.
    right. split; cbn [data off scan opcode_]; [unfold len; cbn [data]; lia|assumption].
Qed.

Lemma scanUntil_inv stop : forall fuel d d',
  DInv d -> scanUntil fuel stop d = Done d' -> DInv d' /\ stop (opcode_ d') = true.
Proof.
  induction fuel as [|fuel IH]; intros d d' H; cbn [scanUntil]; [discriminate|].
  destruct (stop (opcode_ d)) eqn:S.
  - intros E. inversion E; subst. auto.
  - intros E. apply bind_Done in E. destruct E as (d1 & E1 & E).
    eapply IH; [|exact E]. eapply scanNext_inv; eauto.
Qed.

(** After the opcode [scanEndTag] the scanner waits for the opening byte. *)
Lemma DInv_end_tag d :
  DInv d -> opcode_ d = scanEndTag ->
  Live d /\ step_fn (scan d) = StWaitingForOpenBlock.
Proof.
  intros [H|H] E.
  - split; [assumption|]. destruct H as (_ & _ & H & _). auto.
  - destruct H as (_ & H). apply eof_opcode in H. rewrite E in H.
    destruct H; discriminate.
Qed.

Lemma scanWhile_from_waiting d rest : forall s i d',
  SInv s -> step_fn s = StWaitingForOpenBlock ->
  scanWhile_from d scanSkipSpace rest s i = Done d' -> opens_or_fails (opcode_ d').
Proof.
  induction rest as [|c rest IH]; intros s i d' H W; cbn [scanWhile_from].
  - assert (E : eof s = Done (set_err s (Some (mkSyntaxError "unexpected end of Bru input"
                                                   (bytes s))), scanError)).
    { destruct s as [st eb ps er by_ tn]. cbn [step_fn] in W. subst st.
      unfold SInv in H. cbn [step_fn parseState endBlock err] in H.
      destruct H as ([p ->] & -> & ->). reflexivity. }
    rewrite E. cbn [bind]. intros X. inversion X; subst. cbn [opcode_].
    right. right. now right.
  - intros E. apply bind_Done in E. destruct E as ([s' o'] & E1 & E).
    destruct (step_waiting s c s' o' H W E1) as [[-> ->]|X].
    + change (opcode_eqb scanSkipSpace scanSkipSpace) with true in E. cbv iota in E.
      eapply IH; eauto.
    + assert (N : opcode_eqb o' scanSkipSpace = false).
      { destruct X as [X | [X | [X | X]]]; rewrite X; reflexivity. }
      rewrite N in E. inversion E; subst. exact X.
Qed.

Lemma scanWhile_waiting d d' :
  Live d -> step_fn (scan d) = StWaitingForOpenBlock ->
  scanWhile d scanSkipSpace = Done d' -> opens_or_fails (opcode_ d').
Proof.
  intros (H & _) W. unfold scanWhile. destruct (off d <? 0); [discriminate|].
  now apply scanWhile_from_waiting.
Qed.

(** *** After an error *)

Lemma Doomed_eof d s' op : Doomed d -> eof (scan d) = Done (s', op) -> op = scanError.
Proof.
  intros (O & [H|H]) E.
  - destruct H as (H & _ & _ & X). specialize (X O).
    assert (N := SInv_err _ H X). unfold eof in E.
    destruct (err (scan d)); [now inversion E|congruence].
  - destruct H as (_ & H). rewrite H in E. inversion E; congruence.
Qed.

Lemma Doomed_step d c s' op :
  Doomed d -> Live d -> step (scan d) c = Done (s', op) -> op = scanError /\ s' = scan d.
Proof.
  intros (O & _) (_ & _ & _ & X) E. rewrite (step_error _ c (X O)) in E.
  inversion E; auto.
Qed.

Lemma scanNext_doomed d d' : Doomed d -> scanNext d = Done d' -> Doomed d'.
Proof.
  intros H E. split; [|eapply scanNext_inv; [apply H|exact E]].
  revert E. unfold scanNext. destruct (Z.ltb_spec (off d) (len d)) as [L|L]; intros E.
  - apply bind_Done in E. destruct E as (c & _ & E).
    apply bind_Done in E. destruct E as ([s' op] & E1 & E). inversion E; subst.
    destruct H as (O & [H|H]).
    + now destruct (Doomed_step d c s' op (conj O (or_introl H)) H E1).
    + destruct H as (H & _). lia.
  - apply bind_Done in E. destruct E as ([s' op] & E1 & E). inversion E; subst.
    eapply Doomed_eof; eauto.
Qed.

Lemma scanWhile_doomed d op d' :
  Doomed d -> op <> scanError -> scanWhile d op = Done d' -> Doomed d'.
Proof.
  intros H N E. split; [|eapply scanWhile_inv; [apply H|exact E]].
  revert E. unfold scanWhile. destruct (off d <? 0); [discriminate|].
  destruct (skipn (Z.to_nat (off d)) (data d)) as [|c rest] eqn:Sk;
    cbn [scanWhile_from]; intros E.
  - apply bind_Done in E. destruct E as ([s' o'] & E1 & E). inversion E; subst.
    eapply Doomed_eof; eauto.
  - apply bind_Done in E. destruct E as ([s' o'] & E1 & E).
    destruct H as (O & [H|H]).
    + destruct (Doomed_step d c s' o' (conj O (or_introl H)) H E1) as [-> _].
      rewrite (opcode_eqb_neq scanError op) in E by congruence.
      now inversion E.
    + exfalso. destruct H as (L & _).
      rewrite skipn_past in Sk by (unfold len in L; lia). discriminate.
Qed.

Lemma scanUntil_doomed stop : forall fuel d d',
  Doomed d -> stop scanError = false -> scanUntil fuel stop d = Done d' -> False.
Proof.
  induction fuel as [|fuel IH]; intros d d' H S; cbn [scanUntil]; [discriminate|].
  assert (O := proj1 H). rewrite O, S. intros E.
  apply bind_Done in E. destruct E as (d1 & E1 & E).
  eapply IH; [|exact S|exact E]. eapply scanNext_doomed; eassumption.
Qed.

Lemma block_doomed fuel d r : Doomed d -> block fuel d = Done r -> False.
Proof.
  intros H E. unfold block in E. apply bind_Done in E. destruct E as (d1 & E1 & _).
  eapply scanUntil_doomed; [exact H| |exact E1]. reflexivity.
Qed.

(** After an error the loop of [value] returns nothing. *)
Lemma value_doomed fuel d acc r : Doomed d -> value fuel d acc = Done r -> False.
Proof.
  intros H. destruct fuel as [|fuel]; cbn [value]; [discriminate|]. intros E.
  apply bind_Done in E. destruct E as (d1 & E1 & E).
  assert (H1 : Doomed d1)
    by (apply (scanWhile_doomed d scanSkipSpace d1 H); [discriminate|exact E1]).
  rewrite (proj1 H1) in E. change (opcode_eqb scanError scanEnd) with false in E.
  cbv iota in E. apply bind_Done in E. destruct E as (r1 & E2 & _).
  eapply block_doomed; eassumption.
Qed.

(** *** The loops over a body *)

Lemma dictionary_loop_inv : forall fuel d dic d' dic',
  DInv d -> dictionary_loop fuel d dic = Done (d', dic') -> DInv d'.
Proof.
  induction fuel as [|fuel IH]; intros d dic d' dic' H; cbn [dictionary_loop];
    [discriminate|].
  destruct (opcode_eqb (opcode_ d) scanEndBlock).
  - intros E. inversion E; subst. assumption.
  - intros E. apply bind_Done in E. destruct E as (d1 & E1 & E). cbv zeta in E.
    apply bind_Done in E. destruct E as (d2 & E2 & E).
    apply bind_Done in E. destruct E as (key & _ & E).
    apply bind_Done in E. destruct E as (d3 & E3 & E).
    apply bind_Done in E. destruct E as ([d4 v] & E4 & E).
    apply bind_Done in E. destruct E as (d5 & E5 & E).
    assert (H3 : DInv d3) by eauto using scanWhile_inv.
    assert (H4 : DInv d4).
    { destruct (negb (opcode_eqb (opcode_ d3) scanDictionaryKey)).
      - apply bind_Done in E4. destruct E4 as (d6 & E6 & E4).
        apply bind_Done in E4. destruct E4 as (v' & _ & E4). inversion E4; subst.
        eauto using scanWhile_inv.
      - inversion E4; subst. assumption. }
    eapply IH; [|exact E]. eauto using scanNext_inv.
Qed.

Lemma array_loop_inv : forall fuel d dic d' dic',
  DInv d -> array_loop fuel d dic = Done (d', dic') -> DInv d'.
Proof.
  induction fuel as [|fuel IH]; intros d dic d' dic' H; cbn [array_loop];
    [discriminate|].
  destruct (opcode_eqb (opcode_ d) scanEndArray).
  - intros E. inversion E; subst. assumption.
  - intros E. apply bind_Done in E. destruct E as (d1 & E1 & E). cbv zeta in E.
    apply bind_Done in E. destruct E as (d2 & E2 & E).
    apply bind_Done in E. destruct E as (v & _ & E).
    apply bind_Done in E. destruct E as (d3 & E3 & E).
    eapply IH; [|exact E]. eauto using scanNext_inv, scanWhile_inv.
Qed.

Lemma text_loop_inv : forall fuel d dic d' dic',
  DInv d -> text_loop fuel d dic = Done (d', dic') -> DInv d'.
Proof.
  induction fuel as [|fuel IH]; intros d dic d' dic' H; cbn [text_loop];
    [discriminate|].
  destruct (opcode_eqb (opcode_ d) scanEndBlock).
  - intros E. inversion E; subst. assumption.
  - intros E. cbv zeta in E. apply bind_Done in E. destruct E as (d1 & E1 & E).
    apply bind_Done in E. destruct E as (v & _ & E).
    apply bind_Done in E. destruct E as (d2 & E2 & E).
    eapply IH; [|exact E]. eauto using scanNext_inv, scanWhile_inv.
Qed.

(** *** The block a tag names *)

(** Name and type of a tag of the table make the tag again. *)
Lemma cut_tag_of tag k :
  tag_kind tag = Some k -> let '(n, t, _) := cut tag in tag_of n t = tag.
Proof.
  intros H. apply lookup_tag_In in H. unfold tags in H.
  repeat (destruct H as [<-|H]; [reflexivity|]). destruct H.
Qed.

Lemma getBlockForTag_table tag blk :
  getBlockForTag tag = Done (blk, None) ->
  exists k name ty, blk = empty_block k name ty /\ tag_kind (tag_of name ty) = Some k.
Proof.
  rewrite getBlockForTag_kind. destruct (tag_kind tag) as [k|] eqn:K; [|discriminate].
  assert (C := cut_tag_of tag k K). destruct (cut tag) as [[n t] f].
  intros E. injection E as <-. exists k, n, t. split; [reflexivity|]. now rewrite C.
Qed.

Lemma SetContent_table k name ty c blk :
  tag_kind (tag_of name ty) = Some k ->
  SetContent (empty_block k name ty) c = Done (blk, None) -> from_table blk.
Proof.
  intros K E. exists k.
  destruct k, c; cbn in E; inversion E; subst; cbn [variant tag_of_block]; auto.
Qed.

Lemma opcode_eqb_true a b : opcode_eqb a b = true -> a = b.
Proof. unfold opcode_eqb. destruct (opcode_eq_dec a b); [auto|discriminate]. Qed.

(** [block] returns a block of the table, or a nil block after an error of
    the scanner. *)
Lemma block_inv fuel d d' blk :
  DInv d -> block fuel d = Done (d', blk, None) ->
  DInv d' /\ (from_table blk \/ Doomed d').
Proof.
  intros H E. unfold block in E.
  apply bind_Done in E. destruct E as (d1 & E1 & E). cbv zeta in E.
  apply bind_Done in E. destruct E as (d2 & E2 & E).
  apply bind_Done in E. destruct E as (blockName & _ & E).
  apply bind_Done in E. destruct E as ([blk0 e0] & E4 & E).
  destruct e0 as [e0|]; [inversion E|].
  apply bind_Done in E. destruct E as (d3 & E5 & E).
  destruct (getBlockForTag_table _ _ E4) as (k & name & ty & -> & K).
  destruct (scanUntil_inv _ _ _ _ H E1) as (H1 & _).
  destruct (scanUntil_inv _ _ _ _ H1 E2) as (H2 & O2). apply opcode_eqb_true in O2.
  destruct (DInv_end_tag _ H2 O2) as (L2 & W2).
  assert (H3 : DInv d3) by eauto using scanWhile_inv.
  assert (O3 := scanWhile_waiting _ _ L2 W2 E5).
  destruct (opcode_ d3) eqn:Op;
    try (exfalso; destruct O3 as [O3 | [O3 | [O3 | O3]]]; discriminate O3).
  - (* array *)
    apply bind_Done in E. destruct E as ([d4 dic] & E6 & E).
    apply bind_Done in E. destruct E as ([blk' e'] & E7 & E). inversion E; subst.
    split; [eauto using array_loop_inv|left; eauto using SetContent_table].
  - (* text *)
    apply bind_Done in E. destruct E as (d4 & E6 & E).
    apply bind_Done in E. destruct E as ([d5 dic] & E7 & E).
    apply bind_Done in E. destruct E as (c & _ & E).
    apply bind_Done in E. destruct E as ([blk' e'] & E8 & E). inversion E; subst.
    destruct (scanUntil_inv _ _ _ _ H3 E6) as (H4 & _).
    split; [eauto using text_loop_inv|left; eauto using SetContent_table].
  - (* dictionary *)
    apply bind_Done in E. destruct E as ([d4 dic] & E6 & E).
    apply bind_Done in E. destruct E as ([blk' e'] & E7 & E). inversion E; subst.
    split; [eauto using dictionary_loop_inv|left; eauto using SetContent_table].
  - (* an error: the nil block *)
    inversion E; subst. split; [assumption|right]. split; assumption.
Qed.

Lemma value_inv : forall fuel d acc blocks,
  DInv d -> Forall from_table acc ->
  value fuel d acc = Done (blocks, None) -> Forall from_table blocks.
Proof.
  induction fuel as [|fuel IH]; intros d acc blocks H A; cbn [value]; [discriminate|].
  intros E. apply bind_Done in E. destruct E as (d1 & E1 & E).
  assert (H1 : DInv d1) by eauto using scanWhile_inv.
  destruct (opcode_eqb (opcode_ d1) scanEnd).
  - inversion E; subst. assumption.
  - apply bind_Done in E. destruct E as ([[d2 blk] e] & E2 & E).
    destruct e as [e|]; [inversion E|].
    apply bind_Done in E. destruct E as (d3 & E3 & E).
    destruct (block_inv _ _ _ _ H1 E2) as (H2 & [T|X]).
    + eapply IH; [|apply Forall_app; split; [exact A|constructor; [exact T|constructor]]
                   |exact E].
      eauto using scanNext_inv.
    + exfalso. eapply value_doomed; [|exact E]. eapply scanNext_doomed; eassumption.
Qed.

Lemma Read_from_table fuel bs blocks :
  Read fuel bs = Done (blocks, None) -> Forall from_table blocks.
Proof.
  unfold Read. cbn [scan data off opcode_]. intros E.
  apply bind_Done in E. destruct E as ([s e] & _ & E).
  destruct e as [e|]; [inversion E|].
  unfold unmarshal, init in E. cbn [data off opcode_ scan] in E.
  eapply value_inv; [|constructor|exact E].
  left. unfold Live. cbn [scan off opcode_].
  split; [apply SInv_reset|]. split; [lia|]. split; discriminate.
Qed.

Lemma value_error : forall fuel d acc blocks e,
  value fuel d acc = Done (blocks, Some e) -> blocks = [].
Proof.
  induction fuel as [|fuel IH]; intros d acc blocks e; cbn [value]; [discriminate|].
  intros E. apply bind_Done in E. destruct E as (d1 & _ & E).
  destruct (opcode_eqb (opcode_ d1) scanEnd); [discriminate E|].
  apply bind_Done in E. destruct E as ([[d2 blk] e'] & _ & E).
  destruct e' as [e'|]; [now inversion E|].
  apply bind_Done in E. destruct E as (d3 & _ & E). eapply IH. exact E.
Qed.

(** X5. What [Read] returns: with a nil error, every block is one of the
    three structs, no nil block among them, of the variant the table gives to
    the tag its name and type make; with an error, no block at all. *)
Theorem Read_result_shape (fuel : nat) (bs : list byte) (blocks : list ContentBlock)
    (r : option error) :
  Read fuel bs = Done (blocks, r) ->
  match r with
  | None => Forall from_table blocks
  | Some _ => blocks = []
  end.
Proof.
  destruct r as [e|]; [|apply Read_from_table].
  unfold Read. cbn [scan data off opcode_]. intros E.
  apply bind_Done in E. destruct E as ([s e'] & _ & E).
  destruct e' as [e'|]; [now inversion E|].
  unfold unmarshal in E. eapply value_error. exact E.
Qed.

Lemma Read_result_shape_witness :
  Forall from_table
    [DictionaryBlock "meta" "" [mkDictionaryElement "url" "https://toto.com"]].
Proof.
  refine (Read_result_shape 20 Samples.metaSimple _ None _).
  vm_compute. reflexivity.
Defined.

End DecoderInvariant.

(** ** Buffers without a block, unknown tags and bytes that are no tag *)

Module Edge.

Import Shapes Scanner Blocks Decoder Encoder Run Canon Samples StepFacts Cursor ValidatorFacts.
Import DecodeDictionary DecodeBodies DecodeBlocks DecodeSequence Validity Valueless.

Lemma step_between_other eb by_ c :
  isSpace c = false -> lower c = false ->
  step (mkScanner StBeginBlockLine eb [] None by_ []) c
  = Done (mkScanner StBeginBlockLine eb [] None by_ [], scanEnd).
Proof. bytes c. Qed.

Lemma step_unknown_tag by_ tn c :
  isSpace c = true ->
  tag_kind (string_of_list_ascii tn) = None ->
  step (mkScanner StReadingTag false [] None by_ tn) c
  = Done (mkScanner StError false []
            (Some (mkSyntaxError
                     ("invalid character " ++ quoteChar c ++ " "
                      ++ "invalid tag name: " ++ string_of_list_ascii tn) by_))
            by_ [],
          scanError).
Proof.
  intros Hc H. unfold step, stateReadingTag. cbn [step_fn]. rewrite Hc.
  rewrite ScannerFacts.checkTag_kind. cbn [tagName]. cbv zeta. rewrite H.
  reflexivity.
Qed.

Lemma Read_rejects bs s e fuel :
  checkValid bs zero = Done (s, Some e) -> Read fuel bs = Done ([], Some (ESyntax e)).
Proof. intros E. unfold Read. cbn [scan]. now rewrite E. Qed.

Lemma feeds_spaces eb ws :
  Forall (fun x => isSpace x = true) ws ->
  feeds (sc StBeginBlockLine eb [] []) ws (sc StBeginBlockLine eb [] []).
Proof.
  intros F. apply feeds_steady with (op := scanSkipSpace); [|discriminate].
  eapply Forall_impl; [|exact F]. intros c Hc z. now apply step_between_space.
Qed.

(** X9. A buffer of spaces, tabs, carriage returns and newlines only, the
    empty buffer included, holds no block: [Read] rejects it with
    "unexpected end of Bru input", and the offset is the byte counter after
    all its bytes, which is the length of the buffer when that fits an int64. *)
Theorem Read_blank_buffer (ws : list byte) :
  Forall (fun x => isSpace x = true) ws ->
  (forall fuel,
     Read fuel ws =
     Done ([], Some (ESyntax (mkSyntaxError "unexpected end of Bru input"
                                (bump (List.length ws) 0)))))
  /\ (Z.of_nat (List.length ws) < 2 ^ 63 ->
      bump (List.length ws) 0 = Z.of_nat (List.length ws)).
Proof.
  intros F. split.
  - intros fuel. apply (Read_rejects ws
      (mkScanner StBeginBlockLine false []
         (Some (mkSyntaxError "unexpected end of Bru input" (bump (List.length ws) 0)))
         (bump (List.length ws) 0) [])).
    unfold checkValid. rewrite checkValid_loop_feed.
    change (reset zero) with (sc StBeginBlockLine false [] [] 0).
    rewrite (feeds_spaces false ws F 0). reflexivity.
  - intros H. rewrite bump_small; lia.
Qed.

Lemma Read_blank_buffer_witness :
  Read 3 [" "%char; "009"%char; "013"%char; "010"%char] =
  Done ([], Some (ESyntax (mkSyntaxError "unexpected end of Bru input" 4))).
Proof.
  refine (proj1 (Read_blank_buffer [" "%char; "009"%char; "013"%char; "010"%char] _) 3%nat).
  repeat constructor.
Defined.

(** X10. A buffer that starts, after any white space, with a lowercase
    letter and a word that is no tag of the table is rejected at the white
    space that ends the word, whatever follows: the message names the word
    and the offset is the byte counter after that white space. *)
Theorem Read_unknown_tag (ws : list byte) (t0 : byte) (tr : list byte) (c : byte)
    (rest : list byte) :
  Forall (fun x => isSpace x = true) ws ->
  lower t0 = true ->
  Forall (fun x => isSpace x = false) tr ->
  tag_kind (string_of_list_ascii (t0 :: tr)) = None ->
  isSpace c = true ->
  forall fuel,
    Read fuel (ws ++ t0 :: tr ++ c :: rest) =
    Done ([], Some (ESyntax (mkSyntaxError
      ("invalid character " ++ quoteChar c ++ " invalid tag name: "
       ++ string_of_list_ascii (t0 :: tr))
      (bump (List.length ws + List.length tr + 2) 0)))).
Proof.
  intros Hws Hl Htr Hk Hc fuel.
  assert (F : feeds (sc StBeginBlockLine false [] []) (ws ++ t0 :: tr)
                (sc StReadingTag false [] ([t0] ++ tr))).
  { eapply feeds_app; [exact (feeds_spaces false ws Hws)|].
    eapply feeds_cons.
    - apply feeds_one with (op := scanBeginTag); [|discriminate].
      intros z. now apply step_begin_tag.
    - now apply feeds_tag_bytes. }
  assert (E : ws ++ t0 :: tr ++ c :: rest = (ws ++ t0 :: tr) ++ c :: rest).
  { rewrite <- app_assoc. reflexivity. }
  assert (L : (List.length (ws ++ t0 :: tr) + 1 = List.length ws + List.length tr + 2)%nat).
  { rewrite length_app. cbn [List.length]. lia. }
  unfold Read. cbn [scan]. unfold checkValid. rewrite checkValid_loop_feed, E.
  change (reset zero) with (sc StBeginBlockLine false [] [] 0).
  rewrite (feed_stops _ _ _ _ _ _ _ _ _ F
             (fun z => step_unknown_tag z ([t0] ++ tr) c Hc Hk)).
  cbn [bind err]. rewrite L. reflexivity.
Qed.

Lemma Read_unknown_tag_witness :
  Read 3 (bytes_of ("settings {" ++ nl ++ "}")) =
  Done ([], Some (ESyntax (mkSyntaxError
    "invalid character ' ' invalid tag name: settings" 9))).
Proof.
  refine (Read_unknown_tag [] "s"%char (list_ascii_of_string "ettings") " "%char
            (list_ascii_of_string ("{" ++ nl ++ "}")) _ _ _ _ _ 3%nat).
  - constructor.
  - reflexivity.
  - repeat constructor.
  - vm_compute. reflexivity.
  - reflexivity.
Defined.

(** X11. When the first byte of a buffer that is no white space is not a
    lowercase letter either, the scanner answers [scanEnd] and stays where
    it is, so the validator goes on with the bytes that follow; the decoder
    stops there: if [Valid] accepts the buffer, [Read] returns no block and
    a nil error, whatever blocks follow that byte. *)
Theorem Read_stops_at_other_byte (ws : list byte) (c : byte) (rest : list byte) :
  Forall (fun x => isSpace x = true) ws ->
  isSpace c = false -> lower c = false ->
  Valid (ws ++ c :: rest) = Done true ->
  forall fuel, Read (S fuel) (ws ++ c :: rest) = Done ([], None).
Proof.
  intros Hws Hc Hl V fuel. unfold Valid in V.
  change (checkValid (ws ++ c :: rest) newScanner)
    with (checkValid (ws ++ c :: rest) zero) in V.
  destruct (checkValid (ws ++ c :: rest) zero) as [[s [e|]]| |] eqn:V';
    try discriminate V. clear V.
  unfold Read. cbn [scan]. rewrite V'. cbn [bind].
  unfold unmarshal, init. cbn [data off opcode_ scan value].
  assert (Hs : reset s = between (bytes s) false) by reflexivity.
  rewrite Hs.
  change (mkDecodeState (ws ++ c :: rest) 0 scanContinue (between (bytes s) false))
    with (mkDecodeState (ws ++ c :: rest) (Z.of_nat 0) scanContinue
            (between (bytes s) false)).
  rewrite (scanWhile_at (ws ++ c :: rest) 0 scanContinue (between (bytes s) false)
             scanSkipSpace ws c rest (between (bytes s) false) scanEnd);
    [ | reflexivity
      | eapply Forall_impl; [|exact Hws]; intros x Hx; now apply step_between_space
      | now apply step_between_other
      | discriminate ].
  reflexivity.
Qed.

Lemma Read_stops_at_other_byte_witness :
  Read 1 upperStart = Done ([], None).
Proof.
  refine (Read_stops_at_other_byte [] "X"%char
            (list_ascii_of_string (" meta {" ++ nl ++ "key:" ++ nl ++ "}")) _ _ _ _ 0%nat).
  - constructor.
  - reflexivity.
  - reflexivity.
  - vm_compute. reflexivity.
Defined.

End Edge.

(** ** The scanner on any bytes: no panic, errors that stay, offsets *)

Module ScannerSafety.

Import Shapes Scanner Blocks Decoder Run Canon Samples ScannerFacts ValidatorFacts StepFacts.
Import DecodeDictionary DecodeBlocks Validity Valueless DecoderInvariant.

Lemma run_SInv l : forall s s' ops, SInv s -> run s l = Done (s', ops) -> SInv s'.
Proof.
  intros s s' ops H E. destruct (run_inv l s H) as (s1 & ops1 & E1 & H1 & _).
  rewrite E in E1. now inversion E1; subst.
Qed.

Lemma reachable_SInv s : reachable s -> SInv s.
Proof. intros (s0 & l & ops & E). eapply run_SInv; [apply SInv_reset|exact E]. Qed.







(** X6. The validator never panics: whatever the bytes and whatever the
    scanner it is given, [checkValid] returns, with nil or with an error, and
    so does [Valid]; from a state reached after [reset] no sequence of
    transitions indexes the parse stack out of its bounds. *)
Theorem validator_never_panics :
  (forall data scan, exists s r, checkValid data scan = Done (s, r))
  /\ (forall data, exists b, Valid data = Done b)
  /\ (forall s l, reachable s -> exists s' ops, run s l = Done (s', ops)).
Proof.
  assert (C : forall data scan, exists s r, checkValid data scan = Done (s, r)).
  { intros data scan. unfold checkValid. rewrite checkValid_loop_feed.
    destruct (feed_inv data (reset scan) (SInv_reset scan)) as (s1 & b & F & H1 & _).
    rewrite F. cbn [bind]. destruct b; [eauto|].
    destruct (eof_inv s1 H1) as (s2 & op & E & _). rewrite E. cbn [bind].
    destruct (opcode_eqb op scanError); eauto. }
  split; [exact C|]. split.
  - intros data. unfold Valid. destruct (C data newScanner) as (s & r & ->).
    cbn [bind]. eauto.
  - intros s l R. destruct (run_inv l s (reachable_SInv s R)) as (s' & ops & E & _).
    eauto.
Qed.

Lemma run_error l : forall s,
  step_fn s = StError -> run s l = Done (s, repeat scanError (List.length l)).
Proof.
  induction l as [|c l IH]; intros s H; cbn [run repeat List.length].
  - reflexivity.
  - rewrite (step_error s c H). cbn [bind]. rewrite (IH s H). reflexivity.
Qed.

(** X7. Once a transition has returned [scanError], every later one does,
    and [eof] too; the scanner, its error included, stays as it is. *)
Theorem error_is_sticky (s : scanner) (c : byte) (s' : scanner) :
  reachable s ->
  step s c = Done (s', scanError) ->
  (exists e, err s' = Some e)
  /\ (forall l, run s' l = Done (s', repeat scanError (List.length l)))
  /\ eof s' = Done (s', scanError).
Proof.
  intros R E. assert (H := reachable_SInv s R).
  destruct (step_inv s c H) as (s1 & o & E1 & H1 & X).
  rewrite E in E1. inversion E1; subst s1 o. specialize (X eq_refl).
  assert (N := SInv_err s' H1 X).
  destruct (err s') as [e|] eqn:Er; [|congruence].
  split; [eauto|]. split.
  - intros l. now apply run_error.
  - unfold eof. now rewrite Er.
Qed.

Lemma error_is_sticky_witness :
  run (mkScanner StError false []
         (Some (mkSyntaxError "invalid character ' ' invalid tag name: x" 0)) 0 [])
      (list_ascii_of_string "meta {")
  = Done (mkScanner StError false []
            (Some (mkSyntaxError "invalid character ' ' invalid tag name: x" 0)) 0 [],
          repeat scanError 6).
Proof.
  refine (proj1 (proj2 (error_is_sticky
            (mkScanner StReadingTag false [] None 0 ["x"%char]) " "%char _ _ _))
            (list_ascii_of_string "meta {")).
  - exists zero, ["x"%char], [scanBeginTag]. reflexivity.
  - reflexivity.
Defined.

(** X8. In a state reached after [reset], [eof] answers [scanEnd] with no
    error recorded or [scanError] with one, and a second call answers the
    same and leaves the scanner as the first call left it. *)
Theorem eof_is_idempotent (s s' : scanner) (op : opcode) :
  reachable s ->
  eof s = Done (s', op) ->
  eof s' = Done (s', op)
  /\ ((op = scanEnd /\ err s' = None) \/ (op = scanError /\ err s' <> None)).
Proof.
  intros R E. assert (H := reachable_SInv s R). split.
  - eapply eof_again; eassumption.
  - destruct (eof_inv s H) as (s1 & o & E1 & X). rewrite E in E1.
    inversion E1; subst. exact X.
Qed.

Lemma eof_is_idempotent_witness :
  eof (mkScanner StBeginBlockLine false []
         (Some (mkSyntaxError "unexpected end of Bru input" 0)) 0 [])
  = Done (mkScanner StBeginBlockLine false []
            (Some (mkSyntaxError "unexpected end of Bru input" 0)) 0 [],
          scanError).
Proof.
  refine (proj1 (eof_is_idempotent (reset zero) _ scanError _ _)).
  - exists zero, [], []. reflexivity.
  - reflexivity.
Defined.

(** X14. The scanner and the decoder look a tag up in the same table: with
    an empty parse stack, [checkTag] answers [scanEndTag] and pushes the
    parse state of a variant exactly when [getBlockForTag] returns an empty
    block of that variant, whose name and type make the tag again; for any
    other name both fail, each with its own message. *)
Theorem tag_lookup_agrees (name : string) (s : scanner) (c : byte) :
  parseState s = [] ->
  match tag_kind name with
  | Some k =>
      checkTag (set_tagName s (list_ascii_of_string name)) c
      = Done (mkScanner StWaitingForOpenBlock (endBlock s) [parse_of k] (err s)
                (bytes s) [], scanEndTag)
      /\ exists n t, getBlockForTag name = Done (empty_block k n t, None)
                     /\ tag_of n t = name
  | None =>
      checkTag (set_tagName s (list_ascii_of_string name)) c
      = Done (Scanner.error (set_tagName s []) c ("invalid tag name: " ++ name))
      /\ getBlockForTag name
         = Done (NilBlock, Some (EText ("could not find block for tag '" ++ name ++ "'")))
  end.
Proof.
  intros Hp. rewrite checkTag_kind, getBlockForTag_kind.
  destruct s as [st eb ps er by_ tn]. cbn [parseState] in Hp. subst ps.
  cbn [set_tagName tagName step_fn endBlock parseState err bytes]. cbv zeta.
  rewrite string_of_list_ascii_of_string.
  destruct (tag_kind name) as [k|] eqn:K.
  - split; [reflexivity|]. assert (C := cut_tag_of name k K).
    destruct (cut name) as [[n t] f]. exists n, t. split; [reflexivity|exact C].
  - split; reflexivity.
Qed.

Lemma tag_lookup_agrees_witness :
  checkTag (set_tagName (reset zero) (list_ascii_of_string "vars:secret")) " "%char
  = Done (mkScanner StWaitingForOpenBlock false [parseArrayValue] None 0 [], scanEndTag)
  /\ exists n t, getBlockForTag "vars:secret" = Done (ArrayBlock n t [], None)
                 /\ tag_of n t = "vars:secret"%string.
Proof.
  exact (tag_lookup_agrees "vars:secret" (reset zero) " "%char eq_refl).
Defined.

End ScannerSafety.

(** ** Blocks with an empty body *)

Module EmptyBody.

Import Shapes Scanner Blocks Decoder Encoder Run Canon Samples StepFacts Cursor ValidatorFacts.
Import Fuel DecodeDictionary DecodeBodies DecodeBlocks DecodeSequence Validity Valueless.
Import Edge.

Section AtEnd.

Variable D : list byte.
Variable s : scanner.
Hypothesis Hs : eof s = Done (s, scanEnd).

Lemma skipn_ended : skipn (S (List.length D)) D = [].
Proof. apply skipn_all2. lia. Qed.

Lemma scanWhile_ended op : scanWhile (ended D s) op = Done (ended D s).
Proof.
  unfold ended.
  apply (scanWhile_end D (S (List.length D)) scanEnd s op [] s scanEnd);
    [apply skipn_ended|constructor|exact Hs].
Qed.

Lemma scanNext_ended : scanNext (ended D s) = Done (ended D s).
Proof. unfold ended. apply scanNext_end; [apply skipn_ended|exact Hs]. Qed.

Lemma substr_ended :
  substr (ended D s) (readIndex (ended D s)) (readIndex (ended D s)) = Done EmptyString.
Proof.
  unfold substr, slice, readIndex, ended. cbn [data off].
  replace (Z.of_nat (S (List.length D)) - 1) with (Z.of_nat (List.length D)) by lia.
  rewrite Z.leb_refl. destruct (Z.leb_spec 0 (Z.of_nat (List.length D))); [|lia].
  cbn [andb bind]. rewrite Z.sub_diag. reflexivity.
Qed.

(** Past the end the loop over the pairs never sees [scanEndBlock]. *)
Lemma dictionary_loop_ended : forall fuel dic,
  dictionary_loop fuel (ended D s) dic = OutOfFuel.
Proof.
  induction fuel as [|fuel IH]; intros dic; [reflexivity|].
  rewrite dictionary_loop_S.
  change (opcode_eqb (opcode_ (ended D s)) scanEndBlock) with false. cbv iota.
  rewrite scanWhile_ended. cbn [bind]. cbv zeta.
  rewrite scanWhile_ended. cbn [bind]. rewrite substr_ended. cbn [bind].
  rewrite scanWhile_ended. cbn [bind].
  change (negb (opcode_eqb (opcode_ (ended D s)) scanDictionaryKey)) with true.
  cbv iota zeta.
  rewrite scanWhile_ended. cbn [bind]. rewrite substr_ended. cbn [bind].
  rewrite scanNext_ended. cbn [bind]. apply IH.
Qed.

End AtEnd.

Section Dictionary.

Variables name type_ : string.
Variables ws tl : list byte.

Hypothesis Hheader : header_ok name type_ dictionaryBlock = true.
Hypothesis Hws : Forall (fun x => isSpace x = true) ws.
Hypothesis Htl : Forall (fun x => isSpace x = true) tl.

Let D : list byte := empty_dictionary name type_ ws tl.

Lemma empty_dictionary_valid :
  exists z, checkValid D zero = Done (between z true, None).
Proof.
  destruct (header_ok_inv _ _ _ Hheader) as (Hkind & _).
  destruct (tag_shape _ _ Hkind) as (t0 & tr & Et & Hlow & Htr).
  assert (E : D = (t0 :: tr ++ [" "%char; "{"%char]) ++ ws ++ ["}"%char] ++ tl).
  { unfold D, empty_dictionary. rewrite Et.
    repeat first [rewrite <- app_assoc | progress cbn [app]]. reflexivity. }
  eexists. apply checkValid_ok_iff. eexists. split.
  - change (reset zero) with (sc StBeginBlockLine false [] [] 0). rewrite E.
    refine (feeds_app _ _ _ _ _ _ _ 0).
    + apply (feeds_head dictionaryBlock t0 tr false); [assumption|assumption|].
      rewrite <- Et, string_of_list_ascii_of_string. exact Hkind.
    + eapply feeds_app; [apply feeds_key_spaces; [now left|exact Hws]|].
      eapply feeds_app; [|exact (feeds_spaces true tl Htl)].
      apply feeds_one with (op := scanEndBlock); [|discriminate].
      intros z. apply step_key_close. now left.
  - reflexivity.
Qed.

(** The first turn of the loop reads the closing brace as a key and runs to
    the end of the buffer. *)
Lemma empty_dictionary_loop z q :
  skipn q D = ws ++ "}"%char :: tl ->
  forall fuel,
    dictionary_loop fuel
      (mkDecodeState D (Z.of_nat q) scanBeginDictionary
         (inDict z StOpenBlock parseDictionaryKey)) []
    = OutOfFuel.
Proof.
  intros Hq fuel. destruct fuel as [|fuel]; [reflexivity|].
  assert (Hs := eof_between z).
  assert (H1 : skipn (S (q + List.length ws)) D = tl).
  { eapply skipn_cons_at. apply skipn_app_at. exact Hq. }
  assert (Hb : skipn (q + List.length ws) D = ["}"%char] ++ tl).
  { apply skipn_app_at. exact Hq. }
  rewrite dictionary_loop_S. cbn [opcode_].
  change (opcode_eqb scanBeginDictionary scanEndBlock) with false. cbv iota.
  rewrite (scanWhile_at D q scanBeginDictionary _ scanSkipSpace ws "}"%char tl
             (between z true) scanEndBlock Hq);
    [ | eapply Forall_impl; [|exact Hws]; intros x Hx; apply step_key_space;
        [now left|exact Hx]
      | apply step_key_close; now left
      | discriminate ].
  cbn [bind]. cbv zeta. rewrite readIndex_S.
  assert (Tail : forall d,
            d = ended D (between z true) ->
            forall k fuel',
              (d1 <- scanWhile d scanSkipSpace ;;
               '(d2, v) <-
                 (if negb (opcode_eqb (opcode_ d1) scanDictionaryKey) then
                    let start := readIndex d1 in
                    d3 <- scanWhile d1 scanContinue ;;
                    v <- substr d3 start (readIndex d3) ;;
                    Done (d3, v)
                  else Done (d1, EmptyString)) ;;
               d4 <- scanNext d2 ;;
               dictionary_loop fuel' d4 ([] ++ [mkDictionaryElement k v]))
              = OutOfFuel).
  { intros d -> k fuel'. rewrite (scanWhile_ended D _ Hs). cbn [bind].
    change (negb (opcode_eqb (opcode_ (ended D (between z true))) scanDictionaryKey))
      with true. cbv iota zeta.
    rewrite (scanWhile_ended D _ Hs). cbn [bind].
    rewrite substr_ended. cbn [bind].
    rewrite (scanNext_ended D _ Hs). cbn [bind].
    apply dictionary_loop_ended. exact Hs. }
  destruct tl as [|c tl'].
  - rewrite (scanWhile_end D (S (q + List.length ws)) scanEndBlock (between z true)
               scanContinue [] (between z true) scanEnd H1);
      [|constructor|exact Hs].
    cbn [bind].
    rewrite (substr_at D (q + List.length ws) (S (List.length D)) scanEnd
               (between z true) ["}"%char] [] Hb);
      [|discriminate|].
    2:{ apply skipn_bound in Hb; [|discriminate]. cbn [List.length app] in *. lia. }
    cbn [bind]. apply (Tail _ eq_refl).
  - inversion Htl as [|c' tl'' Hc Htl']; subst.
    rewrite (scanWhile_at D (S (q + List.length ws)) scanEndBlock (between z true)
               scanContinue [] c tl' (between z true) scanSkipSpace H1);
      [ |constructor|now apply step_between_space|discriminate].
    cbn [bind].
    rewrite (substr_at D (q + List.length ws) _ scanSkipSpace
               (between z true) ["}"%char] (c :: tl') Hb);
      [|discriminate|cbn [List.length]; lia].
    cbn [bind].
    assert (H2 : skipn (S (S (q + List.length ws) + List.length (@nil byte))) D = tl').
    { eapply skipn_cons_at. apply (skipn_app_at D _ []). exact H1. }
    rewrite (scanWhile_end D _ scanSkipSpace (between z true) scanSkipSpace tl'
               (between z true) scanEnd H2);
      [ |eapply Forall_impl; [|exact Htl']; intros x Hx; now apply step_between_space
        |exact Hs].
    cbn [bind].
    change (negb (opcode_eqb
                    (opcode_ (mkDecodeState D (Z.of_nat (S (List.length D))) scanEnd
                                (between z true))) scanDictionaryKey)) with true.
    cbv iota zeta. fold (ended D (between z true)).
    rewrite (scanWhile_ended D _ Hs). cbn [bind].
    rewrite substr_ended. cbn [bind].
    rewrite (scanNext_ended D _ Hs). cbn [bind].
    apply dictionary_loop_ended. exact Hs.
Qed.

Lemma empty_dictionary_large :
  exists N, forall fuel, (N <= fuel)%nat -> Read fuel D = OutOfFuel.
Proof.
  destruct (header_ok_inv _ _ _ Hheader) as (Hkind & f & Hcut).
  destruct (tag_shape _ _ Hkind) as (t0 & tr & Et & Hlow & Htr).
  destruct empty_dictionary_valid as (z & V).
  assert (H0 : skipn 0 D = t0 :: tr ++ " "%char :: opener dictionaryBlock
                                :: ws ++ "}"%char :: tl).
  { cbn [skipn]. unfold D, empty_dictionary. rewrite Et.
    repeat first [rewrite <- app_assoc | progress cbn [app opener]]. reflexivity. }
  destruct (block_head D z dictionaryBlock name type_ f 0%nat t0 tr _ Hkind Hcut Et Htr H0)
    as (q & Hq & Head).
  exists (List.length tr + 3)%nat. intros fuel Hf.
  unfold Read. cbn [scan]. rewrite V. cbn [bind].
  unfold unmarshal, init. cbn [data off opcode_ scan].
  change (reset (between z true)) with (between z false).
  destruct fuel as [|fuel]; [lia|].
  rewrite value_S.
  change (mkDecodeState D 0 scanContinue (between z false))
    with (mkDecodeState D (Z.of_nat 0) scanContinue (between z false)).
  rewrite (scanWhile_at D 0 scanContinue (between z false) scanSkipSpace [] t0 _
             (readingTag z [t0]) scanBeginTag H0);
    [|constructor|now apply step_begin_tag|discriminate].
  cbn [bind opcode_]. rewrite (opcode_eqb_neq scanBeginTag) by discriminate.
  change (S (0 + List.length (@nil byte))) with 1%nat.
  rewrite Head by lia. cbn [begin_op parse_of]. cbv zeta.
  rewrite (empty_dictionary_loop z q Hq). reflexivity.
Qed.

Lemma empty_dictionary_never : forall fuel, Read fuel D = OutOfFuel.
Proof.
  destruct empty_dictionary_large as (N & L). intros fuel.
  destruct (Read fuel D) as [r| |] eqn:E; [| |reflexivity].
  - assert (X := Read_more fuel N D _ E ltac:(discriminate)).
    rewrite L in X by lia. discriminate.
  - assert (X := Read_more fuel N D _ E ltac:(discriminate)).
    rewrite L in X by lia. discriminate.
Qed.

End Dictionary.

(** X12. A dictionary block with no pair is accepted by the validator and
    never decoded: for every dictionary tag and any white space between the
    braces and after them, [Valid] answers true, and [Read] returns neither
    blocks nor an error, the loop over the pairs reading on at the end of
    the buffer without ever seeing the end of the block. *)
Theorem Read_empty_dictionary_never_returns (name type_ : string) (ws tl : list byte) :
  header_ok name type_ dictionaryBlock = true ->
  Forall (fun x => isSpace x = true) ws ->
  Forall (fun x => isSpace x = true) tl ->
  Valid (empty_dictionary name type_ ws tl) = Done true
  /\ forall fuel, Read fuel (empty_dictionary name type_ ws tl) = OutOfFuel.
Proof.
  intros Hh Hws Htl. split.
  - destruct (empty_dictionary_valid name type_ ws tl Hh Hws Htl) as (z & V).
    unfold Valid.
    change (checkValid (empty_dictionary name type_ ws tl) newScanner)
      with (checkValid (empty_dictionary name type_ ws tl) zero).
    rewrite V. reflexivity.
  - now apply empty_dictionary_never.
Qed.

Lemma Read_empty_dictionary_never_returns_witness :
  Valid metaEmpty = Done true /\ forall fuel, Read fuel metaEmpty = OutOfFuel.
Proof.
  refine (Read_empty_dictionary_never_returns "meta" "" ["010"%char] ["010"%char] _ _ _).
  - vm_compute. reflexivity.
  - repeat constructor.
  - repeat constructor.
Defined.

End EmptyBody.

(** ** The bytes of [Write] for any blocks *)

Module EncoderLayout.

Import Shapes Blocks Encoder EncoderFacts DecodeDictionary DecoderInvariant.

(** *** The accumulated bytes *)

Lemma marshal_pairs_acc b c : forall e,
  marshal_pairs b e c = (x <- marshal_pairs b [] c ;; Done (e ++ x)).
Proof.
  induction c as [|v c IH]; intros e; cbn [marshal_pairs].
  - cbn [bind]. now rewrite app_nil_r.
  - destruct (Repeat (GetIndent b)) as [ind| |]; cbn [bind]; try reflexivity.
    destruct c as [|v' c]; [reflexivity|].
    rewrite IH. rewrite (IH (WriteString [] _)).
    destruct (marshal_pairs b [] (v' :: c)) as [x| |]; cbn [bind]; try reflexivity.
    unfold WriteString. cbn [app]. now rewrite app_assoc.
Qed.

Lemma marshal_values_acc b c : forall e,
  marshal_values b e c = (x <- marshal_values b [] c ;; Done (e ++ x)).
Proof.
  induction c as [|v c IH]; intros e; cbn [marshal_values].
  - cbn [bind]. now rewrite app_nil_r.
  - destruct (Repeat (GetIndent b)) as [ind| |]; cbn [bind]; try reflexivity.
    destruct c as [|v' c]; [reflexivity|].
    rewrite IH. rewrite (IH (WriteString [] _)).
    destruct (marshal_values b [] (v' :: c)) as [x| |]; cbn [bind]; try reflexivity.
    unfold WriteString. cbn [app]. now rewrite app_assoc.
Qed.

Lemma header_acc e n t :
  (if negb (t =? "")%string then WriteString (WriteString e n) (":" ++ t)
   else WriteString e n)
  = e ++ (if negb (t =? "")%string then WriteString (WriteString [] n) (":" ++ t)
          else WriteString [] n).
Proof.
  unfold WriteString. destruct (negb (t =? "")%string); cbn [app];
    now rewrite ?app_assoc.
Qed.

Lemma marshal_block_acc b d e :
  marshal_block b e d = (x <- marshal_block b [] d ;; Done (e ++ x)).
Proof.
  unfold marshal_block. destruct d as [n t c|n t c|n t c|n t|]; cbn [GetName GetType bind].
  - rewrite header_acc. set (h := if negb (t =? "")%string then _ else _).
    rewrite marshal_pairs_acc. rewrite (marshal_pairs_acc b c (WriteString h _)).
    destruct (marshal_pairs b [] c) as [x| |]; cbn [bind]; try reflexivity.
    unfold WriteString. now rewrite <- !app_assoc.
  - rewrite header_acc. set (h := if negb (t =? "")%string then _ else _).
    unfold WriteString. now rewrite <- !app_assoc.
  - rewrite header_acc. set (h := if negb (t =? "")%string then _ else _).
    rewrite marshal_values_acc. rewrite (marshal_values_acc b c (WriteString h _)).
    destruct (marshal_values b [] c) as [x| |]; cbn [bind]; try reflexivity.
    unfold WriteString. now rewrite <- !app_assoc.
  - now rewrite header_acc.
  - reflexivity.
Qed.

Lemma marshal_acc b ds : forall e,
  marshal b e ds = ('(x, r) <- marshal b [] ds ;; Done (e ++ x, r)).
Proof.
  induction ds as [|d ds IH]; intros e; cbn [marshal].
  - cbn [bind]. now rewrite app_nil_r.
  - rewrite marshal_block_acc.
    destruct (marshal_block b [] d) as [x| |]; cbn [bind]; try reflexivity.
    rewrite IH. rewrite (IH x).
    destruct (marshal b [] ds) as [[y r]| |]; cbn [bind]; try reflexivity.
    now rewrite app_assoc.
Qed.

Lemma marshal_app b ds1 ds2 : forall e,
  marshal b e (ds1 ++ ds2) = ('(x, _) <- marshal b e ds1 ;; marshal b x ds2).
Proof.
  induction ds1 as [|d ds1 IH]; intros e; cbn [marshal app].
  - reflexivity.
  - destruct (marshal_block b e d) as [x| |]; cbn [bind]; try reflexivity. apply IH.
Qed.

(** *** The configuration *)

Lemma marshal_pairs_ext b b' c : forall e,
  indent b' = indent b -> lineSep b' = lineSep b ->
  marshal_pairs b' e c = marshal_pairs b e c.
Proof.
  induction c as [|v c IH]; intros e Hi Hl; cbn [marshal_pairs]; [reflexivity|].
  unfold GetIndent, GetLineSep. rewrite Hi, Hl.
  destruct (Repeat _) as [ind| |]; cbn [bind]; try reflexivity.
  destruct c; [reflexivity|]. fold (GetLineSep b). now apply IH.
Qed.

Lemma marshal_values_ext b b' c : forall e,
  indent b' = indent b -> lineSep b' = lineSep b ->
  marshal_values b' e c = marshal_values b e c.
Proof.
  induction c as [|v c IH]; intros e Hi Hl; cbn [marshal_values]; [reflexivity|].
  unfold GetIndent, GetLineSep. rewrite Hi, Hl.
  destruct (Repeat _) as [ind| |]; cbn [bind]; try reflexivity.
  destruct c; [reflexivity|]. fold (GetLineSep b). now apply IH.
Qed.

Lemma marshal_ext b b' ds : forall e,
  indent b' = indent b -> lineSep b' = lineSep b ->
  marshal b' e ds = marshal b e ds.
Proof.
  induction ds as [|d ds IH]; intros e Hi Hl; cbn [marshal]; [reflexivity|].
  assert (E : marshal_block b' e d = marshal_block b e d).
  { unfold marshal_block. destruct d as [n t c|n t c|n t c|n t|];
      cbn [GetName GetType bind]; try reflexivity.
    - now rewrite (marshal_pairs_ext b b').
    - now rewrite (marshal_values_ext b b'). }
  rewrite E. destruct (marshal_block b e d); cbn [bind]; try reflexivity. now apply IH.
Qed.

(** *** The end of the bytes *)

Lemma marshal_block_end b d x :
  variant d <> None -> marshal_block b [] d = Done x ->
  exists y c, closing c /\ x = y ++ [c; nlc; nlc].
Proof.
  intros Hv. unfold marshal_block.
  destruct d as [n t c|n t c|n t c|n t|]; cbn [GetName GetType bind variant] in *;
    try congruence.
  - destruct (marshal_pairs b _ c) as [e| |]; cbn [bind]; try discriminate.
    intros E. inversion E. exists e, "}"%char. split; [now left|reflexivity].
  - intros E. inversion E. eexists _, "}"%char. split; [now left|]. unfold WriteString.
    reflexivity.
  - destruct (marshal_values b _ c) as [e| |]; cbn [bind]; try discriminate.
    intros E. inversion E. exists e, "]"%char. split; [now right|reflexivity].
Qed.

Lemma marshal_end b ds : forall x r,
  ds <> [] -> structs ds -> marshal b [] ds = Done (x, r) ->
  exists y c, closing c /\ x = y ++ [c; nlc; nlc].
Proof.
  induction ds as [|d ds IH]; intros x r Hne Hs; [congruence|].
  inversion Hs as [|d' ds' Hd Hds]; subst. cbn [marshal].
  destruct (marshal_block b [] d) as [x1| |] eqn:E1; cbn [bind]; try discriminate.
  destruct ds as [|d2 ds].
  - cbn [marshal]. intros E. inversion E; subst. eapply marshal_block_end; eassumption.
  - rewrite marshal_acc.
    destruct (marshal b [] (d2 :: ds)) as [[x2 r2]| |] eqn:E2; cbn [bind]; try discriminate.
    intros E. injection E as Ex Er. subst x.
    destruct (IH x2 r2 ltac:(discriminate) Hds eq_refl) as (y & c & Hc & ->).
    exists (x1 ++ y), c. split; [assumption|]. now rewrite app_assoc.
Qed.

(** [Write] cuts the last two newlines and puts one back when asked to. *)
Lemma Write_trim b ds y c :
  marshal b [] ds = Done (y ++ [c; nlc; nlc], None) ->
  Write b ds = Done (y ++ c :: (if addTrailingLineEnd b then [nlc] else []), None).
Proof.
  intros E. unfold Write. rewrite E. cbn [bind].
  set (X := y ++ [c]).
  assert (EX : y ++ [c; nlc; nlc] = X ++ [nlc; nlc]).
  { unfold X. now rewrite <- app_assoc. }
  rewrite EX.
  assert (HX : (1 <= List.length X)%nat).
  { unfold X. rewrite length_app. cbn [List.length]. lia. }
  rewrite length_app. cbn [List.length].
  destruct (Z.ltb_spec 2 (Z.of_nat (List.length X + 2))); [|lia].
  replace (Z.to_nat (Z.of_nat (List.length X + 2) - 1)) with (List.length X + 1)%nat by lia.
  replace (Z.to_nat (Z.of_nat (List.length X + 2) - 2)) with (List.length X + 0)%nat by lia.
  rewrite !nth_error_app2 by lia.
  replace (List.length X + 1 - List.length X)%nat with 1%nat by lia.
  replace (List.length X + 0 - List.length X)%nat with 0%nat by lia.
  cbn [nth_error andb]. change ((nlc =? "010")%char) with true. cbv iota.
  unfold slice. rewrite length_app. cbn [List.length].
  set (t := if addTrailingLineEnd b then [nlc] else []).
  assert (G : GetEndOffset b = Z.of_nat (List.length t)).
  { unfold GetEndOffset, t. destruct (addTrailingLineEnd b); reflexivity. }
  assert (G' : (List.length t <= 1)%nat).
  { unfold t. destruct (addTrailingLineEnd b); simpl; lia. }
  replace ((0 <=? 0) && (0 <=? Z.of_nat (List.length X + 2) - 2 + GetEndOffset b)
           && (Z.of_nat (List.length X + 2) - 2 + GetEndOffset b
               <=? Z.of_nat (List.length X + 2))) with true
    by (symmetry; rewrite !andb_true_iff, !Z.leb_le; lia).
  cbn [bind]. do 2 f_equal.
  replace (Z.to_nat (Z.of_nat (List.length X + 2) - 2 + GetEndOffset b - 0))
    with (List.length X + List.length t)%nat by lia.
  change (Z.to_nat 0) with 0%nat. cbn [skipn].
  rewrite firstn_app. rewrite (firstn_all2 X) by lia.
  replace (List.length X + List.length t - List.length X)%nat
    with (List.length t) by lia.
  unfold X. rewrite <- app_assoc. cbn [app]. do 2 f_equal.
  unfold t. destruct (addTrailingLineEnd b); reflexivity.
Qed.

Lemma structs_not_nil ds : structs ds -> ~ In NilBlock ds.
Proof.
  intros H X. unfold structs in H. rewrite Forall_forall in H.
  apply (H NilBlock X). reflexivity.
Qed.

Lemma marshal_structs b ds :
  0 <= indent b -> ds <> [] -> structs ds ->
  exists y c, closing c /\ marshal b [] ds = Done (y ++ [c; nlc; nlc], None).
Proof.
  intros Hi Hne Hs.
  destruct (marshal_Done b ds [] (GetIndent_nonneg b Hi) (structs_not_nil ds Hs))
    as (x & E).
  destruct (marshal_end b ds x None Hne Hs E) as (y & c & Hc & ->). eauto.
Qed.



(** X16. [Write] on two sequences one after the other: for sequences that
    are not empty and hold the three structs only, and an indent that is not
    negative, the bytes are those of the first sequence without a last
    newline, an empty line, and those of the second sequence. *)
Theorem Write_app (b : Encoder) (ds1 ds2 : list ContentBlock) :
  0 <= indent b -> ds1 <> [] -> ds2 <> [] -> structs ds1 -> structs ds2 ->
  exists b1 b2,
    Write (no_trailing b) ds1 = Done (b1, None)
    /\ Write b ds2 = Done (b2, None)
    /\ Write b (ds1 ++ ds2) = Done (b1 ++ [nlc; nlc] ++ b2, None).
Proof.
  intros Hi H1 H2 S1 S2.
  destruct (marshal_structs b ds1 Hi H1 S1) as (y1 & c1 & C1 & E1).
  destruct (marshal_structs b ds2 Hi H2 S2) as (y2 & c2 & C2 & E2).
  exists (y1 ++ [c1]), (y2 ++ c2 :: (if addTrailingLineEnd b then [nlc] else [])).
  split; [|split].
  - apply (Write_trim (no_trailing b)). now rewrite (marshal_ext b (no_trailing b)).
  - now apply Write_trim.
  - assert (E : marshal b [] (ds1 ++ ds2)
                = Done (((y1 ++ [c1; nlc; nlc]) ++ y2) ++ [c2; nlc; nlc], None)).
    { rewrite marshal_app, E1. cbn [bind]. rewrite marshal_acc, E2. cbn [bind].
      now rewrite app_assoc. }
    rewrite (Write_trim b _ _ _ E). do 2 f_equal.
    repeat first [rewrite <- app_assoc | progress cbn [app]]. reflexivity.
Qed.

Lemma Write_app_witness :
  exists b1 b2,
    Write (no_trailing default) Samples.twoPairsBlocks = Done (b1, None)
    /\ Write default Samples.tabbedBlocks = Done (b2, None)
    /\ Write default (Samples.twoPairsBlocks ++ Samples.tabbedBlocks)
       = Done (b1 ++ [nlc; nlc] ++ b2, None).
Proof.
  refine (Write_app default Samples.twoPairsBlocks Samples.tabbedBlocks _ _ _ _ _).
  - cbn. lia.
  - discriminate.
  - discriminate.
  - repeat constructor; discriminate.
  - repeat constructor; discriminate.
Defined.

End EncoderLayout.

(** ** Arrays of two elements and more, as [Write] lays them out *)

Module LongArray.

Import Shapes Scanner Blocks Decoder Encoder Run Canon StepFacts Cursor ValidatorFacts.
Import EncoderFacts DecodeDictionary DecodeBodies DecodeBlocks DecodeSequence Validity.
Import Valueless Edge EncoderLayout.

Lemma step_after_item_space by_ c :
  isSpace c = true ->
  step (mkScanner StEndValue false [parseArrayValue] None by_ []) c
  = Done (mkScanner StEndValue false [parseArrayValue] None by_ [], scanSkipSpace).
Proof. bytes c. Qed.

Lemma step_after_item_other by_ c :
  isSpace c = false -> (c =? ",")%char = false -> (c =? "]")%char = false ->
  step (mkScanner StEndValue false [parseArrayValue] None by_ []) c
  = Done (mkScanner StError false [parseArrayValue]
            (Some (mkSyntaxError
                     ("invalid character " ++ quoteChar c ++ " after array element") by_))
            by_ [],
          scanError).
Proof.
  intros H1 H2 H3. unfold step, stateEndValue, top, Scanner.error.
  cbn [step_fn parseState last bind endBlock bytes tagName]. now rewrite H1, H2, H3.
Qed.

Lemma marshal_values_next b e v v' vs :
  marshal_values b e (v :: v' :: vs)
  = (ind <- Repeat (GetIndent b) ;;
     marshal_values b (WriteString e (ind ++ v ++ GetLineSep b ++ nl)) (v' :: vs)).
Proof. reflexivity. Qed.

(** The bytes of the first element's line come first. *)
Lemma marshal_values_head b v vs x :
  0 <= GetIndent b ->
  marshal_values b [] (v :: vs) = Done x ->
  exists rest,
    x = repeat " "%char (Z.to_nat (GetIndent b)) ++ list_ascii_of_string v ++ rest.
Proof.
  intros Hi. destruct vs as [|v' vs].
  - cbn [marshal_values]. rewrite Repeat_Done by assumption. cbn [bind].
    intros E. inversion E. unfold WriteString. cbn [app].
    rewrite !bytes_app, spaces_bytes. eexists. reflexivity.
  - rewrite marshal_values_next, Repeat_Done by assumption. cbn [bind].
    rewrite marshal_values_acc.
    destruct (marshal_values b [] (v' :: vs)) as [y| |]; cbn [bind]; try discriminate.
    intros E. inversion E. unfold WriteString. cbn [app].
    rewrite !bytes_app, spaces_bytes, <- !app_assoc. eexists. reflexivity.
Qed.

Section Two.

Variable cfg : Encoder.
Variables name type_ v1 : string.
Variable c : byte.
Variable r2 : list byte.
Variable vs : list string.

Hypothesis Hindent : 0 <= indent cfg.
Hypothesis Hheader : header_ok name type_ arrayBlock = true.
Hypothesis Hv1 : item_ok v1 = true.
Hypothesis Hsep : forallb plain (list_ascii_of_string (lineSep cfg)) = true.
Hypothesis Hc1 : isSpace c = false.
Hypothesis Hc2 : (c =? ",")%char = false.
Hypothesis Hc3 : (c =? "]")%char = false.

Let n : nat := Z.to_nat (GetIndent cfg).
Let v2 : string := string_of_list_ascii (c :: r2).

Let before : list byte := up_to_second cfg name type_ v1.

Lemma long_array_bytes :
  exists rest,
    Write cfg [ArrayBlock name type_ (v1 :: v2 :: vs)] = Done (before ++ c :: rest, None).
Proof.
  assert (Hg := GetIndent_nonneg cfg Hindent).
  destruct (marshal_values_Done cfg (v2 :: vs) [] Hg) as (y & Ey).
  destruct (marshal_values_head cfg v2 vs y Hg Ey) as (rest & ->).
  assert (M : marshal cfg [] [ArrayBlock name type_ (v1 :: v2 :: vs)]
              = Done ((before ++ c :: r2 ++ rest) ++ ["]"%char; nlc; nlc], None)).
  { cbn [marshal]. unfold marshal_block. cbn [GetName GetType bind].
    rewrite marshal_values_next, Repeat_Done by assumption. cbn [bind].
    rewrite marshal_values_acc, Ey. cbn [bind]. unfold before, up_to_second, v2.
    assert (T : (if negb (type_ =? "")%string
                 then WriteString (WriteString [] name) (":" ++ type_)
                 else WriteString [] name)
                = list_ascii_of_string (tag_of name type_)).
    { unfold tag_of, WriteString. destruct (negb (type_ =? "")%string); [|reflexivity].
      cbn [app]. now rewrite !bytes_app. }
    rewrite T. unfold WriteString. fold n.
    rewrite !bytes_app, spaces_bytes, list_ascii_of_string_of_list_ascii.
    repeat first [rewrite <- app_assoc | progress cbn [app list_ascii_of_string nl]].
    reflexivity. }
  rewrite (Write_trim cfg _ _ _ M). eexists.
  rewrite <- !app_assoc. cbn [app]. rewrite <- !app_assoc. reflexivity.
Qed.

Lemma long_array_feeds :
  feeds (sc StBeginBlockLine false [] []) before (sc StEndValue false [parseArrayValue] []).
Proof.
  destruct (header_ok_inv _ _ _ Hheader) as (Hkind & _).
  destruct (tag_shape _ _ Hkind) as (t0 & tr & Et & Hlow & Htr).
  destruct (item_ok_inv _ Hv1) as (a & ar & Ev & V1 & V2 & V3 & V4).
  unfold before, up_to_second. fold n. rewrite Et, Ev.
  rewrite (app_assoc (t0 :: tr) [" "%char; "["%char]).
  eapply feeds_app.
  { apply (feeds_head arrayBlock t0 tr false); [assumption|assumption|].
    rewrite <- Et, string_of_list_ascii_of_string. exact Hkind. }
  eapply feeds_app.
  { apply feeds_steady with (op := scanSkipSpace); [|discriminate].
    constructor; [intros z; now apply step_item_space|].
    eapply Forall_impl; [|apply (repeat_spaces n)]. intros x Hx z. now apply step_item_space. }
  cbn [app]. eapply feeds_cons.
  { apply feeds_one with (op := scanContinue); [|discriminate].
    intros z. now apply step_item_first. }
  eapply feeds_app.
  { apply feeds_steady with (op := scanContinue); [|discriminate].
    eapply Forall_impl; [|exact V4]. intros x Hx z. now apply step_value_byte. }
  eapply feeds_app.
  { apply feeds_steady with (op := scanContinue); [|discriminate].
    apply Forall_forall. intros x Hx z. apply step_value_byte.
    rewrite forallb_forall in Hsep. now apply Hsep. }
  eapply feeds_cons.
  { apply feeds_one with (op := scanSkipSpace); [|discriminate].
    intros z. apply step_item_end. }
  apply feeds_steady with (op := scanSkipSpace); [|discriminate].
  eapply Forall_impl; [|apply (repeat_spaces n)]. intros x Hx z.
  now apply step_after_item_space.
Qed.

Lemma long_array_rejected :
  exists bs,
    Write cfg [ArrayBlock name type_ (v1 :: v2 :: vs)] = Done (bs, None)
    /\ forall fuel,
         Read fuel bs =
         Done ([], Some (ESyntax (mkSyntaxError
           ("invalid character " ++ quoteChar c ++ " after array element")
           (bump (List.length before + 1) 0)))).
Proof.
  destruct long_array_bytes as (rest & W). eexists. split; [exact W|].
  intros fuel. unfold Read. cbn [scan]. unfold checkValid. rewrite checkValid_loop_feed.
  change (reset zero) with (sc StBeginBlockLine false [] [] 0).
  rewrite (feed_stops _ _ _ _ _ _ _ _ _ long_array_feeds
             (fun z => step_after_item_other z c Hc1 Hc2 Hc3)).
  reflexivity.
Qed.

End Two.

(** X17. An array of two elements or more does not come back from the
    bytes [Write] makes of it: for every array tag, first element of plain
    bytes, line separator of plain bytes and second element that starts with
    a byte that is no white space, comma or closing bracket, whatever the
    other elements, [Write] returns bytes that [Read] rejects with "after
    array element" at the first byte of the second element (the offset is
    the byte counter after it), the validator wanting a comma in front of
    that byte where [Write] puts the separator at the end of the line
    before. *)
Theorem Read_of_Write_long_array (cfg : Encoder) (name type_ v1 : string) (c : byte)
    (r2 : list byte) (vs : list string) :
  0 <= indent cfg ->
  header_ok name type_ arrayBlock = true ->
  item_ok v1 = true ->
  forallb plain (list_ascii_of_string (lineSep cfg)) = true ->
  isSpace c = false -> (c =? ",")%char = false -> (c =? "]")%char = false ->
  exists bs,
    Write cfg [ArrayBlock name type_ (v1 :: string_of_list_ascii (c :: r2) :: vs)]
    = Done (bs, None)
    /\ forall fuel,
         Read fuel bs =
         Done ([], Some (ESyntax (mkSyntaxError
           ("invalid character " ++ quoteChar c ++ " after array element")
           (bump (List.length (up_to_second cfg name type_ v1) + 1) 0)))).
Proof.
  intros H1 H2 H3 H4 H5 H6 H7.
  exact (long_array_rejected cfg name type_ v1 c r2 vs H1 H2 H3 H4 H5 H6 H7).
Qed.

Lemma Read_of_Write_long_array_witness :
  exists bs,
    Write (mkEncoder 2 "," false)
      [ArrayBlock "vars" "secret" ["access_key"; "access_secret"; "~transactionId"]]
    = Done (bs, None)
    /\ forall fuel,
         Read fuel bs =
         Done ([], Some (ESyntax (mkSyntaxError
           "invalid character 'a' after array element" 31))).
Proof.
  refine (Read_of_Write_long_array (mkEncoder 2 "," false) "vars" "secret" "access_key"
            "a"%char (list_ascii_of_string "ccess_secret") ["~transactionId"]
            _ _ _ _ _ _ _).
  - cbn. lia.
  - vm_compute. reflexivity.
  - vm_compute. reflexivity.
  - vm_compute. reflexivity.
  - reflexivity.
  - reflexivity.
  - reflexivity.
Defined.

End LongArray.

(** ** [skip]: to the end of the block, or out of the data *)

Module SkipFacts.

Import Shapes Scanner Blocks Decoder Run Skipping Basics ScannerFacts.

(** The parse stack gets shorter at a closing byte only, and then the
    scanner is between two blocks. *)
Lemma step_pop s c s' op :
  SInv s -> step s c = Done (s', op) ->
  (List.length (parseState s) <= List.length (parseState s'))%nat
  \/ (((c =? "}")%char || (c =? "]")%char) = true
      /\ step_fn s' = StBeginBlockLine /\ endBlock s' = true /\ parseState s' = []
      /\ err s' = None /\ (op = scanEndBlock \/ op = scanEndArray)).
Proof.
  destruct s as [st eb ps er by_ tn]. unfold SInv, step.
  cbn [step_fn parseState endBlock err].
  destruct st; intros H.
  all: try (destruct H as ([p ->] & -> & ->)).
  all: try (destruct H as (-> & -> & ->)).
  all: try (destruct H as (-> & ->)).
  all: try solve [intros _; left; cbn [List.length]; lia].
  all: try solve [
    unfold stateWaitingForOpenBlock, stateOpenBlock,
      stateEndValue, stateNewDictionaryPair, stateNewArrayValue, stateNewTextLine,
      stateInText, stateInKey, stateBeginDictionaryValue, stateInValue,
      stateInStringEsc, stateInStringEscU, stateInStringEscU1, stateInStringEscU12,
      stateInStringEscU123, stateInStringEscUn, stateError,
      stateEndValue, top, popParseState, Scanner.error, set_step, set_top, set_parseState;
    simpl;
    try destruct p; simpl; brk; simpl;
    intros E; inversion E; subst; simpl;
    first [ left; lia
          | right; repeat split; auto using Bool.orb_true_r ] ].
Qed.

Lemma closing_of_test c : ((c =? "}")%char || (c =? "]")%char) = true -> closing c.
Proof.
  intros H. apply Bool.orb_true_iff in H. unfold closing.
  destruct H as [H|H]; apply Ascii.eqb_eq in H; auto.
Qed.

Section Loop.

Variable d : decodeState.
Variable depth : nat.

Lemma skip_from_returns : forall rest s i d',
  SInv s -> (depth <= List.length (parseState s))%nat ->
  skip_from d depth rest s i = Done d' ->
  exists l c r,
    rest = l ++ c :: r /\ closing c
    /\ off d' = i + Z.of_nat (List.length l) + 1
    /\ data d' = data d
    /\ step_fn (scan d') = StBeginBlockLine /\ endBlock (scan d') = true
    /\ parseState (scan d') = [] /\ err (scan d') = None
    /\ (opcode_ d' = scanEndBlock \/ opcode_ d' = scanEndArray).
Proof.
  induction rest as [|c rest IH]; intros s i d' Hs Hd; cbn [skip_from]; [discriminate|].
  destruct (step_inv s c Hs) as (s1 & op & E1 & H1 & _). rewrite E1. cbn [bind].
  destruct (Nat.ltb_spec (List.length (parseState s1)) depth) as [Hlt|Hge].
  - intros E. inversion E. subst d'. clear E.
    destruct (step_pop s c s1 op Hs E1) as [Hle|(Hc & A & B & C & D & F)]; [lia|].
    exists [], c, rest. cbn [app List.length off data scan opcode_].
    repeat split; auto using closing_of_test. lia.
  - intros E. destruct (IH s1 (i + 1) d' H1 Hge E) as (l & x & r & -> & Hx & Ho & R).
    exists (c :: l), x, r. split; [reflexivity|]. split; [exact Hx|].
    split; [|exact R]. cbn [List.length]. lia.
Qed.

Lemma skip_from_no_close : forall rest s i,
  SInv s -> (depth <= List.length (parseState s))%nat ->
  Forall (fun c => ~ closing c) rest ->
  skip_from d depth rest s i = Panic.
Proof.
  induction rest as [|c rest IH]; intros s i Hs Hd F; cbn [skip_from]; [reflexivity|].
  inversion F as [|? ? Hc F']. subst.
  destruct (step_inv s c Hs) as (s1 & op & E1 & H1 & _). rewrite E1. cbn [bind].
  destruct (step_pop s c s1 op Hs E1) as [Hle|(Hx & _)].
  - destruct (Nat.ltb_spec (List.length (parseState s1)) depth) as [Hlt|Hge]; [lia|].
    now apply IH.
  - elim Hc. now apply closing_of_test.
Qed.

Lemma skip_from_error : forall rest s i,
  step_fn s = StError -> (depth <= List.length (parseState s))%nat ->
  skip_from d depth rest s i = Panic.
Proof.
  induction rest as [|c rest IH]; intros s i Hs Hd; cbn [skip_from]; [reflexivity|].
  assert (E : step s c = Done (s, scanError)) by (unfold step; now rewrite Hs).
  rewrite E. cbn [bind].
  destruct (Nat.ltb_spec (List.length (parseState s)) depth) as [Hlt|Hge]; [lia|].
  now apply IH.
Qed.

End Loop.

Lemma skip_from_nothing_open d : forall rest s i,
  SInv s -> skip_from d 0 rest s i = Panic.
Proof.
  induction rest as [|c rest IH]; intros s i Hs; cbn [skip_from]; [reflexivity|].
  destruct (step_inv s c Hs) as (s1 & op & E1 & H1 & _). rewrite E1. cbn [bind].
  now apply IH.
Qed.

(** X18. [skip] returns at the byte that closes the block open when it is
    called, and panics otherwise.  From a scanner state reached by the
    transitions: if [skip] returns, the bytes from the offset on hold a
    closing brace or bracket, the new offset is just past it, the opcode is
    [scanEndBlock] or [scanEndArray] and the scanner is between two blocks
    with an empty parse stack and no error; and [skip] panics, reading past
    the end of the data, when no block is open, when the scanner is in the
    error state, or when no closing byte is left in the data. *)
Theorem skip_returns_at_close (d : decodeState) :
  SInv (scan d) ->
  (forall d',
     skip d = Done d' ->
     exists l c r,
       skipn (Z.to_nat (off d)) (data d) = l ++ c :: r /\ closing c
       /\ off d' = off d + Z.of_nat (List.length l) + 1
       /\ data d' = data d
       /\ step_fn (scan d') = StBeginBlockLine /\ endBlock (scan d') = true
       /\ parseState (scan d') = [] /\ err (scan d') = None
       /\ (opcode_ d' = scanEndBlock \/ opcode_ d' = scanEndArray))
  /\ (parseState (scan d) = [] \/ step_fn (scan d) = StError
      \/ Forall (fun c => ~ closing c) (skipn (Z.to_nat (off d)) (data d)) ->
      skip d = Panic).
Proof.
  intros Hs. unfold skip. split.
  - intros d'. destruct (off d <? 0); [discriminate|].
    apply skip_from_returns; [exact Hs|lia].
  - intros H. destruct (off d <? 0); [reflexivity|].
    destruct H as [H|[H|H]].
    + rewrite H. now apply skip_from_nothing_open.
    + now apply skip_from_error.
    + apply skip_from_no_close; [exact Hs|lia|exact H].
Qed.

Lemma skip_returns_at_close_witness :
  (exists l c r,
     skipn 6 Samples.metaSimple = l ++ c :: r /\ closing c
     /\ 32 = 6 + Z.of_nat (List.length l) + 1)
  /\ skip (mkDecodeState Samples.metaUnclosed 6 scanBeginDictionary
             (mkScanner StOpenBlock false [parseDictionaryKey] None 6 [])) = Panic.
Proof.
  assert (H : SInv (mkScanner StOpenBlock false [parseDictionaryKey] None 6 [])).
  { split; [eexists; reflexivity|split; reflexivity]. }
  split.
  - destruct (proj1 (skip_returns_at_close
               (mkDecodeState Samples.metaSimple 6 scanBeginDictionary
                  (mkScanner StOpenBlock false [parseDictionaryKey] None 6 [])) H)
               (mkDecodeState Samples.metaSimple 32 scanEndBlock
                  (mkScanner StBeginBlockLine true [] None 6 []))) as (l & c & r & A & B & C & _).
    + vm_compute. reflexivity.
    + exists l, c, r. split; [exact A|]. split; [exact B|exact C].
  - apply (proj2 (skip_returns_at_close
               (mkDecodeState Samples.metaUnclosed 6 scanBeginDictionary
                  (mkScanner StOpenBlock false [parseDictionaryKey] None 6 [])) H)).
    right. right. vm_compute.
    repeat (constructor; [intros [X|X]; discriminate X|]). constructor.
Defined.

End SkipFacts.

(** ** Reading one layout and writing another *)

Module Reformat.

Import Shapes Scanner Blocks Decoder Encoder Run Canon Samples.
Import DecodeSequence Validity.



End Reformat.

(** ** Arrays and texts with an empty body *)

Module EmptyArrayText.

Import Shapes Scanner Blocks Decoder Encoder Run Canon Samples StepFacts Cursor ValidatorFacts.
Import Fuel DecodeDictionary DecodeBodies DecodeBlocks DecodeSequence Validity Valueless.
Import Edge EmptyBody.

Lemma step_item_close_first by_ :
  step (mkScanner StOpenBlock false [parseArrayValue] None by_ []) "]"%char
  = Done (mkScanner StBeginBlockLine true [] None by_ [], scanEndBlock).
Proof. reflexivity. Qed.

Section AtEnd.

Variable D : list byte.
Variable s : scanner.
Hypothesis Hs : eof s = Done (s, scanEnd).

(** Past the end the loop over the elements never sees [scanEndArray]. *)
Lemma array_loop_ended : forall fuel dic,
  array_loop fuel (ended D s) dic = OutOfFuel.
Proof.
  induction fuel as [|fuel IH]; intros dic; [reflexivity|].
  rewrite array_loop_S.
  change (opcode_eqb (opcode_ (ended D s)) scanEndArray) with false. cbv iota.
  rewrite (scanWhile_ended D s Hs). cbn [bind]. cbv zeta.
  rewrite (scanWhile_ended D s Hs). cbn [bind]. rewrite substr_ended. cbn [bind].
  rewrite (scanNext_ended D s Hs). cbn [bind]. apply IH.
Qed.

End AtEnd.

(** Between two blocks and with white space only ahead, the loop runs to the
    end of the buffer. *)
Lemma array_loop_spaces (D : list byte) z q o rest dic :
  skipn q D = rest -> Forall (fun x => isSpace x = true) rest -> o <> scanEndArray ->
  forall fuel, array_loop fuel (mkDecodeState D (Z.of_nat q) o (between z true)) dic
               = OutOfFuel.
Proof.
  intros Hq F No fuel. destruct fuel as [|fuel]; [reflexivity|].
  assert (Hs := eof_between z).
  rewrite array_loop_S. cbn [opcode_]. rewrite (opcode_eqb_neq o) by assumption.
  rewrite (scanWhile_end D q o (between z true) scanSkipSpace rest (between z true)
             scanEnd Hq);
    [ |eapply Forall_impl; [|exact F]; intros x Hx; now apply step_between_space
      |exact Hs].
  cbn [bind]. cbv zeta. fold (ended D (between z true)).
  rewrite (scanWhile_ended D _ Hs). cbn [bind]. rewrite substr_ended. cbn [bind].
  rewrite (scanNext_ended D _ Hs). cbn [bind].
  apply array_loop_ended. exact Hs.
Qed.

Section Array.

Variables name type_ : string.
Variables ws tl : list byte.

Hypothesis Hheader : header_ok name type_ arrayBlock = true.
Hypothesis Hws : Forall (fun x => isSpace x = true) ws.
Hypothesis Htl : Forall (fun x => isSpace x = true) tl.

Let D : list byte := empty_array name type_ ws tl.

Lemma empty_array_valid :
  exists z, checkValid D zero = Done (between z true, None).
Proof.
  destruct (header_ok_inv _ _ _ Hheader) as (Hkind & _).
  destruct (tag_shape _ _ Hkind) as (t0 & tr & Et & Hlow & Htr).
  assert (E : D = (t0 :: tr ++ [" "%char; "["%char]) ++ ws ++ ["]"%char] ++ tl).
  { unfold D, empty_array. rewrite Et.
    repeat first [rewrite <- app_assoc | progress cbn [app]]. reflexivity. }
  eexists. apply checkValid_ok_iff. eexists. split.
  - change (reset zero) with (sc StBeginBlockLine false [] [] 0). rewrite E.
    refine (feeds_app _ _ _ _ _ _ _ 0).
    + apply (feeds_head arrayBlock t0 tr false); [assumption|assumption|].
      rewrite <- Et, string_of_list_ascii_of_string. exact Hkind.
    + eapply feeds_app.
      { apply feeds_steady with (op := scanSkipSpace); [|discriminate].
        eapply Forall_impl; [|exact Hws]. intros x Hx z. now apply step_item_space. }
      eapply feeds_app; [|exact (feeds_spaces true tl Htl)].
      apply feeds_one with (op := scanEndBlock); [|discriminate].
      intros z. apply step_item_close_first.
  - reflexivity.
Qed.

(** The first turn of the loop reads the closing bracket as an element. *)
Lemma empty_array_loop z q :
  skipn q D = ws ++ "]"%char :: tl ->
  forall fuel,
    array_loop fuel
      (mkDecodeState D (Z.of_nat q) scanBeginArray
         (inDict z StOpenBlock parseArrayValue)) []
    = OutOfFuel.
Proof.
  intros Hq fuel. destruct fuel as [|fuel]; [reflexivity|].
  assert (Hs := eof_between z).
  assert (H1 : skipn (S (q + List.length ws)) D = tl).
  { eapply skipn_cons_at. apply skipn_app_at. exact Hq. }
  assert (Hb : skipn (q + List.length ws) D = ["]"%char] ++ tl).
  { apply skipn_app_at. exact Hq. }
  rewrite array_loop_S. cbn [opcode_].
  change (opcode_eqb scanBeginArray scanEndArray) with false. cbv iota.
  rewrite (scanWhile_at D q scanBeginArray _ scanSkipSpace ws "]"%char tl
             (between z true) scanEndBlock Hq);
    [ | eapply Forall_impl; [|exact Hws]; intros x Hx; now apply step_item_space
      | apply step_item_close_first
      | discriminate ].
  cbn [bind]. cbv zeta. rewrite readIndex_S.
  destruct tl as [|c tl'].
  - rewrite (scanWhile_end D (S (q + List.length ws)) scanEndBlock (between z true)
               scanContinue [] (between z true) scanEnd H1);
      [|constructor|exact Hs].
    cbn [bind].
    rewrite (substr_at D (q + List.length ws) (S (List.length D)) scanEnd
               (between z true) ["]"%char] [] Hb);
      [|discriminate|].
    2:{ apply skipn_bound in Hb; [|discriminate]. cbn [List.length app] in *. lia. }
    cbn [bind]. fold (ended D (between z true)).
    rewrite (scanNext_ended D _ Hs). cbn [bind].
    apply array_loop_ended. exact Hs.
  - inversion Htl as [|c' tl'' Hc Htl']; subst.
    rewrite (scanWhile_at D (S (q + List.length ws)) scanEndBlock (between z true)
               scanContinue [] c tl' (between z true) scanSkipSpace H1);
      [ |constructor|now apply step_between_space|discriminate].
    cbn [bind].
    rewrite (substr_at D (q + List.length ws) _ scanSkipSpace
               (between z true) ["]"%char] (c :: tl') Hb);
      [|discriminate|cbn [List.length]; lia].
    cbn [bind].
    assert (H2 : skipn (S (S (q + List.length ws) + List.length (@nil byte))) D = tl').
    { eapply skipn_cons_at. apply (skipn_app_at D _ []). exact H1. }
    destruct tl' as [|c2 tl2].
    + rewrite (scanNext_end D _ scanSkipSpace (between z true) (between z true) scanEnd
                 H2 Hs).
      cbn [bind]. fold (ended D (between z true)).
      apply array_loop_ended. exact Hs.
    + inversion Htl' as [|c2' tl2' Hc2 Htl2]; subst.
      rewrite (scanNext_at D _ scanSkipSpace (between z true) c2 tl2 (between z true)
                 scanSkipSpace H2 (step_between_space true z c2 Hc2)).
      cbn [bind].
      apply (array_loop_spaces _ z _ scanSkipSpace tl2);
        [eapply skipn_cons_at; exact H2|exact Htl2|discriminate].
Qed.

Lemma empty_array_large :
  exists N, forall fuel, (N <= fuel)%nat -> Read fuel D = OutOfFuel.
Proof.
  destruct (header_ok_inv _ _ _ Hheader) as (Hkind & f & Hcut).
  destruct (tag_shape _ _ Hkind) as (t0 & tr & Et & Hlow & Htr).
  destruct empty_array_valid as (z & V).
  assert (H0 : skipn 0 D = t0 :: tr ++ " "%char :: opener arrayBlock
                                :: ws ++ "]"%char :: tl).
  { cbn [skipn]. unfold D, empty_array. rewrite Et.
    repeat first [rewrite <- app_assoc | progress cbn [app opener]]. reflexivity. }
  destruct (block_head D z arrayBlock name type_ f 0%nat t0 tr _ Hkind Hcut Et Htr H0)
    as (q & Hq & Head).
  exists (List.length tr + 3)%nat. intros fuel Hf.
  unfold Read. cbn [scan]. rewrite V. cbn [bind].
  unfold unmarshal, init. cbn [data off opcode_ scan].
  change (reset (between z true)) with (between z false).
  destruct fuel as [|fuel]; [lia|].
  rewrite value_S.
  change (mkDecodeState D 0 scanContinue (between z false))
    with (mkDecodeState D (Z.of_nat 0) scanContinue (between z false)).
  rewrite (scanWhile_at D 0 scanContinue (between z false) scanSkipSpace [] t0 _
             (readingTag z [t0]) scanBeginTag H0);
    [|constructor|now apply step_begin_tag|discriminate].
  cbn [bind opcode_]. rewrite (opcode_eqb_neq scanBeginTag) by discriminate.
  change (S (0 + List.length (@nil byte))) with 1%nat.
  rewrite Head by lia. cbn [begin_op parse_of]. cbv zeta.
  rewrite (empty_array_loop z q Hq). reflexivity.
Qed.

Lemma empty_array_never : forall fuel, Read fuel D = OutOfFuel.
Proof.
  destruct empty_array_large as (N & L). intros fuel.
  destruct (Read fuel D) as [r| |] eqn:E; [| |reflexivity].
  - assert (X := Read_more fuel N D _ E ltac:(discriminate)).
    rewrite L in X by lia. discriminate.
  - assert (X := Read_more fuel N D _ E ltac:(discriminate)).
    rewrite L in X by lia. discriminate.
Qed.

End Array.

Section Text.

Variables name type_ : string.
Variable x : byte.
Variable tl : list byte.

Hypothesis Hheader : header_ok name type_ textBlock = true.

Let D : list byte := empty_text name type_ x tl.

Lemma empty_text_large s :
  checkValid D zero = Done (s, None) ->
  forall fuel,
    (List.length (list_ascii_of_string (tag_of name type_)) + 4 <= fuel)%nat ->
    Read fuel D = Panic.
Proof.
  intros V fuel Hf.
  destruct (header_ok_inv _ _ _ Hheader) as (Hkind & f & Hcut).
  destruct (tag_shape _ _ Hkind) as (t0 & tr & Et & Hlow & Htr).
  rewrite Et in Hf. cbn [List.length] in Hf.
  assert (H0 : skipn 0 D = t0 :: tr ++ " "%char :: opener textBlock
                                :: x :: "}"%char :: tl).
  { cbn [skipn]. unfold D, empty_text. rewrite Et.
    repeat first [rewrite <- app_assoc | progress cbn [app opener]]. reflexivity. }
  destruct (block_head D (bytes s) textBlock name type_ f 0%nat t0 tr _ Hkind Hcut Et Htr H0)
    as (q & Hq & Head).
  assert (H4 : skipn (S q) D = "}"%char :: tl) by (eapply skipn_cons_at; exact Hq).
  unfold Read. cbn [scan]. rewrite V. cbn [bind].
  unfold unmarshal, init. cbn [data off opcode_ scan].
  assert (Hr : reset s = between (bytes s) false) by reflexivity.
  rewrite Hr.
  destruct fuel as [|fuel]; [lia|].
  rewrite value_S.
  change (mkDecodeState D 0 scanContinue (between (bytes s) false))
    with (mkDecodeState D (Z.of_nat 0) scanContinue (between (bytes s) false)).
  rewrite (scanWhile_at D 0 scanContinue (between (bytes s) false) scanSkipSpace [] t0 _
             (readingTag (bytes s) [t0]) scanBeginTag H0);
    [|constructor|now apply step_begin_tag|discriminate].
  cbn [bind opcode_]. rewrite (opcode_eqb_neq scanBeginTag) by discriminate.
  change (S (0 + List.length (@nil byte))) with 1%nat.
  rewrite Head by lia. cbn [begin_op parse_of]. cbv zeta.
  destruct fuel as [|[|[|fuel]]]; try lia.
  rewrite scanUntil_S. cbn [opcode_ orb].
  change (opcode_eqb scanBeginText scanEndBlock || opcode_eqb scanBeginText scanTextLine)
    with false. cbv iota.
  erewrite scanNext_at; [|exact Hq|apply step_text_open].
  cbn [bind]. rewrite scanUntil_S. cbn [opcode_].
  change (opcode_eqb scanSkipSpace scanEndBlock || opcode_eqb scanSkipSpace scanTextLine)
    with false. cbv iota.
  erewrite scanNext_at; [|exact H4|apply step_text_close].
  cbn [bind]. rewrite scanUntil_S. cbn [opcode_].
  change (opcode_eqb scanEndBlock scanEndBlock || opcode_eqb scanEndBlock scanTextLine)
    with true. cbv iota. cbn [bind].
  rewrite text_loop_S. cbn [opcode_].
  change (opcode_eqb scanEndBlock scanEndBlock) with true. cbv iota.
  reflexivity.
Qed.

Lemma empty_text_never s :
  checkValid D zero = Done (s, None) -> forall fuel r, Read fuel D <> Done r.
Proof.
  intros V fuel r E.
  assert (X := Read_more fuel (List.length (list_ascii_of_string (tag_of name type_)) + 4)
                 D _ E ltac:(discriminate)).
  rewrite (empty_text_large s V) in X by lia. discriminate.
Qed.

End Text.

(** X20. An array block with no element is accepted by the validator and
    never decoded: for every array tag and any white space between the
    brackets and after them, [Valid] answers true, and [Read] returns neither
    blocks nor an error: the closing bracket right after the opening one ends
    the block with [scanEndBlock], which the loop over the elements, waiting
    for [scanEndArray], reads as an element before it runs to the end of the
    buffer. *)
Theorem Read_empty_array_never_returns (name type_ : string) (ws tl : list byte) :
  header_ok name type_ arrayBlock = true ->
  Forall (fun x => isSpace x = true) ws ->
  Forall (fun x => isSpace x = true) tl ->
  Valid (empty_array name type_ ws tl) = Done true
  /\ forall fuel, Read fuel (empty_array name type_ ws tl) = OutOfFuel.
Proof.
  intros Hh Hws Htl. split.
  - destruct (empty_array_valid name type_ ws tl Hh Hws Htl) as (z & V).
    unfold Valid.
    change (checkValid (empty_array name type_ ws tl) newScanner)
      with (checkValid (empty_array name type_ ws tl) zero).
    rewrite V. reflexivity.
  - now apply empty_array_never.
Qed.

Lemma Read_empty_array_never_returns_witness :
  Valid (bytes_of ("vars:secret [" ++ nl ++ "]" ++ nl)) = Done true
  /\ forall fuel, Read fuel (bytes_of ("vars:secret [" ++ nl ++ "]" ++ nl)) = OutOfFuel.
Proof.
  refine (Read_empty_array_never_returns "vars" "secret" ["010"%char] ["010"%char] _ _ _).
  - vm_compute. reflexivity.
  - repeat constructor.
  - repeat constructor.
Defined.

(** X21. A text block with no line makes [Read] panic: for every text tag,
    when the opening brace is followed by one byte, whatever it is, and the
    closing brace, and the validator accepts the buffer, [Read] takes the
    text for the empty string and slices it one byte short,
    [dic[:len(dic)-1]] with a negative bound; it returns nothing for any
    amount of fuel, whatever blocks follow. *)
Theorem Read_empty_text_panics (name type_ : string) (x : byte) (tl : list byte) :
  header_ok name type_ textBlock = true ->
  Valid (empty_text name type_ x tl) = Done true ->
  (forall fuel,
     (List.length (list_ascii_of_string (tag_of name type_)) + 4 <= fuel)%nat ->
     Read fuel (empty_text name type_ x tl) = Panic)
  /\ forall fuel r, Read fuel (empty_text name type_ x tl) <> Done r.
Proof.
  intros Hh V. unfold Valid in V.
  change (checkValid (empty_text name type_ x tl) newScanner)
    with (checkValid (empty_text name type_ x tl) zero) in V.
  destruct (checkValid (empty_text name type_ x tl) zero) as [[s [e|]]| |] eqn:V';
    try discriminate V.
  split.
  - exact (empty_text_large name type_ x tl Hh s V').
  - exact (empty_text_never name type_ x tl Hh s V').
Qed.

Lemma Read_empty_text_panics_witness :
  (forall fuel, (22 <= fuel)%nat ->
     Read fuel (bytes_of ("script:pre-request {" ++ nl ++ "}" ++ nl ++ nl
                          ++ "meta {" ++ nl ++ "  seq: 1" ++ nl ++ "}" ++ nl)) = Panic)
  /\ forall fuel r,
       Read fuel (bytes_of ("script:pre-request {" ++ nl ++ "}" ++ nl ++ nl
                            ++ "meta {" ++ nl ++ "  seq: 1" ++ nl ++ "}" ++ nl)) <> Done r.
Proof.
  refine (Read_empty_text_panics "script" "pre-request" "010"%char
            (list_ascii_of_string (nl ++ nl ++ "meta {" ++ nl ++ "  seq: 1" ++ nl ++ "}" ++ nl))
            _ _).
  - vm_compute. reflexivity.
  - vm_compute. reflexivity.
Defined.

End EmptyArrayText.

(** ** Dictionaries whose lines are not indented *)

Module Unindented.

Import Shapes Scanner Blocks Decoder Encoder Run Canon Samples StepFacts Cursor ValidatorFacts.
Import DecodeDictionary DecodeBodies DecodeBlocks DecodeSequence Validity.

Section At.

Variable D : list byte.
Variable by_ : Z.
Variable sp : list byte.
Hypothesis Hsp : Forall (fun x => x = " "%char) sp.

(** After [scanNext] has read the first byte of a key, the decoder takes
    the key to start at the byte that follows. *)
Lemma read_key_tail p o k1 kr T :
  Forall (fun x => plain x && negb (x =? ":")%char = true) (k1 :: kr) ->
  skipn p D = (k1 :: kr) ++ ":"%char :: T ->
  exists q d1,
    skipn q D = T
    /\ scanWhile (mkDecodeState D (Z.of_nat p) o (inDict by_ StInKey parseDictionaryKey))
         scanSkipSpace = Done d1
    /\ scanWhile d1 scanContinue
       = Done (mkDecodeState D (Z.of_nat q) scanDictionaryValue
                 (inDict by_ StBeginDictionaryValue parseDictionaryValue))
    /\ substr (mkDecodeState D (Z.of_nat q) scanDictionaryValue
                 (inDict by_ StBeginDictionaryValue parseDictionaryValue))
         (readIndex d1)
         (readIndex (mkDecodeState D (Z.of_nat q) scanDictionaryValue
                       (inDict by_ StBeginDictionaryValue parseDictionaryValue)))
       = Done (string_of_list_ascii (k1 :: kr)).
Proof.
  intros Hk H. inversion Hk as [|? ? Hk1 Hkr]; subst.
  assert (Hp : skipn p D = [] ++ k1 :: kr ++ ":"%char :: T) by exact H.
  assert (H2 : skipn (S (p + 0)) D = kr ++ ":"%char :: T).
  { rewrite Nat.add_0_r. eapply skipn_cons_at. exact Hp. }
  assert (H3 : skipn (S (S (p + 0) + List.length kr)) D = T).
  { apply (skipn_cons_at _ _ ":"%char). apply skipn_app_at. exact H2. }
  eexists. eexists. split; [exact H3|]. split; [|split].
  - apply (scanWhile_at D p o _ scanSkipSpace [] k1 (kr ++ ":"%char :: T)).
    + exact Hp.
    + constructor.
    + now apply step_key_byte.
    + discriminate.
  - apply (scanWhile_at D _ _ _ scanContinue kr ":"%char T).
    + exact H2.
    + eapply Forall_impl; [|exact Hkr]. intros c Hc. now apply step_key_byte.
    + apply step_key_colon.
    + discriminate.
  - cbn [List.length]. rewrite readIndex_S.
    rewrite (substr_at D (p + 0) _ _ _ (k1 :: kr) (":"%char :: T)).
    + reflexivity.
    + rewrite Nat.add_0_r. exact H.
    + discriminate.
    + blia.
Qed.

(** The loop over the pairs from there. *)
Lemma loop_in_key : forall c k1 kr v p o acc R,
  o <> scanEndBlock ->
  Forall (fun x => plain x && negb (x =? ":")%char = true) (k1 :: kr) ->
  value_ok v = true ->
  forallb pair_ok c = true -> forallb long_key c = true ->
  skipn p D = (k1 :: kr) ++ ":"%char :: sp ++ list_ascii_of_string v
                ++ nlc :: pairs_bytes 0 sp c ++ "}"%char :: R ->
  exists q,
    skipn q D = R
    /\ forall fuel, (List.length c + 2 <= fuel)%nat ->
       dictionary_loop fuel
         (mkDecodeState D (Z.of_nat p) o (inDict by_ StInKey parseDictionaryKey)) acc
       = Done (mkDecodeState D (Z.of_nat q) scanEndBlock (between by_ true),
               acc ++ mkDictionaryElement (string_of_list_ascii (k1 :: kr)) v
                   :: map behead c).
Proof.
  induction c as [|e2 c IH]; intros k1 kr v p o acc R Ho Hk Hv Hok Hlong H.
  - destruct (read_key_tail p o k1 kr _ Hk H) as (q1 & d1 & A1 & A2 & A3 & A4).
    cbn [pairs_bytes app] in A1.
    destruct (read_value D by_ q1 sp v _ Hsp Hv A1) as (q2 & A5 & A6).
    exists (S q2). split; [apply (skipn_cons_at _ _ "}"%char); exact A5|].
    intros fuel Hf. destruct fuel as [|[|fuel]]; try blia.
    rewrite dictionary_loop_S. cbn [opcode_].
    rewrite (opcode_eqb_neq o) by assumption.
    rewrite A2. cbn [bind]. rewrite A3. cbn [bind]. rewrite A4. cbn [bind].
    rewrite A6. cbn [bind].
    rewrite (scanNext_at D q2 _ _ "}"%char R (between by_ true) scanEndBlock);
      [|exact A5|apply step_key_close; now right].
    cbn [bind]. rewrite dictionary_loop_S. cbn [opcode_]. rewrite opcode_eqb_refl.
    reflexivity.
  - destruct (read_key_tail p o k1 kr _ Hk H) as (q1 & d1 & A1 & A2 & A3 & A4).
    cbn [forallb] in Hok, Hlong.
    apply andb_true_iff in Hok. destruct Hok as [Hok Hrest].
    apply andb_true_iff in Hok. destruct Hok as [Hk2 Hv2].
    apply andb_true_iff in Hlong. destruct Hlong as [Hl2 Hlrest].
    destruct (key_ok_inv _ Hk2) as (k0 & kr2 & Ek & S0 & C0 & P0 & Pr).
    unfold long_key in Hl2. rewrite Ek in Hl2.
    destruct kr2 as [|k1' kr2]; [discriminate|].
    destruct (read_value D by_ q1 sp v _ Hsp Hv A1) as (q2 & A5 & A6).
    cbn [pairs_bytes repeat] in A5. unfold pair_bytes at 1 in A5. rewrite Ek in A5.
    norm A5.
    destruct (IH k1' kr2 (Value e2) (S q2) scanContinue
                (acc ++ [mkDictionaryElement (string_of_list_ascii (k1 :: kr)) v]) R)
      as (q3 & A7 & A8).
    + discriminate.
    + exact Pr.
    + exact Hv2.
    + exact Hrest.
    + exact Hlrest.
    + apply (skipn_cons_at _ _ k0). rewrite A5. cbn [app].
      repeat rewrite <- app_assoc. reflexivity.
    + exists q3. split; [exact A7|].
      intros fuel Hf. destruct fuel as [|fuel]; [blia|].
      rewrite dictionary_loop_S. cbn [opcode_].
      rewrite (opcode_eqb_neq o) by assumption.
      rewrite A2. cbn [bind]. rewrite A3. cbn [bind]. rewrite A4. cbn [bind].
      rewrite A6. cbn [bind].
      erewrite scanNext_at;
        [|exact A5|apply step_key_first; [now right|exact S0|exact C0|exact P0]].
      cbn [bind]. rewrite A8 by blia.
      rewrite <- app_assoc. cbn [app map]. unfold behead at 2. rewrite Ek. reflexivity.
Qed.

(** The loop from the opening brace: the first key is whole. *)
Lemma loop_unindented e c st p o ws acc R :
  before_key st -> o <> scanEndBlock ->
  Forall (fun x => isSpace x = true) ws ->
  forallb pair_ok (e :: c) = true -> forallb long_key c = true ->
  skipn p D = ws ++ pair_bytes sp e ++ pairs_bytes 0 sp c ++ "}"%char :: R ->
  exists q,
    skipn q D = R
    /\ forall fuel, (List.length c + 2 <= fuel)%nat ->
       dictionary_loop fuel
         (mkDecodeState D (Z.of_nat p) o (inDict by_ st parseDictionaryKey)) acc
       = Done (mkDecodeState D (Z.of_nat q) scanEndBlock (between by_ true),
               acc ++ e :: map behead c).
Proof.
  intros Hst Ho Hws Hok Hlong H.
  cbn [forallb] in Hok. apply andb_true_iff in Hok. destruct Hok as [Hok Hrest].
  apply andb_true_iff in Hok. destruct Hok as [Hk Hv].
  unfold pair_bytes at 1 in H. norm H.
  destruct (read_key D by_ st p o ws (Key e) _ Hst Hws Hk H) as (q1 & d1 & A1 & A2 & A3 & A4).
  destruct (read_value D by_ q1 sp (Value e) _ Hsp Hv A1) as (q2 & A5 & A6).
  destruct c as [|e2 c].
  - cbn [pairs_bytes app] in A5.
    exists (S q2). split; [apply (skipn_cons_at _ _ "}"%char); exact A5|].
    intros fuel Hf. destruct fuel as [|[|fuel]]; try blia.
    rewrite dictionary_loop_S. cbn [opcode_].
    rewrite (opcode_eqb_neq o) by assumption.
    rewrite A2. cbn [bind]. rewrite A3. cbn [bind]. rewrite A4. cbn [bind].
    rewrite A6. cbn [bind].
    rewrite (scanNext_at D q2 _ _ "}"%char R (between by_ true) scanEndBlock);
      [|exact A5|apply step_key_close; now right].
    cbn [bind]. rewrite dictionary_loop_S. cbn [opcode_]. rewrite opcode_eqb_refl.
    destruct e; reflexivity.
  - cbn [forallb] in Hrest, Hlong.
    apply andb_true_iff in Hrest. destruct Hrest as [Hok2 Hrest].
    apply andb_true_iff in Hok2. destruct Hok2 as [Hk2 Hv2].
    apply andb_true_iff in Hlong. destruct Hlong as [Hl2 Hlrest].
    destruct (key_ok_inv _ Hk2) as (k0 & kr2 & Ek & S0 & C0 & P0 & Pr).
    unfold long_key in Hl2. rewrite Ek in Hl2.
    destruct kr2 as [|k1' kr2]; [discriminate|].
    cbn [pairs_bytes repeat] in A5. unfold pair_bytes at 1 in A5. rewrite Ek in A5.
    norm A5.
    destruct (loop_in_key c k1' kr2 (Value e2) (S q2) scanContinue
                (acc ++ [e]) R) as (q3 & A7 & A8).
    + discriminate.
    + exact Pr.
    + exact Hv2.
    + exact Hrest.
    + exact Hlrest.
    + apply (skipn_cons_at _ _ k0). rewrite A5. cbn [app].
      repeat rewrite <- app_assoc. reflexivity.
    + exists q3. split; [exact A7|].
      intros fuel Hf. destruct fuel as [|fuel]; [blia|].
      rewrite dictionary_loop_S. cbn [opcode_].
      rewrite (opcode_eqb_neq o) by assumption.
      rewrite A2. cbn [bind]. rewrite A3. cbn [bind]. rewrite A4. cbn [bind].
      rewrite A6. cbn [bind].
      erewrite scanNext_at;
        [|exact A5|apply step_key_first; [now right|exact S0|exact C0|exact P0]].
      cbn [bind]. replace (mkDictionaryElement (Key e) (Value e)) with e by now destruct e.
      rewrite A8 by blia.
      rewrite <- app_assoc. cbn [app map]. unfold behead at 2. rewrite Ek. reflexivity.
Qed.

End At.

Lemma Read_unindented name type_ e c tail :
  header_ok name type_ dictionaryBlock = true ->
  forallb pair_ok (e :: c) = true -> forallb long_key c = true ->
  tail = [] \/ tail = [nlc] ->
  exists N, forall fuel, (N <= fuel)%nat ->
    Read fuel (segs 0 tail [DictionaryBlock name type_ (e :: c)])
    = Done ([DictionaryBlock name type_ (e :: map behead c)], None).
Proof.
  intros Hh Hok Hlong Htail.
  set (D := segs 0 tail [DictionaryBlock name type_ (e :: c)]).
  assert (Hcan : canonical [DictionaryBlock name type_ (e :: c)] = true).
  { cbn [canonical forallb block_ok]. rewrite Hh, andb_true_r. exact Hok. }
  destruct (checkValid_canonical 0 tail _ zero Htail Hcan) as (z & V).
  fold D in V.
  destruct (header_ok_inv _ _ _ Hh) as (Hkind & f & Hcut).
  destruct (tag_shape _ _ Hkind) as (t0 & tr & Et & Hlow & Htr).
  assert (H0 : skipn 0 D = t0 :: tr ++ " "%char :: opener dictionaryBlock
                 :: [nlc] ++ pair_bytes [" "%char] e ++ pairs_bytes 0 [" "%char] c
                 ++ "}"%char :: tail).
  { cbn [skipn]. unfold D. cbn [segs]. unfold enc.
    cbn [tag_bytes kind_of body_bytes pairs_bytes repeat opener]. rewrite Et.
    repeat first [rewrite <- app_assoc | progress cbn [app]]. reflexivity. }
  destruct (block_head D z dictionaryBlock name type_ f 0%nat t0 tr _ Hkind Hcut Et Htr H0)
    as (q & Hq & Head).
  destruct (loop_unindented D z [" "%char] ltac:(repeat constructor) e c StOpenBlock q
              scanBeginDictionary [nlc] [] tail) as (q' & A1 & A2).
  { now left. }
  { discriminate. }
  { repeat constructor. }
  { exact Hok. }
  { exact Hlong. }
  { exact Hq. }
  exists (List.length tr + List.length c + 4)%nat. intros fuel Hf.
  unfold Read. cbn [scan]. rewrite V. cbn [bind].
  unfold unmarshal, init. cbn [data off opcode_ scan].
  change (reset (between z true)) with (between z false).
  destruct fuel as [|fuel]; [lia|].
  rewrite value_S.
  change (mkDecodeState D 0 scanContinue (between z false))
    with (mkDecodeState D (Z.of_nat 0) scanContinue (between z false)).
  rewrite (scanWhile_at D 0 scanContinue (between z false) scanSkipSpace [] t0 _
             (readingTag z [t0]) scanBeginTag H0);
    [|constructor|now apply step_begin_tag|discriminate].
  cbn [bind opcode_]. rewrite (opcode_eqb_neq scanBeginTag) by discriminate.
  change (S (0 + List.length (@nil byte))) with 1%nat.
  rewrite Head by lia. cbn [begin_op parse_of]. cbv zeta.
  unfold inDict in A2. unfold inDict. rewrite A2 by lia. cbn [bind app].
  cbn [SetContent empty_block bind].
  destruct Htail as [Ht | Ht]; rewrite Ht in A1.
  - erewrite scanNext_end; [|exact A1|apply eof_between].
    cbn [bind]. apply value_end; [|lia].
    apply skipn_all2. lia.
  - erewrite scanNext_at; [|exact A1|now apply step_between_space].
    cbn [bind]. apply value_end; [|lia].
    eapply skipn_cons_at. exact A1.
Qed.

(** X22. In a dictionary whose lines are not indented, every key but the
    first loses its first byte: for every dictionary tag and pairs of plain
    keys and values, each on a line of its own that starts with the key, the
    validator accepts the buffer and [Read] returns the dictionary with the
    first pair as written and every other pair under its key without its
    first byte (keys of two bytes at least), [scanNext] reading that byte
    after each pair where an indented line has a space. *)
Theorem Read_unindented_dictionary (name type_ : string) (e : DictionaryElement)
    (c : list DictionaryElement) (tail : list byte) :
  header_ok name type_ dictionaryBlock = true ->
  forallb pair_ok (e :: c) = true -> forallb long_key c = true ->
  tail = [] \/ tail = [nlc] ->
  Valid (segs 0 tail [DictionaryBlock name type_ (e :: c)]) = Done true
  /\ eventually
       (fun fuel => Read fuel (segs 0 tail [DictionaryBlock name type_ (e :: c)]))
       ([DictionaryBlock name type_ (e :: map behead c)], None).
Proof.
  intros Hh Hok Hlong Htail. split.
  - assert (Hcan : canonical [DictionaryBlock name type_ (e :: c)] = true).
    { cbn [canonical forallb block_ok]. rewrite Hh, andb_true_r. exact Hok. }
    destruct (checkValid_canonical 0 tail _ zero Htail Hcan) as (z & V).
    unfold Valid.
    change (checkValid (segs 0 tail [DictionaryBlock name type_ (e :: c)]) newScanner)
      with (checkValid (segs 0 tail [DictionaryBlock name type_ (e :: c)]) zero).
    rewrite V. reflexivity.
  - exact (Read_unindented name type_ e c tail Hh Hok Hlong Htail).
Qed.

Lemma Read_unindented_dictionary_witness :
  Valid (bytes_of ("meta {" ++ nl ++ "name: users" ++ nl ++ "type: http" ++ nl
                   ++ "seq: 1" ++ nl ++ "}" ++ nl)) = Done true
  /\ eventually
       (fun fuel => Read fuel (bytes_of ("meta {" ++ nl ++ "name: users" ++ nl
                                         ++ "type: http" ++ nl ++ "seq: 1" ++ nl ++ "}"
                                         ++ nl)))
       ([DictionaryBlock "meta" ""
           [mkDictionaryElement "name" "users"; mkDictionaryElement "ype" "http";
            mkDictionaryElement "eq" "1"]], None).
Proof.
  refine (Read_unindented_dictionary "meta" "" (mkDictionaryElement "name" "users")
            [mkDictionaryElement "type" "http"; mkDictionaryElement "seq" "1"] [nlc]
            _ _ _ _).
  - vm_compute. reflexivity.
  - vm_compute. reflexivity.
  - vm_compute. reflexivity.
  - right. reflexivity.
Defined.

End Unindented.

(** ** A text with a line that starts with a closing brace *)

Module ClosingLine.

Import Shapes Scanner Blocks Decoder Encoder Run Canon Samples StepFacts Cursor ValidatorFacts.
Import DecodeDictionary DecodeBodies DecodeBlocks DecodeSequence Validity Valueless.
Import Edge EncoderLayout.





Section Text.

Variable cfg : Encoder.
Variables name type_ c1 r : string.

Hypothesis Hheader : header_ok name type_ textBlock = true.
Hypothesis Hc1 : text_ok true (list_ascii_of_string c1) = true.
Hypothesis Hr : Forall (fun x => lower x = false) (list_ascii_of_string r).

(** What follows the first closing brace at the start of a line. *)
Let R : list byte := list_ascii_of_string r ++ nlc :: "}"%char :: tail_of cfg.

Let D : list byte := enc 1 (TextBlock name type_ c1) ++ R.






End Text.



End ClosingLine.

(** ** The line separator *)

Module Separator.

Import Shapes Scanner Blocks Decoder Encoder Run Canon Samples.
Import DecodeBodies DecodeSequence Validity.

Lemma marshal_pairs_next b e v v' c :
  marshal_pairs b e (v :: v' :: c)
  = (ind <- Repeat (GetIndent b) ;;
     marshal_pairs b
       (WriteString e (ind ++ Key v ++ ": " ++ Value v ++ GetLineSep b ++ nl)) (v' :: c)).
Proof. reflexivity. Qed.

Lemma marshal_pairs_sep b c : forall e,
  marshal_pairs b e c = marshal_pairs (no_sep b) e (sep_pairs (lineSep b) c).
Proof.
  induction c as [|v c IH]; intros e; [reflexivity|].
  destruct c as [|v' c].
  - reflexivity.
  - rewrite marshal_pairs_next.
    change (sep_pairs (lineSep b) (v :: v' :: c))
      with (mkDictionaryElement (Key v) (Value v ++ lineSep b)
              :: sep_pairs (lineSep b) (v' :: c)).
    assert (N : exists x l, sep_pairs (lineSep b) (v' :: c) = x :: l).
    { destruct c; cbn [sep_pairs]; eauto. }
    destruct N as (x & l & N).
    rewrite N, marshal_pairs_next, <- N. cbn [Key Value].
    change (GetIndent (no_sep b)) with (GetIndent b).
    destruct (Repeat (GetIndent b)) as [ind| |]; cbn [bind]; try reflexivity.
    rewrite IH. f_equal. unfold WriteString. f_equal. unfold GetLineSep. cbn [no_sep lineSep].
    rewrite !bytes_app. cbn [list_ascii_of_string app]. now rewrite <- !app_assoc.
Qed.

Lemma marshal_block_sep b e d :
  block_ok d = true ->
  marshal_block b e d = marshal_block (no_sep b) e (sep_block (lineSep b) d).
Proof.
  destruct d as [n t c|n t c|n t c|n t|]; try discriminate; intros Hok.
  - unfold marshal_block. cbn [sep_block GetName GetType bind].
    now rewrite marshal_pairs_sep.
  - reflexivity.
  - cbn [block_ok] in Hok. apply andb_true_iff in Hok. destruct Hok as [_ Hok].
    destruct c as [|v [|? ?]]; try discriminate. reflexivity.
Qed.

Lemma marshal_sep b ds : forall e,
  forallb block_ok ds = true ->
  marshal b e ds = marshal (no_sep b) e (map (sep_block (lineSep b)) ds).
Proof.
  induction ds as [|d ds IH]; intros e Hok; [reflexivity|].
  cbn [forallb] in Hok. apply andb_true_iff in Hok. destruct Hok as [Hd Hds].
  cbn [marshal map]. rewrite (marshal_block_sep b e d Hd).
  destruct (marshal_block (no_sep b) e (sep_block (lineSep b) d)); cbn [bind];
    try reflexivity.
  now apply IH.
Qed.

Lemma Write_sep b ds :
  forallb block_ok ds = true ->
  Write b ds = Write (no_sep b) (map (sep_block (lineSep b)) ds).
Proof.
  intros Hok. unfold Write. now rewrite (marshal_sep b ds [] Hok).
Qed.

Lemma value_ok_app v s : value_ok v = true -> value_ok s = true -> value_ok (v ++ s) = true.
Proof.
  unfold value_ok. rewrite bytes_app.
  destruct (list_ascii_of_string v) as [|c l]; [now intros _|].
  intros Hv Hs. cbn [app]. apply andb_true_iff in Hv. destruct Hv as [H1 H2].
  rewrite H1. cbn [andb]. cbn [forallb] in *.
  apply andb_true_iff in H2. destruct H2 as [H2 H3]. rewrite H2. cbn [andb].
  rewrite forallb_app, H3. cbn [andb].
  destruct (list_ascii_of_string s) as [|c' l']; [reflexivity|].
  apply andb_true_iff in Hs. now destruct Hs.
Qed.

Lemma sep_pairs_ok s c :
  value_ok s = true -> forallb pair_ok c = true -> forallb pair_ok (sep_pairs s c) = true.
Proof.
  intros Hs. induction c as [|e c IH]; [reflexivity|].
  intros Hok. cbn [forallb] in Hok. apply andb_true_iff in Hok. destruct Hok as [He Hc].
  destruct c as [|e' c].
  - cbn [sep_pairs forallb]. now rewrite He.
  - change (sep_pairs s (e :: e' :: c))
      with (mkDictionaryElement (Key e) (Value e ++ s) :: sep_pairs s (e' :: c)).
    cbn [forallb]. rewrite (IH Hc), andb_true_r.
    unfold pair_ok in *. cbn [Key Value].
    apply andb_true_iff in He. destruct He as [Hk Hv].
    now rewrite Hk, (value_ok_app _ _ Hv Hs).
Qed.

Lemma sep_block_ok s d :
  value_ok s = true -> block_ok d = true -> block_ok (sep_block s d) = true.
Proof.
  intros Hs. destruct d as [n t c|n t c|n t c|n t|]; try (intros H; exact H).
  cbn [sep_block block_ok]. intros H. apply andb_true_iff in H. destruct H as [Hh Hc].
  rewrite Hh. cbn [andb]. destruct c as [|e c]; [discriminate|].
  assert (X := sep_pairs_ok s (e :: c) Hs Hc).
  destruct (sep_pairs s (e :: c)) eqn:E; [|exact X].
  destruct c; discriminate.
Qed.

Lemma sep_blocks_ok s l :
  value_ok s = true -> forallb block_ok l = true ->
  forallb block_ok (map (sep_block s) l) = true.
Proof.
  intros Hs. induction l as [|d l IH]; [reflexivity|].
  cbn [forallb map]. intros H. apply andb_true_iff in H. destruct H as [Hd Hl].
  now rewrite (sep_block_ok s d Hs Hd), (IH Hl).
Qed.

Lemma sep_canonical s ds :
  value_ok s = true -> canonical ds = true -> canonical (map (sep_block s) ds) = true.
Proof.
  intros Hs. unfold canonical. destruct ds as [|d ds]; [discriminate|].
  intros H. exact (sep_blocks_ok s (d :: ds) Hs H).
Qed.

(** X24. The reader does not know the line separator: for every canonical
    sequence and every configuration with an indent that is not negative and
    a separator of plain bytes that does not start with a space, [Write]
    returns bytes from which [Read] returns the sequence with the separator
    at the end of the value of every pair of a dictionary but the last one;
    with the empty separator these are the values as they were. *)
Theorem Read_of_Write_separator (cfg : Encoder) (ds : list ContentBlock) :
  0 <= indent cfg -> value_ok (lineSep cfg) = true -> canonical ds = true ->
  exists bs,
    Write cfg ds = Done (bs, None)
    /\ eventually (fun fuel => Read fuel bs) (map (sep_block (lineSep cfg)) ds, None).
Proof.
  intros Hi Hs Hok.
  assert (Hb : forallb block_ok ds = true).
  { unfold canonical in Hok. destruct ds; [discriminate|exact Hok]. }
  assert (Hcfg : config_ok (no_sep cfg) = true).
  { unfold config_ok, no_sep. cbn [indent lineSep].
    apply andb_true_iff. split; [now apply Z.leb_le|reflexivity]. }
  destruct (round_trip (no_sep cfg) _ Hcfg (sep_canonical _ ds Hs Hok)) as (bs & W & N & R).
  exists bs. split.
  - now rewrite Write_sep.
  - exists N. exact R.
Qed.

Lemma Read_of_Write_separator_witness :
  exists bs,
    Write (mkEncoder 2 "," false) twoPairsBlocks = Done (bs, None)
    /\ eventually (fun fuel => Read fuel bs)
         ([DictionaryBlock "meta" ""
             [mkDictionaryElement "a" "1,"; mkDictionaryElement "b" "2"]], None).
Proof.
  refine (Read_of_Write_separator (mkEncoder 2 "," false) twoPairsBlocks _ _ _).
  - cbn. lia.
  - vm_compute. reflexivity.
  - vm_compute. reflexivity.
Defined.

End Separator.

(** ** Backslashes in the values of a dictionary *)

Module Escapes.

Import Shapes Scanner Blocks Decoder Encoder Run Canon Samples StepFacts Cursor ValidatorFacts.
Import DecodeDictionary DecodeBodies DecodeBlocks DecodeSequence Validity Valueless.

Lemma step_escape_first by_ :
  step (mkScanner StBeginDictionaryValue false [parseDictionaryValue] None by_ []) "\"%char
  = Done (mkScanner StInStringEsc false [parseDictionaryValue] None by_ [], scanContinue).
Proof. reflexivity. Qed.

Lemma step_escape by_ :
  step (mkScanner StInValue false [parseDictionaryValue] None by_ []) "\"%char
  = Done (mkScanner StInStringEsc false [parseDictionaryValue] None by_ [], scanContinue).
Proof. reflexivity. Qed.

Lemma step_escape_letter by_ x :
  escape_letter x = true ->
  step (mkScanner StInStringEsc false [parseDictionaryValue] None by_ []) x
  = Done (mkScanner StInValue false [parseDictionaryValue] None by_ [], scanContinue).
Proof. bytes x. Qed.

Lemma step_escape_other by_ x :
  escape_letter x = false -> (x =? "u")%char = false ->
  step (mkScanner StInStringEsc false [parseDictionaryValue] None by_ []) x
  = Done (mkScanner StError false [parseDictionaryValue]
            (Some (mkSyntaxError
                     ("invalid character " ++ quoteChar x ++ " in string escape code") by_))
            by_ [],
          scanError).
Proof. bytes x. Qed.

(** From the colon to the byte after the backslash. *)
Lemma feeds_to_escape v :
  value_ok v = true ->
  feeds (sc StBeginDictionaryValue false [parseDictionaryValue] [])
        (list_ascii_of_string v ++ ["\"%char])
        (sc StInStringEsc false [parseDictionaryValue] []).
Proof.
  intros Hv.
  destruct (value_ok_inv _ Hv) as [Ev|(v0 & vr & Ev & V1 & V2 & V3)]; rewrite Ev; cbn [app].
  - apply feeds_one with (op := scanContinue); [|discriminate].
    intros z. apply step_escape_first.
  - eapply feeds_cons.
    { apply feeds_one with (op := scanContinue); [|discriminate].
      intros z. now apply step_value_first. }
    eapply feeds_app.
    { apply feeds_steady with (op := scanContinue); [|discriminate].
      eapply Forall_impl; [|exact V3]. intros c Hc z. now apply step_value_byte. }
    apply feeds_one with (op := scanContinue); [|discriminate].
    intros z. apply step_escape.
Qed.

Lemma through_app op s l s1 r s2 :
  through op s l s1 -> through op s1 r s2 -> through op s (l ++ r) s2.
Proof.
  induction 1 as [|s c s1 l s1' E T IH]; intros H; [exact H|].
  cbn [app]. econstructor; [exact E|]. now apply IH.
Qed.

Lemma through_steady op s l :
  Forall (fun x => step s x = Done (s, op)) l -> through op s l s.
Proof.
  induction 1 as [|c l E F IH]; [constructor|]. econstructor; eassumption.
Qed.

Lemma scanWhile_from_through d op l c r s s1 s2 op2 :
  through op s l s1 -> step s1 c = Done (s2, op2) -> op2 <> op ->
  forall i,
    scanWhile_from d op (l ++ c :: r) s i
    = Done (mkDecodeState (data d) (i + Z.of_nat (List.length l) + 1) op2 s2).
Proof.
  intros T E N. induction T as [s|s x s1 l s1' Ex T IH]; intros i; cbn [app scanWhile_from].
  - rewrite E. cbn [bind]. rewrite opcode_eqb_neq by assumption.
    do 2 f_equal. cbn [List.length]. lia.
  - rewrite Ex. cbn [bind]. rewrite opcode_eqb_refl.
    rewrite (IH E). do 2 f_equal. cbn [List.length]. lia.
Qed.

Section At.

Variable D : list byte.
Variable by_ : Z.

(** [scanWhile] over bytes that all return [op], whatever states the scanner
    goes through. *)
Lemma scanWhile_through p o s op l c r s1 s2 op2 :
  skipn p D = l ++ c :: r ->
  through op s l s1 -> step s1 c = Done (s2, op2) -> op2 <> op ->
  scanWhile (mkDecodeState D (Z.of_nat p) o s) op
  = Done (mkDecodeState D (Z.of_nat (S (p + List.length l))) op2 s2).
Proof.
  intros H T E N. unfold scanWhile. cbn [data off scan].
  destruct (Z.ltb_spec (Z.of_nat p) 0); [lia|].
  rewrite Nat2Z.id, H. rewrite (scanWhile_from_through _ _ _ _ _ _ _ s2 op2 T E N).
  cbn [data]. do 2 f_equal. lia.
Qed.

Variable sp : list byte.
Hypothesis Hsp : Forall (fun x => x = " "%char) sp.

(** Reading a value with one escape, up to the end of its line. *)
Lemma read_value_escaped q v x v2 R :
  value_ok v = true -> escape_letter x = true ->
  Forall (fun c => plain c = true) v2 ->
  skipn q D = sp ++ (list_ascii_of_string v ++ "\"%char :: x :: v2) ++ nlc :: R ->
  exists q',
    skipn q' D = R
    /\ forall X (K : decodeState * string -> outcome X),
       (d <- scanWhile (mkDecodeState D (Z.of_nat q) scanDictionaryValue
                          (inDict by_ StBeginDictionaryValue parseDictionaryValue))
               scanSkipSpace ;;
        x <- (if negb (opcode_eqb (opcode_ d) scanDictionaryKey) then
                let start := readIndex d in
                d <- scanWhile d scanContinue ;;
                value <- substr d start (readIndex d) ;;
                Done (d, value)
              else Done (d, EmptyString)) ;;
        K x)
       = K (mkDecodeState D (Z.of_nat q') scanDictionaryKey
              (inDict by_ StNewDictionaryPair parseDictionaryKey),
            string_of_list_ascii (list_ascii_of_string v ++ "\"%char :: x :: v2)).
Proof.
  intros Hv Hx Hv2 H.
  assert (Sp : Forall (fun x => step (inDict by_ StBeginDictionaryValue parseDictionaryValue) x
                 = Done (inDict by_ StBeginDictionaryValue parseDictionaryValue, scanSkipSpace))
                sp).
  { eapply Forall_impl; [|exact Hsp]. intros c ->. apply step_value_space. }
  assert (T2 : through scanContinue (inDict by_ StInStringEsc parseDictionaryValue)
                 (x :: v2) (inDict by_ StInValue parseDictionaryValue)).
  { econstructor; [now apply step_escape_letter|].
    apply through_steady. eapply Forall_impl; [|exact Hv2].
    intros c Hc. now apply step_value_byte. }
  assert (Sh : exists f W sf,
             list_ascii_of_string v ++ "\"%char :: x :: v2 = f :: W
             /\ step (inDict by_ StBeginDictionaryValue parseDictionaryValue) f
                = Done (sf, scanContinue)
             /\ through scanContinue sf W (inDict by_ StInValue parseDictionaryValue)).
  { destruct (value_ok_inv _ Hv) as [Ev|(v0 & vr & Ev & V1 & V2 & V3)]; rewrite Ev;
      cbn [app].
    - do 3 eexists. split; [reflexivity|]. split; [apply step_escape_first|exact T2].
    - do 3 eexists. split; [reflexivity|]. split; [now apply step_value_first|].
      eapply through_app.
      + apply through_steady. eapply Forall_impl; [|exact V3].
        intros c Hc. now apply step_value_byte.
      + econstructor; [apply step_escape|exact T2]. }
  destruct Sh as (f & W & sf & EW & E1 & T). rewrite EW in *. cbn [app] in H.
  assert (H1 : skipn (q + List.length sp) D = (f :: W) ++ nlc :: R)
    by (apply (skipn_app_at D q sp); exact H).
  assert (H2 : skipn (S (q + List.length sp)) D = W ++ nlc :: R)
    by (apply (skipn_cons_at _ _ f); exact H1).
  exists (S (S (q + List.length sp) + List.length W)). split.
  - apply (skipn_cons_at _ _ nlc). apply skipn_app_at. exact H2.
  - intros X K.
    rewrite (scanWhile_at D q _ _ scanSkipSpace sp f (W ++ nlc :: R) sf scanContinue);
      [|exact H|exact Sp|exact E1|discriminate].
    cbn [bind opcode_].
    rewrite (opcode_eqb_neq scanContinue scanDictionaryKey) by discriminate.
    cbn [negb]. cbv zeta.
    rewrite (scanWhile_through _ _ _ scanContinue W nlc R
               (inDict by_ StInValue parseDictionaryValue)
               (inDict by_ StNewDictionaryPair parseDictionaryKey) scanDictionaryKey);
      [|exact H2|exact T|apply step_value_end|discriminate].
    cbn [bind]. rewrite readIndex_S.
    rewrite (substr_at D (q + List.length sp) _ _ _ (f :: W) (nlc :: R));
      [|exact H1|discriminate|blia].
    reflexivity.
Qed.

End At.

Section Line.

Variables name type_ : string.
Variable ind : list byte.
Variable k : string.
Variable sp : list byte.
Variable v : string.
Variable x : byte.

Hypothesis Hheader : header_ok name type_ dictionaryBlock = true.
Hypothesis Hind : Forall (fun c => c = " "%char) ind.
Hypothesis Hkey : key_ok k = true.
Hypothesis Hsp : Forall (fun c => c = " "%char) sp.
Hypothesis Hv : value_ok v = true.

(** From the start of the buffer to the byte after the backslash. *)
Lemma feeds_escaped : forall t0 tr,
  list_ascii_of_string (tag_of name type_) = t0 :: tr ->
  feeds (sc StBeginBlockLine false [] [])
        (((((t0 :: tr ++ [" "%char; "{"%char]) ++ nlc :: ind) ++ list_ascii_of_string k)
          ++ ":"%char :: sp) ++ list_ascii_of_string v ++ ["\"%char])
        (sc StInStringEsc false [parseDictionaryValue] []).
Proof.
  intros t0 tr Et.
  eapply feeds_app; [|exact (feeds_to_escape v Hv)].
  eapply feeds_app.
  { exact (feeds_app _ _ _ _ _ (feeds_to_body name type_ ind Hheader Hind t0 tr Et)
             (feeds_key StOpenBlock k (or_introl eq_refl) Hkey)). }
  eapply feeds_cons.
  { apply feeds_one with (op := scanDictionaryValue); [|discriminate].
    intros z. apply step_key_colon. }
  apply feeds_steady with (op := scanSkipSpace); [|discriminate].
  eapply Forall_impl; [|exact Hsp]. intros c -> z. apply step_value_space.
Qed.

Lemma escaped_split t0 tr rest :
  list_ascii_of_string (tag_of name type_) = t0 :: tr ->
  escaped name type_ ind k sp v x rest
  = (((((t0 :: tr ++ [" "%char; "{"%char]) ++ nlc :: ind) ++ list_ascii_of_string k)
       ++ ":"%char :: sp) ++ list_ascii_of_string v ++ ["\"%char]) ++ x :: rest.
Proof.
  intros Et. unfold escaped. rewrite Et.
  repeat first [rewrite <- app_assoc | progress cbn [app]]. reflexivity.
Qed.

Lemma Read_bad_escape rest fuel :
  escape_letter x = false -> (x =? "u")%char = false ->
  Read fuel (escaped name type_ ind k sp v x rest)
  = Done ([], Some (ESyntax (mkSyntaxError
            ("invalid character " ++ quoteChar x ++ " in string escape code")
            (bump (escape_end name type_ ind k sp v) 0)))).
Proof.
  intros Hx Hu.
  destruct (header_ok_inv _ _ _ Hheader) as (Hkind & _).
  destruct (tag_shape _ _ Hkind) as (t0 & tr & Et & Hlow & Htr).
  assert (F := feeds_escaped t0 tr Et).
  assert (L : (List.length
                 (((((t0 :: tr ++ [" "%char; "{"%char]) ++ nlc :: ind)
                    ++ list_ascii_of_string k) ++ ":"%char :: sp)
                  ++ list_ascii_of_string v ++ ["\"%char]) + 1
               = escape_end name type_ ind k sp v)%nat).
  { unfold escape_end. rewrite Et.
    repeat first [rewrite length_app | progress cbn [List.length app]]. lia. }
  unfold Read. cbn [scan]. unfold checkValid.
  rewrite checkValid_loop_feed, (escaped_split t0 tr rest Et).
  change (reset zero) with (sc StBeginBlockLine false [] [] 0).
  rewrite (feed_stops _ _ _ _ _ _ _ _ _ F (fun z => step_escape_other z x Hx Hu)).
  cbn [bind err]. rewrite L. reflexivity.
Qed.

Lemma Read_good_escape v2 :
  escape_letter x = true -> Forall (fun c => plain c = true) v2 ->
  exists N, forall fuel, (N <= fuel)%nat ->
    Read fuel (escaped name type_ ind k sp v x (v2 ++ [nlc; "}"%char]))
    = Done ([DictionaryBlock name type_
               [mkDictionaryElement k
                  (string_of_list_ascii (list_ascii_of_string v ++ "\"%char :: x :: v2))]],
            None).
Proof.
  intros Hx Hv2.
  destruct (header_ok_inv _ _ _ Hheader) as (Hkind & f & Hcut).
  destruct (tag_shape _ _ Hkind) as (t0 & tr & Et & Hlow & Htr).
  set (D := escaped name type_ ind k sp v x (v2 ++ [nlc; "}"%char])).
  assert (Hws : Forall (fun c => isSpace c = true) (nlc :: ind)).
  { constructor; [reflexivity|now apply spaces_are_space]. }
  (* the validity pass *)
  assert (V : exists z, checkValid D zero = Done (between z true, None)).
  { eexists. apply checkValid_ok_iff. eexists. split.
    - change (reset zero) with (sc StBeginBlockLine false [] [] 0).
      unfold D. rewrite (escaped_split t0 tr _ Et).
      refine (feeds_app _ _ _ _ _ _ _ 0); [exact (feeds_escaped t0 tr Et)|].
      eapply feeds_cons.
      { apply feeds_one with (op := scanContinue); [|discriminate].
        intros z. now apply step_escape_letter. }
      eapply feeds_app.
      { apply feeds_steady with (op := scanContinue); [|discriminate].
        eapply Forall_impl; [|exact Hv2]. intros c Hc z. now apply step_value_byte. }
      eapply feeds_cons.
      { apply feeds_one with (op := scanDictionaryKey); [|discriminate].
        intros z. apply step_value_end. }
      apply feeds_one with (op := scanEndBlock); [|discriminate].
      intros z. apply step_key_close. now right.
    - reflexivity. }
  destruct V as (z & V).
  (* the decoding pass *)
  assert (H0 : skipn 0 D = t0 :: tr ++ " "%char :: opener dictionaryBlock
                 :: (nlc :: ind) ++ list_ascii_of_string k ++ ":"%char
                 :: sp ++ (list_ascii_of_string v ++ "\"%char :: x :: v2)
                 ++ nlc :: "}"%char :: []).
  { cbn [skipn]. unfold D, escaped. rewrite Et. cbn [opener].
    repeat first [rewrite <- app_assoc | progress cbn [app]]. reflexivity. }
  destruct (block_head D z dictionaryBlock name type_ f 0%nat t0 tr _ Hkind Hcut Et Htr H0)
    as (q & Hq & Head).
  destruct (read_key D z StOpenBlock q scanBeginDictionary (nlc :: ind) k _
              (or_introl eq_refl) Hws Hkey Hq) as (q1 & d1 & A1 & A2 & A3 & A4).
  destruct (read_value_escaped D z sp Hsp q1 v x v2 _ Hv Hx Hv2 A1) as (q2 & A5 & A6).
  exists (List.length tr + 5)%nat. intros fuel Hf.
  unfold Read. cbn [scan]. rewrite V. cbn [bind].
  unfold unmarshal, init. cbn [data off opcode_ scan].
  change (reset (between z true)) with (between z false).
  destruct fuel as [|fuel]; [lia|].
  rewrite value_S.
  change (mkDecodeState D 0 scanContinue (between z false))
    with (mkDecodeState D (Z.of_nat 0) scanContinue (between z false)).
  rewrite (scanWhile_at D 0 scanContinue (between z false) scanSkipSpace [] t0 _
             (readingTag z [t0]) scanBeginTag H0);
    [|constructor|now apply step_begin_tag|discriminate].
  cbn [bind opcode_]. rewrite (opcode_eqb_neq scanBeginTag) by discriminate.
  change (S (0 + List.length (@nil byte))) with 1%nat.
  rewrite Head by lia. cbn [begin_op parse_of]. cbv zeta.
  destruct fuel as [|[|fuel]]; try lia.
  rewrite dictionary_loop_S. cbn [opcode_].
  rewrite (opcode_eqb_neq scanBeginDictionary) by discriminate.
  unfold inDict in A2 |- *. rewrite A2. cbn [bind]. rewrite A3. cbn [bind].
  rewrite A4. cbn [bind].
  unfold inDict in A6. rewrite A6. cbn [bind].
  rewrite (scanNext_at D q2 _ _ "}"%char [] (between z true) scanEndBlock);
    [|exact A5|apply step_key_close; now right].
  cbn [bind]. rewrite dictionary_loop_S. cbn [opcode_]. rewrite opcode_eqb_refl.
  cbn [bind app empty_block SetContent].
  erewrite scanNext_end; [|eapply skipn_cons_at; exact A5|apply eof_between].
  cbn [bind]. apply value_end; [|lia].
  apply skipn_all2. lia.
Qed.

End Line.

(** X25. A backslash in the value of a dictionary must start an escape code:
    in a block of any dictionary tag whose first line has a plain key and a
    value of plain bytes followed by a backslash and a byte that is none of
    b, f, n, r, t, u, the backslash, the slash and the double quote, [Read]
    returns the syntax error "in string
    escape code" that names this byte, whatever follows it; the offset is
    the byte counter after this byte. *)
Theorem Read_bad_escape_rejected (name type_ : string) (ind : list byte) (k : string)
    (sp : list byte) (v : string) (x : byte) (rest : list byte) :
  header_ok name type_ dictionaryBlock = true ->
  Forall (fun c => c = " "%char) ind ->
  key_ok k = true ->
  Forall (fun c => c = " "%char) sp ->
  value_ok v = true ->
  escape_letter x = false -> (x =? "u")%char = false ->
  forall fuel,
    Read fuel (escaped name type_ ind k sp v x rest)
    = Done ([], Some (ESyntax (mkSyntaxError
              ("invalid character " ++ quoteChar x ++ " in string escape code")
              (bump (escape_end name type_ ind k sp v) 0)))).
Proof.
  intros Hh Hi Hk Hs Hv Hx Hu fuel.
  exact (Read_bad_escape name type_ ind k sp v x Hh Hi Hk Hs Hv rest fuel Hx Hu).
Qed.

Lemma Read_bad_escape_rejected_witness :
  Read 0 (bytes_of ("meta {" ++ nl ++ "  path: C:\Users" ++ nl ++ "}"))
  = Done ([], Some (ESyntax (mkSyntaxError
            "invalid character 'U' in string escape code" 19))).
Proof.
  refine (Read_bad_escape_rejected "meta" "" [" "%char; " "%char] "path" [" "%char] "C:"
            "U"%char (list_ascii_of_string ("sers" ++ nl ++ "}")) _ _ _ _ _ _ _ 0%nat).
  - vm_compute. reflexivity.
  - repeat constructor.
  - vm_compute. reflexivity.
  - repeat constructor.
  - vm_compute. reflexivity.
  - reflexivity.
  - reflexivity.
Defined.

(** X26. An escape code in the value of a dictionary is checked and not
    decoded: when the backslash is followed by one of b, f, n, r, t, the
    backslash, the slash and the double quote, and by plain bytes up to the
    end of the line, the validator accepts the
    buffer and [Read] returns the pair with the value as it is written, the
    backslash and the byte after it included. *)
Theorem Read_escape_kept (name type_ : string) (ind : list byte) (k : string)
    (sp : list byte) (v : string) (x : byte) (v2 : list byte) :
  header_ok name type_ dictionaryBlock = true ->
  Forall (fun c => c = " "%char) ind ->
  key_ok k = true ->
  Forall (fun c => c = " "%char) sp ->
  value_ok v = true ->
  escape_letter x = true -> Forall (fun c => plain c = true) v2 ->
  eventually
    (fun fuel => Read fuel (escaped name type_ ind k sp v x (v2 ++ [nlc; "}"%char])))
    ([DictionaryBlock name type_
        [mkDictionaryElement k
           (string_of_list_ascii (list_ascii_of_string v ++ "\"%char :: x :: v2))]],
     None).
Proof.
  intros Hh Hi Hk Hs Hv Hx Hv2.
  exact (Read_good_escape name type_ ind k sp v x Hh Hi Hk Hs Hv v2 Hx Hv2).
Qed.

Lemma Read_escape_kept_witness :
  eventually
    (fun fuel => Read fuel (bytes_of ("meta {" ++ nl ++ "  path: C:\temp" ++ nl ++ "}")))
    ([DictionaryBlock "meta" "" [mkDictionaryElement "path" "C:\temp"]], None).
Proof.
  refine (Read_escape_kept "meta" "" [" "%char; " "%char] "path" [" "%char] "C:"
            "t"%char (list_ascii_of_string "emp") _ _ _ _ _ _ _).
  - vm_compute. reflexivity.
  - repeat constructor.
  - vm_compute. reflexivity.
  - repeat constructor.
  - vm_compute. reflexivity.
  - reflexivity.
  - repeat constructor.
Defined.

End Escapes.

(** ** The errors of the decoder *)

Module DecoderErrors.

Import Shapes Scanner Blocks Decoder Run Canon ScannerFacts ValidatorFacts StepFacts Cursor.
Import DecodeDictionary DecodeBlocks DecoderInvariant.

(** *** Transitions around a tag *)

Lemma step_begin_tag_inv s c s' :
  SInv s -> step s c = Done (s', scanBeginTag) ->
  step_fn s' = StReadingTag /\ tagName s' = [c].
Proof.
  destruct s as [st eb ps er by_ tn]. unfold SInv, step. cbn [step_fn].
  destruct st; cbn [parseState endBlock err]; intros H.
  all: try (destruct H as ([p ->] & -> & ->)).
  all: try (destruct H as (-> & -> & ->)).
  all: try (destruct H as (-> & ->)).
  all: try solve [
    unfold stateBeginBlockLine, stateWaitingForOpenBlock, stateOpenBlock,
      stateEndValue, stateNewDictionaryPair, stateNewArrayValue, stateNewTextLine,
      stateInText, stateInKey, stateBeginDictionaryValue, stateInValue,
      stateInStringEsc, stateInStringEscU, stateInStringEscU1, stateInStringEscU12,
      stateInStringEscU123, stateInStringEscUn, stateError,
      stateEndValue, top, popParseState, Scanner.error, set_step, set_top, set_parseState;
    cbn; try destruct p; cbn; brk; cbn; intros E;
    first [discriminate E | inversion E; split; reflexivity] ].
  (* reading a tag *)
  unfold stateReadingTag. destruct (isSpace c).
  - rewrite checkTag_kind. simpl.
    destruct (tag_kind (string_of_list_ascii tn)) as [k|].
    + rewrite pushParseState_empty by reflexivity. intros E. discriminate E.
    + intros E. discriminate E.
  - intros E. discriminate E.
Qed.

Lemma step_reading_tag s c s' op :
  SInv s -> step_fn s = StReadingTag -> step s c = Done (s', op) ->
  (op = scanContinue /\ step_fn s' = StReadingTag /\ tagName s' = tagName s ++ [c])
  \/ (op = scanEndTag
      /\ exists k, tag_kind (string_of_list_ascii (tagName s)) = Some k
                   /\ parseState s' = [parse_of k]
                   /\ step_fn s' = StWaitingForOpenBlock)
  \/ op = scanError.
Proof.
  destruct s as [st eb ps er by_ tn]. unfold SInv, step. cbn [step_fn].
  intros H ->. cbn [parseState endBlock err] in H. destruct H as (-> & -> & ->).
  unfold stateReadingTag. destruct (isSpace c).
  - rewrite checkTag_kind. simpl.
    destruct (tag_kind (string_of_list_ascii tn)) as [k|] eqn:K.
    + rewrite pushParseState_empty by reflexivity. intros E. inversion E; subst.
      right. left. split; [reflexivity|]. exists k. auto.
    + intros E. inversion E. auto.
  - intros E. inversion E. left. auto.
Qed.

Lemma step_waiting_kind s c s' op k :
  SInv s -> step_fn s = StWaitingForOpenBlock -> parseState s = [parse_of k] ->
  step s c = Done (s', op) ->
  (op = scanSkipSpace /\ s' = s) \/ op = begin_op k \/ op = scanError.
Proof.
  destruct s as [st eb ps er by_ tn]. unfold SInv, step. cbn [step_fn parseState].
  intros H -> ->. cbn [parseState endBlock err] in H. destruct H as (_ & -> & ->).
  unfold stateWaitingForOpenBlock, top, Scanner.error, set_step. cbn.
  destruct (isSpace c).
  - intros E. inversion E. auto.
  - destruct k; cbn; try (destruct (c =? "{")%char); try (destruct (c =? "[")%char);
      intros E; inversion E; auto.
Qed.

(** *** Lists *)

Lemma app_same_length {A} (l1 l2 r1 r2 : list A) :
  l1 ++ r1 = l2 ++ r2 -> List.length l1 = List.length l2 -> l1 = l2 /\ r1 = r2.
Proof.
  revert l2. induction l1 as [|x l1 IH]; intros [|y l2] E L; try discriminate L.
  - auto.
  - cbn [app] in E. injection E as -> E. injection L as L.
    destruct (IH l2 E L) as (-> & ->). auto.
Qed.

Lemma index_split data i c :
  index data i = Done c ->
  exists pre post, data = pre ++ c :: post /\ Z.of_nat (List.length pre) = i.
Proof.
  unfold index. destruct (Z.leb_spec 0 i); [|discriminate].
  destruct (nth_error data (Z.to_nat i)) as [x|] eqn:E; [|discriminate].
  intros X. inversion X; subst x.
  destruct (nth_error_split _ _ E) as (pre & post & -> & L).
  exists pre, post. split; [reflexivity|lia].
Qed.

Lemma slice_mid (pre tn post : list byte) :
  tn <> [] ->
  slice (pre ++ tn ++ post) (Z.of_nat (List.length pre))
        (Z.of_nat (List.length pre) + Z.of_nat (List.length tn)) = Done tn.
Proof.
  intros N. apply (slice_at _ (List.length pre) tn post); [|exact N|reflexivity|lia].
  rewrite skipn_app, skipn_all, Nat.sub_diag. reflexivity.
Qed.

(** *** The primitives of the decoder *)

Lemma TagInv_step D pre c post s s' op :
  SInv s -> step s c = Done (s', op) -> D = pre ++ c :: post ->
  TagInv (mkDecodeState D (Z.of_nat (List.length pre) + 1) op s').
Proof.
  intros H E -> O. cbn [opcode_] in O. subst op.
  destruct (step_begin_tag_inv s c s' H E) as (A & B).
  unfold in_tag. cbn [scan data off]. rewrite A, B.
  split; [reflexivity|]. split; [discriminate|].
  exists pre, post. cbn [app List.length]. repeat split; lia.
Qed.

Lemma TagInv_eof D i s s' op : eof s = Done (s', op) -> TagInv (mkDecodeState D i op s').
Proof.
  intros E O. cbn [opcode_] in O. subst op.
  destruct (eof_opcode _ _ _ E); discriminate.
Qed.

Lemma scanNext_tag d d' : DInv d -> scanNext d = Done d' -> TagInv d'.
Proof.
  intros H. unfold scanNext. destruct (Z.ltb_spec (off d) (len d)) as [L|L].
  - intros E. apply bind_Done in E. destruct E as (c & Ec & E).
    apply bind_Done in E. destruct E as ([s' op] & E1 & E). inversion E; subst.
    destruct H as [H|H]; [|destruct H as (H & _); lia].
    destruct (index_split _ _ _ Ec) as (pre & post & Ed & Lp). rewrite <- Lp.
    eapply TagInv_step; [apply H|exact E1|exact Ed].
  - intros E. apply bind_Done in E. destruct E as ([s' op] & E1 & E). inversion E; subst.
    eapply TagInv_eof. exact E1.
Qed.

Lemma scanWhile_from_tag d op : forall rest s i pre d',
  SInv s -> data d = pre ++ rest -> i = Z.of_nat (List.length pre) ->
  scanWhile_from d op rest s i = Done d' -> TagInv d'.
Proof.
  induction rest as [|c rest IH]; intros s i pre d' H Ed Ei; cbn [scanWhile_from].
  - intros E. apply bind_Done in E. destruct E as ([s' o'] & E1 & E). inversion E; subst.
    eapply TagInv_eof. exact E1.
  - intros E. apply bind_Done in E. destruct E as ([s' o'] & E1 & E).
    destruct (step_inv s c H) as (s1 & o1 & X & H1 & _).
    rewrite E1 in X. inversion X; subst s1 o1.
    destruct (opcode_eqb o' op).
    + apply (IH s' (i + 1) (pre ++ [c]) d' H1); [| |exact E].
      * rewrite <- app_assoc. exact Ed.
      * rewrite length_app. cbn [List.length]. lia.
    + inversion E; subst. eapply TagInv_step; [exact H|exact E1|exact Ed].
Qed.

Lemma scanWhile_tag d op d' : DInv d -> scanWhile d op = Done d' -> TagInv d'.
Proof.
  intros H. unfold scanWhile. destruct (Z.ltb_spec (off d) 0); [discriminate|].
  destruct (skipn (Z.to_nat (off d)) (data d)) as [|c rest] eqn:Sk.
  - cbn [scanWhile_from]. intros E.
    apply bind_Done in E. destruct E as ([s' o'] & E1 & E). inversion E; subst.
    eapply TagInv_eof. exact E1.
  - destruct H as [H|H].
    + apply (scanWhile_from_tag d op (c :: rest) (scan d) (off d)
               (firstn (Z.to_nat (off d)) (data d))).
      * apply H.
      * rewrite <- Sk. symmetry. apply firstn_skipn.
      * assert (B := skipn_bound _ _ _ Sk ltac:(discriminate)).
        rewrite length_firstn. cbn [List.length] in B. lia.
    + exfalso. destruct H as (L & _).
      rewrite skipn_past in Sk by (unfold len in L; lia). discriminate.
Qed.

Lemma scanNext_tracked d d' : Tracked d -> scanNext d = Done d' -> Tracked d'.
Proof. intros (H & _) E. split; [eapply scanNext_inv|eapply scanNext_tag]; eauto. Qed.

Lemma scanWhile_tracked d op d' : Tracked d -> scanWhile d op = Done d' -> Tracked d'.
Proof. intros (H & _) E. split; [eapply scanWhile_inv|eapply scanWhile_tag]; eauto. Qed.

Lemma scanUntil_tracked stop : forall fuel d d',
  Tracked d -> scanUntil fuel stop d = Done d' -> Tracked d' /\ stop (opcode_ d') = true.
Proof.
  induction fuel as [|fuel IH]; intros d d' H; cbn [scanUntil]; [discriminate|].
  destruct (stop (opcode_ d)) eqn:S.
  - intros E. inversion E; subst. auto.
  - intros E. apply bind_Done in E. destruct E as (d1 & E1 & E).
    eapply IH; [|exact E]. eapply scanNext_tracked; eauto.
Qed.

Lemma dictionary_loop_tracked : forall fuel d dic d' dic',
  Tracked d -> dictionary_loop fuel d dic = Done (d', dic') -> Tracked d'.
Proof.
  induction fuel as [|fuel IH]; intros d dic d' dic' H; cbn [dictionary_loop];
    [discriminate|].
  destruct (opcode_eqb (opcode_ d) scanEndBlock).
  - intros E. inversion E; subst. assumption.
  - intros E. apply bind_Done in E. destruct E as (d1 & E1 & E). cbv zeta in E.
    apply bind_Done in E. destruct E as (d2 & E2 & E).
    apply bind_Done in E. destruct E as (key & _ & E).
    apply bind_Done in E. destruct E as (d3 & E3 & E).
    apply bind_Done in E. destruct E as ([d4 v] & E4 & E).
    apply bind_Done in E. destruct E as (d5 & E5 & E).
    assert (H3 : Tracked d3) by eauto using scanWhile_tracked.
    assert (H4 : Tracked d4).
    { destruct (negb (opcode_eqb (opcode_ d3) scanDictionaryKey)).
      - apply bind_Done in E4. destruct E4 as (d6 & E6 & E4).
        apply bind_Done in E4. destruct E4 as (v' & _ & E4). inversion E4; subst.
        eauto using scanWhile_tracked.
      - inversion E4; subst. assumption. }
    eapply IH; [|exact E]. eauto using scanNext_tracked.
Qed.

Lemma array_loop_tracked : forall fuel d dic d' dic',
  Tracked d -> array_loop fuel d dic = Done (d', dic') -> Tracked d'.
Proof.
  induction fuel as [|fuel IH]; intros d dic d' dic' H; cbn [array_loop];
    [discriminate|].
  destruct (opcode_eqb (opcode_ d) scanEndArray).
  - intros E. inversion E; subst. assumption.
  - intros E. apply bind_Done in E. destruct E as (d1 & E1 & E). cbv zeta in E.
    apply bind_Done in E. destruct E as (d2 & E2 & E).
    apply bind_Done in E. destruct E as (v & _ & E).
    apply bind_Done in E. destruct E as (d3 & E3 & E).
    eapply IH; [|exact E]. eauto using scanNext_tracked, scanWhile_tracked.
Qed.

Lemma text_loop_tracked : forall fuel d dic d' dic',
  Tracked d -> text_loop fuel d dic = Done (d', dic') -> Tracked d'.
Proof.
  induction fuel as [|fuel IH]; intros d dic d' dic' H; cbn [text_loop];
    [discriminate|].
  destruct (opcode_eqb (opcode_ d) scanEndBlock).
  - intros E. inversion E; subst. assumption.
  - intros E. cbv zeta in E. apply bind_Done in E. destruct E as (d1 & E1 & E).
    apply bind_Done in E. destruct E as (v & _ & E).
    apply bind_Done in E. destruct E as (d2 & E2 & E).
    eapply IH; [|exact E]. eauto using scanNext_tracked, scanWhile_tracked.
Qed.

(** *** From the first byte of a tag to the block it names *)

(** At the end of the buffer no tag ends. *)
Lemma scanUntil_ended stop : forall fuel d d',
  Ended d -> stop (opcode_ d) = false -> scanUntil fuel stop d = Done d' -> False.
Proof.
  induction fuel as [|fuel IH]; intros d d' H S; cbn [scanUntil]; [discriminate|].
  rewrite S. intros E. apply bind_Done in E. destruct E as (d1 & E1 & E).
  destruct H as (L & Ee). unfold scanNext in E1.
  destruct (Z.ltb_spec (off d) (len d)); [lia|].
  rewrite Ee in E1. cbn [bind] in E1. inversion E1; subst d1.
  eapply IH; [| |exact E].
  - split; cbn [data off scan opcode_]; [unfold len; cbn [data]; lia|exact Ee].
  - exact S.
Qed.

Lemma scanUntil_in_tag : forall fuel d d2 start,
  DInv d -> in_tag start d -> opcode_ d <> scanEndTag ->
  scanUntil fuel (fun op => opcode_eqb op scanEndTag) d = Done d2 ->
  exists k name,
    Tracked d2 /\ Live d2
    /\ substr d2 start (readIndex d2) = Done name
    /\ tag_kind name = Some k
    /\ parseState (scan d2) = [parse_of k]
    /\ step_fn (scan d2) = StWaitingForOpenBlock.
Proof.
  induction fuel as [|fuel IH]; intros d d2 start H T O; cbn [scanUntil]; [discriminate|].
  rewrite (opcode_eqb_neq _ _ O). intros E.
  apply bind_Done in E. destruct E as (d1 & E1 & E).
  destruct T as (R & Ne & pre & post & Ed & Lp & Lo).
  assert (Hl : Live d).
  { destruct H as [H|H]; [exact H|]. exfalso. destruct H as (L & _).
    unfold len in L. rewrite Ed in L. rewrite !length_app in L. lia. }
  assert (H1 : DInv d1) by exact (scanNext_inv d d1 H E1).
  assert (T1 : TagInv d1) by exact (scanNext_tag d d1 H E1).
  unfold scanNext in E1. destruct (Z.ltb_spec (off d) (len d)) as [L|L].
  - apply bind_Done in E1. destruct E1 as (c & Ec & E1).
    apply bind_Done in E1. destruct E1 as ([s' op] & Es & E1). inversion E1; subst d1.
    destruct (index_split _ _ _ Ec) as (pre' & post' & Ed' & Lp').
    assert (X : pre ++ tagName (scan d) = pre' /\ post = c :: post').
    { apply app_same_length.
      - rewrite <- app_assoc, <- Ed. exact Ed'.
      - rewrite length_app. lia. }
    destruct X as (Xp & Xq).
    destruct (step_reading_tag _ _ _ _ (proj1 Hl) R Es) as [(-> & R' & Tn)|[(-> & K)| ->]].
    + (* one more byte of the tag *)
      apply (IH _ d2 start H1); [|discriminate|exact E].
      unfold in_tag. cbn [scan data off]. rewrite Tn.
      split; [exact R'|]. split; [destruct (tagName (scan d)); discriminate|].
      exists pre, post'. rewrite Ed, Xq, length_app. cbn [List.length].
      split; [now rewrite <- !app_assoc|]. split; lia.
    + (* the end of the tag *)
      destruct K as (k & K & P & W).
      destruct fuel as [|fuel]; [discriminate E|].
      cbn [scanUntil opcode_] in E. rewrite opcode_eqb_refl in E. inversion E; subst d2.
      exists k, (string_of_list_ascii (tagName (scan d))).
      split; [split; assumption|].
      split; [apply (Live_step d c); [exact Hl|exact Es|destruct Hl as (_ & ? & _); lia]|].
      split; [|auto].
      unfold substr, readIndex. cbn [data off].
      replace (off d + 1 - 1) with (start + Z.of_nat (List.length (tagName (scan d))))
        by lia.
      rewrite Ed at 1. rewrite <- Lp, slice_mid by exact Ne. reflexivity.
    + (* no such tag *)
      exfalso.
      refine (scanUntil_doomed (fun op => opcode_eqb op scanEndTag) fuel _ d2 _ eq_refl E).
      split; [reflexivity|exact H1].
  - apply bind_Done in E1. destruct E1 as ([s' op] & Es & E1). inversion E1; subst d1.
    exfalso.
    refine (scanUntil_ended (fun op => opcode_eqb op scanEndTag) fuel _ d2 _ _ E).
    + apply (Ended_eof d); assumption.
    + cbn [opcode_]. destruct (eof_opcode _ _ _ Es) as [-> | ->]; reflexivity.
Qed.

Lemma scanWhile_from_waiting_kind d k rest : forall s i d',
  SInv s -> step_fn s = StWaitingForOpenBlock -> parseState s = [parse_of k] ->
  scanWhile_from d scanSkipSpace rest s i = Done d' ->
  opcode_ d' = begin_op k \/ opcode_ d' = scanError.
Proof.
  induction rest as [|c rest IH]; intros s i d' H W P; cbn [scanWhile_from].
  - assert (E : eof s = Done (set_err s (Some (mkSyntaxError "unexpected end of Bru input"
                                                   (bytes s))), scanError)).
    { destruct s as [st eb ps er by_ tn]. cbn [step_fn] in W. subst st.
      unfold SInv in H. cbn [step_fn parseState endBlock err] in H.
      destruct H as ([p ->] & -> & ->). reflexivity. }
    rewrite E. cbn [bind]. intros X. inversion X; subst. cbn [opcode_]. now right.
  - intros E. apply bind_Done in E. destruct E as ([s' o'] & E1 & E).
    destruct (step_waiting_kind s c s' o' k H W P E1) as [[-> ->]|X].
    + change (opcode_eqb scanSkipSpace scanSkipSpace) with true in E. cbv iota in E.
      eapply IH; eauto.
    + assert (N : opcode_eqb o' scanSkipSpace = false).
      { destruct X as [X | X]; rewrite X; [destruct k|]; reflexivity. }
      rewrite N in E. inversion E; subst. exact X.
Qed.

Lemma SetContent_kind k name ty c :
  match k, c with
  | dictionaryBlock, DictionaryContent _ | textBlock, TextContent _
  | arrayBlock, ArrayContent _ => exists blk, SetContent (empty_block k name ty) c = Done (blk, None)
  | _, _ => True
  end.
Proof. destruct k, c; cbn; eauto. Qed.

(** [block] returns no error. *)
Lemma block_no_error fuel d d' blk e :
  Tracked d -> block fuel d = Done (d', blk, e) -> e = None /\ Tracked d'.
Proof.
  intros H E. unfold block in E.
  apply bind_Done in E. destruct E as (d1 & E1 & E). cbv zeta in E.
  apply bind_Done in E. destruct E as (d2 & E2 & E).
  apply bind_Done in E. destruct E as (blockName & E3 & E).
  apply bind_Done in E. destruct E as ([blk0 e0] & E4 & E).
  destruct (scanUntil_tracked _ _ _ _ H E1) as ((H1 & T1) & O1).
  apply opcode_eqb_true in O1.
  assert (T := T1 O1). fold (readIndex d1) in T.
  destruct (scanUntil_in_tag _ _ _ _ H1 T ltac:(rewrite O1; discriminate) E2)
    as (k & name & H2 & L2 & S2 & K & P & W).
  rewrite S2 in E3. inversion E3; subst blockName.
  rewrite getBlockForTag_kind, K in E4.
  destruct (cut name) as [[n t] f]. inversion E4; subst blk0 e0.
  apply bind_Done in E. destruct E as (d3 & E5 & E).
  assert (H3 : Tracked d3) by eauto using scanWhile_tracked.
  assert (O3 : opcode_ d3 = begin_op k \/ opcode_ d3 = scanError).
  { revert E5. unfold scanWhile. destruct (off d2 <? 0); [discriminate|].
    apply scanWhile_from_waiting_kind; [apply L2|exact W|exact P]. }
  destruct O3 as [O3|O3]; rewrite O3 in E.
  - destruct k; cbn [begin_op] in E.
    + (* dictionary *)
      apply bind_Done in E. destruct E as ([d4 dic] & E6 & E).
      cbn [empty_block SetContent bind] in E. inversion E; subst.
      split; [reflexivity|]. eauto using dictionary_loop_tracked.
    + (* text *)
      apply bind_Done in E. destruct E as (d4 & E6 & E).
      apply bind_Done in E. destruct E as ([d5 dic] & E7 & E).
      apply bind_Done in E. destruct E as (c & _ & E).
      cbn [empty_block SetContent bind] in E. inversion E; subst.
      split; [reflexivity|].
      destruct (scanUntil_tracked _ _ _ _ H3 E6) as (H4 & _).
      eauto using text_loop_tracked.
    + (* array *)
      apply bind_Done in E. destruct E as ([d4 dic] & E6 & E).
      cbn [empty_block SetContent bind] in E. inversion E; subst.
      split; [reflexivity|]. eauto using array_loop_tracked.
  - inversion E; subst. auto.
Qed.

Lemma value_no_error : forall fuel d acc blocks r,
  Tracked d -> value fuel d acc = Done (blocks, r) -> r = None.
Proof.
  induction fuel as [|fuel IH]; intros d acc blocks r H; cbn [value]; [discriminate|].
  intros E. apply bind_Done in E. destruct E as (d1 & E1 & E).
  assert (H1 : Tracked d1) by eauto using scanWhile_tracked.
  destruct (opcode_eqb (opcode_ d1) scanEnd).
  - now inversion E.
  - apply bind_Done in E. destruct E as ([[d2 blk] e] & E2 & E).
    destruct (block_no_error _ _ _ _ _ H1 E2) as (-> & H2).
    apply bind_Done in E. destruct E as (d3 & E3 & E).
    eapply IH; [|exact E]. eauto using scanNext_tracked.
Qed.

(** X27. Every error [Read] returns is the error of the validator: when
    [Read] returns an error, [checkValid] has rejected the buffer, the error
    is its [SyntaxError], no block is returned, and [Read] returns the same
    for any amount of fuel.  On a buffer the validator accepts the decoder
    returns no error of its own: it finds every tag it cuts out of the
    buffer in the table, and sets content of the type of the block, so that
    neither "could not find block for tag" nor the error of [SetContent]
    comes out of [Read]. *)
Theorem Read_error_is_syntax_error (fuel : nat) (bs : list byte)
    (blocks : list ContentBlock) (e : error) :
  Read fuel bs = Done (blocks, Some e) ->
  exists s se,
    checkValid bs zero = Done (s, Some se)
    /\ e = ESyntax se /\ blocks = []
    /\ Valid bs = Done false
    /\ forall fuel', Read fuel' bs = Done ([], Some (ESyntax se)).
Proof.
  unfold Read. cbn [scan data off opcode_]. intros E.
  apply bind_Done in E. destruct E as ([s e'] & V & E).
  destruct e' as [se|].
  - inversion E; subst. exists s, se. split; [exact V|].
    split; [reflexivity|]. split; [reflexivity|]. split.
    + unfold Valid. change (checkValid bs newScanner) with (checkValid bs zero).
      rewrite V. reflexivity.
    + intros fuel'. rewrite V. reflexivity.
  - exfalso. unfold unmarshal, init in E. cbn [data off opcode_ scan] in E.
    assert (X : Some e = None); [|discriminate X].
    eapply value_no_error; [|exact E].
    split.
    + left. unfold Live. cbn [scan off opcode_].
      split; [apply SInv_reset|]. split; [lia|]. split; discriminate.
    + intros O. discriminate O.
Qed.

Lemma Read_error_is_syntax_error_witness :
  exists s se,
    checkValid Samples.metaUnclosed zero = Done (s, Some se)
    /\ ESyntax (mkSyntaxError "unexpected end of Bru input" 31) = ESyntax se
    /\ @nil ContentBlock = []
    /\ Valid Samples.metaUnclosed = Done false
    /\ forall fuel', Read fuel' Samples.metaUnclosed = Done ([], Some (ESyntax se)).
Proof.
  refine (Read_error_is_syntax_error 0 Samples.metaUnclosed []
            (ESyntax (mkSyntaxError "unexpected end of Bru input" 31)) _).
  vm_compute. reflexivity.
Defined.

End DecoderErrors.

(** ** Arrays with a comma at the start of a line *)

Module CommaFirst.

Import Shapes Scanner Blocks Decoder Encoder Run Canon Samples StepFacts Cursor ValidatorFacts.
Import DecodeDictionary DecodeBodies DecodeBlocks DecodeSequence Validity Valueless.

Lemma step_item_comma by_ :
  step (mkScanner StEndValue false [parseArrayValue] None by_ []) ","%char
  = Done (mkScanner StNewArrayValue false [parseArrayValue] None by_ [], scanArrayValue).
Proof. reflexivity. Qed.

Lemma step_before_item_space st by_ c :
  before_item st -> isSpace c = true ->
  step (mkScanner st false [parseArrayValue] None by_ []) c
  = Done (mkScanner st false [parseArrayValue] None by_ [], scanSkipSpace).
Proof. intros [-> | ->]; bytes c. Qed.

Lemma step_before_item_first st by_ c :
  before_item st ->
  isSpace c = false -> (c =? "]")%char = false -> plain c = true ->
  step (mkScanner st false [parseArrayValue] None by_ []) c
  = Done (mkScanner StInValue false [parseArrayValue] None by_ [], scanContinue).
Proof. intros [-> | ->]; bytes c. Qed.

(** *** The validator *)

Lemma feeds_item st ws v :
  before_item st -> Forall (fun x => isSpace x = true) ws -> item_ok v = true ->
  feeds (sc st false [parseArrayValue] []) (ws ++ list_ascii_of_string v ++ [nlc])
        (sc StEndValue false [parseArrayValue] []).
Proof.
  intros Hst Hws Hok. destruct (item_ok_inv _ Hok) as (v0 & vr & Ev & V1 & V2 & V3 & V4).
  rewrite Ev. cbn [app].
  eapply feeds_app.
  { apply feeds_steady with (op := scanSkipSpace); [|discriminate].
    eapply Forall_impl; [|exact Hws]. intros c Hc z. now apply step_before_item_space. }
  eapply feeds_cons.
  { apply feeds_one with (op := scanContinue); [|discriminate].
    intros z. now apply step_before_item_first. }
  eapply feeds_app.
  { apply feeds_steady with (op := scanContinue); [|discriminate].
    eapply Forall_impl; [|exact V4]. intros c Hc z. now apply step_value_byte. }
  apply feeds_one with (op := scanSkipSpace); [|discriminate].
  intros z. apply step_item_end.
Qed.

Lemma feeds_items sp vs :
  Forall (fun x => x = " "%char) sp -> forallb item_ok vs = true ->
  feeds (sc StEndValue false [parseArrayValue] []) (items_bytes sp vs ++ ["]"%char])
        (sc StBeginBlockLine true [] []).
Proof.
  intros Hsp. induction vs as [|v vs IH]; intros Hok.
  - cbn [items_bytes app]. apply feeds_one with (op := scanEndArray); [|discriminate].
    intros z. apply step_item_close.
  - cbn [forallb] in Hok. apply andb_true_iff in Hok. destruct Hok as [Hv Hvs].
    assert (E : items_bytes sp (v :: vs) ++ ["]"%char]
                = ","%char :: (sp ++ list_ascii_of_string v ++ [nlc])
                    ++ items_bytes sp vs ++ ["]"%char]).
    { cbn [items_bytes].
      repeat first [rewrite <- app_assoc | progress cbn [app]]. reflexivity. }
    rewrite E.
    eapply feeds_cons.
    { apply feeds_one with (op := scanArrayValue); [|discriminate].
      intros z. apply step_item_comma. }
    eapply feeds_app; [|exact (IH Hvs)].
    apply feeds_item; [now right|now apply spaces_are_space|exact Hv].
Qed.

(** *** The decoder *)

Section At.

Variable D : list byte.
Variable by_ : Z.
Variable sp : list byte.
Hypothesis Hsp : Forall (fun x => x = " "%char) sp.

Lemma array_loop_items : forall vs v st p o ws acc R,
  before_item st -> o <> scanEndArray ->
  Forall (fun x => isSpace x = true) ws ->
  item_ok v = true -> forallb item_ok vs = true ->
  skipn p D = ws ++ list_ascii_of_string v ++ nlc :: items_bytes sp vs ++ "]"%char :: R ->
  exists q,
    skipn q D = R
    /\ forall fuel, (List.length vs + 2 <= fuel)%nat ->
       array_loop fuel
         (mkDecodeState D (Z.of_nat p) o (inDict by_ st parseArrayValue)) acc
       = Done (mkDecodeState D (Z.of_nat q) scanEndArray (between by_ true),
               acc ++ v :: vs).
Proof.
  induction vs as [|v' vs IH]; intros v st p o ws acc R Hst Ho Hws Hv Hvs H.
  all: destruct (item_ok_inv v Hv) as (v0 & vr & Ev & S0 & C0 & P0 & Pr).
  all: rewrite Ev in H.
  all: assert (H1 := skipn_app_at D p ws _ H).
  all: assert (H2 := skipn_cons_at D _ v0 _ H1).
  all: assert (H3 := skipn_cons_at D _ nlc _ (skipn_app_at D _ vr _ H2)).
  all: assert (B1 := scanWhile_at D p o (inDict by_ st parseArrayValue) scanSkipSpace ws v0 _
                       (inDict by_ StInValue parseArrayValue) scanContinue H
                       (Forall_impl _ (fun c Hc => step_before_item_space st by_ c Hst Hc) Hws)
                       (step_before_item_first st by_ v0 Hst S0 C0 P0) ltac:(discriminate)).
  all: assert (B2 := scanWhile_at D _ scanContinue (inDict by_ StInValue parseArrayValue)
                       scanContinue vr nlc _
                       (inDict by_ StEndValue parseArrayValue) scanSkipSpace H2
                       (Forall_impl _ (fun c Hc => step_value_byte parseArrayValue by_ c Hc) Pr)
                       (step_item_end by_) ltac:(discriminate)).
  all: assert (B3 := substr_at D (p + List.length ws)
                       (S (S (p + List.length ws) + List.length vr)) scanSkipSpace
                       (inDict by_ StEndValue parseArrayValue) (v0 :: vr) _ H1
                       ltac:(discriminate) ltac:(cbn [List.length]; lia)).
  all: rewrite <- Ev, string_of_list_ascii_of_string in B3.
  - cbn [items_bytes app] in H3.
    eexists. split; [eapply skipn_cons_at; exact H3|].
    intros fuel Hf. destruct fuel as [|[|fuel]]; try blia.
    rewrite array_loop_S. cbn [opcode_]. rewrite (opcode_eqb_neq o) by assumption.
    unfold inDict in *. rewrite B1. cbn [bind]. cbv zeta. rewrite B2. cbn [bind].
    rewrite readIndex_S, B3. cbn [bind].
    erewrite scanNext_at; [|exact H3|apply step_item_close].
    cbn [bind]. rewrite array_loop_S. cbn [opcode_]. rewrite opcode_eqb_refl.
    reflexivity.
  - cbn [forallb] in Hvs. apply andb_true_iff in Hvs. destruct Hvs as [Hv' Hvs].
    cbn [items_bytes] in H3. norm H3.
    destruct (IH v' StNewArrayValue (S (S (S (p + List.length ws) + List.length vr)))
                scanArrayValue sp (acc ++ [v]) R) as (q & A1 & A2).
    + now right.
    + discriminate.
    + now apply spaces_are_space.
    + exact Hv'.
    + exact Hvs.
    + eapply skipn_cons_at. exact H3.
    + exists q. split; [exact A1|].
      intros fuel Hf. destruct fuel as [|fuel]; [blia|].
      rewrite array_loop_S. cbn [opcode_]. rewrite (opcode_eqb_neq o) by assumption.
      unfold inDict in *. rewrite B1. cbn [bind]. cbv zeta. rewrite B2. cbn [bind].
      rewrite readIndex_S, B3. cbn [bind].
      erewrite scanNext_at; [|exact H3|apply step_item_comma].
      cbn [bind]. rewrite A2 by blia. now rewrite <- app_assoc.
Qed.

End At.

Section Array.

Variables name type_ : string.
Variables ind sp : list byte.
Variable v : string.
Variable vs : list string.
Variable tail : list byte.

Hypothesis Hheader : header_ok name type_ arrayBlock = true.
Hypothesis Hind : Forall (fun x => x = " "%char) ind.
Hypothesis Hsp : Forall (fun x => x = " "%char) sp.
Hypothesis Hok : forallb item_ok (v :: vs) = true.
Hypothesis Htail : tail = [] \/ tail = [nlc].

Let D : list byte := comma_first name type_ ind sp v vs tail.

Lemma comma_first_valid :
  exists z, checkValid D zero = Done (between z true, None).
Proof.
  destruct (header_ok_inv _ _ _ Hheader) as (Hkind & _).
  destruct (tag_shape _ _ Hkind) as (t0 & tr & Et & Hlow & Htr).
  cbn [forallb] in Hok. apply andb_true_iff in Hok. destruct Hok as [Hv Hvs].
  assert (E : D = (t0 :: tr ++ [" "%char; "["%char])
                  ++ ((nlc :: ind) ++ list_ascii_of_string v ++ [nlc])
                  ++ (items_bytes sp vs ++ ["]"%char]) ++ tail).
  { unfold D, comma_first. rewrite Et.
    repeat first [rewrite <- app_assoc | progress cbn [app]]. reflexivity. }
  eexists. apply checkValid_ok_iff. eexists. split.
  - change (reset zero) with (sc StBeginBlockLine false [] [] 0). rewrite E.
    refine (feeds_app _ _ _ _ _ _ _ 0).
    + apply (feeds_head arrayBlock t0 tr false); [assumption|assumption|].
      rewrite <- Et, string_of_list_ascii_of_string. exact Hkind.
    + eapply feeds_app.
      { apply feeds_item; [now left| |exact Hv].
        constructor; [reflexivity|now apply spaces_are_space]. }
      eapply feeds_app; [exact (feeds_items sp vs Hsp Hvs)|].
      apply Edge.feeds_spaces. destruct Htail as [-> | ->]; repeat constructor.
  - reflexivity.
Qed.

Lemma comma_first_read :
  exists N, forall fuel, (N <= fuel)%nat ->
    Read fuel D = Done ([ArrayBlock name type_ (v :: vs)], None).
Proof.
  destruct comma_first_valid as (z & V).
  destruct (header_ok_inv _ _ _ Hheader) as (Hkind & f & Hcut).
  destruct (tag_shape _ _ Hkind) as (t0 & tr & Et & Hlow & Htr).
  assert (Hv : item_ok v = true /\ forallb item_ok vs = true).
  { cbn [forallb] in Hok. now apply andb_true_iff in Hok. }
  destruct Hv as (Hv & Hvs).
  assert (H0 : skipn 0 D = t0 :: tr ++ " "%char :: opener arrayBlock
                 :: (nlc :: ind) ++ list_ascii_of_string v ++ nlc
                 :: items_bytes sp vs ++ "]"%char :: tail).
  { cbn [skipn]. unfold D, comma_first. rewrite Et. cbn [opener].
    repeat first [rewrite <- app_assoc | progress cbn [app]]. reflexivity. }
  destruct (block_head D z arrayBlock name type_ f 0%nat t0 tr _ Hkind Hcut Et Htr H0)
    as (q & Hq & Head).
  destruct (array_loop_items D z sp Hsp vs v StOpenBlock q scanBeginArray (nlc :: ind)
              [] tail) as (q' & A1 & A2).
  { now left. }
  { discriminate. }
  { constructor; [reflexivity|now apply spaces_are_space]. }
  { exact Hv. }
  { exact Hvs. }
  { exact Hq. }
  exists (List.length tr + List.length vs + 4)%nat. intros fuel Hf.
  unfold Read. cbn [scan]. rewrite V. cbn [bind].
  unfold unmarshal, init. cbn [data off opcode_ scan].
  change (reset (between z true)) with (between z false).
  destruct fuel as [|fuel]; [lia|].
  rewrite value_S.
  change (mkDecodeState D 0 scanContinue (between z false))
    with (mkDecodeState D (Z.of_nat 0) scanContinue (between z false)).
  rewrite (scanWhile_at D 0 scanContinue (between z false) scanSkipSpace [] t0 _
             (readingTag z [t0]) scanBeginTag H0);
    [|constructor|now apply step_begin_tag|discriminate].
  cbn [bind opcode_]. rewrite (opcode_eqb_neq scanBeginTag) by discriminate.
  change (S (0 + List.length (@nil byte))) with 1%nat.
  rewrite Head by lia. cbn [begin_op parse_of]. cbv zeta.
  unfold inDict in A2. unfold inDict. rewrite A2 by lia. cbn [bind app].
  cbn [SetContent empty_block bind].
  destruct Htail as [Ht | Ht]; rewrite Ht in A1.
  - erewrite scanNext_end; [|exact A1|apply eof_between].
    cbn [bind]. apply value_end; [|lia].
    apply skipn_all2. lia.
  - erewrite scanNext_at; [|exact A1|now apply step_between_space].
    cbn [bind]. apply value_end; [|lia].
    eapply skipn_cons_at. exact A1.
Qed.

End Array.

(** X28. The arrays of several elements that [Read] decodes have the comma
    at the start of the line: for every array tag, with the first element on
    a line of its own after any indentation and every other element on a
    line that starts with a comma, then any spaces, then the element (plain
    bytes, not starting with a space or a closing bracket), the validator
    accepts the buffer and [Read] returns the array with exactly these
    elements. *)
Theorem Read_comma_first_array (name type_ : string) (ind sp : list byte) (v : string)
    (vs : list string) (tail : list byte) :
  header_ok name type_ arrayBlock = true ->
  Forall (fun x => x = " "%char) ind ->
  Forall (fun x => x = " "%char) sp ->
  forallb item_ok (v :: vs) = true ->
  tail = [] \/ tail = [nlc] ->
  Valid (comma_first name type_ ind sp v vs tail) = Done true
  /\ eventually (fun fuel => Read fuel (comma_first name type_ ind sp v vs tail))
       ([ArrayBlock name type_ (v :: vs)], None).
Proof.
  intros Hh Hi Hs Hok Ht. split.
  - destruct (comma_first_valid name type_ ind sp v vs tail Hh Hi Hs Hok Ht) as (z & V).
    unfold Valid.
    change (checkValid (comma_first name type_ ind sp v vs tail) newScanner)
      with (checkValid (comma_first name type_ ind sp v vs tail) zero).
    rewrite V. reflexivity.
  - exact (comma_first_read name type_ ind sp v vs tail Hh Hi Hs Hok Ht).
Qed.

Lemma Read_comma_first_array_witness :
  Valid (bytes_of ("vars:secret [" ++ nl ++ "  access_key" ++ nl ++ ", access_secret" ++ nl
                   ++ ", ~transactionId" ++ nl ++ "]")) = Done true
  /\ eventually
       (fun fuel => Read fuel (bytes_of ("vars:secret [" ++ nl ++ "  access_key" ++ nl
                                         ++ ", access_secret" ++ nl ++ ", ~transactionId"
                                         ++ nl ++ "]")))
       ([ArrayBlock "vars" "secret" ["access_key"; "access_secret"; "~transactionId"]],
        None).
Proof.
  refine (Read_comma_first_array "vars" "secret" [" "%char; " "%char] [" "%char]
            "access_key" ["access_secret"; "~transactionId"] [] _ _ _ _ _).
  - vm_compute. reflexivity.
  - repeat constructor.
  - repeat constructor.
  - vm_compute. reflexivity.
  - left. reflexivity.
Defined.

End CommaFirst.

(** ** The byte after the opening brace of a text *)

Module TextStart.

Import Shapes Scanner Blocks Decoder Encoder Run Canon Samples StepFacts Cursor ValidatorFacts.
Import DecodeDictionary DecodeBodies DecodeBlocks DecodeSequence Validity Valueless.

Section Text.

Variables name type_ : string.
Variable x : byte.
Variable c : string.
Variable tail : list byte.

Hypothesis Hheader : header_ok name type_ textBlock = true.
Hypothesis Hc : text_ok true (list_ascii_of_string c) = true.
Hypothesis Htail : tail = [] \/ tail = [nlc].

Let D : list byte := text_after name type_ x c tail.



End Text.



End TextStart.

(** ** The escape code of four hexadecimal digits *)

Module UnicodeEscapes.

Import Shapes Scanner Blocks Decoder Encoder Run Canon Samples StepFacts Cursor ValidatorFacts.
Import DecodeDictionary DecodeBodies DecodeBlocks DecodeSequence Validity Valueless Escapes.

Lemma step_escape_u by_ :
  step (mkScanner StInStringEsc false [parseDictionaryValue] None by_ []) "u"%char
  = Done (mkScanner (esc_state 0) false [parseDictionaryValue] None by_ [], scanContinue).
Proof. reflexivity. Qed.

Lemma step_hex n by_ h :
  (n < 4)%nat -> isHex h = true ->
  step (mkScanner (esc_state n) false [parseDictionaryValue] None by_ []) h
  = Done (mkScanner (esc_state (S n)) false [parseDictionaryValue] None by_ [],
          scanContinue).
Proof.
  intros Hn. destruct n as [|[|[|[|n]]]]; try lia; clear Hn; bytes h.
Qed.

Lemma step_not_hex n by_ y :
  (n < 4)%nat -> isHex y = false ->
  step (mkScanner (esc_state n) false [parseDictionaryValue] None by_ []) y
  = Done (mkScanner StError false [parseDictionaryValue]
            (Some (mkSyntaxError
                     ("invalid character " ++ quoteChar y
                      ++ " in \u hexadecimal character escape") by_))
            by_ [],
          scanError).
Proof.
  intros Hn. destruct n as [|[|[|[|n]]]]; try lia; clear Hn; bytes y.
Qed.

Lemma feeds_hex hs : forall n,
  (n + List.length hs <= 4)%nat -> Forall (fun h => isHex h = true) hs ->
  feeds (sc (esc_state n) false [parseDictionaryValue] []) hs
        (sc (esc_state (n + List.length hs)) false [parseDictionaryValue] []).
Proof.
  induction hs as [|h hs IH]; intros n Hn F.
  - cbn [List.length]. rewrite Nat.add_0_r. apply feeds_nil.
  - inversion F as [|? ? Hh F']; subst. cbn [List.length] in *.
    eapply feeds_cons.
    + apply feeds_one with (op := scanContinue); [|discriminate].
      intros z. apply step_hex; [lia|exact Hh].
    + replace (n + S (List.length hs))%nat with (S n + List.length hs)%nat by lia.
      apply IH; [lia|exact F'].
Qed.

Lemma through_hex by_ hs : forall n,
  (n + List.length hs <= 4)%nat -> Forall (fun h => isHex h = true) hs ->
  through scanContinue
    (mkScanner (esc_state n) false [parseDictionaryValue] None by_ []) hs
    (mkScanner (esc_state (n + List.length hs)) false [parseDictionaryValue] None by_ []).
Proof.
  induction hs as [|h hs IH]; intros n Hn F.
  - cbn [List.length]. rewrite Nat.add_0_r. constructor.
  - inversion F as [|? ? Hh F']; subst. cbn [List.length] in *.
    econstructor.
    + apply step_hex; [lia|exact Hh].
    + replace (n + S (List.length hs))%nat with (S n + List.length hs)%nat by lia.
      apply IH; [lia|exact F'].
Qed.

Section At.

Variable D : list byte.
Variable by_ : Z.
Variable sp : list byte.
Hypothesis Hsp : Forall (fun x => x = " "%char) sp.

(** Reading a value with one escape code of four digits, up to the end of
    its line. *)
Lemma read_value_unicode q v hs v2 R :
  value_ok v = true ->
  List.length hs = 4%nat -> Forall (fun h => isHex h = true) hs ->
  Forall (fun c => plain c = true) v2 ->
  skipn q D = sp ++ (list_ascii_of_string v ++ "\"%char :: "u"%char :: hs ++ v2)
                ++ nlc :: R ->
  exists q',
    skipn q' D = R
    /\ forall X (K : decodeState * string -> outcome X),
       (d <- scanWhile (mkDecodeState D (Z.of_nat q) scanDictionaryValue
                          (inDict by_ StBeginDictionaryValue parseDictionaryValue))
               scanSkipSpace ;;
        x <- (if negb (opcode_eqb (opcode_ d) scanDictionaryKey) then
                let start := readIndex d in
                d <- scanWhile d scanContinue ;;
                value <- substr d start (readIndex d) ;;
                Done (d, value)
              else Done (d, EmptyString)) ;;
        K x)
       = K (mkDecodeState D (Z.of_nat q') scanDictionaryKey
              (inDict by_ StNewDictionaryPair parseDictionaryKey),
            string_of_list_ascii
              (list_ascii_of_string v ++ "\"%char :: "u"%char :: hs ++ v2)).
Proof.
  intros Hv Hl Hh Hv2 H.
  assert (Sp : Forall (fun x => step (inDict by_ StBeginDictionaryValue parseDictionaryValue) x
                 = Done (inDict by_ StBeginDictionaryValue parseDictionaryValue, scanSkipSpace))
                sp).
  { eapply Forall_impl; [|exact Hsp]. intros c ->. apply step_value_space. }
  assert (T2 : through scanContinue (inDict by_ StInStringEsc parseDictionaryValue)
                 ("u"%char :: hs ++ v2) (inDict by_ StInValue parseDictionaryValue)).
  { econstructor; [apply step_escape_u|].
    eapply through_app.
    - apply (through_hex by_ hs 0); [lia|exact Hh].
    - rewrite Hl. apply through_steady. eapply Forall_impl; [|exact Hv2].
      intros c Hc. now apply step_value_byte. }
  assert (Sh : exists f W sf,
             list_ascii_of_string v ++ "\"%char :: "u"%char :: hs ++ v2 = f :: W
             /\ step (inDict by_ StBeginDictionaryValue parseDictionaryValue) f
                = Done (sf, scanContinue)
             /\ through scanContinue sf W (inDict by_ StInValue parseDictionaryValue)).
  { destruct (value_ok_inv _ Hv) as [Ev|(v0 & vr & Ev & V1 & V2 & V3)]; rewrite Ev;
      cbn [app].
    - do 3 eexists. split; [reflexivity|]. split; [apply step_escape_first|exact T2].
    - do 3 eexists. split; [reflexivity|]. split; [now apply step_value_first|].
      eapply through_app.
      + apply through_steady. eapply Forall_impl; [|exact V3].
        intros c Hc. now apply step_value_byte.
      + econstructor; [apply step_escape|exact T2]. }
  destruct Sh as (f & W & sf & EW & E1 & T). rewrite EW in *. cbn [app] in H.
  assert (H1 : skipn (q + List.length sp) D = (f :: W) ++ nlc :: R)
    by (apply (skipn_app_at D q sp); exact H).
  assert (H2 : skipn (S (q + List.length sp)) D = W ++ nlc :: R)
    by (apply (skipn_cons_at _ _ f); exact H1).
  exists (S (S (q + List.length sp) + List.length W)). split.
  - apply (skipn_cons_at _ _ nlc). apply skipn_app_at. exact H2.
  - intros X K.
    rewrite (scanWhile_at D q _ _ scanSkipSpace sp f (W ++ nlc :: R) sf scanContinue);
      [|exact H|exact Sp|exact E1|discriminate].
    cbn [bind opcode_].
    rewrite (opcode_eqb_neq scanContinue scanDictionaryKey) by discriminate.
    cbn [negb]. cbv zeta.
    rewrite (scanWhile_through D _ _ _ scanContinue W nlc R
               (inDict by_ StInValue parseDictionaryValue)
               (inDict by_ StNewDictionaryPair parseDictionaryKey) scanDictionaryKey);
      [|exact H2|exact T|apply step_value_end|discriminate].
    cbn [bind]. rewrite readIndex_S.
    rewrite (substr_at D (q + List.length sp) _ _ _ (f :: W) (nlc :: R));
      [|exact H1|discriminate|blia].
    reflexivity.
Qed.

End At.

Section Line.

Variables name type_ : string.
Variable ind : list byte.
Variable k : string.
Variable sp : list byte.
Variable v : string.
Variable hs : list byte.

Hypothesis Hheader : header_ok name type_ dictionaryBlock = true.
Hypothesis Hind : Forall (fun c => c = " "%char) ind.
Hypothesis Hkey : key_ok k = true.
Hypothesis Hsp : Forall (fun c => c = " "%char) sp.
Hypothesis Hv : value_ok v = true.
Hypothesis Hhs : Forall (fun h => isHex h = true) hs.

(** From the start of the buffer to the last of the digits [hs]. *)
Lemma feeds_unicode : forall t0 tr,
  (List.length hs <= 4)%nat ->
  list_ascii_of_string (tag_of name type_) = t0 :: tr ->
  feeds (sc StBeginBlockLine false [] [])
        ((((((t0 :: tr ++ [" "%char; "{"%char]) ++ nlc :: ind) ++ list_ascii_of_string k)
           ++ ":"%char :: sp) ++ list_ascii_of_string v ++ ["\"%char]) ++ "u"%char :: hs)
        (sc (esc_state (List.length hs)) false [parseDictionaryValue] []).
Proof.
  intros t0 tr Hl Et.
  eapply feeds_app;
    [exact (feeds_escaped name type_ ind k sp v Hheader Hind Hkey Hsp Hv t0 tr Et)|].
  eapply feeds_cons.
  { apply feeds_one with (op := scanContinue); [|discriminate].
    intros z. apply step_escape_u. }
  exact (feeds_hex hs 0 Hl Hhs).
Qed.

Lemma unicode_split t0 tr rest :
  list_ascii_of_string (tag_of name type_) = t0 :: tr ->
  escaped name type_ ind k sp v "u"%char (hs ++ rest)
  = ((((((t0 :: tr ++ [" "%char; "{"%char]) ++ nlc :: ind) ++ list_ascii_of_string k)
        ++ ":"%char :: sp) ++ list_ascii_of_string v ++ ["\"%char]) ++ "u"%char :: hs)
    ++ rest.
Proof.
  intros Et. unfold escaped. rewrite Et.
  repeat first [rewrite <- app_assoc | progress cbn [app]]. reflexivity.
Qed.

Lemma Read_short_unicode y rest fuel :
  (List.length hs < 4)%nat -> isHex y = false ->
  Read fuel (escaped name type_ ind k sp v "u"%char (hs ++ y :: rest))
  = Done ([], Some (ESyntax (mkSyntaxError
            ("invalid character " ++ quoteChar y ++ " in \u hexadecimal character escape")
            (bump (escape_end name type_ ind k sp v + List.length hs + 1) 0)))).
Proof.
  intros Hl Hy.
  destruct (header_ok_inv _ _ _ Hheader) as (Hkind & _).
  destruct (tag_shape _ _ Hkind) as (t0 & tr & Et & Hlow & Htr).
  assert (F := feeds_unicode t0 tr ltac:(lia) Et).
  assert (L : (List.length
                 ((((((t0 :: tr ++ [" "%char; "{"%char]) ++ nlc :: ind)
                     ++ list_ascii_of_string k) ++ ":"%char :: sp)
                   ++ list_ascii_of_string v ++ ["\"%char]) ++ "u"%char :: hs) + 1
               = escape_end name type_ ind k sp v + List.length hs + 1)%nat).
  { unfold escape_end. rewrite Et.
    repeat first [rewrite length_app | progress cbn [List.length app]]. lia. }
  unfold Read. cbn [scan]. unfold checkValid.
  rewrite checkValid_loop_feed, (unicode_split t0 tr (y :: rest) Et).
  change (reset zero) with (sc StBeginBlockLine false [] [] 0).
  rewrite (feed_stops _ _ _ _ _ _ _ _ _ F
             (fun z => step_not_hex (List.length hs) z y Hl Hy)).
  cbn [bind err]. rewrite L. reflexivity.
Qed.

Lemma Read_full_unicode v2 :
  List.length hs = 4%nat -> Forall (fun c => plain c = true) v2 ->
  exists N, forall fuel, (N <= fuel)%nat ->
    Read fuel (escaped name type_ ind k sp v "u"%char (hs ++ v2 ++ [nlc; "}"%char]))
    = Done ([DictionaryBlock name type_
               [mkDictionaryElement k
                  (string_of_list_ascii
                     (list_ascii_of_string v ++ "\"%char :: "u"%char :: hs ++ v2))]],
            None).
Proof.
  intros Hl Hv2.
  destruct (header_ok_inv _ _ _ Hheader) as (Hkind & f & Hcut).
  destruct (tag_shape _ _ Hkind) as (t0 & tr & Et & Hlow & Htr).
  set (D := escaped name type_ ind k sp v "u"%char (hs ++ v2 ++ [nlc; "}"%char])).
  assert (Hws : Forall (fun c => isSpace c = true) (nlc :: ind)).
  { constructor; [reflexivity|now apply spaces_are_space]. }
  (* the validity pass *)
  assert (V : exists z, checkValid D zero = Done (between z true, None)).
  { eexists. apply checkValid_ok_iff. eexists. split.
    - change (reset zero) with (sc StBeginBlockLine false [] [] 0).
      unfold D. rewrite (unicode_split t0 tr _ Et).
      refine (feeds_app _ _ _ _ _ _ _ 0); [exact (feeds_unicode t0 tr ltac:(lia) Et)|].
      rewrite Hl. cbn [esc_state].
      eapply feeds_app.
      { apply feeds_steady with (op := scanContinue); [|discriminate].
        eapply Forall_impl; [|exact Hv2]. intros c Hc z. now apply step_value_byte. }
      eapply feeds_cons.
      { apply feeds_one with (op := scanDictionaryKey); [|discriminate].
        intros z. apply step_value_end. }
      apply feeds_one with (op := scanEndBlock); [|discriminate].
      intros z. apply step_key_close. now right.
    - reflexivity. }
  destruct V as (z & V).
  (* the decoding pass *)
  assert (H0 : skipn 0 D = t0 :: tr ++ " "%char :: opener dictionaryBlock
                 :: (nlc :: ind) ++ list_ascii_of_string k ++ ":"%char
                 :: sp ++ (list_ascii_of_string v ++ "\"%char :: "u"%char :: hs ++ v2)
                 ++ nlc :: "}"%char :: []).
  { cbn [skipn]. unfold D, escaped. rewrite Et. cbn [opener].
    repeat first [rewrite <- app_assoc | progress cbn [app]]. reflexivity. }
  destruct (block_head D z dictionaryBlock name type_ f 0%nat t0 tr _ Hkind Hcut Et Htr H0)
    as (q & Hq & Head).
  destruct (read_key D z StOpenBlock q scanBeginDictionary (nlc :: ind) k _
              (or_introl eq_refl) Hws Hkey Hq) as (q1 & d1 & A1 & A2 & A3 & A4).
  destruct (read_value_unicode D z sp Hsp q1 v hs v2 _ Hv Hl Hhs Hv2 A1) as (q2 & A5 & A6).
  exists (List.length tr + 5)%nat. intros fuel Hf.
  unfold Read. cbn [scan]. rewrite V. cbn [bind].
  unfold unmarshal, init. cbn [data off opcode_ scan].
  change (reset (between z true)) with (between z false).
  destruct fuel as [|fuel]; [lia|].
  rewrite value_S.
  change (mkDecodeState D 0 scanContinue (between z false))
    with (mkDecodeState D (Z.of_nat 0) scanContinue (between z false)).
  rewrite (scanWhile_at D 0 scanContinue (between z false) scanSkipSpace [] t0 _
             (readingTag z [t0]) scanBeginTag H0);
    [|constructor|now apply step_begin_tag|discriminate].
  cbn [bind opcode_]. rewrite (opcode_eqb_neq scanBeginTag) by discriminate.
  change (S (0 + List.length (@nil byte))) with 1%nat.
  rewrite Head by lia. cbn [begin_op parse_of]. cbv zeta.
  destruct fuel as [|[|fuel]]; try lia.
  rewrite dictionary_loop_S. cbn [opcode_].
  rewrite (opcode_eqb_neq scanBeginDictionary) by discriminate.
  unfold inDict in A2 |- *. rewrite A2. cbn [bind]. rewrite A3. cbn [bind].
  rewrite A4. cbn [bind].
  unfold inDict in A6. rewrite A6. cbn [bind].
  rewrite (scanNext_at D q2 _ _ "}"%char [] (between z true) scanEndBlock);
    [|exact A5|apply step_key_close; now right].
  cbn [bind]. rewrite dictionary_loop_S. cbn [opcode_]. rewrite opcode_eqb_refl.
  cbn [bind app empty_block SetContent].
  erewrite scanNext_end; [|eapply skipn_cons_at; exact A5|apply eof_between].
  cbn [bind]. apply value_end; [|lia].
  apply skipn_all2. lia.
Qed.

End Line.

(** X30. After a backslash and [u] the value of a dictionary must go on
    with four hexadecimal digits: with fewer digits and then a byte that is
    none, [Read] returns the syntax error "in \u hexadecimal character
    escape" that names this byte, at the offset of the byte counter after
    it; with four digits and plain bytes up to the end of the line, [Read]
    returns the pair with the value as it is written, the code not
    decoded. *)
Theorem Read_unicode_escape (name type_ : string) (ind : list byte) (k : string)
    (sp : list byte) (v : string) (hs : list byte) :
  header_ok name type_ dictionaryBlock = true ->
  Forall (fun c => c = " "%char) ind ->
  key_ok k = true ->
  Forall (fun c => c = " "%char) sp ->
  value_ok v = true ->
  Forall (fun h => isHex h = true) hs ->
  (forall y rest fuel,
     (List.length hs < 4)%nat -> isHex y = false ->
     Read fuel (escaped name type_ ind k sp v "u"%char (hs ++ y :: rest))
     = Done ([], Some (ESyntax (mkSyntaxError
               ("invalid character " ++ quoteChar y
                ++ " in \u hexadecimal character escape")
               (bump (escape_end name type_ ind k sp v + List.length hs + 1) 0)))))
  /\ (forall v2,
        List.length hs = 4%nat -> Forall (fun c => plain c = true) v2 ->
        eventually
          (fun fuel =>
             Read fuel (escaped name type_ ind k sp v "u"%char
                          (hs ++ v2 ++ [nlc; "}"%char])))
          ([DictionaryBlock name type_
              [mkDictionaryElement k
                 (string_of_list_ascii
                    (list_ascii_of_string v ++ "\"%char :: "u"%char :: hs ++ v2))]],
           None)).
Proof.
  intros Hh Hi Hk Hs Hv Hhs. split.
  - intros y rest fuel Hl Hy.
    exact (Read_short_unicode name type_ ind k sp v hs Hh Hi Hk Hs Hv Hhs y rest fuel Hl Hy).
  - intros v2 Hl Hv2.
    exact (Read_full_unicode name type_ ind k sp v hs Hh Hi Hk Hs Hv Hhs v2 Hl Hv2).
Qed.

Lemma Read_unicode_escape_witness :
  Read 0 (bytes_of ("meta {" ++ nl ++ "  name: caf\u00e" ++ nl ++ "}"))
  = Done ([], Some (ESyntax (mkSyntaxError
            "invalid character '\n' in \u hexadecimal character escape" 24)))
  /\ eventually
       (fun fuel => Read fuel (bytes_of ("meta {" ++ nl ++ "  name: caf\u00e9 au lait"
                                         ++ nl ++ "}")))
       ([DictionaryBlock "meta" "" [mkDictionaryElement "name" "caf\u00e9 au lait"]], None).
Proof.
  split.
  - refine (proj1 (Read_unicode_escape "meta" "" [" "%char; " "%char] "name" [" "%char]
                     "caf" (list_ascii_of_string "00e") _ _ _ _ _ _)
              "010"%char ["}"%char] 0%nat _ _).
    + vm_compute. reflexivity.
    + repeat constructor.
    + vm_compute. reflexivity.
    + repeat constructor.
    + vm_compute. reflexivity.
    + repeat constructor.
    + cbn. lia.
    + reflexivity.
  - refine (proj2 (Read_unicode_escape "meta" "" [" "%char; " "%char] "name" [" "%char]
                     "caf" (list_ascii_of_string "00e9") _ _ _ _ _ _)
              (list_ascii_of_string " au lait") _ _).
    + vm_compute. reflexivity.
    + repeat constructor.
    + vm_compute. reflexivity.
    + repeat constructor.
    + vm_compute. reflexivity.
    + repeat constructor.
    + reflexivity.
    + repeat constructor.
Defined.

End UnicodeEscapes.
